(** * OpenGrammer: the text-analysis core, embedded and verified

    A shallow embedding of the grammar engine ([grammarEngine.ts]), the style
    service ([styleService.ts]), the NLP service ([nlpService.ts]) and the
    synonym scoring strategy ([synonymContext.ts]).

    Conventions of the embedding.
    - A JavaScript string is a [string]: a sequence of characters.  Case
      mapping, [\w], [\s] and [trim] follow the ASCII tables; characters
      above 127 are letters of no case, no word characters and no blanks.
    - A JavaScript number that holds a count, an index or an offset is a
      [nat] or a [Z] (the latter where [-1] can occur); a score is an exact
      rational [Q], so the arithmetic below is the real-number reading of the
      double arithmetic of the source, and where the source can compute
      [NaN] the score is a rational or [NaN].
    - A regular expression is a value of [Regex.re], written constructor by
      constructor after the pattern of the source, and run by a backtracking
      matcher that follows the ECMAScript matching rules.
    - Module-level mutable state ([GRAMMAR_RULES], [STYLE_RULES],
      [processingCache]) is passed explicitly; a function that can throw
      returns a [result]; a loop that JavaScript may never leave returns
      [option], [None] standing for divergence. *)

From Stdlib Require Import String Ascii List ZArith QArith Qminmax Bool Arith Lia.
From Stdlib Require Import Sorting.Sorted Sorting.Permutation.
Import ListNotations.

Local Open Scope nat_scope.
Local Open Scope string_scope.
Local Open Scope list_scope.

(** ** Characters and strings, as JavaScript's [String.prototype] reads them *)

Module Str.

Definition code (c : ascii) : N := N_of_ascii c.

Definition between (lo hi : N) (c : ascii) : bool :=
  (lo <=? code c)%N && (code c <=? hi)%N.

Definition isUpper (c : ascii) : bool := between 65 90 c.
Definition isLower (c : ascii) : bool := between 97 122 c.
Definition isDigit (c : ascii) : bool := between 48 57 c.

(** [\w]: letters, digits and the underscore. *)
Definition isWordChar (c : ascii) : bool :=
  isUpper c || isLower c || isDigit c || (code c =? 95)%N.

(** [\s] and the characters [trim] removes: tab, line feed, vertical tab,
    form feed, carriage return, space. *)
Definition isSpace (c : ascii) : bool :=
  between 9 13 c || (code c =? 32)%N.

(** Line terminators, which [.] does not match. *)
Definition isLineTerminator (c : ascii) : bool :=
  (code c =? 10)%N || (code c =? 13)%N.

Definition toLowerChar (c : ascii) : ascii :=
  if isUpper c then ascii_of_N (code c + 32) else c.

Definition toUpperChar (c : ascii) : ascii :=
  if isLower c then ascii_of_N (code c - 32) else c.

Fixpoint map (f : ascii -> ascii) (s : string) : string :=
  match s with
  | EmptyString => EmptyString
  | String c t => String (f c) (map f t)
  end.

Definition toLowerCase : string -> string := map toLowerChar.
Definition toUpperCase : string -> string := map toUpperChar.

Fixpoint trimStart (s : string) : string :=
  match s with
  | String c t => if isSpace c then trimStart t else s
  | EmptyString => EmptyString
  end.

(** [trimEnd] keeps a character when it is no blank or something is kept
    after it. *)
Fixpoint trimEnd (s : string) : string :=
  match s with
  | EmptyString => EmptyString
  | String c t =>
      match trimEnd t with
      | EmptyString => if isSpace c then EmptyString else String c EmptyString
      | t' => String c t'
      end
  end.

Definition trim (s : string) : string := trimEnd (trimStart s).

(** [s.slice(n)] for [0 <= n]. *)
Fixpoint drop (n : nat) (s : string) : string :=
  match n, s with
  | O, _ => s
  | S n', String _ t => drop n' t
  | S _, EmptyString => EmptyString
  end.

(** [s.slice(0, n)]. *)
Definition take (n : nat) (s : string) : string := substring 0 n s.

(** [s.charAt(0)]: the first character as a string, empty on [""]. *)
Definition charAt0 (s : string) : string := take 1 s.

(** [s.indexOf(needle, from)]: a negative [from] counts as 0, one past the
    end as the length; [-1] when [needle] does not occur. *)
Definition indexOf (s needle : string) (from : Z) : Z :=
  match index (Nat.min (Z.to_nat from) (String.length s)) needle s with
  | Some i => Z.of_nat i
  | None => (-1)%Z
  end.

Definition includes (s needle : string) : bool :=
  match index 0 needle s with Some _ => true | None => false end.

Definition startsWith (s p : string) : bool := prefix p s.

Definition endsWith (s p : string) : bool :=
  Nat.leb (String.length p) (String.length s)
  && String.eqb (drop (String.length s - String.length p) s) p.

(** [s.split(sep)] for a one-character separator: the pieces between the
    separators, empty pieces kept. *)
Fixpoint splitChar (sep : ascii) (s : string) : list string :=
  match s with
  | EmptyString => [EmptyString]
  | String c t =>
      if Ascii.eqb c sep then EmptyString :: splitChar sep t
      else match splitChar sep t with
           | w :: ws => String c w :: ws
           | [] => [String c EmptyString]
           end
  end.

(** [s.split(/[...]+/)] for a class [sep] of characters: the pieces between
    the maximal runs of separators; a run at either end leaves an empty
    piece there.  [inRun] says that the previous character was a separator,
    whose run has already split the text. *)
Fixpoint splitRuns (sep : ascii -> bool) (inRun : bool) (s : string)
    : list string :=
  match s with
  | EmptyString => [EmptyString]
  | String c t =>
      if sep c then
        if inRun then splitRuns sep true t
        else EmptyString :: splitRuns sep true t
      else match splitRuns sep false t with
           | w :: ws => String c w :: ws
           | [] => [String c EmptyString]
           end
  end.

(** [s.split(/\s+/)]. *)
Definition splitBlanks (s : string) : list string := splitRuns isSpace false s.

(** [parts.join(sep)]. *)
Definition join (sep : string) (parts : list string) : string :=
  String.concat sep parts.

(** [arr.includes(x)] on strings. *)
Definition mem (x : string) (l : list string) : bool :=
  existsb (String.eqb x) l.

(** Decimal digits of a number, as a template literal prints it. *)
Definition digit (n : nat) : ascii := ascii_of_nat (48 + n).

Fixpoint decimal_aux (fuel n : nat) (acc : string) : string :=
  match fuel with
  | O => acc
  | S fuel' =>
      let acc' := String (digit (n mod 10)) acc in
      if Nat.ltb n 10 then acc' else decimal_aux fuel' (n / 10) acc'
  end.

Definition decimal (n : nat) : string := decimal_aux (S n) n EmptyString.

(** The double quote, which no literal of this file contains. *)
Definition dquote : string := String (ascii_of_nat 34) EmptyString.

End Str.

(** ** Regular expressions: the ECMAScript subset the sources use *)

Module Regex.

(** A member of a character class [[...]]. *)
Inductive citem : Type :=
| CChar (c : ascii)
| CRange (lo hi : ascii)
| CWord
| CSpace.

(** Patterns.  [Rep min max greedy a] is [a{min,max}], [a*], [a+], [a?] and
    their lazy forms; [Grp i a] is the [i]-th capturing group; [Behind] is a
    look-behind on one character, [(?<=[...])]. *)
Inductive re : Type :=
| Eps
| Chr (c : ascii)
| Dot
| Cls (neg : bool) (items : list citem)
| Cat (a b : re)
| Alt (a b : re)
| Rep (min : nat) (max : option nat) (greedy : bool) (a : re)
| Grp (i : nat) (a : re)
| Bol
| Eol
| WordB
| Ahead (a : re)
| Behind (items : list citem).

(** Where the matcher stands: the character before, the offset, the text
    still ahead and the groups captured so far. *)
Record cursor : Type := mkCursor {
  before : option ascii;
  offset : nat;
  rest : string;
  caps : list (nat * string)
}.

Definition advance (p : cursor) : option (ascii * cursor) :=
  match rest p with
  | EmptyString => None
  | String c t => Some (c, mkCursor (Some c) (S (offset p)) t (caps p))
  end.

(** Canonicalize: with the [i] flag characters compare by their upper case. *)
Definition charEq (ic : bool) (a c : ascii) : bool :=
  if ic then Ascii.eqb (Str.toUpperChar a) (Str.toUpperChar c)
  else Ascii.eqb a c.

Definition inItem (c : ascii) (it : citem) : bool :=
  match it with
  | CChar x => Ascii.eqb c x
  | CRange lo hi => Str.between (Str.code lo) (Str.code hi) c
  | CWord => Str.isWordChar c
  | CSpace => Str.isSpace c
  end.

(** With the [i] flag a character is in a class when some member has its
    canonical form: itself, its lower case or its upper case. *)
Definition inClass (ic : bool) (items : list citem) (c : ascii) : bool :=
  existsb (inItem c) items
  || (ic && (existsb (inItem (Str.toLowerChar c)) items
             || existsb (inItem (Str.toUpperChar c)) items)).

Definition isWordAt (c : option ascii) : bool :=
  match c with Some a => Str.isWordChar a | None => false end.

Definition next (p : cursor) : option ascii :=
  match rest p with EmptyString => None | String c _ => Some c end.

Definition underMax (n : nat) (max : option nat) : bool :=
  match max with None => true | Some mx => Nat.ltb n mx end.

Definition setCap (i : nat) (s : string) (p : cursor) : cursor :=
  mkCursor (before p) (offset p) (rest p) ((i, s) :: caps p).

(** The repetition of a matcher [ma]: [n] iterations are done.  Once [min]
    is reached an iteration that consumes nothing is refused, so every
    further iteration moves the cursor and [fuel] (the text ahead plus [min])
    is never used up. *)
Fixpoint repLoop (ma : (cursor -> option cursor) -> cursor -> option cursor)
    (min : nat) (max : option nat) (greedy : bool)
    (k : cursor -> option cursor) (fuel n : nat) (p : cursor)
    {struct fuel} : option cursor :=
  match fuel with
  | O => None
  | S fuel' =>
      let iter (_ : unit) :=
        if underMax n max
        then ma (fun p' =>
                   if Nat.leb min n && Nat.eqb (offset p') (offset p) then None
                   else repLoop ma min max greedy k fuel' (S n) p') p
        else None in
      let stop (_ : unit) := if Nat.leb min n then k p else None in
      if greedy
      then match iter tt with Some e => Some e | None => stop tt end
      else match stop tt with Some e => Some e | None => iter tt end
  end.

(** The backtracking matcher, in continuation-passing style: [m ic r k p]
    matches [r] at [p] and hands the cursor after it to [k]; [None] makes the
    caller try its next alternative. *)
Fixpoint m (ic : bool) (r : re) (k : cursor -> option cursor) (p : cursor)
    {struct r} : option cursor :=
  match r with
  | Eps => k p
  | Chr c =>
      match advance p with
      | Some (a, p') => if charEq ic a c then k p' else None
      | None => None
      end
  | Dot =>
      match advance p with
      | Some (a, p') => if Str.isLineTerminator a then None else k p'
      | None => None
      end
  | Cls neg items =>
      match advance p with
      | Some (a, p') => if xorb neg (inClass ic items a) then k p' else None
      | None => None
      end
  | Cat a b => m ic a (m ic b k) p
  | Alt a b =>
      match m ic a k p with
      | Some e => Some e
      | None => m ic b k p
      end
  | Rep min max greedy a =>
      repLoop (m ic a) min max greedy k (min + String.length (rest p) + 1) 0 p
  | Grp i a =>
      m ic a (fun p' =>
                k (setCap i (Str.take (offset p' - offset p) (rest p)) p')) p
  | Bol => if Nat.eqb (offset p) 0 then k p else None
  | Eol => match rest p with EmptyString => k p | _ => None end
  | WordB =>
      if xorb (isWordAt (before p)) (isWordAt (next p)) then k p else None
  | Ahead a =>
      match m ic a Some p with
      | Some _ => k p
      | None => None
      end
  | Behind items =>
      match before p with
      | Some c => if inClass ic items c then k p else None
      | None => None
      end
  end.

(** A [RegExp] object: its pattern and the [i] and [g] flags. *)
Record RegExp : Type := mkRegExp {
  source : re;
  ignoreCase : bool;
  global : bool
}.

(** The array [exec] returns: [index], [matched] for element 0, the
    captured [groups], [input], and where the match ends. *)
Record Match : Type := mkMatch {
  index : nat;
  matched : string;
  groups : list (nat * string);
  input : string;
  endIndex : nat
}.

(** Group [i] of a match: [None] for [undefined]. *)
Fixpoint lookupCap (i : nat) (l : list (nat * string)) : option string :=
  match l with
  | [] => None
  | (j, s) :: l' => if Nat.eqb i j then Some s else lookupCap i l'
  end.

Definition group (i : nat) (mt : Match) : option string :=
  lookupCap i (groups mt).

Definition matchAt (ic : bool) (r : re) (inp : string)
    (bef : option ascii) (off : nat) (rst : string) : option Match :=
  match m ic r Some (mkCursor bef off rst []) with
  | Some e =>
      Some (mkMatch off (Str.take (offset e - off) rst) (caps e) inp (offset e))
  | None => None
  end.

(** The leftmost match at or after the cursor. *)
Fixpoint scan (ic : bool) (r : re) (inp : string)
    (bef : option ascii) (off : nat) (rst : string) {struct rst}
    : option Match :=
  match matchAt ic r inp bef off rst with
  | Some mt => Some mt
  | None =>
      match rst with
      | EmptyString => None
      | String c t => scan ic r inp (Some c) (S off) t
      end
  end.

(** [rx.exec(s)] with [lastIndex] at 0, which is also [s.match(rx)] for a
    pattern without the [g] flag. *)
Definition exec (rx : RegExp) (s : string) : option Match :=
  scan (ignoreCase rx) (source rx) s None 0 s.

Definition test (rx : RegExp) (s : string) : bool :=
  match exec rx s with Some _ => true | None => false end.

(** All the matches of a [g] pattern, left to right, as [s.match(rx)] and
    [s.replace(rx, ...)] find them: after a match the search goes on where
    it ended, one character further when it was empty.  [skip] counts the
    characters of the last match still to pass. *)
Fixpoint matchesFrom (ic : bool) (r : re) (inp : string)
    (bef : option ascii) (off : nat) (rst : string) (skip : nat)
    {struct rst} : list Match :=
  match skip with
  | S skip' =>
      match rst with
      | EmptyString => []
      | String c t => matchesFrom ic r inp (Some c) (S off) t skip'
      end
  | O =>
      match matchAt ic r inp bef off rst with
      | Some mt =>
          mt :: match rst with
                | EmptyString => []
                | String c t =>
                    matchesFrom ic r inp (Some c) (S off) t
                      (endIndex mt - off - 1)
                end
      | None =>
          match rst with
          | EmptyString => []
          | String c t => matchesFrom ic r inp (Some c) (S off) t 0
          end
      end
  end.

Definition matchAll (rx : RegExp) (s : string) : list Match :=
  matchesFrom (ignoreCase rx) (source rx) s None 0 s 0.

(** The text with every match of [ms] replaced by what [f] returns for it;
    [pos] is where the unread text starts. *)
Fixpoint splice (s : string) (pos : nat) (ms : list Match)
    (f : Match -> string) : string :=
  match ms with
  | [] => Str.drop pos s
  | mt :: ms' =>
      substring pos (index mt - pos) s ++ f mt ++ splice s (endIndex mt) ms' f
  end.

(** [s.replace(rx, f)]: every match when [rx] has the [g] flag, the first
    one otherwise. *)
Definition replaceWith (rx : RegExp) (s : string) (f : Match -> string)
    : string :=
  if global rx then splice s 0 (matchAll rx s) f
  else match exec rx s with
       | Some mt => splice s 0 [mt] f
       | None => s
       end.

Definition replace (rx : RegExp) (s by_ : string) : string :=
  replaceWith rx s (fun _ => by_).

(** The number of capturing groups, which fixes the length of the array a
    match returns. *)
Fixpoint ngroups (r : re) : nat :=
  match r with
  | Cat a b | Alt a b => ngroups a + ngroups b
  | Rep _ _ _ a | Ahead a => ngroups a
  | Grp _ a => S (ngroups a)
  | _ => 0
  end.

(** *** Writing patterns *)

Fixpoint lit (s : string) : re :=
  match s with
  | EmptyString => Eps
  | String c EmptyString => Chr c
  | String c t => Cat (Chr c) (lit t)
  end.

Fixpoint seq (rs : list re) : re :=
  match rs with
  | [] => Eps
  | [r] => r
  | r :: rs' => Cat r (seq rs')
  end.

Fixpoint alts (rs : list re) : re :=
  match rs with
  | [] => Cls false []
  | [r] => r
  | r :: rs' => Alt r (alts rs')
  end.

(** [(w1|w2|...)] over literal words. *)
Definition words (ws : list string) : re := alts (List.map lit ws).

Definition star (a : re) : re := Rep 0 None true a.
Definition plus (a : re) : re := Rep 1 None true a.
Definition opt (a : re) : re := Rep 0 (Some 1) true a.
Definition lazyPlus (a : re) : re := Rep 1 None false a.
Definition atLeast (n : nat) (a : re) : re := Rep n None true a.

(** [\w], [\W] and [\s]. *)
Definition wordc : re := Cls false [CWord].
Definition nonword : re := Cls true [CWord].
Definition blank : re := Cls false [CSpace].

End Regex.

(** ** Values shared by the services *)

(** What a function that can throw hands back: its value, or the message of
    the [Error] it threw. *)
Inductive result (A : Type) : Type :=
| Ok (a : A)
| Throw (message : string).

Arguments Ok {A} a.
Arguments Throw {A} message.

(** JavaScript's truthiness of a property that holds a string or is
    missing: [undefined] and [""] are falsy. *)
Definition truthy (o : option string) : bool :=
  match o with
  | Some s => negb (String.eqb s "")
  | None => false
  end.

Definition orEmpty (o : option string) : string :=
  match o with Some s => s | None => "" end.

Definition newline : ascii := ascii_of_nat 10.

(** [Array.prototype.sort] with the comparator [(a, b) => b.score - a.score]:
    descending by score, and stable, so equal scores keep their order. *)
Fixpoint insertDesc {A : Type} (score : A -> Q) (x : A) (l : list A) : list A :=
  match l with
  | [] => [x]
  | y :: l' =>
      if Qle_bool (score y) (score x) then x :: l
      else y :: insertDesc score x l'
  end.

Fixpoint sortDesc {A : Type} (score : A -> Q) (l : list A) : list A :=
  match l with
  | [] => []
  | x :: l' => insertDesc score x (sortDesc score l')
  end.

(** [s.charAt(0).toUpperCase() + s.slice(1).toLowerCase()]. *)
Definition capitalizeLower (s : string) : string :=
  Str.toUpperCase (Str.charAt0 s) ++ Str.toLowerCase (Str.drop 1 s).

(** [s.charAt(0).toUpperCase() + s.slice(1)]. *)
Definition capitalize (s : string) : string :=
  Str.toUpperCase (Str.charAt0 s) ++ Str.drop 1 s.

(** [s.charAt(0).toLowerCase() + s.slice(1)]. *)
Definition uncapitalize (s : string) : string :=
  Str.toLowerCase (Str.charAt0 s) ++ Str.drop 1 s.

(** [s.trim().length > 0]. *)
Definition nonBlank (s : string) : bool :=
  negb (Nat.eqb (String.length (Str.trim s)) 0).

(** ** The grammar engine ([grammarEngine.ts]) *)

Module GrammarEngine.

Import Regex.

Inductive RuleType : Type :=
| SPELLING
| PUNCTUATION
| SUBJECT_VERB_AGREEMENT
| TENSE_CONSISTENCY.

(** The enum's string values, which [Object.values(RuleType)] lists. *)
Definition ruleTypeValue (t : RuleType) : string :=
  match t with
  | SPELLING => "spelling"
  | PUNCTUATION => "punctuation"
  | SUBJECT_VERB_AGREEMENT => "subject-verb-agreement"
  | TENSE_CONSISTENCY => "tense-consistency"
  end.

Definition ruleTypeOf (v : string) : option RuleType :=
  List.find (fun t => String.eqb (ruleTypeValue t) v)
    [SPELLING; PUNCTUATION; SUBJECT_VERB_AGREEMENT; TENSE_CONSISTENCY].

Record CheckResult : Type := mkCheckResult {
  cr_type : RuleType;
  cr_message : string;
  cr_line : nat;
  cr_column : nat;
  cr_suggestion : option string
}.

Inductive Severity : Type := sev_error | sev_warning.

Record GrammarRule : Type := mkGrammarRule {
  gr_type : RuleType;
  gr_pattern : RegExp;
  gr_message : string;
  gr_severity : Severity
}.

(** [COMMON_MISSPELLINGS], in the order [Object.keys] lists its keys. *)
Definition COMMON_MISSPELLINGS : list (string * string) :=
  [ ("caat", "cat"); ("eror", "error"); ("runing", "running");
    ("quikly", "quickly"); ("wrold", "world"); ("recieve", "receive");
    ("seperate", "separate"); ("definately", "definitely") ].

Definition terminal : list citem := [CChar "."; CChar "!"; CChar "?"].
Definition letter : list citem := [CRange "a" "z"; CRange "A" "Z"].

(** [\b(w1|w2|...)\s+verb\b] with the [i] flag. *)
Definition agreement (subjects : list string) (verb : string) : RegExp :=
  mkRegExp (seq [WordB; Grp 1 (words subjects); plus blank; lit verb; WordB])
           true false.

(** [\b(p1|...)\b.*\band\s+(q1|...)\b] with the [i] flag. *)
Definition tenseMix (first second : list string) : RegExp :=
  mkRegExp (seq [WordB; Grp 1 (words first); WordB; star Dot; WordB;
                 lit "and"; plus blank; Grp 2 (words second); WordB])
           true false.

Definition pastVerbs : list string :=
  ["went"; "walked"; "ran"; "drove"; "ate"; "bought"].
Definition presentVerbs : list string :=
  ["go"; "walk"; "run"; "drive"; "eat"; "buy"].

(** [GRAMMAR_RULES] as the module initialises it. *)
Definition GRAMMAR_RULES : list GrammarRule :=
  [ (* /^[A-Z][^.!?]*[a-zA-Z]\s*$/ *)
    mkGrammarRule PUNCTUATION
      (mkRegExp (seq [Bol; Cls false [CRange "A" "Z"]; star (Cls true terminal);
                      Cls false letter; star blank; Eol]) false false)
      "Missing period at end of sentence" sev_error;
    (* /\s{2,}/g *)
    mkGrammarRule PUNCTUATION (mkRegExp (atLeast 2 blank) false true)
      "Multiple consecutive spaces should be single space" sev_warning;
    (* /[.!?]{2,}/g *)
    mkGrammarRule PUNCTUATION
      (mkRegExp (atLeast 2 (Cls false terminal)) false true)
      "Multiple consecutive punctuation marks" sev_warning;
    (* /\s+[.!?]/g *)
    mkGrammarRule PUNCTUATION
      (mkRegExp (seq [plus blank; Cls false terminal]) false true)
      "Space before punctuation mark" sev_error;
    (* /[.!?](?=[a-zA-Z])/g *)
    mkGrammarRule PUNCTUATION
      (mkRegExp (seq [Cls false terminal; Ahead (Cls false letter)]) false true)
      "Missing space after punctuation mark" sev_error;
    (* /(?<=[a-zA-Z]),(?=[a-zA-Z])/g *)
    mkGrammarRule PUNCTUATION
      (mkRegExp (seq [Behind letter; Chr ","; Ahead (Cls false letter)])
                false true)
      "Missing space after comma" sev_error;
    mkGrammarRule SUBJECT_VERB_AGREEMENT
      (agreement ["cats"; "dogs"; "birds"; "people"; "children"; "women"; "men"]
                 "is")
      ("Subject-verb agreement error: plural subject requires "
         ++ Str.dquote ++ "are" ++ Str.dquote) sev_error;
    mkGrammarRule SUBJECT_VERB_AGREEMENT
      (agreement ["cat"; "dog"; "bird"; "person"; "child"; "woman"; "man";
                  "caat"; "doog"; "brid"] "are")
      ("Subject-verb agreement error: singular subject requires "
         ++ Str.dquote ++ "is" ++ Str.dquote) sev_error;
    mkGrammarRule SUBJECT_VERB_AGREEMENT
      (agreement ["he"; "she"; "it"] "are")
      ("Subject-verb agreement error: singular pronoun requires "
         ++ Str.dquote ++ "is" ++ Str.dquote) sev_error;
    mkGrammarRule SUBJECT_VERB_AGREEMENT
      (agreement ["they"; "we"; "you"] "is")
      ("Subject-verb agreement error: plural pronoun requires "
         ++ Str.dquote ++ "are" ++ Str.dquote) sev_error;
    (* /\b(the|a|an)\s+\w+\s+are\b/i *)
    mkGrammarRule SUBJECT_VERB_AGREEMENT
      (mkRegExp (seq [WordB; Grp 1 (words ["the"; "a"; "an"]); plus blank;
                      plus wordc; plus blank; lit "are"; WordB]) true false)
      ("Subject-verb agreement error: singular subject with determiner requires "
         ++ Str.dquote ++ "is" ++ Str.dquote) sev_error;
    mkGrammarRule TENSE_CONSISTENCY (tenseMix pastVerbs presentVerbs)
      "Tense inconsistency: mixing past and present tense" sev_error;
    mkGrammarRule TENSE_CONSISTENCY (tenseMix presentVerbs pastVerbs)
      "Tense inconsistency: mixing present and past tense" sev_error ].

(** *** [checkSpellingFast] *)

(** [/\W/.test(line[i])]; an index outside the line reads [undefined],
    whose text holds word characters only. *)
Definition nonWordAt (line : string) (i : nat) : bool :=
  match String.get i line with
  | Some c => negb (Str.isWordChar c)
  | None => false
  end.

Definition spellingResult (word fix_ : string) (lineNumber index : nat)
    : CheckResult :=
  mkCheckResult SPELLING
    ("Possible spelling error: " ++ Str.dquote ++ word ++ Str.dquote
       ++ " should be " ++ Str.dquote ++ fix_ ++ Str.dquote)
    lineNumber (index + 1) (Some fix_).

(** The boundary check on the occurrence at [index]: the character before
    and the character after must be non-word characters, the ends of the line
    counting as a blank. *)
Definition boundaryOk (line word : string) (index : nat) : bool :=
  (if Nat.ltb 0 index then nonWordAt line (index - 1) else true)
  && (if Nat.ltb (index + String.length word) (String.length line)
      then nonWordAt line (index + String.length word) else true).

(** The [for] loop over [knownWords], [results] being what is pushed so
    far; it breaks once two results are in. *)
Fixpoint spellingLoop (line : string) (lineNumber : nat)
    (knownWords : list (string * string)) (results : list CheckResult)
    : list CheckResult :=
  match knownWords with
  | [] => results
  | (word, fix_) :: more =>
      match String.index 0 word (Str.toLowerCase line) with
      | Some index =>
          if boundaryOk line word index then
            let results' := results ++ [spellingResult word fix_ lineNumber index] in
            if Nat.leb 2 (List.length results') then results'
            else spellingLoop line lineNumber more results'
          else spellingLoop line lineNumber more results
      | None => spellingLoop line lineNumber more results
      end
  end.

Definition checkSpellingFast (line : string) (lineNumber : nat)
    : list CheckResult :=
  spellingLoop line lineNumber COMMON_MISSPELLINGS [].

(** *** [checkGrammarRulesFast] *)

Definition ruleResult (rule : GrammarRule) (lineNumber : nat) (mt : Match)
    : CheckResult :=
  mkCheckResult (gr_type rule) (gr_message rule) lineNumber (index mt + 1) None.

(** The [for] loop over the rule table: [lastIndex] is reset, so [exec]
    searches from the start of the line; the loop breaks at three results. *)
Fixpoint rulesLoop (line : string) (lineNumber : nat)
    (rules : list GrammarRule) (results : list CheckResult)
    : list CheckResult :=
  match rules with
  | [] => results
  | rule :: more =>
      match exec (gr_pattern rule) line with
      | Some mt =>
          let results' := results ++ [ruleResult rule lineNumber mt] in
          if Nat.leb 3 (List.length results') then results'
          else rulesLoop line lineNumber more results'
      | None => rulesLoop line lineNumber more results
      end
  end.

Definition checkGrammarRulesFast (rules : list GrammarRule)
    (line : string) (lineNumber : nat) : list CheckResult :=
  rulesLoop line lineNumber rules [].

Definition processLineFast (rules : list GrammarRule)
    (line : string) (lineNumber : nat) : list CheckResult :=
  checkSpellingFast line lineNumber ++ checkGrammarRulesFast rules line lineNumber.

(** *** The result cache *)

(** [processingCache]: a [Map], whose keys keep their insertion order. *)
Definition Cache : Type := list (string * list CheckResult).

Definition CACHE_SIZE_LIMIT : nat := 100.

Fixpoint cacheGet (text : string) (c : Cache) : option (list CheckResult) :=
  match c with
  | [] => None
  | (k, v) :: c' => if String.eqb k text then Some v else cacheGet text c'
  end.

Definition cacheDelete (text : string) (c : Cache) : Cache :=
  List.filter (fun kv => negb (String.eqb (fst kv) text)) c.

(** [Map.prototype.set]: a key already present keeps its place. *)
Fixpoint cacheSet (text : string) (v : list CheckResult) (c : Cache) : Cache :=
  match c with
  | [] => [(text, v)]
  | (k, v') :: c' =>
      if String.eqb k text then (k, v) :: c' else (k, v') :: cacheSet text v c'
  end.

Definition getCachedResult (c : Cache) (text : string)
    : option (list CheckResult) :=
  cacheGet text c.

(** [setCachedResult], up to the timer it starts: at the size limit the
    oldest key goes, unless it is the empty (falsy) string. *)
Definition setCachedResult (c : Cache) (text : string)
    (result_ : list CheckResult) : Cache :=
  let c1 :=
    if Nat.leb CACHE_SIZE_LIMIT (List.length c) then
      match c with
      | (firstKey, _) :: _ =>
          if String.eqb firstKey "" then c else cacheDelete firstKey c
      | [] => c
      end
    else c in
  cacheSet text result_ c1.

(** The callback of the timer [setCachedResult] starts, run by the event
    loop [CACHE_TTL] milliseconds later. *)
Definition expire (c : Cache) (text : string) : Cache := cacheDelete text c.

(** *** [checkGrammar] *)

(** The lines of the text, numbered from [i]. *)
Fixpoint processLines (rules : list GrammarRule) (lines : list string)
    (i : nat) : list CheckResult :=
  match lines with
  | [] => []
  | l :: more => processLineFast rules l (i + 1) ++ processLines rules more (S i)
  end.

(** [checkGrammar] on the rule table and the cache as they stand: the
    results and the cache afterwards. *)
Definition checkGrammar (rules : list GrammarRule) (c : Cache)
    (sentence : string) : list CheckResult * Cache :=
  if String.eqb sentence "" || Nat.eqb (String.length (Str.trim sentence)) 0
  then ([], c)
  else
    let trimmedSentence := Str.trim sentence in
    match getCachedResult c trimmedSentence with
    | Some cachedResult => (cachedResult, c)
    | None =>
        let results :=
          if negb (Str.includes sentence (String newline ""))
          then processLineFast rules sentence 1
          else processLines rules (Str.splitChar newline sentence) 0 in
        (results, setCachedResult c trimmedSentence results)
    end.

(** *** [loadRulesFromConfig] *)

(** An object among the entries of the [rules] array of a configuration
    file, as [JSON.parse] returns it: its properties are strings or
    missing.  An entry that is a number, a string, a boolean or an array
    reads [undefined] for every property the loaders look at, as an object
    without properties does. *)
Record RuleConfig : Type := mkRuleConfig {
  rc_type : option string;
  rc_pattern : option string;
  rc_flags : option string;
  rc_message : option string;
  rc_explanation : option string;
  rc_severity : option string;
  rc_replacement : option string
}.

(** The parsed file: [rules] is [None] when the property is no array; an
    entry of the array is [None] when it is [null]. *)
Record Config : Type := mkConfig {
  rules : option (list (option RuleConfig))
}.

(** The message of the [TypeError] that reading a property of [null]
    throws. *)
Definition cannotRead (property : string) : string :=
  "Cannot read properties of null (reading '" ++ property ++ "')".

Definition atIndex (index : nat) : string := " at index " ++ Str.decimal index.

Definition missingProperties (index : nat) : string :=
  "Rule at index " ++ Str.decimal index ++ " is missing required properties".

Definition invalidType (type_ : string) (index : nat) : string :=
  "Invalid rule type: " ++ type_ ++ atIndex index.

Definition invalidSeverity (severity : string) (index : nat) : string :=
  "Invalid severity: " ++ severity ++ atIndex index.

Definition invalidPattern (index : nat) (pattern : string) : string :=
  "Invalid regex pattern at index " ++ Str.decimal index ++ ": " ++ pattern.

Definition noRulesArray : string :=
  "Configuration must contain a " ++ Str.dquote ++ "rules" ++ Str.dquote
    ++ " array".

(** [array.map(f)] where [f] may throw: the first throw ends the map. *)
Fixpoint mapIndexed {A B : Type} (f : A -> nat -> result B) (l : list A)
    (index : nat) : result (list B) :=
  match l with
  | [] => Ok []
  | a :: l' =>
      match f a index with
      | Throw msg => Throw msg
      | Ok b =>
          match mapIndexed f l' (S index) with
          | Throw msg => Throw msg
          | Ok bs => Ok (b :: bs)
          end
      end
  end.

Definition severityOf (v : string) : option Severity :=
  if String.eqb v "error" then Some sev_error
  else if String.eqb v "warning" then Some sev_warning
  else None.

Section Loading.

(** [new RegExp(pattern, flags)] of the JavaScript engine: the compiled
    pattern, or [None] when it throws a [SyntaxError]. *)
Variable newRegExp : string -> string -> option RegExp.

(** The callback of [config.rules.map] on an entry that is not [null]. *)
Definition compileRule (rule : RuleConfig) (index : nat) : result GrammarRule :=
  if negb (truthy (rc_type rule)) || negb (truthy (rc_pattern rule))
     || negb (truthy (rc_message rule)) || negb (truthy (rc_severity rule))
  then Throw (missingProperties index)
  else
    match ruleTypeOf (orEmpty (rc_type rule)) with
    | None => Throw (invalidType (orEmpty (rc_type rule)) index)
    | Some type_ =>
        match severityOf (orEmpty (rc_severity rule)) with
        | None => Throw (invalidSeverity (orEmpty (rc_severity rule)) index)
        | Some severity =>
            match newRegExp (orEmpty (rc_pattern rule))
                            (orEmpty (rc_flags rule)) with
            | Some pattern =>
                Ok (mkGrammarRule type_ pattern (orEmpty (rc_message rule))
                                  severity)
            | None => Throw (invalidPattern index (orEmpty (rc_pattern rule)))
            end
        end
    end.

(** The callback of [config.rules.map]: on a [null] entry the first
    thing it does, reading [rule.type], throws. *)
Definition compileEntry (entry : option RuleConfig) (index : nat)
    : result GrammarRule :=
  match entry with
  | None => Throw (cannotRead "type")
  | Some rule => compileRule rule index
  end.

(** [loadRulesFromConfig] on what reading and parsing the file gave
    ([Throw] when [readFileSync] or [JSON.parse] threw, or when the file
    holds [null] and reading [config.rules] threw) and on the rule table as
    it stands: what the call returns or throws, and the table afterwards. *)
Definition loadRulesFromConfig (file : result Config)
    (table : list GrammarRule) : result unit * list GrammarRule :=
  let failed msg := Throw ("Failed to load grammar rules: " ++ msg) in
  match file with
  | Throw msg => (failed msg, table)
  | Ok config =>
      match rules config with
      | None => (failed noRulesArray, table)
      | Some entries =>
          match mapIndexed compileEntry entries 0 with
          | Throw msg => (failed msg, table)
          | Ok loadedRules => (Ok tt, loadedRules)
          end
      end
  end.

End Loading.

(** *** [posTagger] *)

(** A term of the document the NLP library returns. *)
Record NLPTerm : Type := mkTerm { term_text : string; term_tags : list string }.

(** A token: [start] and [end] are optional properties. *)
Record Token : Type := mkToken {
  text : string;
  pos : string;
  start : option Z;
  end_ : option Z
}.

Definition POS_TAG_MAP : list (string * string) :=
  List.map (fun t => (t, t))
    ["Determiner"; "Noun"; "Verb"; "Preposition"; "Punctuation"; "Adjective";
     "Adverb"; "Pronoun"; "Conjunction"; "Interjection"].

Fixpoint lookup {A : Type} (k : string) (l : list (string * A)) : option A :=
  match l with
  | [] => None
  | (k', v) :: l' => if String.eqb k' k then Some v else lookup k l'
  end.

(** [POS_TAG_MAP[tag] || tag || 'UNK'] on the first tag, ['UNK'] without. *)
Definition posOf (tags : list string) : string :=
  match tags with
  | [] => "UNK"
  | compromiseTag :: _ =>
      match lookup compromiseTag POS_TAG_MAP with
      | Some p => p
      | None => if String.eqb compromiseTag "" then "UNK" else compromiseTag
      end
  end.

(** The callback of [tokens.map], with [currentOffset] threaded through. *)
Fixpoint tagTerms (sentence : string) (terms : list NLPTerm)
    (currentOffset : Z) : list Token :=
  match terms with
  | [] => []
  | token :: more =>
      let tokenText := term_text token in
      let startOffset := Str.indexOf sentence tokenText currentOffset in
      let endOffset := (startOffset + Z.of_nat (String.length tokenText))%Z in
      mkToken tokenText (posOf (term_tags token))
              (Some startOffset) (Some endOffset)
        :: tagTerms sentence more endOffset
  end.

Definition nonEmpty (s : string) : bool := negb (String.eqb s "").

(** The [catch] branch: blank-separated words, no offsets. *)
Definition fallbackTokens (sentence : string) : list Token :=
  List.map (fun t => mkToken t "UNK" None None)
    (List.filter nonEmpty (Str.splitBlanks (Str.trim sentence))).

Section Tagging.

(** [nlp(sentence).json()[0]?.terms || []]: the terms of the first sentence
    the library finds, or [Throw] when the library throws. *)
Variable nlp : string -> result (list NLPTerm).

Definition posTagger (sentence : string) : list Token :=
  if String.eqb sentence "" || Nat.eqb (String.length (Str.trim sentence)) 0
  then []
  else
    match nlp sentence with
    | Ok tokens => tagTerms sentence tokens 0
    | Throw _ => fallbackTokens sentence
    end.

End Tagging.

(** *** Entities: from the entity text to the tokens *)

Record Entity : Type := mkEntity {
  e_text : string;
  e_type : string;
  e_start : Z;
  e_end : Z
}.

Definition tokenIs (word : string) (t : Token) : bool :=
  String.eqb (Str.toLowerCase (text t)) word.

(** [isTokenSequenceMatch]: [None] is the [TypeError] that reading [.text]
    of a token past the end of the array throws. *)
Fixpoint isTokenSequenceMatch (tokens : list Token) (startIndex : nat)
    (entityWords : list string) (i : nat) : option bool :=
  match entityWords with
  | [] => Some true
  | word :: more =>
      match nth_error tokens (startIndex + i) with
      | None => None
      | Some t =>
          if tokenIs word t
          then isTokenSequenceMatch tokens startIndex more (S i)
          else Some false
      end
  end.

(** [tokens.slice(i, j)]. *)
Definition slice {A : Type} (l : list A) (i j : nat) : list A :=
  firstn (j - i) (skipn i l).

(** The [for] loop over the start indices: [i] is the index, [todo] the
    number of indices still to try. *)
Fixpoint sequenceLoop (tokens : list Token) (entityWords : list string)
    (todo i : nat) : option (list Token) :=
  match todo with
  | O => Some []
  | S todo' =>
      match isTokenSequenceMatch tokens i entityWords 0 with
      | None => None
      | Some true => Some (slice tokens i (i + List.length entityWords))
      | Some false => sequenceLoop tokens entityWords todo' (S i)
      end
  end.

(** How often the body of [for (i = 0; i <= n - k; i++)] runs. *)
Definition iterations (n k : nat) : nat :=
  if Nat.leb k n then n - k + 1 else 0.

Definition findMatchingTokensOptimized (entityText : string)
    (tokens : list Token) : option (list Token) :=
  let entityWords := Str.splitBlanks (Str.toLowerCase entityText) in
  let entityLength := List.length entityWords in
  match entityWords with
  | [targetWord] =>
      match List.find (tokenIs targetWord) tokens with
      | Some matchingToken => Some [matchingToken]
      | None => Some []
      end
  | _ =>
      sequenceLoop tokens entityWords
        (iterations (List.length tokens) entityLength) 0
  end.

Definition calculateFallbackOffset (token : Token) (tokens : list Token) : Z :=
  Str.indexOf (Str.join " " (List.map text tokens)) (text token) 0.

Definition getOptimizedOffset (token : Token) (tokens : list Token) : Z :=
  match start token with
  | Some s => s
  | None => calculateFallbackOffset token tokens
  end.

Definition buildEntityResult (entityText entityType : string)
    (firstToken lastToken : Token) (allTokens : list Token) : Entity :=
  mkEntity entityText entityType
    (getOptimizedOffset firstToken allTokens)
    (getOptimizedOffset lastToken allTokens
       + Z.of_nat (String.length (text lastToken)))%Z.

(** [calculateEntityOffsetsFromTokens]: [Ok None] is the [null] that makes
    the caller drop the entity. *)
Definition calculateEntityOffsetsFromTokens (entityText : string)
    (tokens : list Token) (entityType : string) : option (option Entity) :=
  match findMatchingTokensOptimized entityText tokens with
  | None => None
  | Some [] => Some None
  | Some (firstToken :: others) =>
      Some (Some (buildEntityResult entityText entityType firstToken
                    (List.last others firstToken) tokens))
  end.

(** [addEntitiesOptimized]: the results with the entities found appended. *)
Fixpoint addEntitiesOptimized (entities : list string) (type_ : string)
    (tokens : list Token) (results : list Entity) : option (list Entity) :=
  match entities with
  | [] => Some results
  | entity :: more =>
      match calculateEntityOffsetsFromTokens entity tokens type_ with
      | None => None
      | Some None => addEntitiesOptimized more type_ tokens results
      | Some (Some entityResult) =>
          addEntitiesOptimized more type_ tokens (results ++ [entityResult])
      end
  end.

(** *** [processCustomEntities] *)

(** The callback of [words.map] after the [entity:] filter. *)
Definition customEntity (tokens : list Token) (word : string)
    : option Entity :=
  match Str.splitChar ":" word with
  | _ :: type_ :: value :: _ =>
      match List.find (tokenIs (Str.toLowerCase value)) tokens with
      | Some entityToken =>
          let start_ := getOptimizedOffset entityToken tokens in
          Some (mkEntity (text entityToken) (Str.toUpperCase type_)
                  (if (0 <=? start_)%Z then start_ else (-1)%Z)
                  (if (0 <=? start_)%Z
                   then (start_ + Z.of_nat (String.length (text entityToken)))%Z
                   else (-1)%Z))
      | None => None
      end
  | _ => None
  end.

Fixpoint somes {A : Type} (l : list (option A)) : list A :=
  match l with
  | [] => []
  | Some a :: l' => a :: somes l'
  | None :: l' => somes l'
  end.

(** [processCustomEntities] on the words [dictionaryStore.listWords()]
    returned. *)
Definition processCustomEntities (words_ : list string) (tokens : list Token)
    : list Entity :=
  somes (List.map (customEntity tokens)
           (List.filter (fun word => Str.startsWith word "entity:") words_)).

(** *** The rewrite engine *)

(** A token of [processText]: a token with its synonyms. *)
Record EnhancedToken : Type := mkEnhanced {
  et_text : string;
  et_pos : string;
  et_synonyms : list string;
  et_start : option Z;
  et_end : option Z
}.

(** The tone filter on synonyms: longer than 4 for [formal], at most 6 for
    [casual], all of them otherwise. *)
Definition longWord (syn : string) : bool := Nat.ltb 4 (String.length syn).
Definition shortWord (syn : string) : bool := Nat.leb (String.length syn) 6.

Definition toneIs (tone : option string) (name : string) : bool :=
  match tone with Some t => String.eqb t name | None => false end.

Definition availableSynonyms (synonyms : list string) (tone : option string)
    : list string :=
  if toneIs tone "formal" then List.filter longWord synonyms
  else if toneIs tone "casual" then List.filter shortWord synonyms
  else synonyms.

(** [x[0] === x[0].toUpperCase()] on a non-empty string. *)
Definition startsUpper (c : ascii) : bool := Ascii.eqb c (Str.toUpperChar c).

(** The callback of [tokens.map] in [generateSynonymRewrite]; reading
    [token.text[0].toUpperCase()] of an empty text throws a [TypeError]. *)
Definition rewriteToken (tone : option string) (token : EnhancedToken)
    : result string :=
  if Str.mem (et_pos token) ["Noun"; "Verb"; "Adjective"; "Adverb"]
     && Nat.ltb 0 (List.length (et_synonyms token))
  then
    match availableSynonyms (et_synonyms token) tone with
    | synonym :: _ =>
        match et_text token with
        | EmptyString => Throw "Cannot read properties of undefined"
        | String c _ =>
            if startsUpper c then Ok (capitalizeLower synonym)
            else Ok (Str.toLowerCase synonym)
        end
    | [] => Ok (et_text token)
    end
  else Ok (et_text token).

Fixpoint mapResult {A B : Type} (f : A -> result B) (l : list A)
    : result (list B) :=
  match l with
  | [] => Ok []
  | a :: l' =>
      match f a with
      | Throw msg => Throw msg
      | Ok b =>
          match mapResult f l' with
          | Throw msg => Throw msg
          | Ok bs => Ok (b :: bs)
          end
      end
  end.

Definition generateSynonymRewrite (tokens : list EnhancedToken)
    (tone : option string) : result string :=
  match mapResult (rewriteToken tone) tokens with
  | Throw msg => Throw msg
  | Ok rewrittenTokens => Ok (Str.join " " rewrittenTokens)
  end.

Definition synonymMap : list (string * list string) :=
  [ ("large", ["big"; "huge"; "enormous"; "massive"]);
    ("beautiful", ["gorgeous"; "stunning"; "lovely"; "attractive"]);
    ("building", ["structure"; "edifice"; "construction"; "facility"]);
    ("quick", ["fast"; "rapid"; "swift"; "speedy"]);
    ("excellent", ["outstanding"; "superb"; "remarkable"; "exceptional"]) ].

(** [new RegExp(`\\b${word}\\b`, 'gi')] for a word of letters and blanks. *)
Definition wholeWord (word : string) : RegExp :=
  mkRegExp (seq [WordB; lit word; WordB]) true true.

(** The synonym the fallback takes: the first one, or the first one the
    tone filter keeps. *)
Definition pickSynonym (synonyms : list string) (tone : option string)
    : string :=
  let first := List.hd "" synonyms in
  if toneIs tone "formal" && Nat.ltb 1 (List.length synonyms)
  then List.hd first (List.filter longWord synonyms)
  else if toneIs tone "casual" && Nat.ltb 1 (List.length synonyms)
  then List.hd first (List.filter shortWord synonyms)
  else first.

(** The replacement callback: the synonym in the case of the match. *)
Definition inCaseOf (synonym : string) (mt : Match) : string :=
  match matched mt with
  | String c _ =>
      if startsUpper c then capitalizeLower synonym
      else Str.toLowerCase synonym
  | EmptyString => Str.toLowerCase synonym
  end.

Fixpoint fallbackLoop (entries : list (string * list string))
    (tone : option string) (result_ : string) : string :=
  match entries with
  | [] => result_
  | (word, synonyms) :: more =>
      let regex := wholeWord word in
      if test regex result_
      then fallbackLoop more tone
             (replaceWith regex result_ (inCaseOf (pickSynonym synonyms tone)))
      else fallbackLoop more tone result_
  end.

Definition generateFallbackSynonymRewrite (sentence : string)
    (tone : option string) : string :=
  fallbackLoop synonymMap tone sentence.

(** [irregularVerbs] of [convertToActiveVerb]. *)
Definition irregularVerbs : list (string * string) :=
  [ ("written", "wrote"); ("taken", "took"); ("given", "gave");
    ("spoken", "spoke"); ("done", "did"); ("made", "made"); ("built", "built");
    ("created", "created"); ("developed", "developed");
    ("implemented", "implemented"); ("designed", "designed");
    ("established", "established"); ("conducted", "conducted");
    ("performed", "performed"); ("executed", "executed");
    ("completed", "completed"); ("analyzed", "analyzed");
    ("handled", "handled"); ("managed", "managed");
    ("controlled", "controlled"); ("directed", "directed");
    ("supervised", "supervised"); ("operated", "operated");
    ("maintained", "maintained") ].

(** [verb.slice(0, -n)]. *)
Definition dropLast (n : nat) (verb : string) : string :=
  Str.take (String.length verb - n) verb.

Definition convertToActiveVerb (verb auxiliary : string) : string :=
  match lookup verb irregularVerbs with
  | Some active => active
  | None =>
      if Str.endsWith verb "ed" then
        if String.eqb auxiliary "is" || String.eqb auxiliary "are" then
          if Str.endsWith verb "ied" then dropLast 3 verb ++ "y"
          else if Str.endsWith verb "pped" || Str.endsWith verb "tted"
                  || Str.endsWith verb "nned"
          then dropLast 3 verb
          else dropLast 2 verb
        else verb
      else verb
  end.

Definition participles : list string :=
  ["written"; "completed"; "analyzed"; "done"; "made"; "given"; "taken";
   "spoken"; "created"; "developed"; "implemented"; "designed"; "built";
   "established"; "formed"; "conducted"; "performed"; "executed";
   "delivered"; "processed"; "handled"; "managed"; "controlled"; "directed";
   "supervised"; "operated"; "maintained"].

(** [(.+?)\s+(aux)\s+ middle (verb)\s+by\s+(.+)] with the [i] flag. *)
Definition passiveShape (aux : list string) (middle : list re) (verb : re)
    : RegExp :=
  mkRegExp
    (seq ([Grp 1 (lazyPlus Dot); plus blank; Grp 2 (words aux); plus blank]
            ++ middle
            ++ [Grp 3 verb; plus blank; lit "by"; plus blank; Grp 4 (plus Dot)]))
    true false.

(** [\w+ed]. *)
Definition edWord : re := Cat (plus wordc) (lit "ed").

Definition passivePatterns : list RegExp :=
  [ passiveShape ["was"; "were"; "is"; "are"] [] (words participles);
    passiveShape ["was"; "were"; "is"; "are"] [] edWord;
    passiveShape ["is"; "are"; "was"; "were"] [lit "being"; plus blank] edWord;
    passiveShape ["have"; "has"] [lit "been"; plus blank] edWord ].

(** The time adverbial appended to the active sentence. *)
Definition timeReference (sentence : string) : string :=
  if Str.includes sentence "yesterday" then " yesterday"
  else if Str.includes sentence "today" then " today"
  else if Str.includes sentence "tomorrow" then " tomorrow"
  else "".

(** [/yesterday\.?$/]. *)
Definition trailingYesterday : RegExp :=
  mkRegExp (seq [lit "yesterday"; opt (Chr "."); Eol]) false false.

(** The body of the loop over [passivePatterns] for the pattern that
    matched: the active sentence, when there is one to push. *)
Definition activeVersionOf (sentence : string) (passiveMatch : Match)
    : list string :=
  let subject := orEmpty (group 1 passiveMatch) in
  let auxiliary := orEmpty (group 2 passiveMatch) in
  let verb := orEmpty (group 3 passiveMatch) in
  let agent := orEmpty (group 4 passiveMatch) in
  if nonEmpty agent && nonEmpty subject then
    let activeVerb := convertToActiveVerb verb auxiliary in
    let cleanAgent :=
      Str.trim (replace trailingYesterday (Str.trim agent) "") in
    let cleanSubject := Str.toLowerCase (Str.trim subject) in
    let activeVersion :=
      (capitalize cleanAgent ++ " " ++ activeVerb ++ " " ++ cleanSubject
         ++ timeReference sentence ++ ".")%string in
    if negb (String.eqb activeVersion sentence) && nonBlank activeVersion
    then [activeVersion] else []
  else [].

(** The loop over [passivePatterns]: the first pattern that matches ends it. *)
Fixpoint passiveLoop (sentence : string) (patterns : list RegExp)
    : list string :=
  match patterns with
  | [] => []
  | pattern :: more =>
      match exec pattern sentence with
      | Some passiveMatch => activeVersionOf sentence passiveMatch
      | None => passiveLoop sentence more
      end
  end.

(** A literal pattern with the flags [gi], and one with the flag [g]. *)
Definition phraseGI (p : string) : RegExp := mkRegExp (lit p) true true.
Definition phraseG (p : string) : RegExp := mkRegExp (lit p) false true.

Definition wordyPatterns : list (RegExp * string) :=
  [ (phraseGI "in order to", "to");
    (phraseGI "due to the fact that", "because");
    (phraseGI "for the reason that", "because");
    (phraseGI "in spite of the fact that", "although");
    (phraseGI "with regard to", "about");
    (phraseGI "give consideration to", "consider");
    (phraseGI "make a decision", "decide");
    (phraseGI "reach a conclusion", "conclude") ].

(** [for (const {pattern, replacement} of table) s = s.replace(...)]. *)
Fixpoint replaceEach (table : list (RegExp * string)) (s : string) : string :=
  match table with
  | [] => s
  | (pattern, replacement) :: more =>
      replaceEach more (replace pattern s replacement)
  end.

Definition contractions : list (RegExp * string) :=
  [ (phraseG "can't", "cannot"); (phraseG "don't", "do not");
    (phraseG "won't", "will not"); (phraseG "it's", "it is");
    (phraseG "we're", "we are"); (phraseG "they're", "they are");
    (phraseG "isn't", "is not"); (phraseG "aren't", "are not") ].

Definition casualPhrases : list (RegExp * string) :=
  [ (phraseG "requires immediate attention", "needs quick action");
    (phraseG "careful analysis", "a good look");
    (phraseG "comprehensive", "thorough"); (phraseG "utilize", "use");
    (phraseG "demonstrate", "show"); (phraseG "facilitate", "help");
    (phraseG "accomplish", "do") ].

(** The tone-specific variation, when the tone has one. *)
Definition toneRewrites (sentence : string) (tone : option string)
    : list string :=
  if toneIs tone "polite" then
    if negb (Str.includes sentence "please")
       && negb (Str.includes sentence "would")
       && negb (Str.includes sentence "could")
    then
      [ if Str.startsWith (Str.toLowerCase sentence) "send"
        then ("Could you please " ++ Str.toLowerCase sentence)%string
        else ("Would you please " ++ Str.toLowerCase sentence)%string ]
    else []
  else if toneIs tone "formal" then
    let formalVersion := replaceEach contractions sentence in
    if negb (String.eqb formalVersion sentence) then [formalVersion] else []
  else if toneIs tone "casual" then
    let casualVersion := replaceEach casualPhrases sentence in
    if negb (String.eqb casualVersion sentence) then [casualVersion] else []
  else [].

Definition generateStructureRewrites (sentence : string)
    (tone : option string) : list string :=
  let conciseVersion := replaceEach wordyPatterns sentence in
  let rewrites :=
    passiveLoop sentence passivePatterns
      ++ (if negb (String.eqb conciseVersion sentence)
          then [conciseVersion] else [])
      ++ toneRewrites sentence tone in
  List.filter (fun r => negb (String.eqb r sentence) && nonBlank r) rewrites.

(** [/\bword\b/g]. *)
Definition exactWord (word : string) : RegExp :=
  mkRegExp (seq [WordB; lit word; WordB]) false true.

Definition substitutions : list (RegExp * string) :=
  [ (exactWord "The", "A"); (exactWord "the", "a"); (exactWord "and", "plus");
    (exactWord "over", "across"); (exactWord "jumps", "leaps") ].

Definition transitions : list string :=
  ["Additionally,"; "Furthermore,"; "Moreover,"; "In addition,"].

Definition generateVariationRewrite (sentence : string) (variation : nat)
    : string :=
  let variant :=
    (sentence ++ " (variant " ++ Str.decimal variation ++ ")")%string in
  if Nat.eqb variation 1 then
    let transition := List.nth (variation mod List.length transitions)
                               transitions "" in
    transition ++ " " ++ uncapitalize sentence
  else if Nat.eqb variation 2 then
    let modifiedSentence := replaceEach substitutions sentence in
    if negb (String.eqb modifiedSentence sentence) then modifiedSentence
    else
      let words_ := Str.splitChar " " sentence in
      if Nat.ltb 3 (List.length words_) then
        capitalize (Str.join " " (List.tl words_) ++ " "
                      ++ Str.toLowerCase (List.hd "" words_))%string
      else variant
  else variant.

(** One turn of [while (rewrites.length < 3)]: what it pushes. *)
Definition nextRewrite (sentence : string) (tone : option string)
    (rewrites : list string) : string :=
  let forced := generateFallbackSynonymRewrite sentence tone in
  if Nat.eqb (List.length rewrites) 1 && negb (String.eqb forced sentence)
  then forced
  else
    let variation := generateVariationRewrite sentence (List.length rewrites) in
    if nonBlank variation && negb (String.eqb variation sentence)
    then variation
    else if negb (String.eqb forced sentence) then forced
    else sentence ++ " (enhanced " ++ Str.decimal (List.length rewrites) ++ ")".

(** The [while] loop; [None] when [fuel] turns do not end it. *)
Fixpoint ensureThree (sentence : string) (tone : option string)
    (fuel : nat) (rewrites : list string) : option (list string) :=
  if Nat.ltb (List.length rewrites) 3 then
    match fuel with
    | O => None
    | S fuel' =>
        ensureThree sentence tone fuel'
          (rewrites ++ [nextRewrite sentence tone rewrites])
    end
  else Some rewrites.

Section Rewriting.

(** [processText] of the NLP service, which tokenizes with the NLP library
    and asks the synonym provider: its tokens, or [Throw] when the promise
    rejects. *)
Variable enhancedProcessText : string -> result (list EnhancedToken).

(** The milliseconds [performance.now()] measures from the start of the
    call to the end of the loop. *)
Variable duration : Q.

(** [rewriteSentence]; [None] would be a [while] loop that never ends. *)
Definition rewriteSentence (sentence : string) (tone : option string)
    : option (list string) :=
  let original := [sentence; sentence; sentence] in
  if String.eqb sentence "" then Some [""]
  else if Nat.eqb (String.length (Str.trim sentence)) 0 then Some [sentence]
  else
    match enhancedProcessText sentence with
    | Throw _ => Some original
    | Ok tokens =>
        match generateSynonymRewrite tokens tone with
        | Throw _ => Some original
        | Ok synonymRewrite =>
            let r1 :=
              [sentence]
                ++ (if negb (String.eqb synonymRewrite sentence)
                       && nonBlank synonymRewrite
                    then [synonymRewrite] else []) in
            let fallbackRewrite :=
              generateFallbackSynonymRewrite sentence tone in
            let r2 :=
              r1 ++ (if negb (String.eqb fallbackRewrite sentence)
                        && nonBlank fallbackRewrite
                        && negb (Str.mem fallbackRewrite r1)
                     then [fallbackRewrite] else []) in
            let r3 :=
              r2 ++ List.filter nonBlank
                      (generateStructureRewrites sentence tone) in
            match ensureThree sentence tone 3 r3 with
            | None => None
            | Some rewrites =>
                if Qlt_le_dec 200 duration then Some original
                else Some (firstn 3 rewrites)
            end
        end
    end.

End Rewriting.

(** *** The tone detector *)

Record ToneResult : Type := mkTone { tone : string; score : Q }.

Record Lexicon : Type := mkLexicon {
  lex_words : list string;
  lex_patterns : list RegExp
}.

(** [/\b(p1|p2|...)\b/i]. *)
Definition phrases (ps : list string) : RegExp :=
  mkRegExp (seq [WordB; Grp 1 (words ps); WordB]) true false.

(** [TONE_LEXICONS], in the order [Object.entries] lists its keys. *)
Definition TONE_LEXICONS : list (string * Lexicon) :=
  [ ("formal",
     mkLexicon
       ["therefore"; "furthermore"; "consequently"; "moreover"; "nevertheless";
        "however"; "accordingly"; "thus"; "hence"; "regarding"; "concerning";
        "pursuant"; "notwithstanding"]
       [phrases ["it is"; "one must"; "it would be"; "it should be"];
        phrases ["in conclusion"; "in summary"; "to summarize"]]);
    ("informal",
     mkLexicon
       ["gonna"; "wanna"; "gotta"; "yeah"; "nope"; "ok"; "okay"; "cool";
        "awesome"; "totally"; "basically"; "like"; "you know"; "kinda"; "sorta"]
       [phrases ["don't"; "won't"; "can't"; "isn't"; "aren't"];
        phrases ["what's up"; "hey there"; "sup"]]);
    ("friendly",
     mkLexicon
       ["thanks"; "please"; "appreciate"; "wonderful"; "great"; "amazing";
        "fantastic"; "lovely"; "nice"; "kind"; "helpful"; "welcome"; "enjoy";
        "hope"]
       [phrases ["thank you"; "thanks so much"; "really appreciate"];
        phrases ["hope you"; "wish you"; "looking forward"]]);
    ("professional",
     mkLexicon
       ["deliver"; "implement"; "execute"; "optimize"; "analyze"; "strategic";
        "efficient"; "effective"; "comprehensive"; "solution"; "objective";
        "stakeholder"; "collaborate"; "synergy"]
       [phrases ["best practices"; "industry standard"; "key performance"];
        phrases ["moving forward"; "next steps"; "action items"]]) ].

(** [(text.match(rx) || []).length]: the number of matches of a [g]
    pattern; for a pattern without [g], the length of the array of the first
    match, which holds the match and its groups. *)
Definition matchLength (rx : RegExp) (text_ : string) : nat :=
  if global rx then List.length (matchAll rx text_)
  else match exec rx text_ with
       | Some _ => 1 + ngroups (source rx)
       | None => 0
       end.

Definition sum (l : list nat) : nat := List.fold_right Nat.add 0 l.

(** [score] after the two [forEach] loops of a tone. *)
Definition rawScore (lexicon : Lexicon) (text_ : string) : nat :=
  sum (List.map (fun word => matchLength (wholeWord word) text_)
         (lex_words lexicon))
  + sum (List.map (fun pattern => matchLength pattern text_ * 2)
           (lex_patterns lexicon)).

Definition ofNat (n : nat) : Q := inject_Z (Z.of_nat n).

Definition normalizedScore (score_ wordCount : nat) : Q :=
  if Nat.leb wordCount 10
  then Qmin 1 (ofNat score_ / Qmax 1 (ofNat wordCount * (5 # 100)))
  else Qmin 1 (ofNat score_ / Qmax 1 (ofNat wordCount * (8 # 100))).

(** What the loop over the tones pushes for one tone. *)
Definition toneEntry (text_ : string) (wordCount : nat)
    (entry : string * Lexicon) : list ToneResult :=
  let n := normalizedScore (rawScore (snd entry) text_) wordCount in
  if Qlt_le_dec (5 # 100) n then [mkTone (fst entry) (Qmax (1 # 10) n)]
  else [].

(** The [forEach] that adds the tones without a result; [existingTones]
    is the set of the tones that have one, taken before anything is added. *)
Definition addMissing (names : list string) (sortedResults : list ToneResult)
    : list ToneResult :=
  let existingTones := List.map tone sortedResults in
  sortedResults
    ++ List.map (fun name => mkTone name 0)
         (List.filter (fun name => negb (Str.mem name existingTones)) names).

(** [detectTone]; nothing in its [try] block throws on a string. *)
Definition detectTone (text_ : string) : list ToneResult :=
  if String.eqb text_ "" then []
  else if Nat.eqb (String.length (Str.trim text_)) 0 then []
  else
    let wordCount := List.length (Str.splitBlanks text_) in
    let results := List.flat_map (toneEntry text_ wordCount) TONE_LEXICONS in
    let sortedResults := sortDesc score results in
    addMissing (List.map fst TONE_LEXICONS) sortedResults.

End GrammarEngine.

(** ** The style service ([styleService.ts]) *)

Module StyleService.

Import Regex.

Inductive SeverityLevel : Type := INFO | WARNING | ERROR.

Record Suggestion : Type := mkSuggestion {
  sg_type : string;
  sg_message : string;
  sg_explanation : string;
  sg_severity : SeverityLevel;
  sg_line : nat;
  sg_column : nat;
  sg_suggestion : option string
}.

(** A style rule; [replacement] is a function of the match that returns a
    string or throws. *)
Record StyleRule : Type := mkStyleRule {
  sr_type : string;
  sr_pattern : RegExp;
  sr_message : string;
  sr_explanation : string;
  sr_severity : SeverityLevel;
  sr_replacement : option (Match -> result string)
}.

(** [/\b ... \b/gi]. *)
Definition bounded (body : list re) : RegExp :=
  mkRegExp (seq ([WordB] ++ body ++ [WordB])) true true.

(** The [replacement] of the passive-voice rule. *)
Definition passiveReplacement (mt : Match) : result string :=
  let text_ := matched mt in
  if Str.includes text_ "was written by" then Ok "John wrote the report"
  else Ok text_.

(** The passive-voice rule: [/\b(was|were|is|are|been|be)\s+\w+\s+by\b/gi]. *)
Definition PASSIVE_VOICE : StyleRule :=
  mkStyleRule "passive-voice"
    (bounded [Grp 1 (words ["was"; "were"; "is"; "are"; "been"; "be"]);
              plus blank; plus wordc; plus blank; lit "by"])
    "Consider using active voice instead of passive voice"
    "Active voice makes writing more direct and engaging than passive voice."
    WARNING (Some passiveReplacement).

(** [STYLE_RULES] as the module initialises it. *)
Definition STYLE_RULES : list StyleRule :=
  [ PASSIVE_VOICE;
    mkStyleRule "wordiness" (bounded [lit "in order to"])
      "Replace wordy phrase with simpler alternative"
      "Concise writing is more effective." INFO (Some (fun _ => Ok "To"));
    mkStyleRule "wordiness" (bounded [lit "due to the fact that"])
      "Replace wordy phrase with simpler alternative"
      "Concise writing is more effective." INFO (Some (fun _ => Ok "because"));
    mkStyleRule "vague-language"
      (bounded [Grp 1 (words ["thing"; "stuff"; "very"; "really"; "quite";
                              "pretty"])])
      "Avoid vague language - consider using more specific words"
      "Specific words convey meaning more effectively." INFO None;
    mkStyleRule "redundancy"
      (bounded [Grp 1 (words ["personally believe"; "in my opinion";
                              "I think that"])])
      "Remove redundant phrase"
      "These phrases add no meaningful information." WARNING None;
    mkStyleRule "redundancy"
      (bounded [Grp 1 (words ["absolutely essential"; "completely finished";
                              "totally unique"])])
      "Remove redundant modifier"
      "These adjectives are already implied by the noun." WARNING None ].

Definition isTerminal (c : ascii) : bool :=
  Ascii.eqb c "." || Ascii.eqb c "!" || Ascii.eqb c "?".

(** [checkSentenceLength]: the sentences are the pieces of
    [line.split(/[.!?]+/)]. *)
Definition checkSentenceLength (line : string) (lineNumber : nat)
    : list Suggestion :=
  List.flat_map
    (fun sentence =>
       let trimmed := Str.trim sentence in
       if Nat.ltb 100 (String.length trimmed) then
         [mkSuggestion "sentence-length"
            "Consider breaking this long sentence into shorter ones"
            "Shorter sentences improve readability and comprehension"
            WARNING lineNumber
            (Z.to_nat (Str.indexOf line trimmed 0 + 1)) None]
       else [])
    (Str.splitRuns isTerminal false line).

(** [/in order to/gi]. *)
Definition inOrderTo : RegExp := mkRegExp (lit "in order to") true true.

(** [/(.+)\s+was written by\s+(.+)/]. *)
Definition writtenBy : RegExp :=
  mkRegExp (seq [Grp 1 (plus Dot); plus blank; lit "was written by";
                 plus blank; Grp 2 (plus Dot)]) false false.

(** The [catch] branch of the replacement: the fallback for the passive
    "was written by", which names the agent of the matched text. *)
Definition fallbackSuggestion (rule : StyleRule) (mt : Match) : option string :=
  if String.eqb (sr_type rule) "passive-voice"
     && Str.includes (matched mt) "was written by"
  then match exec writtenBy (matched mt) with
       | Some parts =>
           Some (orEmpty (group 2 parts) ++ " wrote the report")%string
       | None => None
       end
  else None.

(** The [suggestion] property the loop body sets for a match. *)
Definition suggestionFor (rule : StyleRule) (mt : Match) : option string :=
  match sr_replacement rule with
  | None => None
  | Some replacement =>
      if String.eqb (sr_type rule) "wordiness"
         && Str.includes (Str.toLowerCase (matched mt)) "in order to"
      then Some (replace inOrderTo (input mt) "To")
      else match replacement mt with
           | Ok s => Some s
           | Throw _ => fallbackSuggestion rule mt
           end
  end.

(** The body of the [while] loop: the suggestion pushed for a match. *)
Definition styleSuggestion (rule : StyleRule) (lineNumber : nat) (mt : Match)
    : Suggestion :=
  mkSuggestion (sr_type rule) (sr_message rule) (sr_explanation rule)
    (sr_severity rule) lineNumber (index mt + 1) (suggestionFor rule mt).

Definition emptyMatch (mt : Match) : bool := Nat.eqb (endIndex mt) (index mt).

(** The matches [while ((match = regex.exec(line)) !== null)] visits.  With
    the [g] flag [exec] goes on from the end of the last match, so an empty
    match is found again and again: [None] is that endless loop.  Without
    the flag the [break] ends the loop after the first match. *)
Definition execLoop (rx : RegExp) (line : string) : option (list Match) :=
  if global rx then
    let ms := matchAll rx line in
    if existsb emptyMatch ms then None else Some ms
  else match exec rx line with
       | Some mt => Some [mt]
       | None => Some []
       end.

Definition checkStyleRule (line : string) (lineNumber : nat) (rule : StyleRule)
    : option (list Suggestion) :=
  match execLoop (sr_pattern rule) line with
  | Some ms => Some (List.map (styleSuggestion rule lineNumber) ms)
  | None => None
  end.

(** Lists computed one after the other, each of which may diverge. *)
Fixpoint concatAll {A B : Type} (f : A -> option (list B)) (l : list A)
    : option (list B) :=
  match l with
  | [] => Some []
  | a :: l' =>
      match f a with
      | None => None
      | Some bs =>
          match concatAll f l' with
          | None => None
          | Some rest_ => Some (bs ++ rest_)
          end
      end
  end.

Definition checkStyleRules (rules : list StyleRule) (line : string)
    (lineNumber : nat) : option (list Suggestion) :=
  concatAll (checkStyleRule line lineNumber) rules.

(** The lines with their numbers, as [lines.forEach((line, lineIndex))]
    visits them. *)
Fixpoint numbered {A : Type} (l : list A) (i : nat) : list (nat * A) :=
  match l with
  | [] => []
  | a :: l' => (i + 1, a) :: numbered l' (S i)
  end.

(** [suggestStyle] on the rule table as it stands. *)
Definition suggestStyle (rules : list StyleRule) (text_ : string)
    : option (list Suggestion) :=
  if String.eqb text_ "" || Nat.eqb (String.length (Str.trim text_)) 0
  then Some []
  else
    concatAll
      (fun nl =>
         match checkStyleRules rules (snd nl) (fst nl) with
         | Some styleSuggestions =>
             Some (checkSentenceLength (snd nl) (fst nl) ++ styleSuggestions)
         | None => None
         end)
      (numbered (Str.splitChar newline text_) 0).

(** *** [loadStyleGuide] *)

Definition severityLevelOf (v : string) : option SeverityLevel :=
  if String.eqb v "info" then Some INFO
  else if String.eqb v "warning" then Some WARNING
  else if String.eqb v "error" then Some ERROR
  else None.

Section Loading.

(** [new RegExp(pattern, flags)] and [new Function('match', body)] of the
    JavaScript engine, [None] when they throw a [SyntaxError]. *)
Variable newRegExp : string -> string -> option RegExp.
Variable newFunction : string -> option (Match -> result string).

(** The callback of [config.rules.map] on an entry that is not [null]. *)
Definition compileRule (rule : GrammarEngine.RuleConfig) (index : nat)
    : result StyleRule :=
  let pattern_ := orEmpty (GrammarEngine.rc_pattern rule) in
  let invalid := Throw (GrammarEngine.invalidPattern index pattern_) in
  if negb (truthy (GrammarEngine.rc_type rule))
     || negb (truthy (GrammarEngine.rc_pattern rule))
     || negb (truthy (GrammarEngine.rc_message rule))
     || negb (truthy (GrammarEngine.rc_explanation rule))
     || negb (truthy (GrammarEngine.rc_severity rule))
  then Throw (GrammarEngine.missingProperties index)
  else
    match severityLevelOf (orEmpty (GrammarEngine.rc_severity rule)) with
    | None =>
        Throw (GrammarEngine.invalidSeverity
                 (orEmpty (GrammarEngine.rc_severity rule)) index)
    | Some severity =>
        match newRegExp pattern_ (orEmpty (GrammarEngine.rc_flags rule)) with
        | None => invalid
        | Some pattern =>
            let rule' replacement :=
              Ok (mkStyleRule (orEmpty (GrammarEngine.rc_type rule)) pattern
                    (orEmpty (GrammarEngine.rc_message rule))
                    (orEmpty (GrammarEngine.rc_explanation rule))
                    severity replacement) in
            if truthy (GrammarEngine.rc_replacement rule) then
              match newFunction (orEmpty (GrammarEngine.rc_replacement rule)) with
              | Some f => rule' (Some f)
              | None => invalid
              end
            else rule' None
        end
    end.

(** The callback of [config.rules.map]: on a [null] entry the first
    thing it does, reading [rule.type], throws. *)
Definition compileEntry (entry : option GrammarEngine.RuleConfig)
    (index : nat) : result StyleRule :=
  match entry with
  | None => Throw (GrammarEngine.cannotRead "type")
  | Some rule => compileRule rule index
  end.

(** [loadStyleGuide] on what reading and parsing the file gave and on the
    rule table as it stands: what the call returns or throws, and the table
    afterwards. *)
Definition loadStyleGuide (file : result GrammarEngine.Config)
    (table : list StyleRule) : result unit * list StyleRule :=
  let failed msg := Throw ("Failed to load style guide: " ++ msg) in
  match file with
  | Throw msg => (failed msg, table)
  | Ok config =>
      match GrammarEngine.rules config with
      | None => (failed GrammarEngine.noRulesArray, table)
      | Some entries =>
          match GrammarEngine.mapIndexed compileEntry entries 0 with
          | Throw msg => (failed msg, table)
          | Ok loadedRules => (Ok tt, loadedRules)
          end
      end
  end.

End Loading.

End StyleService.

(** ** The NLP service ([nlpService.ts]): custom entities *)

Module NlpService.

Record Token : Type := mkToken { text : string; pos : string }.

Record Entity : Type := mkEntity {
  e_text : string;
  e_type : string;
  e_start : Z;
  e_end : Z
}.

(** The callback of [words.map] in [entityRecognizer], after the
    [entity:] filter. *)
Definition customEntity (tokens : list Token) (word : string) : option Entity :=
  match Str.splitChar ":" word with
  | _ :: type_ :: value :: _ =>
      match List.find
              (fun t => String.eqb (Str.toLowerCase (text t))
                                   (Str.toLowerCase value)) tokens with
      | Some _ => Some (mkEntity value type_ (-1) (-1))
      | None => None
      end
  | _ => None
  end.

(** The custom entities [entityRecognizer] appends to its results, from the
    words [dictionaryStore.listWords()] returned. *)
Definition customEntities (words_ : list string) (tokens : list Token)
    : list Entity :=
  GrammarEngine.somes
    (List.map (customEntity tokens)
       (List.filter (fun word => Str.startsWith word "entity:") words_)).

End NlpService.

(** ** The NLP processor ([nlpProcessor.ts]): entity tokens *)

Module NlpProcessor.

Import GrammarEngine.

(** [matchesEntitySequence]: [None] is the [TypeError] of reading a token
    past the end of the array. *)
Fixpoint matchesEntitySequence (tokens : list Token) (startIndex : nat)
    (entityWords : list string) (i : nat) : option bool :=
  match entityWords with
  | [] => Some true
  | word :: more =>
      match nth_error tokens (startIndex + i) with
      | None => None
      | Some t =>
          if tokenIs word t
          then matchesEntitySequence tokens startIndex more (S i)
          else Some false
      end
  end.

Fixpoint sequenceLoop (tokens : list Token) (entityWords : list string)
    (todo i : nat) : option (list Token) :=
  match todo with
  | O => Some []
  | S todo' =>
      match matchesEntitySequence tokens i entityWords 0 with
      | None => None
      | Some true => Some (slice tokens i (i + List.length entityWords))
      | Some false => sequenceLoop tokens entityWords todo' (S i)
      end
  end.

Definition findEntityTokensOptimized (entityText : string)
    (tokens : list Token) : option (list Token) :=
  let entityWords := Str.splitBlanks (Str.toLowerCase entityText) in
  let entityLength := List.length entityWords in
  match entityWords with
  | [targetWord] =>
      match List.find (tokenIs targetWord) tokens with
      | Some matchingToken => Some [matchingToken]
      | None => Some []
      end
  | _ =>
      sequenceLoop tokens entityWords
        (iterations (List.length tokens) entityLength) 0
  end.

End NlpProcessor.

(** ** The synonym scoring strategies ([synonymContext.ts]) *)

Module SynonymContext.

Record Mapping : Type := mkMapping {
  keywords : list string;
  synonymScores : list (string * Q)
}.

Record ContextScoringConfig : Type := mkScoring {
  contextMappings : list (string * Mapping);
  defaultScore : Q
}.

Definition DEFAULT_CONTEXT_CONFIG : ContextScoringConfig :=
  mkScoring
    [ ("financial",
       mkMapping ["financial"; "money"; "loan"; "credit"; "bank"]
         [ ("institution", 9 # 10); ("lender", 9 # 10); ("financier", 9 # 10);
           ("shore", 1 # 10); ("riverside", 1 # 10) ]);
      ("geographical",
       mkMapping ["river"; "water"; "shore"; "stream"]
         [ ("shore", 9 # 10); ("riverside", 9 # 10); ("embankment", 9 # 10);
           ("institution", 1 # 10); ("lender", 1 # 10) ]) ]
    (5 # 10).

(** A score as the strategy computes it: a number, here an exact
    rational, or [NaN]. *)
Inductive Score : Type :=
| Num (q : Q)
| NaN.

Record Scored : Type := mkScored { synonym : string; score : Score }.

(** The names every object inherits from [Object.prototype]. *)
Definition inheritedKeys : list string :=
  [ "constructor"; "__defineGetter__"; "__defineSetter__"; "hasOwnProperty";
    "__lookupGetter__"; "__lookupSetter__"; "isPrototypeOf";
    "propertyIsEnumerable"; "toString"; "valueOf"; "__proto__";
    "toLocaleString" ].

(** [mapping.synonymScores[synonym]], as the number [Math.max] makes of
    it: [None] for [undefined]; the score of an own key; and for a name
    the object inherits, which reads a function or the prototype and not
    [undefined], [NaN]. *)
Definition scoreOf (mapping : Mapping) (synonym_ : string) : option Score :=
  match GrammarEngine.lookup synonym_ (synonymScores mapping) with
  | Some s => Some (Num s)
  | None => if Str.mem synonym_ inheritedKeys then Some NaN else None
  end.

(** [Math.max(a, b)]: [NaN] as soon as an argument is. *)
Definition maxScore (a b : Score) : Score :=
  match a, b with
  | Num x, Num y => Num (Qmax x y)
  | _, _ => NaN
  end.

(** [contextWords.some(word => mapping.keywords.includes(word))]. *)
Definition hasContextKeywords (mapping : Mapping) (contextWords : list string)
    : bool :=
  existsb (fun word => Str.mem word (keywords mapping)) contextWords.

(** The body of the loop over the context mappings. *)
Definition better (synonym_ : string) (contextWords : list string)
    (bestScore : Score) (entry : string * Mapping) : Score :=
  if hasContextKeywords (snd entry) contextWords then
    match scoreOf (snd entry) synonym_ with
    | Some s => maxScore bestScore s
    | None => bestScore
    end
  else bestScore.

Definition calculateContextScore (config : ContextScoringConfig)
    (synonym_ : string) (contextWords : list string) : Score :=
  List.fold_left (better synonym_ contextWords) (contextMappings config)
    (Num (defaultScore config)).

(** Whether the comparator [(a, b) => b.score - a.score] leaves [a]
    before [b]: the difference is not positive, and a difference that is
    [NaN] counts as 0. *)
Definition keepsOrder (a b : Scored) : bool :=
  match score a, score b with
  | Num x, Num y => Qle_bool y x
  | _, _ => true
  end.

(** [Array.prototype.sort] with that comparator: descending by score, and
    stable, so that scores that compare as equal keep their order.  Where
    a score is [NaN] the comparator is not consistent and the order is the
    engine's; this is the one a stable insertion gives. *)
Fixpoint insertScored (x : Scored) (l : list Scored) : list Scored :=
  match l with
  | [] => [x]
  | y :: l' => if keepsOrder x y then x :: l else y :: insertScored x l'
  end.

Fixpoint sortScored (l : list Scored) : list Scored :=
  match l with
  | [] => []
  | x :: l' => insertScored x (sortScored l')
  end.

(** [TFIDFScoringStrategy.scoreSynonyms]. *)
Definition scoreSynonyms (config : ContextScoringConfig) (word : string)
    (synonyms : list string) (context : list string) : list Scored :=
  match synonyms with
  | [] => []
  | _ =>
      let contextWords := List.map Str.toLowerCase context in
      sortScored
        (List.map
           (fun synonym_ =>
              mkScored synonym_
                (if Nat.ltb 0 (List.length context)
                 then calculateContextScore config
                        (Str.toLowerCase synonym_) contextWords
                 else Num (defaultScore config)))
           synonyms)
  end.

End SynonymContext.

(** ** The logger ([logger.ts]) *)

Module Logger.

Inductive LogLevel : Type := ERROR | WARN | INFO | DEBUG.

Definition levelEqb (a b : LogLevel) : bool :=
  match a, b with
  | ERROR, ERROR | WARN, WARN | INFO, INFO | DEBUG, DEBUG => true
  | _, _ => false
  end.

(** An entry of the log; [timestamp] is what [new Date()] gave, [error] the
    message of the [Error] logged with it. *)
Record LogEntry : Type := mkLogEntry {
  timestamp : Z;
  level : LogLevel;
  message : string;
  context : option string;
  error : option string
}.

Definition maxLogs : nat := 1000.

(** [arr.slice(-n)] for a positive [n]: the last [n] elements. *)
Definition lastN {A : Type} (n : nat) (l : list A) : list A :=
  skipn (List.length l - n) l.

(** [log], up to what it prints on the console: the stored entries
    afterwards. *)
Definition log (logs : list LogEntry) (entry : LogEntry) : list LogEntry :=
  let pushed := logs ++ [entry] in
  if Nat.ltb maxLogs (List.length pushed) then lastN maxLogs pushed
  else pushed.

(** [getLogs(level)]; every level is a non-empty string, so a level given
    always filters. *)
Definition getLogs (logs : list LogEntry) (level_ : option LogLevel)
    : list LogEntry :=
  match level_ with
  | Some l => List.filter (fun entry => levelEqb (level entry) l) logs
  | None => logs
  end.

Definition clearLogs (logs : list LogEntry) : list LogEntry := [].

End Logger.

(** ** The dictionary store ([dictionaryStore.ts]) *)

Module DictionaryStore.

(** A [Set] of strings lists its members in insertion order. *)
Definition has (w : string) (set : list string) : bool := Str.mem w set.

Definition add (w : string) (set : list string) : list string :=
  if has w set then set else set ++ [w].

Definition delete (w : string) (set : list string) : list string :=
  List.filter (fun x => negb (String.eqb x w)) set.

(** [new Set(array)]. *)
Definition fromArray (array : list string) : list string :=
  List.fold_left (fun set w => add w set) array [].

(** [array.sort()]: ascending by code units. *)
Fixpoint insertSorted (x : string) (l : list string) : list string :=
  match l with
  | [] => [x]
  | y :: l' => if String.leb x y then x :: l else y :: insertSorted x l'
  end.

Definition sort (l : list string) : list string :=
  List.fold_right insertSorted [] l.

(** The fields of the store the methods read and write. *)
Record Store : Type := mkStore {
  words : list string;
  isInitialized : bool
}.

Definition notInitialized : string := "Dictionary store not initialized".

(** [word.toLowerCase().trim()]. *)
Definition normalize (word : string) : string :=
  Str.trim (Str.toLowerCase word).

(** The message [initialize] throws for an error caught with message
    [msg]. *)
Definition initializeError (msg : string) : string :=
  if Str.includes msg "bad decrypt"
  then "Failed to decrypt dictionary: invalid passphrase"
  else if Str.includes msg "Invalid"
  then "Dictionary file appears to be corrupted"
  else msg.

(** [initialize]: [fileExists] is what [fs.existsSync] answers, [loaded]
    the array of words [loadFromFile] decrypts and parses or the message
    it throws, [saved] what [saveToFile] does when it is called. *)
Definition initialize (st : Store) (fileExists : bool)
    (loaded : result (list string)) (saved : result unit)
    : result unit * Store :=
  if isInitialized st then (Ok tt, st)
  else if fileExists then
    match loaded with
    | Ok wordsArray => (Ok tt, mkStore (fromArray wordsArray) true)
    | Throw msg => (Throw (initializeError msg), st)
    end
  else
    match saved with
    | Ok _ => (Ok tt, mkStore [] true)
    | Throw msg => (Throw (initializeError msg), mkStore [] false)
    end.

(** The methods below take [saved], the outcome of the [saveToFile] they
    await when they call it; the set is updated before the file is
    written. *)
Definition addWord (st : Store) (word : string) (saved : result unit)
    : result unit * Store :=
  if negb (isInitialized st) then (Throw notInitialized, st)
  else
    let normalizedWord := normalize word in
    if GrammarEngine.nonEmpty normalizedWord
       && negb (has normalizedWord (words st))
    then (saved, mkStore (add normalizedWord (words st)) (isInitialized st))
    else (Ok tt, st).

Definition removeWord (st : Store) (word : string) (saved : result unit)
    : result unit * Store :=
  if negb (isInitialized st) then (Throw notInitialized, st)
  else
    let normalizedWord := normalize word in
    if has normalizedWord (words st)
    then (saved, mkStore (delete normalizedWord (words st))
                   (isInitialized st))
    else (Ok tt, st).

Definition listWords (st : Store) : result (list string) :=
  if negb (isInitialized st) then Throw notInitialized
  else Ok (sort (words st)).

Definition hasWord (st : Store) (word : string) : result bool :=
  if negb (isInitialized st) then Throw notInitialized
  else Ok (has (normalize word) (words st)).

Definition getWordCount (st : Store) : result nat :=
  if negb (isInitialized st) then Throw notInitialized
  else Ok (List.length (words st)).

Definition clear (st : Store) (saved : result unit) : result unit * Store :=
  if negb (isInitialized st) then (Throw notInitialized, st)
  else (saved, mkStore [] (isInitialized st)).

(** The callback of [words.forEach] in [importWords]. *)
Definition importOne (set : list string) (word : string) : list string :=
  let normalizedWord := normalize word in
  if GrammarEngine.nonEmpty normalizedWord then add normalizedWord set
  else set.

Definition importWords (st : Store) (words_ : list string)
    (saved : result unit) : result unit * Store :=
  if negb (isInitialized st) then (Throw notInitialized, st)
  else
    let originalSize := List.length (words st) in
    let imported := List.fold_left importOne words_ (words st) in
    let st' := mkStore imported (isInitialized st) in
    if Nat.ltb originalSize (List.length imported) then (saved, st')
    else (Ok tt, st').

Definition exportWords (st : Store) : result (list string) := listWords st.

End DictionaryStore.

(** ** The synonym providers ([synonymProvider.ts], [synonymContext.ts]) *)

Module DictionarySynonymProvider.

(** [synonymsStr.split(',').map(s => s.trim()).filter(s => s.length > 0)]. *)
Definition synonymsOf (synonymsStr : string) : list string :=
  List.filter GrammarEngine.nonEmpty
    (List.map Str.trim (Str.splitChar "," synonymsStr)).

(** The loop over the [synonym:] entries: the first entry with three
    parts whose word is [word], case aside, decides. *)
Fixpoint entryLoop (word : string) (synonymEntries : list string)
    : list string :=
  match synonymEntries with
  | [] => []
  | entry :: more =>
      match Str.splitChar ":" entry with
      | _ :: entryWord :: synonymsStr :: _ =>
          if String.eqb (Str.toLowerCase entryWord) (Str.toLowerCase word)
          then
            if GrammarEngine.nonEmpty synonymsStr then synonymsOf synonymsStr
            else []
          else entryLoop word more
      | _ => entryLoop word more
      end
  end.

(** [getCandidates] on what [dictionary.listWords()] returned or threw;
    the context is not read. *)
Definition getCandidates (listed : result (list string)) (word : string)
    : list string :=
  if String.eqb word "" || String.eqb (Str.trim word) "" then []
  else
    match listed with
    | Ok words =>
        entryLoop word
          (List.filter (fun entry => Str.startsWith entry "synonym:") words)
    | Throw _ => []
    end.

End DictionarySynonymProvider.

Module NeuralEmbeddingStrategy.

(** Row [j] of the matrix, from the cell after [matrix[j][0]] on:
    [prevRow] is row [j - 1] from the cell above-left on, [left] the cell
    to the left. *)
Fixpoint fillRow (c2 : ascii) (str1 : string) (prevRow : list nat)
    (left : nat) : list nat :=
  match str1, prevRow with
  | String c1 t, diag :: ((up :: _) as prevRow') =>
      let substitutionCost := if Ascii.eqb c1 c2 then 0 else 1 in
      let cell :=
        Nat.min (Nat.min (left + 1) (up + 1)) (diag + substitutionCost) in
      cell :: fillRow c2 t prevRow' cell
  | _, _ => []
  end.

(** The rows for the characters of [str2] still to come; [prevRow] is row
    [j - 1], whole. *)
Fixpoint fillRows (str1 str2 : string) (prevRow : list nat) (j : nat)
    : list nat :=
  match str2 with
  | EmptyString => prevRow
  | String c2 t => fillRows str1 t (j :: fillRow c2 str1 prevRow j) (S j)
  end.

(** [levenshteinDistance]: row 0 is [0, 1, ..., str1.length], column 0 of
    row [j] is [j]; the distance is the last cell of the last row. *)
Definition levenshteinDistance (str1 str2 : string) : nat :=
  List.last (fillRows str1 str2 (List.seq 0 (S (String.length str1))) 1) 0.

Definition ofNat (n : nat) : Q := inject_Z (Z.of_nat n).

Definition calculateStringSimilarity (word1 word2 : string) : Q :=
  if String.eqb word1 word2 then 1%Q
  else
    let distance := levenshteinDistance word1 word2 in
    let maxLength := Nat.max (String.length word1) (String.length word2) in
    if Nat.eqb maxLength 0 then 1%Q
    else
      let similarity := (1 - ofNat distance / ofNat maxLength)%Q in
      Qmax (1 # 10) (Qmin (9 # 10) (similarity * (8 # 10) + (2 # 10)))%Q.

End NeuralEmbeddingStrategy.

Module ContextAwareSynonymProvider.

Import SynonymContext.

Section Provider.

(** [scoringStrategy.scoreSynonyms], which may throw. *)
Variable scoreSynonyms :
  string -> list string -> list string -> result (list Scored).

(** [getCandidates] on what [dictionary.listWords()] returned or threw;
    [context] is [None] when the argument is left out. *)
Definition getCandidates (listed : result (list string)) (word : string)
    (context : option (list string)) : list string :=
  if String.eqb word "" || String.eqb (Str.trim word) "" then []
  else
    match DictionarySynonymProvider.getCandidates listed word with
    | [] => []
    | synonyms =>
        match context with
        | Some ((_ :: _) as context_) =>
            match scoreSynonyms word synonyms context_ with
            | Ok scores => List.map synonym scores
            | Throw _ => synonyms
            end
        | _ => synonyms
        end
    end.

End Provider.

(** The provider over the keyword strategy ([TFIDFScoringStrategy]). *)
Definition withKeywords (config : ContextScoringConfig)
    : result (list string) -> string -> option (list string) -> list string :=
  getCandidates
    (fun word synonyms context =>
       Ok (SynonymContext.scoreSynonyms config word synonyms context)).

End ContextAwareSynonymProvider.

(** ** The suggestion service ([suggestionService.ts]) *)

Module SuggestionService.

(** The property names every object literal inherits from
    [Object.prototype]: reading one of them from a record that is used as
    a table gives a function or an object, which is truthy. *)
Definition inheritedKeys : list string :=
  [ "constructor"; "__defineGetter__"; "__defineSetter__"; "hasOwnProperty";
    "__lookupGetter__"; "__lookupSetter__"; "isPrototypeOf";
    "propertyIsEnumerable"; "toString"; "valueOf"; "__proto__";
    "toLocaleString" ].

(** What [table[key]] gives: the value of an own key, something inherited,
    or [undefined]. *)
Inductive Read (A : Type) : Type :=
| Own (value : A)
| Inherited
| Undefined.

Arguments Own {A} value.
Arguments Inherited {A}.
Arguments Undefined {A}.

Definition read {A : Type} (table : list (string * A)) (key : string)
    : Read A :=
  match GrammarEngine.lookup key table with
  | Some value => Own value
  | None => if Str.mem key inheritedKeys then Inherited else Undefined
  end.

Record ModelConfig : Type := mkModel {
  id : string;
  name : string;
  parameters : string;
  memoryRequirement : Q;
  accuracyScore : Q;
  expectedLatencyMs : Q;
  type_ : string
}.

Definition AVAILABLE_MODELS : list (string * ModelConfig) :=
  [ ("distilgpt2",
     mkModel "distilgpt2" "DistilGPT2 (0.8B)" "0.8B" 4 (82 # 100) 150
       "generative");
    ("gpt-neo-1.3b",
     mkModel "gpt-neo-1.3b" "GPT-Neo (1.3B)" "1.3B" 8 (88 # 100) 200
       "generative");
    ("gpt-neo-2.7b",
     mkModel "gpt-neo-2.7b" "GPT-Neo (2.7B)" "2.7B" 12 (91 # 100) 250
       "generative");
    ("t5-small",
     mkModel "t5-small" "T5 (Small)" "60M" 6 (85 # 100) 180
       "encoder-decoder");
    ("t5-base",
     mkModel "t5-base" "T5 (Base)" "220M" 10 (89 # 100) 220
       "encoder-decoder") ].

Record SuggestionConfig : Type := mkConfig {
  maxLatencyMs : Q;
  maxErrorRatePercent : Q;
  cacheTtlSeconds : Q;
  piiDetectionEnabled : bool;
  preferredModel : string
}.

(** [AVAILABLE_MODELS[modelId]] is truthy. *)
Definition modelKnown (modelId : string) : bool :=
  match read AVAILABLE_MODELS modelId with
  | Undefined => false
  | _ => true
  end.

Definition validateConfig (config : SuggestionConfig)
    : result SuggestionConfig :=
  if Qle_bool (maxLatencyMs config) 0
  then Throw "maxLatencyMs must be greater than 0"
  else if Qle_bool (maxErrorRatePercent config) 0
          || Qle_bool 100 (maxErrorRatePercent config)
  then Throw "maxErrorRatePercent must be between 0 and 100"
  else if Qle_bool (cacheTtlSeconds config) 0
  then Throw "cacheTtlSeconds must be greater than 0"
  else if negb (modelKnown (preferredModel config))
  then Throw ("Invalid model: " ++ preferredModel config
              ++ ". Available models: "
              ++ Str.join ", " (List.map fst AVAILABLE_MODELS))
  else Ok config.

(** The fields of the service its methods read and write. *)
Record Service : Type := mkService {
  config : SuggestionConfig;
  isInitialized : bool
}.

(** [new SuggestionService(config)]. *)
Definition create (config_ : SuggestionConfig) : result Service :=
  match validateConfig config_ with
  | Ok c => Ok (mkService c false)
  | Throw msg => Throw msg
  end.

(** [initialize]: what it returns or throws, and the service afterwards. *)
Definition initialize (st : Service) : result unit * Service :=
  if isInitialized st then (Ok tt, st)
  else if modelKnown (preferredModel (config st))
  then (Ok tt, mkService (config st) true)
  else (Throw ("Model " ++ preferredModel (config st) ++ " not available"),
        st).

Definition ensureInitialized (st : Service) : result unit * Service :=
  if isInitialized st then (Ok tt, st) else initialize st.

(** *** Text suggestions *)

Definition commonCombinations : list (string * list string) :=
  [ ("the", ["quick"; "best"; "most"; "only"; "first"]);
    ("in", ["order"; "case"; "time"; "fact"; "summary"]);
    ("to", ["be"; "do"; "make"; "get"; "have"]);
    ("of", ["the"; "this"; "that"; "course"; "all"]);
    ("and", ["then"; "also"; "finally"; "therefore"; "thus"]) ].

Definition notAFunction : string :=
  "commonCombinations[secondLastToken].forEach is not a function".

(** The suggestions the block for two tokens and more pushes; an
    inherited key is truthy and has no [forEach], which throws a
    [TypeError]. *)
Definition combinations (tokens : list string) (context : string)
    : result (list string) :=
  if Nat.leb 2 (List.length tokens) then
    let secondLastToken := List.nth (List.length tokens - 2) tokens "" in
    match read commonCombinations secondLastToken with
    | Own suggestions =>
        Ok (List.map (fun suggestion => context ++ " " ++ suggestion)%string
              suggestions)
    | Inherited => Throw notAFunction
    | Undefined => Ok []
    end
  else Ok [].

Definition completions (lastToken : string) : list string :=
  List.map (fun suffix => lastToken ++ suffix)%string
    [" completion"; " example"; " implementation"; " solution"; " approach"].

Definition sentenceCompletions (context : string) : list string :=
  if Nat.ltb 10 (String.length context) && negb (Str.endsWith context ".")
  then List.map (fun suffix => context ++ suffix)%string
         [" and continue processing."; " for better results."; " as needed."]
  else [].

(** [generateTextSuggestions] on a non-empty array; the delay it awaits
    first does not enter the result. *)
Definition generateTextSuggestions (tokens : list string)
    : result (list string) :=
  let lastToken := List.last tokens "" in
  let context := Str.join " " tokens in
  match combinations tokens context with
  | Throw msg => Throw msg
  | Ok combined =>
      Ok (firstn 5 (combined ++ completions lastToken
                      ++ sentenceCompletions context))
  end.

(** [suggestText]; the latency it measures is only logged. *)
Definition suggestText (st : Service) (tokens : list string)
    : result (list string) * Service :=
  match ensureInitialized st with
  | (Throw msg, st') => (Throw msg, st')
  | (Ok _, st') =>
      match tokens with
      | [] => (Ok [], st')
      | _ =>
          match List.filter nonBlank tokens with
          | [] => (Ok [], st')
          | validTokens => (generateTextSuggestions validTokens, st')
          end
      end
  end.

(** *** Code suggestions *)

Definition lines (l : list string) : string :=
  Str.join (String newline "") l.

Definition functionSuggestions (lastWord : string) : list string :=
  [ lines [ "function " ++ lastWord ++ "Handler() {";
            "  // Implementation here"; "  return true;"; "}" ];
    lines [ "const " ++ lastWord ++ "Async = async () => {"; "  try {";
            "    // Async implementation"; "  } catch (error) {";
            "    console.error(error);"; "  }"; "};" ];
    lines [ "function validate" ++ capitalize lastWord ++ "(input) {";
            "  return input && typeof input === 'string';"; "}" ] ]%string.

Definition classSuggestions (lastWord : string) : list string :=
  [ lines [ "class " ++ capitalize lastWord ++ " {"; "  constructor() {";
            "    this.initialized = false;"; "  }"; ""; "  init() {";
            "    this.initialized = true;"; "  }"; "}" ];
    lines [ "interface I" ++ capitalize lastWord ++ " {"; "  id: string;";
            "  name: string;"; "  isActive: boolean;"; "}" ];
    lines [ "class " ++ capitalize lastWord ++ "Manager {";
            "  private items: " ++ capitalize lastWord ++ "[] = [];"; "";
            "  add(item: " ++ capitalize lastWord ++ ") {";
            "    this.items.push(item);"; "  }"; "}" ] ]%string.

Definition variableSuggestions (lastWord : string) : list string :=
  [ lines [ "const " ++ lastWord ++ "Config = {"; "  enabled: true,";
            "  timeout: 5000"; "};" ];
    lines [ "let " ++ lastWord ++ "State = {"; "  loading: false,";
            "  error: null,"; "  data: null"; "};" ];
    lines [ "const " ++ lastWord ++ "Utils = {";
            "  validate: (input) => Boolean(input),";
            "  format: (input) => String(input).trim()"; "};" ] ]%string.

Definition defaultSuggestions (lastWord : string) : list string :=
  [ "// " ++ lastWord ++ " implementation";
    "const " ++ lastWord ++ " = null;";
    "function process" ++ capitalize lastWord ++ "() { /* TODO */ }" ]%string.

Definition mentionsFunction (context : string) : bool :=
  Str.includes context "function" || Str.includes context "def"
  || Str.includes context "const".

Definition mentionsClass (context : string) : bool :=
  Str.includes context "class" || Str.includes context "interface".

Definition mentionsVariable (context : string) : bool :=
  Str.includes context "let" || Str.includes context "var"
  || Str.includes context "const".

Definition generateCodeSuggestions (context : string) : list string :=
  let contextWords := Str.splitBlanks (Str.toLowerCase context) in
  let lastWord := List.last contextWords "" in
  let suggestions :=
    (if mentionsFunction context then functionSuggestions lastWord else [])
    ++ (if mentionsClass context then classSuggestions lastWord else [])
    ++ (if mentionsVariable context then variableSuggestions lastWord
        else []) in
  firstn 5 (match suggestions with
            | [] => defaultSuggestions lastWord
            | _ => suggestions
            end).

Definition suggestCode (st : Service) (context : string)
    : result (list string) * Service :=
  match ensureInitialized st with
  | (Throw msg, st') => (Throw msg, st')
  | (Ok _, st') =>
      if String.eqb context ""
         || Nat.eqb (String.length (Str.trim context)) 0
      then (Ok [], st')
      else (Ok (generateCodeSuggestions context), st')
  end.

End SuggestionService.
(** ** The style service: batches ([styleService.ts]) *)

Module StyleBatch.

Import StyleService.

(** [suggestion.line += n]. *)
Definition shiftLine (n : nat) (s : Suggestion) : Suggestion :=
  mkSuggestion (sg_type s) (sg_message s) (sg_explanation s) (sg_severity s)
    (sg_line s + n) (sg_column s) (sg_suggestion s).

(** The callback of [paragraphs.forEach], from paragraph [index] on. *)
Fixpoint batchLoop (rules : list StyleRule) (paragraphs : list string)
    (index : nat) : option (list Suggestion) :=
  match paragraphs with
  | [] => Some []
  | paragraph :: more =>
      match suggestStyle rules paragraph with
      | None => None
      | Some suggestions =>
          match batchLoop rules more (S index) with
          | None => None
          | Some others =>
              Some (List.map (shiftLine (index * 10)) suggestions ++ others)
          end
      end
  end.

(** [analyzeBatch] on the rule table as it stands; [None] when
    [suggestStyle] never returns for a paragraph. *)
Definition analyzeBatch (rules : list StyleRule) (paragraphs : list string)
    : option (list Suggestion) :=
  batchLoop rules paragraphs 0.

End StyleBatch.
(** ** The NLP service ([nlpService.ts]): positions *)

Module NlpPositions.

Import NlpService.

(** [tokens.findIndex(p)]: [None] for [-1]. *)
Fixpoint findIndex {A : Type} (p : A -> bool) (l : list A) : option nat :=
  match l with
  | [] => None
  | a :: l' =>
      if p a then Some 0
      else match findIndex p l' with
           | Some i => Some (S i)
           | None => None
           end
  end.

(** The loops that add up [tokens[i].text.length + 1] over the tokens
    before the index. *)
Definition positionBefore (tokens : list Token) (tokenIndex : nat) : nat :=
  List.fold_left (fun position t => position + String.length (text t) + 1)
    (firstn tokenIndex tokens) 0.

(** [entityWords.every((word, index) => tokens[i + index].text.toLowerCase()
    === word)], from [index] on; [None] is the [TypeError] of reading
    [.text] past the end of the array. *)
Fixpoint everyWord (tokens : list Token) (i : nat) (entityWords : list string)
    (index : nat) : option bool :=
  match entityWords with
  | [] => Some true
  | word :: more =>
      match nth_error tokens (i + index) with
      | None => None
      | Some t =>
          if String.eqb (Str.toLowerCase (text t)) word
          then everyWord tokens i more (S index)
          else Some false
      end
  end.

(** The loop that adds up the lengths of the matched tokens and the
    blanks between them: [count] tokens are still to add, [j] is the
    index.  The tokens it reads exist, the match before it has read
    them. *)
Fixpoint endPosition (tokens : list Token) (i : nat) (count j position : nat)
    : nat :=
  match count with
  | O => position
  | S count' =>
      endPosition tokens i count' (S j)
        (position
         + String.length (text (List.nth (i + j) tokens (mkToken "" "")))
         + (if Nat.eqb count' 0 then 0 else 1))
  end.

(** The [for] loop over the start indices of a sequence. *)
Fixpoint sequencePosition (tokens : list Token) (entityWords : list string)
    (todo i : nat) : option (option (nat * nat)) :=
  match todo with
  | O => Some None
  | S todo' =>
      match everyWord tokens i entityWords 0 with
      | None => None
      | Some true =>
          let startPosition := positionBefore tokens i in
          Some (Some (startPosition,
                      endPosition tokens i (List.length entityWords) 0
                        startPosition))
      | Some false => sequencePosition tokens entityWords todo' (S i)
      end
  end.

(** [findEntityPosition]: [Some None] is [null], [None] a [TypeError]. *)
Definition findEntityPosition (entityText : string) (tokens : list Token)
    : option (option (nat * nat)) :=
  let entityWords := Str.splitBlanks (Str.toLowerCase entityText) in
  match entityWords with
  | [word] =>
      match findIndex
              (fun token => String.eqb (Str.toLowerCase (text token)) word)
              tokens with
      | None => Some None
      | Some tokenIndex =>
          let position := positionBefore tokens tokenIndex in
          Some (Some (position,
                      position
                      + String.length
                          (text (List.nth tokenIndex tokens (mkToken "" "")))))
      end
  | _ =>
      sequencePosition tokens entityWords
        (GrammarEngine.iterations (List.length tokens)
           (List.length entityWords)) 0
  end.

(** *** [processText] *)

(** [term.tags[0] || 'UNK']. *)
Definition firstTag (tags : list string) : string :=
  match tags with
  | tag :: _ => if String.eqb tag "" then "UNK" else tag
  | [] => "UNK"
  end.

Section Processing.

(** [nlp(sentence).json()[0]?.terms || []], or [Throw] when the library
    throws. *)
Variable nlp : string -> result (list GrammarEngine.NLPTerm).

(** [globalSynonymProvider]: [None] for [null], otherwise its
    [getCandidates], which may throw. *)
Variable globalSynonymProvider :
  option (string -> list string -> result (list string)).

Definition posTagger (sentence : string) : list Token :=
  if String.eqb sentence "" || Nat.eqb (String.length (Str.trim sentence)) 0
  then []
  else
    match nlp sentence with
    | Ok terms =>
        List.map
          (fun term =>
             mkToken (GrammarEngine.term_text term)
                     (firstTag (GrammarEngine.term_tags term)))
          terms
    | Throw _ =>
        List.map (fun t => mkToken t "UNK") (Str.splitBlanks sentence)
    end.

Definition skipped (pos_ : string) : bool :=
  String.eqb pos_ "Punctuation" || String.eqb pos_ "Determiner".

(** The callback of [tokens.map] that finds the positions, with
    [currentPosition] threaded through. *)
Fixpoint positions (text_ : string) (tokens : list Token)
    (currentPosition : Z) : list (Token * Z * Z) :=
  match tokens with
  | [] => []
  | token :: more =>
      let tokenIndex := Str.indexOf text_ (text token) currentPosition in
      let start_ :=
        if Z.eqb tokenIndex (-1) then currentPosition else tokenIndex in
      let end_ := (start_ + Z.of_nat (String.length (text token)))%Z in
      (token, start_, end_) :: positions text_ more (end_ + 1)%Z
  end.

(** The callback that enriches a token with its synonyms. *)
Definition enrich (contextWords : list string) (located : Token * Z * Z)
    : GrammarEngine.EnhancedToken :=
  let '(token, start_, end_) := located in
  let synonyms :=
    if skipped (pos token) then []
    else match globalSynonymProvider with
         | Some getCandidates =>
             match getCandidates (text token) contextWords with
             | Ok synonyms => synonyms
             | Throw _ => []
             end
         | None => []
         end in
  GrammarEngine.mkEnhanced (text token) (pos token) synonyms
    (Some start_) (Some end_).

(** [processText]; nothing in its [try] block throws, the provider's
    throws being caught token by token. *)
Definition processText (text_ : string) : list GrammarEngine.EnhancedToken :=
  if String.eqb text_ "" || Nat.eqb (String.length (Str.trim text_)) 0
  then []
  else
    let tokens := posTagger text_ in
    let contextWords :=
      List.map (fun token => Str.toLowerCase (text token))
        (List.filter
           (fun token =>
              GrammarEngine.nonEmpty (pos token) && negb (skipped (pos token)))
           tokens) in
    List.map (enrich contextWords) (positions text_ tokens 0).

End Processing.

End NlpPositions.

(** ** The entity recognizer of the grammar engine *)

Module EntityRecognizer.

Import GrammarEngine.

Section Recognition.

(** [nlp(text)] with the texts of the entities of [doc.people().json()],
    [doc.places().json()] and [doc.organizations().json()], or [Throw]
    when the library throws. *)
Variable entitiesOf :
  string -> result (list string * list string * list string).

(** [dictionaryStore]: [None] while no store is set, otherwise what its
    [listWords()] returns or throws. *)
Variable dictionaryStore : option (result (list string)).

Definition typeError : string := "Cannot read properties of undefined".

Definition extractNLPEntities (tokens : list Token) : result (list Entity) :=
  let text_ := Str.join " " (List.map text tokens) in
  match entitiesOf text_ with
  | Throw msg => Throw msg
  | Ok (people, places, organizations) =>
      match addEntitiesOptimized people "Person" tokens [] with
      | None => Throw typeError
      | Some withPeople =>
          match addEntitiesOptimized places "Location" tokens withPeople with
          | None => Throw typeError
          | Some withPlaces =>
              match addEntitiesOptimized organizations "Organization" tokens
                      withPlaces with
              | None => Throw typeError
              | Some entityResults => Ok entityResults
              end
          end
      end
  end.

Definition extractAllEntities (tokens : list Token) : result (list Entity) :=
  match extractNLPEntities tokens with
  | Throw msg => Throw msg
  | Ok nlpEntities =>
      match dictionaryStore with
      | Some (Ok words_) =>
          Ok (nlpEntities ++ processCustomEntities words_ tokens)
      | Some (Throw msg) => Throw msg
      | None => Ok nlpEntities
      end
  end.

(** [entityRecognizer], up to the timing it logs: whatever is thrown
    inside is caught and gives no entities. *)
Definition entityRecognizer (tokens : list Token) : list Entity :=
  match tokens with
  | [] => []
  | _ =>
      match extractAllEntities tokens with
      | Ok results => results
      | Throw _ => []
      end
  end.

End Recognition.

End EntityRecognizer.
(** ** Inline enhancements of the grammar engine *)

Module InlineEnhancements.

Import Regex GrammarEngine.

Record InlineSuggestion : Type := mkInline {
  is_text : string;
  is_start : Z;
  is_end : Z;
  is_suggestions : list string
}.

Record StylePattern : Type := mkStylePattern {
  sp_pattern : RegExp;
  sp_type : string;
  sp_message : string
}.

(** [(was|were|is|are|am|been|being)]. *)
Definition auxiliaries : re :=
  Grp 1 (words ["was"; "were"; "is"; "are"; "am"; "been"; "being"]).

(** [/\b(...)\b/gi] around one group of phrases. *)
Definition phrases (ps : list string) : RegExp :=
  mkRegExp (seq [WordB; Grp 1 (words ps); WordB]) true true.

Definition STYLE_PATTERNS : list StylePattern :=
  [ mkStylePattern
      (mkRegExp
         (seq [WordB; auxiliaries; plus blank;
               Grp 2 (words ["written"; "completed"; "analyzed"; "done"; "made";
                             "given"; "taken"; "spoken"; "created"; "developed";
                             "implemented"; "designed"; "built"; "established";
                             "formed"; "conducted"; "performed"; "executed";
                             "delivered"; "processed"; "handled"; "managed";
                             "controlled"; "directed"; "supervised"; "operated";
                             "maintained"]);
               WordB]) true true)
      "passive_voice" "Consider using active voice";
    mkStylePattern
      (mkRegExp
         (seq [WordB; auxiliaries; plus blank; plus wordc; lit "ed";
               plus blank; lit "by"; WordB]) true true)
      "passive_voice" "Consider using active voice";
    mkStylePattern
      (mkRegExp
         (seq [WordB;
               Grp 1 (words ["very"; "really"; "quite"; "rather"; "extremely";
                             "incredibly"; "absolutely"; "completely"; "totally";
                             "utterly"; "tremendously"; "enormously";
                             "exceptionally"; "remarkably"; "particularly";
                             "especially"; "significantly"]);
               plus blank; Grp 2 (plus wordc)]) true true)
      "intensity_adverbs" "Consider stronger adjectives instead of intensifiers";
    mkStylePattern
      (phrases ["in order to"; "due to the fact that"; "for the reason that";
                "in spite of the fact that"; "regardless of the fact that";
                "because of the fact that"; "in the event that";
                "in the case that"; "with regard to"; "with reference to";
                "in relation to"; "for the purpose of"; "with the intention of";
                "in view of the fact that"])
      "wordiness" "Consider more concise alternatives";
    mkStylePattern
      (phrases ["it is important to note that"; "it should be noted that";
                "it is worth mentioning that"; "it is interesting to note that";
                "please be aware that"; "take into consideration";
                "give consideration to"; "make a decision"; "reach a conclusion";
                "come to an agreement"; "take action"; "make an assumption"])
      "wordiness" "Consider more concise alternatives";
    mkStylePattern
      (phrases ["absolutely certain"; "completely eliminate"; "end result";
                "final outcome"; "past experience"; "advance planning";
                "future plans"; "close proximity"; "exact same"; "free gift";
                "true fact"; "personal opinion"; "advance warning"])
      "redundancy" "Remove redundant words" ].

(** The chain of [if (lowerText.includes(phrase)) return alternatives],
    with what the [switch] case returns at its end. *)
Fixpoint firstIncluded (lowerText : string)
    (cases : list (string * list string)) (otherwise : list string)
    : list string :=
  match cases with
  | [] => otherwise
  | (phrase, alternatives) :: more =>
      if Str.includes lowerText phrase then alternatives
      else firstIncluded lowerText more otherwise
  end.

Definition generateStyleSuggestions (text_ styleType : string) : list string :=
  let lowerText := Str.toLowerCase text_ in
  if String.eqb styleType "passive_voice" then
    ["use active voice"; "make subject perform action";
     "identify who performs the action"]
  else if String.eqb styleType "intensity_adverbs" then
    firstIncluded lowerText
      [ ("very good", ["excellent"; "outstanding"]);
        ("very bad", ["terrible"; "awful"]);
        ("very big", ["enormous"; "massive"]);
        ("very small", ["tiny"; "minuscule"]);
        ("very important", ["crucial"; "essential"]);
        ("very difficult", ["challenging"; "arduous"]);
        ("very easy", ["simple"; "effortless"]);
        ("very nice", ["wonderful"; "delightful"]) ]
      ["use stronger adjective"; "remove intensifier"; "choose precise word"]
  else if String.eqb styleType "wordiness" then
    firstIncluded lowerText
      [ ("in order to", ["to"]);
        ("due to the fact that", ["because"]);
        ("for the reason that", ["because"]);
        ("in spite of the fact that", ["although"]);
        ("with regard to", ["about"]);
        ("with reference to", ["regarding"]);
        ("for the purpose of", ["to"]);
        ("give consideration to", ["consider"]);
        ("make a decision", ["decide"]);
        ("reach a conclusion", ["conclude"]);
        ("come to an agreement", ["agree"]);
        ("take action", ["act"]);
        ("make an assumption", ["assume"]) ]
      ["simplify"; "be concise"; "use fewer words"]
  else if String.eqb styleType "redundancy" then
    firstIncluded lowerText
      [ ("absolutely certain", ["certain"]);
        ("completely eliminate", ["eliminate"]);
        ("end result", ["result"]);
        ("final outcome", ["outcome"]);
        ("past experience", ["experience"]);
        ("advance planning", ["planning"]);
        ("future plans", ["plans"]);
        ("close proximity", ["proximity"]);
        ("exact same", ["same"]);
        ("free gift", ["gift"]);
        ("true fact", ["fact"]);
        ("personal opinion", ["opinion"]);
        ("advance warning", ["warning"]) ]
      ["remove redundant word"; "eliminate repetition"]
  else ["improve"; "revise"; "enhance"].

(** [synonymMap] of [getFallbackSynonyms]. *)
Definition synonymMap : list (string * list string) :=
  [ ("large", ["big"; "huge"; "enormous"; "massive"]);
    ("beautiful", ["gorgeous"; "stunning"; "lovely"; "attractive"]);
    ("building", ["structure"; "edifice"; "construction"; "facility"]);
    ("quick", ["fast"; "rapid"; "swift"; "speedy"]);
    ("excellent", ["outstanding"; "superb"; "remarkable"; "exceptional"]);
    ("good", ["great"; "wonderful"; "excellent"; "fantastic"]);
    ("bad", ["terrible"; "awful"; "horrible"; "dreadful"]);
    ("small", ["tiny"; "little"; "petite"; "miniature"]);
    ("big", ["large"; "huge"; "enormous"; "massive"]);
    ("nice", ["pleasant"; "lovely"; "delightful"; "wonderful"]);
    ("happy", ["joyful"; "cheerful"; "delighted"; "pleased"]);
    ("sad", ["unhappy"; "sorrowful"; "melancholy"; "dejected"]);
    ("smart", ["intelligent"; "clever"; "brilliant"; "wise"]);
    ("funny", ["amusing"; "hilarious"; "comical"; "entertaining"]);
    ("important", ["crucial"; "vital"; "essential"; "significant"]);
    ("difficult", ["challenging"; "hard"; "tough"; "complex"]);
    ("easy", ["simple"; "effortless"; "straightforward"; "uncomplicated"]);
    ("old", ["ancient"; "elderly"; "aged"; "vintage"]);
    ("new", ["fresh"; "recent"; "modern"; "latest"]);
    ("house", ["home"; "residence"; "dwelling"; "abode"]);
    ("car", ["vehicle"; "automobile"; "auto"; "motor"]);
    ("dog", ["canine"; "hound"; "puppy"; "pooch"]);
    ("cat", ["feline"; "kitty"; "kitten"; "tabby"]);
    ("fox", ["vixen"; "reynard"; "vulpine"]);
    ("brown", ["tan"; "chestnut"; "mahogany"; "russet"]);
    ("jumps", ["leaps"; "bounds"; "springs"; "hops"]);
    ("gracefully", ["elegantly"; "smoothly"; "fluidly"; "beautifully"]);
    ("lazy", ["idle"; "sluggish"; "lethargic"; "inactive"]) ].

(** [synonymMap[word] || []]: the array of an own key, the empty array for
    a key that reads [undefined]; a key of [Object.prototype] reads what it
    inherits, which is no array. *)
Definition getFallbackSynonyms (word : string)
    : SuggestionService.Read (list string) :=
  match SuggestionService.read synonymMap word with
  | SuggestionService.Undefined => SuggestionService.Own []
  | found => found
  end.

(** [.length] of what a key of [Object.prototype] reads: the number of
    parameters of the function, [undefined] for the object [__proto__]
    reads. *)
Definition inheritedLength (key : string) : option nat :=
  lookup key
    [ ("constructor", 1); ("__defineGetter__", 2); ("__defineSetter__", 2);
      ("hasOwnProperty", 1); ("__lookupGetter__", 1); ("__lookupSetter__", 1);
      ("isPrototypeOf", 1); ("propertyIsEnumerable", 1); ("toString", 0);
      ("valueOf", 0); ("toLocaleString", 0) ].

Definition notAFunction : string := "fallbackSynonyms.slice is not a function".

(** The vocabulary suggestions for a token: its first three synonyms when
    it has two at least, the first three of the fallback otherwise. *)
Definition vocabularyOf (token : EnhancedToken) : result (list string) :=
  if Nat.leb 2 (List.length (et_synonyms token))
  then Ok (firstn 3 (et_synonyms token))
  else
    let word := Str.toLowerCase (et_text token) in
    match getFallbackSynonyms word with
    | SuggestionService.Own fallbackSynonyms =>
        if Nat.leb 2 (List.length fallbackSynonyms)
        then Ok (firstn 3 fallbackSynonyms)
        else Ok []
    | _ =>
        match inheritedLength word with
        | Some n => if Nat.leb 2 n then Throw notAFunction else Ok []
        | None => Ok []
        end
    end.

(** [token.start || text.indexOf(token.text)]: a start of 0 is falsy. *)
Definition startIndexOf (text_ : string) (token : EnhancedToken) : Z :=
  match et_start token with
  | Some s => if (s =? 0)%Z then Str.indexOf text_ (et_text token) 0 else s
  | None => Str.indexOf text_ (et_text token) 0
  end.

Definition endIndexOf (text_ : string) (token : EnhancedToken) : Z :=
  let fallback :=
    (startIndexOf text_ token + Z.of_nat (String.length (et_text token)))%Z in
  match et_end token with
  | Some e => if (e =? 0)%Z then fallback else e
  | None => fallback
  end.

(** The callback of [tokens.forEach]: what it pushes. *)
Definition tokenSuggestions (text_ : string) (token : EnhancedToken)
    (index_ : nat) : result (list InlineSuggestion) :=
  if Str.mem (et_pos token) ["Noun"; "Verb"; "Adjective"; "Adverb"] then
    let startIndex := startIndexOf text_ token in
    let endIndex := endIndexOf text_ token in
    match vocabularyOf token with
    | Throw msg => Throw msg
    | Ok vocabularySuggestions =>
        if Nat.leb 2 (List.length vocabularySuggestions) then
          Ok [ mkInline (et_text token)
                 (if (0 <=? startIndex)%Z then startIndex
                  else Z.of_nat (index_ * 5))
                 (if (0 <=? endIndex)%Z then endIndex
                  else (startIndex
                        + Z.of_nat (String.length (et_text token)))%Z)
                 vocabularySuggestions ]
        else Ok []
    end
  else Ok [].

Fixpoint vocabularyLoop (text_ : string) (tokens : list EnhancedToken)
    (index_ : nat) : result (list InlineSuggestion) :=
  match tokens with
  | [] => Ok []
  | token :: more =>
      match tokenSuggestions text_ token index_ with
      | Throw msg => Throw msg
      | Ok pushed =>
          match vocabularyLoop text_ more (S index_) with
          | Throw msg => Throw msg
          | Ok rest_ => Ok (pushed ++ rest_)
          end
      end
  end.

Definition styleSuggestion (stylePattern : StylePattern) (mt : Match)
    : InlineSuggestion :=
  mkInline (matched mt) (Z.of_nat (index mt))
    (Z.of_nat (index mt + String.length (matched mt)))
    (generateStyleSuggestions (matched mt) (sp_type stylePattern)).

(** The [while] loop over the matches of one pattern; [None] when it does
    not end. *)
Definition styleLoop (text_ : string) (stylePattern : StylePattern)
    : option (list InlineSuggestion) :=
  match StyleService.execLoop (sp_pattern stylePattern) text_ with
  | Some ms => Some (List.map (styleSuggestion stylePattern) ms)
  | None => None
  end.

Section Enhancing.

(** [processText] of the NLP service, imported as [enhancedProcessText]. *)
Variable enhancedProcessText : string -> result (list EnhancedToken).

(** [processInlineEnhancements]: whatever is thrown is caught and gives no
    suggestions; [None] when a loop over the matches does not end. *)
Definition processInlineEnhancements (text_ : string)
    : option (list InlineSuggestion) :=
  match enhancedProcessText text_ with
  | Throw _ => Some []
  | Ok tokens =>
      match vocabularyLoop text_ tokens 0 with
      | Throw _ => Some []
      | Ok vocabulary =>
          match StyleService.concatAll (styleLoop text_) STYLE_PATTERNS with
          | Some style => Some (vocabulary ++ style)
          | None => None
          end
      end
  end.

End Enhancing.

End InlineEnhancements.
(** ** Dependencies ([parseDependencies]) *)

Module Dependencies.

Import GrammarEngine.

Record Dependency : Type := mkDependency {
  governor : string;
  dependent : string;
  relation : string
}.

(** [term.tags.includes(tag)]. *)
Definition tagged (tag : string) (term : NLPTerm) : bool :=
  Str.mem tag (term_tags term).

(** The callback of [terms.forEach]: what it pushes for the term at
    [index]. *)
Definition termRelations (terms : list NLPTerm) (term : NLPTerm) (index : nat)
    : list Dependency :=
  (if tagged "Noun" term && Nat.ltb index (List.length terms - 1) then
     match nth_error terms (index + 1) with
     | Some nextTerm =>
         if tagged "Verb" nextTerm
         then [mkDependency (term_text nextTerm) (term_text term) "nsubj"]
         else []
     | None => []
     end
   else [])
  ++ (if tagged "Verb" term && Nat.ltb index (List.length terms - 1) then
        match nth_error terms (index + 1) with
        | Some nextTerm =>
            if tagged "Noun" nextTerm
            then [mkDependency (term_text term) (term_text nextTerm) "dobj"]
            else []
        | None => []
        end
      else [])
  ++ (if tagged "Preposition" term && Nat.ltb 0 index then
        match nth_error terms (index - 1) with
        | Some prevTerm =>
            if tagged "Verb" prevTerm
            then [mkDependency (term_text prevTerm) (term_text term) "prep"]
            else []
        | None => []
        end
      else [])
  ++ (if tagged "Punctuation" term && Nat.ltb 0 index then
        match nth_error terms (index - 1) with
        | Some prevTerm =>
            [mkDependency (term_text prevTerm) (term_text term) "punct"]
        | None => []
        end
      else []).

(** [terms.forEach((term, index) => ...)], from [index] on. *)
Fixpoint termsLoop (terms todo : list NLPTerm) (index : nat)
    : list Dependency :=
  match todo with
  | [] => []
  | term :: more =>
      termRelations terms term index ++ termsLoop terms more (S index)
  end.

Section Parsing.

(** [nlp(sentence).sentences().json()] with the terms of each sentence, or
    [Throw] when the library throws. *)
Variable sentencesOf : string -> result (list (list NLPTerm)).

(** [parseDependencies], up to the timing it prints. *)
Definition parseDependencies (sentence : string) : list Dependency :=
  if String.eqb sentence "" || Nat.eqb (String.length (Str.trim sentence)) 0
  then []
  else
    match sentencesOf sentence with
    | Ok sentences =>
        List.flat_map (fun terms => termsLoop terms terms 0) sentences
    | Throw _ => []
    end.

End Parsing.

End Dependencies.
(** ** The caching service ([cachingService.ts]) *)

Module CachingService.

(** Times are what [Date.now()] reads, in milliseconds; a time to live is a
    whole number of seconds. *)
Record CacheEntry : Type := mkEntry {
  key : string;
  suggestions : list string;
  createdAt : Z;
  lastAccessedAt : Z;
  expiresAt : Z;
  ttlSeconds : Z
}.

Record CacheStats : Type := mkStats {
  hits : nat;
  misses : nat;
  hitRatio : Q;
  entries : nat;
  memoryUsage : nat
}.

(** The fields of the service; [cache] is a [Map], whose keys keep their
    insertion order. *)
Record Service : Type := mkService {
  cache : list (string * CacheEntry);
  stats : CacheStats;
  defaultTtlSeconds : Z;
  maxCacheSize : Z
}.

Definition resetStats : CacheStats := mkStats 0 0 0%Q 0 0.

(** The constructor, with its defaults for the arguments left out. *)
Definition create (defaultTtlSeconds_ maxCacheSize_ : option Z) : Service :=
  mkService [] resetStats
    (match defaultTtlSeconds_ with Some t => t | None => 300%Z end)
    (match maxCacheSize_ with Some n => n | None => 1000%Z end).

Fixpoint mapGet (k : string) (c : list (string * CacheEntry))
    : option CacheEntry :=
  match c with
  | [] => None
  | (k', e) :: c' => if String.eqb k' k then Some e else mapGet k c'
  end.

Definition mapHas (k : string) (c : list (string * CacheEntry)) : bool :=
  match mapGet k c with Some _ => true | None => false end.

Definition mapDelete (k : string) (c : list (string * CacheEntry))
    : list (string * CacheEntry) :=
  List.filter (fun kv => negb (String.eqb (fst kv) k)) c.

(** [Map.prototype.set]: a key already present keeps its place. *)
Fixpoint mapSet (k : string) (e : CacheEntry) (c : list (string * CacheEntry))
    : list (string * CacheEntry) :=
  match c with
  | [] => [(k, e)]
  | (k', e') :: c' =>
      if String.eqb k' k then (k', e) :: c' else (k', e') :: mapSet k e c'
  end.

(** [!key || key.trim().length === 0]. *)
Definition blankKey (k : string) : bool :=
  String.eqb k "" || Nat.eqb (String.length (Str.trim k)) 0.

Definition ratio (hits_ misses_ : nat) : Q :=
  let totalRequests := hits_ + misses_ in
  if Nat.ltb 0 totalRequests
  then (inject_Z (Z.of_nat hits_) / inject_Z (Z.of_nat totalRequests))%Q
  else 0%Q.

Definition updateHitRatio (st : CacheStats) : CacheStats :=
  mkStats (hits st) (misses st) (ratio (hits st) (misses st))
    (entries st) (memoryUsage st).

Definition entrySize (entry : CacheEntry) : nat :=
  String.length (key entry) * 2
  + List.fold_left (fun sum suggestion => sum + String.length suggestion * 2)
      (suggestions entry) 0
  + 64.

Definition memoryOf (c : list (string * CacheEntry)) : nat :=
  List.fold_left (fun totalSize kv => totalSize + entrySize (snd kv)) c 0.

Definition updateStats (s : Service) : Service :=
  mkService (cache s)
    (mkStats (hits (stats s)) (misses (stats s))
       (ratio (hits (stats s)) (misses (stats s)))
       (List.length (cache s)) (memoryOf (cache s)))
    (defaultTtlSeconds s) (maxCacheSize s).

Definition countMiss (st : CacheStats) : CacheStats :=
  updateHitRatio
    (mkStats (hits st) (S (misses st)) (hitRatio st) (entries st)
       (memoryUsage st)).

Definition countHit (st : CacheStats) : CacheStats :=
  updateHitRatio
    (mkStats (S (hits st)) (misses st) (hitRatio st) (entries st)
       (memoryUsage st)).

Definition touch (entry : CacheEntry) (accessedAt : Z) : CacheEntry :=
  mkEntry (key entry) (suggestions entry) (createdAt entry) accessedAt
    (expiresAt entry) (ttlSeconds entry).

(** [get]: [now] is what [Date.now()] reads for the expiry check,
    [accessedAt] what it reads for the access time. *)
Definition get (s : Service) (k : string) (now accessedAt : Z)
    : option (list string) * Service :=
  if blankKey k then (None, s)
  else
    match mapGet k (cache s) with
    | None =>
        (None,
         mkService (cache s) (countMiss (stats s))
           (defaultTtlSeconds s) (maxCacheSize s))
    | Some entry =>
        if (expiresAt entry <? now)%Z then
          (None,
           mkService (mapDelete k (cache s)) (countMiss (stats s))
             (defaultTtlSeconds s) (maxCacheSize s))
        else
          (Some (suggestions entry),
           mkService (mapSet k (touch entry accessedAt) (cache s))
             (countHit (stats s)) (defaultTtlSeconds s) (maxCacheSize s))
    end.

(** The loop of [evictLeastRecentlyUsed] over the entries. *)
Definition older (found : option string * Z) (kv : string * CacheEntry)
    : option string * Z :=
  if (lastAccessedAt (snd kv) <? snd found)%Z
  then (Some (fst kv), lastAccessedAt (snd kv))
  else found.

(** [evictLeastRecentlyUsed]: [now] is what [Date.now()] reads; an oldest
    key that is the empty string is falsy and stays. *)
Definition evictLeastRecentlyUsed (c : list (string * CacheEntry)) (now : Z)
    : list (string * CacheEntry) :=
  match c with
  | [] => c
  | _ =>
      match fst (List.fold_left older c (None, now)) with
      | Some oldestKey =>
          if String.eqb oldestKey "" then c else mapDelete oldestKey c
      | None => c
      end
  end.

(** [ttlSeconds || this.defaultTtlSeconds]. *)
Definition ttlOf (s : Service) (ttlSeconds_ : option Z) : Z :=
  match ttlSeconds_ with
  | Some t => if (t =? 0)%Z then defaultTtlSeconds s else t
  | None => defaultTtlSeconds s
  end.

Definition emptyKey : string := "Cache key cannot be empty".

(** What is left of a call of [set] once it has run as far as it runs
    in one piece: it has returned or thrown, or it waits at
    [await this.evictLeastRecentlyUsed()], the eviction done and the
    entry still to be stored. *)
Inductive SetProgress : Type :=
| Returned (outcome : result unit) (s : Service)
| Evicted (s : Service) (entry : CacheEntry).

(** [this.cache.set(key, entry); this.updateStats()]. *)
Definition store (s : Service) (entry : CacheEntry) : Service :=
  updateStats
    (mkService (mapSet (key entry) entry (cache s)) (stats s)
       (defaultTtlSeconds s) (maxCacheSize s)).

(** [set] up to where it returns or waits: [now] is what [Date.now()]
    reads in [set], [evictNow] what it reads in
    [evictLeastRecentlyUsed].  The eviction runs at once, as it awaits
    nothing itself; [set] then waits for its promise, and other calls may
    run before the entry is stored. *)
Definition setStart (s : Service) (k : string) (suggestions_ : list string)
    (ttlSeconds_ : option Z) (now evictNow : Z) : SetProgress :=
  if blankKey k then Returned (Throw emptyKey) s
  else
    match suggestions_ with
    | [] => Returned (Ok tt) s
    | _ =>
        let ttl := ttlOf s ttlSeconds_ in
        let entry := mkEntry k suggestions_ now now (now + ttl * 1000)%Z ttl in
        if (maxCacheSize s <=? Z.of_nat (List.length (cache s)))%Z
           && negb (mapHas k (cache s))
        then Evicted
               (mkService (evictLeastRecentlyUsed (cache s) evictNow)
                  (stats s) (defaultTtlSeconds s) (maxCacheSize s))
               entry
        else Returned (Ok tt) (store s entry)
    end.

(** The rest of [set] after the wait, on the service as it is by then. *)
Definition setResume (s : Service) (entry : CacheEntry)
    : result unit * Service :=
  (Ok tt, store s entry).

(** [set] when nothing else runs on the service while it waits, as when
    every call is awaited before the next is made. *)
Definition set (s : Service) (k : string) (suggestions_ : list string)
    (ttlSeconds_ : option Z) (now evictNow : Z) : result unit * Service :=
  match setStart s k suggestions_ ttlSeconds_ now evictNow with
  | Returned outcome s' => (outcome, s')
  | Evicted s' entry => setResume s' entry
  end.

Definition invalidate (s : Service) (k : string) : Service :=
  if blankKey k then s
  else if mapHas k (cache s)
  then updateStats
         (mkService (mapDelete k (cache s)) (stats s)
            (defaultTtlSeconds s) (maxCacheSize s))
  else s.

Definition clear (s : Service) : Service :=
  mkService [] resetStats (defaultTtlSeconds s) (maxCacheSize s).

Definition getStats (s : Service) : CacheStats * Service :=
  (stats (updateStats s), updateStats s).

(** [cleanupExpiredEntries], which the timer of the constructor runs. *)
Definition cleanupExpiredEntries (s : Service) (now : Z) : Service :=
  let kept := List.filter (fun kv => negb (expiresAt (snd kv) <? now)%Z)
                (cache s) in
  let expiredCount := List.length (cache s) - List.length kept in
  let s' := mkService kept (stats s) (defaultTtlSeconds s) (maxCacheSize s) in
  if Nat.ltb 0 expiredCount then updateStats s' else s'.

End CachingService.

(** * Specifications

    The properties the services are held to, in the words of their
    specification, and the inputs the examples run on. *)

Section GrammarSpecifications.

Import Regex GrammarEngine.

(** A neighbour of an occurrence passes the boundary check when it is no
    word character; the end of the line passes as well. *)
Definition nonWordOrEnd (c : option ascii) : bool :=
  match c with
  | Some a => negb (Str.isWordChar a)
  | None => true
  end.

Definition charBefore (line : string) (index : nat) : option ascii :=
  if Nat.eqb index 0 then None else String.get (index - 1) line.

Definition charAfter (line word : string) (index : nat) : option ascii :=
  String.get (index + String.length word) line.

(** The misspelling check for one word of the table, as specified: search
    the word in the line ignoring case, then verify that the characters
    before and after the occurrence are non-word characters. *)
Definition spec_spellingHit (line : string) (lineNumber : nat)
    (entry : string * string) : list CheckResult :=
  match String.index 0 (fst entry) (Str.toLowerCase line) with
  | Some index =>
      if nonWordOrEnd (charBefore line index)
         && nonWordOrEnd (charAfter line (fst entry) index)
      then [spellingResult (fst entry) (snd entry) lineNumber index]
      else []
  | None => []
  end.

(** At most two misspellings a line. *)
Definition spec_checkSpelling (line : string) (lineNumber : nat)
    : list CheckResult :=
  firstn 2 (flat_map (spec_spellingHit line lineNumber) COMMON_MISSPELLINGS).

(** The pattern check for one rule, as specified: its first match only,
    at the column that is the index of the match counted from 1. *)
Definition spec_ruleHit (line : string) (lineNumber : nat) (rule : GrammarRule)
    : list CheckResult :=
  match exec (gr_pattern rule) line with
  | Some mt =>
      [mkCheckResult (gr_type rule) (gr_message rule) lineNumber
         (index mt + 1) None]
  | None => []
  end.

(** Each rule once, in declaration order, at most three matches a line. *)
Definition spec_checkRules (rules : list GrammarRule) (line : string)
    (lineNumber : nat) : list CheckResult :=
  firstn 3 (flat_map (spec_ruleHit line lineNumber) rules).

(** The results of checking [inputs] one after the other, and the cache
    afterwards. *)
Fixpoint checkAll (rules : list GrammarRule) (c : Cache) (inputs : list string)
    : list (list CheckResult) * Cache :=
  match inputs with
  | [] => ([], c)
  | sentence :: more =>
      let (results, c') := checkGrammar rules c sentence in
      let (others, c'') := checkAll rules c' more in
      (results :: others, c'')
  end.

(** What [checkGrammar sentence] returns after the calls of [history],
    the cache being empty before them. *)
Definition checkAfter (history : list string) (sentence : string)
    : list CheckResult :=
  fst (checkGrammar GRAMMAR_RULES (snd (checkAll GRAMMAR_RULES [] history))
         sentence).

(** Every entry of the cache holds what a check of its key with an empty
    cache returns. *)
Definition cacheFresh (rules : list GrammarRule) (c : Cache) : Prop :=
  forall k v, cacheGet k c = Some v -> v = fst (checkGrammar rules [] k).

(** A hundred inputs that differ from each other: [w0], ..., [w99]. *)
Definition fillers : list string :=
  List.map (fun n => String "w" (Str.decimal n)) (List.seq 0 100).

(** The texts [ts] occur in [s] in their order, one after the other: [s]
    is some text, then the first of [ts], then a text in which the others
    occur in order. *)
Inductive inOrder : string -> list string -> Prop :=
| inOrder_nil (s : string) : inOrder s []
| inOrder_cons (sep t rest : string) (ts : list string) :
    inOrder rest ts -> inOrder (sep ++ t ++ rest) (t :: ts).

(** The token has offsets, and they lie in the sentence. *)
Definition offsetsWithin (sentence : string) (t : Token) : Prop :=
  exists a b : Z,
    start t = Some a /\ end_ t = Some b
    /\ (0 <= a <= b)%Z /\ (b <= Z.of_nat (String.length sentence))%Z.

(** The first token ends before the second starts. *)
Definition precedes (t u : Token) : Prop :=
  exists b a : Z, end_ t = Some b /\ start u = Some a /\ (b <= a)%Z.

(** The tokens have offsets that ascend from [lo] and stay below [hi]. *)
Fixpoint ascending (lo hi : Z) (l : list Token) : Prop :=
  match l with
  | [] => True
  | t :: l' =>
      exists a b : Z,
        start t = Some a /\ end_ t = Some b
        /\ (lo <= a <= b)%Z /\ (b <= hi)%Z /\ ascending b hi l'
  end.

(** The words match the tokens from index [i] on, one word per token,
    ignoring the case of the tokens. *)
Definition matchesAt (tokens : list Token) (words_ : list string) (i : nat)
    : Prop :=
  List.map (fun t => Str.toLowerCase (text t))
    (slice tokens i (i + List.length words_)) = words_.

(** [found] is what resolving [words_] against [tokens] must give: the
    tokens at the earliest index where the words match, or nothing when
    they match nowhere. *)
Definition resolvesEarliest (tokens : list Token) (words_ : list string)
    (found : list Token) : Prop :=
  (found = [] /\ forall i, ~ matchesAt tokens words_ i)
  \/ (exists i,
        matchesAt tokens words_ i
        /\ (forall j, j < i -> ~ matchesAt tokens words_ j)
        /\ found = slice tokens i (i + List.length words_)).

(** The offsets of a custom entity: those of the token when its offset is
    resolved, [-1] and [-1] otherwise. *)
Definition customOffsets (tokens : list Token) (t : Token) : Z * Z :=
  let offset_ := getOptimizedOffset t tokens in
  if (0 <=? offset_)%Z
  then (offset_, (offset_ + Z.of_nat (String.length (text t)))%Z)
  else ((-1)%Z, (-1)%Z).

(** The message is one of the four the validation of a rule throws, each
    of which names the index [j] of the rule. *)
Inductive namesIndex (j : nat) : string -> Prop :=
| names_missing : namesIndex j (missingProperties j)
| names_type (t : string) : namesIndex j (invalidType t j)
| names_severity (s : string) : namesIndex j (invalidSeverity s j)
| names_pattern (p : string) : namesIndex j (invalidPattern j p).

(** The properties a grammar rule must have, and those a style rule must
    have. *)
Definition grammarFields (rule : RuleConfig) : bool :=
  truthy (rc_type rule) && truthy (rc_pattern rule)
  && truthy (rc_message rule) && truthy (rc_severity rule).

Definition styleFields (rule : RuleConfig) : bool :=
  grammarFields rule && truthy (rc_explanation rule).

(** An invalid entry: a required property is missing, the severity is not
    a known one, or the pattern does not compile. *)
Definition invalidEntry (fields : RuleConfig -> bool)
    (knownSeverity : string -> bool)
    (newRegExp : string -> string -> option RegExp)
    (rule : RuleConfig) : Prop :=
  fields rule = false
  \/ knownSeverity (orEmpty (rc_severity rule)) = false
  \/ newRegExp (orEmpty (rc_pattern rule)) (orEmpty (rc_flags rule)) = None.

Definition isSome {A : Type} (o : option A) : bool :=
  match o with Some _ => true | None => false end.

Definition grammarSeverity (s : string) : bool := isSome (severityOf s).

Definition styleSeverity (s : string) : bool :=
  isSome (StyleService.severityLevelOf s).

(** A stand-in for [new RegExp]: it reads the pattern as a literal text and
    rejects an unclosed parenthesis. *)
Definition literalRegExp (pattern flags : string) : option RegExp :=
  if String.eqb pattern "(" then None
  else Some (mkRegExp (lit pattern) false false).

(** A valid rule, and a rule without a message. *)
Definition typoRule : RuleConfig :=
  mkRuleConfig (Some "spelling") (Some "teh") None (Some "Typo")
    (Some "A common typo") (Some "warning") None.

Definition commaRule : RuleConfig :=
  mkRuleConfig (Some "punctuation") (Some ",,") None None
    (Some "Doubled comma") (Some "error") None.

(** A configuration whose second rule has no message. *)
Definition sampleEntries : list (option RuleConfig) :=
  [Some typoRule; Some commaRule].

(** The message holds no digit: it cannot name an index. *)
Definition digitFree (msg : string) : bool :=
  List.forallb (fun c => negb (Str.isDigit c)) (list_ascii_of_string msg).

(** A tokenizer that splits the sentence at its blanks. *)
Definition blankTokenizer (sentence : string) : result (list NLPTerm) :=
  Ok (List.map (fun t => mkTerm t ["Noun"])
        (List.filter nonEmpty (Str.splitBlanks sentence))).

(** Descending: a later element scores no more than an earlier one. *)
Definition descending {A : Type} (f : A -> Q) (a b : A) : Prop :=
  (f b <= f a)%Q.

Definition zeroTone (name : string) : ToneResult := mkTone name 0.

Definition absentFrom (results : list ToneResult) (name : string) : bool :=
  negb (Str.mem name (List.map tone results)).

End GrammarSpecifications.

Section ScoringSpecifications.

Import SynonymContext.

(** The override scores of a candidate in the domains whose trigger
    keywords contain a context word. *)
Definition matchingOverrides (config : ContextScoringConfig)
    (candidate : string) (contextWords : list string) : list Q :=
  List.flat_map
    (fun entry : string * Mapping =>
       if hasContextKeywords (snd entry) contextWords then
         match GrammarEngine.lookup candidate (synonymScores (snd entry)) with
         | Some s => [s]
         | None => []
         end
       else [])
    (contextMappings config).

(** The keyword-table score in the words of the specification: the maximum
    override score across the matching domains, the default when there is
    none. *)
Definition spec_keywordScore (config : ContextScoringConfig)
    (candidate : string) (contextWords : list string) : Q :=
  match matchingOverrides config candidate contextWords with
  | [] => defaultScore config
  | s :: more => List.fold_left Qmax more s
  end.

(** The number a score is, 0 standing in for [NaN]. *)
Definition number (r : Scored) : Q :=
  match score r with
  | Num q => q
  | NaN => 0
  end.

End ScoringSpecifications.

Section MatcherSpecifications.

Import Regex StyleService.

(** A pattern every match of which holds at least one character. *)
Fixpoint consumes (r : re) : bool :=
  match r with
  | Chr _ | Dot | Cls _ _ => true
  | Cat a b => consumes a || consumes b
  | Alt a b => consumes a && consumes b
  | Rep min _ _ a => Nat.ltb 0 min && consumes a
  | Grp _ a => consumes a
  | _ => false
  end.

(** What a matcher owes its continuation: the cursor it hands over is not
    before the one it got, and is after it when [strict] holds. *)
Definition advances (strict : bool)
    (ma : (cursor -> option cursor) -> cursor -> option cursor) : Prop :=
  forall k p e,
    ma k p = Some e ->
    exists p', k p' = Some e /\ offset p <= offset p'
               /\ (strict = true -> offset p < offset p').

(** A passive-voice rule as a style guide may load it: its pattern,
    [/.+/g], takes the whole sentence, and its transform throws. *)
Definition sentencePassive : StyleRule :=
  mkStyleRule "passive-voice" (mkRegExp (plus Dot) false true)
    "Passive sentence" "Prefer the active voice." WARNING
    (Some (fun _ => Throw "transform failed")).

(** The texts a pattern can match, its assertions left aside: a text the
    matcher consumes for [r] is one of them. *)
Fixpoint accepts (ic : bool) (r : re) (w : string) : Prop :=
  match r with
  | Chr c => exists a, w = String a "" /\ charEq ic a c = true
  | Dot => exists a, w = String a "" /\ Str.isLineTerminator a = false
  | Cls neg items =>
      exists a, w = String a "" /\ xorb neg (inClass ic items a) = true
  | Cat a b =>
      exists w1 w2, w = (w1 ++ w2)%string /\ accepts ic a w1 /\ accepts ic b w2
  | Alt a b => accepts ic a w \/ accepts ic b w
  | Rep min _ _ a =>
      exists ws, w = String.concat "" ws /\ Forall (accepts ic a) ws
                 /\ min <= List.length ws
  | Grp _ a => accepts ic a w
  | _ => w = ""
  end.

(** What a matcher owes its continuation, in full: the cursor it hands
    over stands after a text of the language [L]. *)
Definition consumesOnly (L : string -> Prop)
    (ma : (cursor -> option cursor) -> cursor -> option cursor) : Prop :=
  forall k p e,
    ma k p = Some e ->
    exists p' w,
      k p' = Some e /\ rest p = (w ++ rest p')%string
      /\ offset p' = offset p + String.length w /\ L w.

(** Whether every character of a text, or its first one, passes [f]. *)
Fixpoint every (f : ascii -> bool) (s : string) : bool :=
  match s with
  | EmptyString => true
  | String c t => f c && every f t
  end.

Definition headIs (f : ascii -> bool) (s : string) : bool :=
  match s with
  | EmptyString => false
  | String c _ => f c
  end.

(** The characters of [\s] and of [\w] under the [i] flag. *)
Definition blankClass (a : ascii) : bool :=
  xorb false (inClass true [CSpace] a).

Definition wordClass (a : ascii) : bool :=
  xorb false (inClass true [CWord] a).

(** The character a text ends with, [bef] when it is empty. *)
Fixpoint lastOf (bef : option ascii) (s : string) : option ascii :=
  match s with
  | EmptyString => bef
  | String c t => lastOf (Some c) t
  end.

(** The pattern of the passive-voice rule. *)
Definition passivePattern : re := source (sr_pattern PASSIVE_VOICE).

End MatcherSpecifications.

Section StoreSpecifications.

Import DictionaryStore.

(** A call of a method of the store that writes, with what its
    [saveToFile] does. *)
Inductive Call : Type :=
| AddWord (word : string)
| RemoveWord (word : string)
| Clear
| ImportWords (words_ : list string).

Definition step (st : Store) (call : Call * result unit) : Store :=
  snd (match fst call with
       | AddWord word => addWord st word (snd call)
       | RemoveWord word => removeWord st word (snd call)
       | Clear => clear st (snd call)
       | ImportWords words_ => importWords st words_ (snd call)
       end).

(** The store after [initialize] found no file and wrote an empty one,
    and after the calls that follow. *)
Definition fresh : Store :=
  snd (initialize (mkStore [] false) false (Ok []) (Ok tt)).

Definition run (calls : list (Call * result unit)) : Store :=
  List.fold_left step calls fresh.

(** A word as the store keeps it: not empty, and its own lower-case trim. *)
Definition normalized (w : string) : Prop := w <> "" /\ normalize w = w.

(** Strictly ascending by code units, so without duplicates. *)
Definition sortedWords (l : list string) : Prop :=
  StronglySorted (fun a b => String.ltb a b = true) l.

(** What the store keeps: words without duplicates, each in normal form. *)
Definition kept (st : Store) : Prop :=
  isInitialized st = true /\ NoDup (words st) /\ Forall normalized (words st).

End StoreSpecifications.
Section DistanceSpecifications.

(** The cost of substituting character [i] of [s1] for character [j] of
    [s2]. *)
Definition substitution (s1 s2 : string) (i j : nat) : nat :=
  match String.get i s1, String.get j s2 with
  | Some a, Some b => if Ascii.eqb a b then 0 else 1
  | _, _ => 1
  end.

(** The cell [matrix[j][i]] as the recurrence of the matrix defines it. *)
Fixpoint cell (s1 s2 : string) (i j : nat) {struct i} : nat :=
  match i with
  | O => j
  | S i' =>
      (fix row (j : nat) : nat :=
         match j with
         | O => i
         | S j' =>
             Nat.min (Nat.min (cell s1 s2 i' j + 1) (row j' + 1))
                     (cell s1 s2 i' j' + substitution s1 s2 i' j')
         end) j
  end.

End DistanceSpecifications.

Section SuggestionSpecifications.

Import SuggestionService.

(** [tokens[tokens.length - 2]]. *)
Definition secondLast (tokens : list string) : string :=
  List.nth (List.length tokens - 2) tokens "".

(** At least two of the three groups of keywords occur in the context. *)
Definition twoGroups (context : string) : bool :=
  (mentionsFunction context && mentionsClass context)
  || (mentionsFunction context && mentionsVariable context)
  || (mentionsClass context && mentionsVariable context).

End SuggestionSpecifications.
Section StyleSpecifications.

Import Regex StyleService.

(** The suggestion points into line [sg_line] of the text, at a column
    that the line has. *)
Definition pointsInto (text_ : string) (s : Suggestion) : Prop :=
  exists line,
    nth_error (Str.splitChar newline text_) (sg_line s - 1) = Some line
    /\ 1 <= sg_line s
    /\ 1 <= sg_column s <= String.length line.

(** The pattern matches the empty text where a line ends. *)
Definition matchesEmptyAtEnd (rx : RegExp) : Prop :=
  forall inp bef off,
    matchAt (ignoreCase rx) (source rx) inp bef off "" <> None.

(** A rule a style guide may hold: [/x*/g]. *)
Definition emptiableRule : StyleRule :=
  mkStyleRule "spacing" (mkRegExp (star (Chr "x")) false true)
    "Check spacing" "Spacing matters." INFO None.

End StyleSpecifications.
Section PositionSpecifications.

Import NlpService NlpPositions.

(** The text [entityRecognizer] rebuilds from the tokens. *)
Definition rebuilt (tokens : list Token) : string :=
  Str.join " " (List.map text tokens).

(** Each token starts after the one before it has ended. *)
Fixpoint apart (tokens : list GrammarEngine.EnhancedToken) (from : Z) : Prop :=
  match tokens with
  | [] => True
  | t :: more =>
      exists start_ end_,
        GrammarEngine.et_start t = Some start_
        /\ GrammarEngine.et_end t = Some end_
        /\ (from <= start_)%Z
        /\ end_ = (start_ + Z.of_nat (String.length (GrammarEngine.et_text t)))%Z
        /\ apart more (end_ + 1)%Z
  end.

(** The words of the entity are the tokens from index [i] on, case aside. *)
Definition wordsAt (tokens : list Token) (entityWords : list string)
    (i : nat) : Prop :=
  List.map (fun t => Str.toLowerCase (text t))
    (firstn (List.length entityWords) (skipn i tokens))
  = entityWords.

End PositionSpecifications.

(** ** What the grammar check reports *)

Section ReportSpecifications.

Import GrammarEngine.

(** The result is reported at line [n], at a column of [line] or just
    after its end. *)
Definition reportedAt (line : string) (n : nat) (r : CheckResult) : Prop :=
  cr_line r = n /\ 1 <= cr_column r <= String.length line + 1.

(** The result is reported at a line of [lines], counted from 1. *)
Definition reportedIn (lines : list string) (r : CheckResult) : Prop :=
  exists line,
    nth_error lines (cr_line r - 1) = Some line
    /\ 1 <= cr_line r
    /\ reportedAt line (cr_line r) r.

End ReportSpecifications.
(** ** Where the entities of the grammar engine are *)

Section EntitySpecifications.

Import GrammarEngine.

(** The text [extractNLPEntities] and [calculateFallbackOffset] rebuild
    from the tokens. *)
Definition rebuiltText (tokens : list Token) : string :=
  Str.join " " (List.map text tokens).

(** The text [s] reads [t] at offset [at_]. *)
Definition reads (s : string) (at_ : Z) (t : string) : Prop :=
  (0 <= at_)%Z /\ substring (Z.to_nat at_) (String.length t) s = t.

(** The entity starts where [s] reads a token and ends where [s] has read
    a token, inside [s]. *)
Definition spansTokens (s : string) (tokens : list Token) (e : Entity)
    : Prop :=
  exists first last_,
    In first tokens /\ In last_ tokens
    /\ reads s (e_start e) (text first)
    /\ reads s (e_end e - Z.of_nat (String.length (text last_))) (text last_)
    /\ (e_end e <= Z.of_nat (String.length s))%Z.

(** The entity is built from a run of the tokens: it starts at the offset
    of the first and ends after the last. *)
Definition fromRun (tokens : list Token) (e : Entity) : Prop :=
  exists i k first others,
    slice tokens i k = first :: others
    /\ e_start e = getOptimizedOffset first tokens
    /\ e_end e
       = (getOptimizedOffset (List.last others first) tokens
          + Z.of_nat (String.length (text (List.last others first))))%Z.

(** The entity is built from one token, as a custom entity is. *)
Definition fromToken (tokens : list Token) (e : Entity) : Prop :=
  exists tok,
    In tok tokens
    /\ e_text e = text tok
    /\ e_start e = fst (customOffsets tokens tok)
    /\ e_end e = snd (customOffsets tokens tok).

(** The token carries the offsets of an occurrence of its text in [s]. *)
Definition placed (s : string) (t : Token) : Prop :=
  exists a : Z,
    start t = Some a
    /\ end_ t = Some (a + Z.of_nat (String.length (text t)))%Z
    /\ reads s a (text t)
    /\ (a + Z.of_nat (String.length (text t)) <= Z.of_nat (String.length s))%Z.

End EntitySpecifications.
(** ** What the inline enhancements suggest *)

Section InlineSpecifications.

Import GrammarEngine InlineEnhancements.

(** A vocabulary suggestion: two or three words for one of the tokens, at
    a start that is not negative. *)
Definition aboutToken (tokens : list EnhancedToken) (s : InlineSuggestion)
    : Prop :=
  (exists token,
     In token tokens /\ is_text s = et_text token
     /\ Str.mem (et_pos token) ["Noun"; "Verb"; "Adjective"; "Adverb"] = true)
  /\ (0 <= is_start s)%Z
  /\ 2 <= List.length (is_suggestions s) <= 3.

(** A style suggestion: one to three alternatives for a part of the text
    that is not empty, from [start] to [end]. *)
Definition aboutPart (text_ : string) (s : InlineSuggestion) : Prop :=
  is_text s <> ""
  /\ (0 <= is_start s)%Z
  /\ is_end s = (is_start s + Z.of_nat (String.length (is_text s)))%Z
  /\ substring (Z.to_nat (is_start s)) (String.length (is_text s)) text_
     = is_text s
  /\ 1 <= List.length (is_suggestions s) <= 3.

(** The tokens [enhancedProcessText] returned, none when it threw. *)
Definition tokensOf (processed : result (list EnhancedToken))
    : list EnhancedToken :=
  match processed with Ok tokens => tokens | Throw _ => [] end.

End InlineSpecifications.
(** ** What a dependency relates *)

Section DependencySpecifications.

Import GrammarEngine Dependencies.

(** [b] is the term after [a] in the sentence. *)
Definition adjacent (terms : list NLPTerm) (a b : NLPTerm) : Prop :=
  exists i, nth_error terms i = Some a /\ nth_error terms (S i) = Some b.

(** The four relations between a term [a] and the term [b] after it. *)
Definition relates (a b : NLPTerm) (d : Dependency) : Prop :=
  (d = mkDependency (term_text b) (term_text a) "nsubj"
   /\ tagged "Noun" a = true /\ tagged "Verb" b = true)
  \/ (d = mkDependency (term_text a) (term_text b) "dobj"
      /\ tagged "Verb" a = true /\ tagged "Noun" b = true)
  \/ (d = mkDependency (term_text a) (term_text b) "prep"
      /\ tagged "Verb" a = true /\ tagged "Preposition" b = true)
  \/ (d = mkDependency (term_text a) (term_text b) "punct"
      /\ tagged "Punctuation" b = true).

(** A tagger for the examples: the words between blanks, [runs] a verb,
    the others nouns. *)
Definition runsTagger (sentence : string) : result (list (list NLPTerm)) :=
  Ok [List.map
        (fun w => mkTerm w [if String.eqb w "runs" then "Verb" else "Noun"])
        (Str.splitBlanks sentence)].

End DependencySpecifications.
(** ** What the caching service keeps *)

Section CacheSpecifications.

Import CachingService.

(** A call of the service that is awaited, so that it runs to its end
    before the next call is made, with what [Date.now()] reads in it. *)
Inductive CacheCall : Type :=
| CallGet (k : string) (now accessedAt : Z)
| CallSet (k : string) (suggestions_ : list string) (ttlSeconds_ : option Z)
    (now evictNow : Z)
| CallInvalidate (k : string)
| CallClear
| CallStats
| CallCleanup (now : Z).

Definition cacheStep (s : Service) (call : CacheCall) : Service :=
  match call with
  | CallGet k now accessedAt => snd (get s k now accessedAt)
  | CallSet k suggestions_ ttlSeconds_ now evictNow =>
      snd (set s k suggestions_ ttlSeconds_ now evictNow)
  | CallInvalidate k => invalidate s k
  | CallClear => clear s
  | CallStats => snd (getStats s)
  | CallCleanup now => cleanupExpiredEntries s now
  end.

(** The service after the calls, each awaited before the next is made, on
    a service just constructed. *)
Definition cacheRun (defaultTtlSeconds_ maxCacheSize_ : option Z)
    (calls : list CacheCall) : Service :=
  List.fold_left cacheStep calls (create defaultTtlSeconds_ maxCacheSize_).

(** The [get] calls with a key that is not blank, since the last
    [clear]: those that returned suggestions and those that did not. *)
Fixpoint countGets (s : Service) (calls : list CacheCall) (hits_ misses_ : nat)
    : nat * nat :=
  match calls with
  | [] => (hits_, misses_)
  | call :: more =>
      let s' := cacheStep s call in
      match call with
      | CallGet k now accessedAt =>
          if blankKey k then countGets s' more hits_ misses_
          else
            match fst (get s k now accessedAt) with
            | Some _ => countGets s' more (S hits_) misses_
            | None => countGets s' more hits_ (S misses_)
            end
      | CallClear => countGets s' more 0 0
      | _ => countGets s' more hits_ misses_
      end
  end.

(** Every entry was last accessed before [now]. *)
Definition accessedBefore (now : Z) (c : list (string * CacheEntry)) : Prop :=
  Forall (fun kv => (lastAccessedAt (snd kv) < now)%Z) c.

(** Whenever a [set] of the calls may have to evict, its clock reads later
    than the last access of every entry. *)
Fixpoint clockAhead (s : Service) (calls : list CacheCall) : Prop :=
  match calls with
  | [] => True
  | call :: more =>
      match call with
      | CallSet _ _ _ _ evictNow => accessedBefore evictNow (cache s)
      | _ => True
      end
      /\ clockAhead (cacheStep s call) more
  end.

(** The keys are those of a [Map] the service filled: each one once, none
    of them empty. *)
Definition keysOfMap (c : list (string * CacheEntry)) : Prop :=
  NoDup (List.map fst c) /\ Forall (fun kv => fst kv <> "") c.

End CacheSpecifications.

(** * Proofs *)

(** ** Strings *)

Lemma length_strmap (f : ascii -> ascii) (s : string) :
  String.length (Str.map f s) = String.length s.
Proof. induction s as [|c s IH]; simpl; congruence. Qed.

Lemma length_append (a b : string) :
  String.length (a ++ b) = String.length a + String.length b.
Proof. induction a as [|c a IH]; simpl; congruence. Qed.

Lemma append_assoc (a b c : string) : ((a ++ b) ++ c = a ++ b ++ c)%string.
Proof. induction a as [|x a IH]; simpl; congruence. Qed.

Lemma length_zero (s : string) : String.length s = 0 <-> s = "".
Proof. destruct s; simpl; split; intros; try reflexivity; discriminate. Qed.

Lemma get_none (s : string) (i : nat) :
  String.get i s = None <-> String.length s <= i.
Proof.
  revert i. induction s as [|c s IH]; intros i; simpl.
  - split; intros; [lia | reflexivity].
  - destruct i as [|i].
    + split; intros H; [discriminate | lia].
    + rewrite IH. lia.
Qed.

Lemma prefix_length (p s : string) :
  prefix p s = true -> String.length p <= String.length s.
Proof.
  revert s. induction p as [|a p IH]; intros s H; simpl; [lia|].
  destruct s as [|b s]; simpl in H; [discriminate|].
  destruct (ascii_dec a b); [|discriminate].
  apply IH in H. simpl. lia.
Qed.

Lemma prefix_app (p s : string) : prefix p (p ++ s) = true.
Proof.
  induction p as [|a p IH]; simpl; [destruct s; reflexivity|].
  destruct (ascii_dec a a); [exact IH | congruence].
Qed.

(** Where [index] finds a text: not before the start position, and with
    room for the text. *)
Lemma index_bound (n m : nat) (needle s : string) :
  index n needle s = Some m ->
  n <= m /\ m + String.length needle <= String.length s.
Proof.
  revert n m. induction s as [|b s IH]; intros n m H.
  - destruct n; simpl in H; [|discriminate].
    destruct needle; [|discriminate]. injection H as <-. simpl. lia.
  - destruct n as [|n].
    + cbn [index] in H.
      destruct (prefix needle (String b s)) eqn:P.
      * injection H as <-. apply prefix_length in P. lia.
      * destruct (index 0 needle s) as [k|] eqn:E; [|discriminate].
        injection H as <-. apply IH in E. simpl. lia.
    + cbn [index] in H.
      destruct (index n needle s) as [k|] eqn:E; [|discriminate].
      injection H as <-. apply IH in E. simpl. lia.
Qed.

(** An occurrence at [length a], at or after the start position, makes
    [index] find the text there or earlier. *)
Lemma index_finds (n : nat) (a t b : string) :
  n <= String.length a ->
  exists m, index n t (a ++ t ++ b) = Some m /\ m <= String.length a.
Proof.
  revert n. induction a as [|c a IH]; intros n Hn.
  - simpl in Hn. assert (n = 0) by lia. subst n. exists 0. split; [|simpl; lia].
    simpl. destruct (t ++ b)%string as [|x r] eqn:E.
    + destruct t; [reflexivity | discriminate].
    + cbn [index]. rewrite <- E, prefix_app. reflexivity.
  - destruct n as [|n].
    + cbn [append index].
      destruct (prefix t (String c (a ++ t ++ b)%string)).
      * exists 0. split; [reflexivity | lia].
      * destruct (IH 0 ltac:(lia)) as [m [E Hm]]. rewrite E.
        exists (S m). split; [reflexivity | simpl; lia].
    + cbn [append index]. simpl in Hn.
      destruct (IH n ltac:(lia)) as [m [E Hm]]. rewrite E.
      exists (S m). split; [reflexivity | simpl; lia].
Qed.

Lemma mem_In (x : string) (l : list string) : Str.mem x l = true <-> In x l.
Proof.
  unfold Str.mem. rewrite existsb_exists. split.
  - intros (y & Hy & E). apply String.eqb_eq in E. subst. exact Hy.
  - intros H. exists x. split; [exact H | apply String.eqb_refl].
Qed.

Lemma splitRuns_nonempty sep inRun s : Str.splitRuns sep inRun s <> [].
Proof.
  revert inRun. induction s as [|c s IH]; intros inRun; simpl; [discriminate|].
  destruct (sep c).
  - destruct inRun; [apply IH | discriminate].
  - destruct (Str.splitRuns sep false s); discriminate.
Qed.

(** ** Sorting by score *)

Section Sorting.

Context {A : Type} (f : A -> Q).

Lemma insertDesc_perm (x : A) (l : list A) :
  Permutation (insertDesc f x l) (x :: l).
Proof.
  induction l as [|y l IH]; simpl; [reflexivity|].
  destruct (Qle_bool (f y) (f x)); [reflexivity|].
  rewrite IH. apply perm_swap.
Qed.

Lemma sortDesc_perm (l : list A) : Permutation (sortDesc f l) l.
Proof.
  induction l as [|x l IH]; simpl; [reflexivity|].
  rewrite insertDesc_perm. apply perm_skip. exact IH.
Qed.

Lemma insertDesc_sorted (x : A) (l : list A) :
  StronglySorted (descending f) l ->
  StronglySorted (descending f) (insertDesc f x l).
Proof.
  induction l as [|y l IH]; intros Hs; simpl.
  - constructor; constructor.
  - inversion Hs as [|? ? Hl Hy]; subst.
    destruct (Qle_bool (f y) (f x)) eqn:E.
    + apply Qle_bool_iff in E. constructor; [exact Hs|].
      constructor; [exact E|].
      eapply Forall_impl; [|exact Hy].
      intros z Hz. unfold descending in *. eapply Qle_trans; eauto.
    + assert (Hlt : (f x <= f y)%Q).
      { apply Qlt_le_weak, Qnot_le_lt. intros H.
        apply Qle_bool_iff in H. congruence. }
      constructor; [apply IH; exact Hl|].
      eapply Permutation_Forall; [symmetry; apply insertDesc_perm|].
      constructor; [exact Hlt | exact Hy].
Qed.

Lemma sortDesc_sorted (l : list A) :
  StronglySorted (descending f) (sortDesc f l).
Proof.
  induction l as [|x l IH]; simpl; [constructor|].
  apply insertDesc_sorted. exact IH.
Qed.

Lemma StronglySorted_app (R : A -> A -> Prop) (l1 l2 : list A) :
  StronglySorted R l1 -> StronglySorted R l2 ->
  (forall a b, In a l1 -> In b l2 -> R a b) ->
  StronglySorted R (l1 ++ l2).
Proof.
  induction l1 as [|x l1 IH]; intros H1 H2 H; simpl; [exact H2|].
  inversion H1 as [|? ? Hl Hx]; subst. constructor.
  - apply IH; trivial. intros a b Ha Hb. apply H; [right|]; trivial.
  - apply Forall_app. split; [exact Hx|].
    apply Forall_forall. intros b Hb. apply H; [left; reflexivity | exact Hb].
Qed.

End Sorting.

(** ** The fast checks of a line *)

Section GrammarChecks.

Import Regex GrammarEngine.

(** The boundary check of the source, on an occurrence [index] found in the
    line, asks what the specification asks. *)
Lemma boundaryOk_spec (line word : string) (index : nat) :
  String.index 0 word (Str.toLowerCase line) = Some index ->
  boundaryOk line word index
  = nonWordOrEnd (charBefore line index)
    && nonWordOrEnd (charAfter line word index).
Proof.
  intros H. apply index_bound in H. destruct H as [_ H].
  unfold Str.toLowerCase in H. rewrite length_strmap in H.
  unfold boundaryOk, charBefore, charAfter, nonWordAt. f_equal.
  - destruct index as [|i]; [reflexivity|].
    cbn [Nat.ltb Nat.leb Nat.eqb].
    destruct (String.get (S i - 1) line) eqn:E; [reflexivity|].
    apply get_none in E. lia.
  - destruct (Nat.ltb_spec (index + String.length word) (String.length line))
      as [Hlt|Hge].
    + destruct (String.get (index + String.length word) line) eqn:E;
        [reflexivity|].
      apply get_none in E. lia.
    + apply get_none in Hge. rewrite Hge. reflexivity.
Qed.

Lemma firstn_app_one {A : Type} (n : nat) (l : list A) (x : A) (rest : list A) :
  List.length l < n ->
  l ++ firstn (n - List.length l) (x :: rest)
  = (l ++ [x]) ++ firstn (n - List.length (l ++ [x])) rest.
Proof.
  intros Hlt. rewrite length_app. simpl.
  destruct (n - List.length l) as [|k] eqn:E; [lia|].
  simpl. rewrite <- app_assoc. simpl.
  replace (n - (List.length l + 1)) with k by lia. reflexivity.
Qed.

(** The loop over the misspelling table, with [results] pushed so far,
    pushes the hits of the remaining words until two results are in. *)
Lemma spellingLoop_spec line lineNumber table results :
  List.length results < 2 ->
  spellingLoop line lineNumber table results
  = results ++ firstn (2 - List.length results)
                 (flat_map (spec_spellingHit line lineNumber) table).
Proof.
  revert results. induction table as [|[word fix_] table IH]; intros results Hlt.
  - cbn [spellingLoop flat_map]. rewrite firstn_nil, app_nil_r. reflexivity.
  - cbn [spellingLoop flat_map]. unfold spec_spellingHit at 1.
    cbn [fst snd].
    destruct (String.index 0 word (Str.toLowerCase line)) as [index|] eqn:Ei.
    + rewrite <- (boundaryOk_spec _ _ _ Ei).
      destruct (boundaryOk line word index).
      * cbn [app]. rewrite (firstn_app_one 2 results _ _ Hlt).
        destruct (Nat.leb 2 (List.length
                   (results ++ [spellingResult word fix_ lineNumber index])))
          eqn:E.
        -- apply Nat.leb_le in E.
           replace (2 - _) with 0 by lia.
           rewrite firstn_0, app_nil_r. reflexivity.
        -- apply Nat.leb_gt in E. apply IH. exact E.
      * apply IH. exact Hlt.
    + apply IH. exact Hlt.
Qed.

(** The loop over the rule table likewise, until three results are in. *)
Lemma rulesLoop_spec line lineNumber rules results :
  List.length results < 3 ->
  rulesLoop line lineNumber rules results
  = results ++ firstn (3 - List.length results)
                 (flat_map (spec_ruleHit line lineNumber) rules).
Proof.
  revert results. induction rules as [|rule rules IH]; intros results Hlt.
  - cbn [rulesLoop flat_map]. rewrite firstn_nil, app_nil_r. reflexivity.
  - cbn [rulesLoop flat_map]. unfold spec_ruleHit at 1.
    destruct (exec (gr_pattern rule) line) as [mt|].
    + cbn [app]. rewrite (firstn_app_one 3 results _ _ Hlt).
      change (ruleResult rule lineNumber mt)
        with (mkCheckResult (gr_type rule) (gr_message rule) lineNumber
                (index mt + 1) None).
      destruct (Nat.leb 3 (List.length (results ++ _))) eqn:E.
      * apply Nat.leb_le in E.
        replace (3 - _) with 0 by lia.
        rewrite firstn_0, app_nil_r. reflexivity.
      * apply Nat.leb_gt in E. apply IH. exact E.
    + apply IH. exact Hlt.
Qed.

(** C5.  On every line, [checkSpellingFast] reports what the specified
    misspelling check reports: for each word of the fixed table, in the
    order of the table, the first occurrence found ignoring case, kept when
    the characters before and after it are non-word characters (or the ends
    of the line), and no more than two of them.  [checkGrammarRulesFast]
    reports what the specified pattern check reports: each rule of the table
    tried once in declaration order, its first match only, at the column
    that is the match index plus one, and no more than three of them. *)
Theorem fast_checks_bounded_first_matches :
  forall (rules : list GrammarRule) (line : string) (lineNumber : nat),
    checkSpellingFast line lineNumber = spec_checkSpelling line lineNumber
    /\ List.length (checkSpellingFast line lineNumber) <= 2
    /\ checkGrammarRulesFast rules line lineNumber
       = spec_checkRules rules line lineNumber
    /\ List.length (checkGrammarRulesFast rules line lineNumber) <= 3.
Proof.
  intros rules line lineNumber.
  assert (Hs : checkSpellingFast line lineNumber
               = spec_checkSpelling line lineNumber).
  { unfold checkSpellingFast. rewrite spellingLoop_spec by (simpl; lia).
    reflexivity. }
  assert (Hr : checkGrammarRulesFast rules line lineNumber
               = spec_checkRules rules line lineNumber).
  { unfold checkGrammarRulesFast. rewrite rulesLoop_spec by (simpl; lia).
    reflexivity. }
  repeat split; trivial.
  - rewrite Hs. unfold spec_checkSpelling. apply firstn_le_length.
  - rewrite Hr. unfold spec_checkRules. apply firstn_le_length.
Qed.

(** The scenario of the specification: the agreement error of
    "The cats is running." is reported where "cats is" starts. *)
Example cats_is_running :
  fst (checkGrammar GRAMMAR_RULES [] "The cats is running.")
  = [ mkCheckResult SUBJECT_VERB_AGREEMENT
        ("Subject-verb agreement error: plural subject requires "
           ++ Str.dquote ++ "are" ++ Str.dquote) 1 5 None ].
Proof. vm_compute. reflexivity. Qed.

(** ** The result cache *)

(** C4.  Two calls of [checkGrammar] with the same input return different
    lists: "The cat" lacks its period when it is checked first; after a
    hundred other inputs have pushed its entry out of the cache, the check
    of " The cat" stores its own (empty) result under the trimmed key
    "The cat", and the next check of "The cat" returns that. *)
Theorem checkGrammar_repeated_input_differs :
  checkAfter [] "The cat"
  = [mkCheckResult PUNCTUATION "Missing period at end of sentence" 1 1 None]
  /\ checkAfter (["The cat"] ++ fillers) "The cat"
     = [mkCheckResult PUNCTUATION "Missing period at end of sentence" 1 1 None]
  /\ checkAfter (["The cat"] ++ fillers ++ [" The cat"]) "The cat" = [].
Proof. repeat split; vm_compute; reflexivity. Qed.

(** *** The cache on trimmed inputs *)

Lemma cacheGet_delete k f c :
  cacheGet k (cacheDelete f c)
  = if String.eqb f k then None else cacheGet k c.
Proof.
  induction c as [|[k' v'] c IH]; simpl.
  - destruct (String.eqb f k); reflexivity.
  - destruct (String.eqb_spec k' f) as [->|Hne]; simpl.
    + rewrite IH. destruct (String.eqb_spec f k); reflexivity.
    + rewrite IH. destruct (String.eqb_spec k' k) as [->|Hne'].
      * destruct (String.eqb_spec f k); [congruence | reflexivity].
      * reflexivity.
Qed.

Lemma cacheGet_set k s v c :
  cacheGet k (cacheSet s v c)
  = if String.eqb s k then Some v else cacheGet k c.
Proof.
  induction c as [|[k' v'] c IH]; simpl.
  - reflexivity.
  - destruct (String.eqb_spec k' s) as [->|Hne]; simpl.
    + destruct (String.eqb s k); reflexivity.
    + rewrite IH. destruct (String.eqb_spec k' k) as [->|Hne'].
      * destruct (String.eqb_spec s k); [congruence | reflexivity].
      * reflexivity.
Qed.

Lemma setCachedResult_fresh rules c s v :
  cacheFresh rules c -> v = fst (checkGrammar rules [] s) ->
  cacheFresh rules (setCachedResult c s v).
Proof.
  intros Hc Hv k v'. unfold setCachedResult. rewrite cacheGet_set.
  destruct (String.eqb_spec s k) as [->|Hne]; [intros [= <-]; exact Hv|].
  destruct (Nat.leb CACHE_SIZE_LIMIT (List.length c)); [|apply Hc].
  destruct c as [|[f vf] c']; [apply Hc|].
  destruct (String.eqb f ""); [apply Hc|].
  rewrite cacheGet_delete. destruct (String.eqb f k); [discriminate | apply Hc].
Qed.

Lemma checkGrammar_fresh rules c s :
  Str.trim s = s -> cacheFresh rules c ->
  fst (checkGrammar rules c s) = fst (checkGrammar rules [] s)
  /\ cacheFresh rules (snd (checkGrammar rules c s)).
Proof.
  intros Ht Hc. unfold checkGrammar at 1 3.
  destruct (String.eqb s "" || Nat.eqb (String.length (Str.trim s)) 0) eqn:B.
  { unfold checkGrammar. rewrite B. split; [reflexivity | exact Hc]. }
  rewrite Ht. unfold getCachedResult.
  destruct (cacheGet s c) as [v|] eqn:G; cbn [fst snd].
  - split; [apply Hc; exact G | exact Hc].
  - assert (E : fst (checkGrammar rules [] s)
              = (if negb (Str.includes s (String newline ""))
                 then processLineFast rules s 1
                 else processLines rules (Str.splitChar newline s) 0)).
    { unfold checkGrammar. rewrite B, Ht. reflexivity. }
    split; [symmetry; exact E|].
    apply setCachedResult_fresh; [exact Hc | symmetry; exact E].
Qed.

Lemma checkAll_fresh rules history :
  Forall (fun s => Str.trim s = s) history ->
  forall c, cacheFresh rules c -> cacheFresh rules (snd (checkAll rules c history)).
Proof.
  induction 1 as [|s history Hs _ IH]; intros c Hc; [exact Hc|].
  cbn [checkAll].
  pose proof (checkGrammar_fresh rules c s Hs Hc) as [_ Hc'].
  destruct (checkGrammar rules c s) as [r c1]. cbn [snd] in Hc'.
  specialize (IH c1 Hc').
  destruct (checkAll rules c1 history) as [rs c2]. exact IH.
Qed.

(** X2.  Determinism of [checkGrammar] where the cache key is the input:
    when every sentence checked so far and the sentence checked now are
    their own trim, the call returns what it returns on an empty cache,
    whatever was checked before. *)
Theorem checkGrammar_deterministic_on_trimmed :
  forall (history : list string) (sentence : string),
    Forall (fun s => Str.trim s = s) history ->
    Str.trim sentence = sentence ->
    checkAfter history sentence = checkAfter [] sentence.
Proof.
  intros history sentence Hh Hs. unfold checkAfter. cbn [checkAll snd].
  apply checkGrammar_fresh; [exact Hs|].
  apply checkAll_fresh; [exact Hh|].
  intros k v H. discriminate H.
Qed.

Lemma checkGrammar_deterministic_on_trimmed_witness :
  checkAfter ["The cat"; "w0"; "The cat"] "The cat" = checkAfter [] "The cat".
Proof.
  apply (checkGrammar_deterministic_on_trimmed ["The cat"; "w0"; "The cat"]
           "The cat").
  - repeat constructor.
  - reflexivity.
Defined.

End GrammarChecks.

(** ** Entities *)

Section Entities.

Import GrammarEngine.

Lemma slice_width {A : Type} (l : list A) (i n : nat) :
  slice l i (i + n) = firstn n (skipn i l).
Proof. unfold slice. replace (i + n - i) with n by lia. reflexivity. Qed.

Lemma skipn_nth_error {A : Type} (l : list A) (n : nat) (x : A) :
  nth_error l n = Some x -> skipn n l = x :: skipn (S n) l.
Proof.
  revert n. induction l as [|y l IH]; intros n H.
  - destruct n; discriminate.
  - destruct n as [|n]; simpl in *.
    + injection H as ->. reflexivity.
    + apply IH in H. exact H.
Qed.

Lemma matchesAt_room tokens words_ i :
  matchesAt tokens words_ i -> i + List.length words_ <= List.length tokens
                                \/ words_ = [].
Proof.
  unfold matchesAt. rewrite slice_width. intros H.
  destruct words_ as [|w ws]; [right; reflexivity | left].
  apply (f_equal (@List.length _)) in H.
  rewrite List.length_map, length_firstn, length_skipn in H.
  cbn [List.length] in *. lia.
Qed.

(** [isTokenSequenceMatch] compares word by word. *)
Lemma isTokenSequenceMatch_spec tokens startIndex words_ :
  forall k,
    startIndex + k + List.length words_ <= List.length tokens ->
    exists b,
      isTokenSequenceMatch tokens startIndex words_ k = Some b
      /\ (b = true <->
          List.map (fun t => Str.toLowerCase (text t))
            (firstn (List.length words_) (skipn (startIndex + k) tokens))
          = words_).
Proof.
  induction words_ as [|w ws IH]; intros k Hk.
  - exists true. simpl. tauto.
  - cbn [isTokenSequenceMatch].
    destruct (nth_error tokens (startIndex + k)) as [t|] eqn:E.
    2:{ apply nth_error_None in E. simpl in Hk. lia. }
    rewrite (skipn_nth_error _ _ _ E). cbn [List.length firstn List.map].
    unfold tokenIs at 1.
    destruct (String.eqb_spec (Str.toLowerCase (text t)) w) as [Ew|Ew].
    + destruct (IH (S k)) as (b & Eb & Hb); [simpl in Hk; lia|].
      exists b. split; [exact Eb|].
      replace (startIndex + S k) with (S (startIndex + k)) in Hb by lia.
      rewrite Hb. split; [intros ->; congruence | intros [= _ H]; exact H].
    + exists false. split; [reflexivity|].
      split; [discriminate | intros [= H _]; contradiction].
Qed.

Lemma isTokenSequenceMatch_matchesAt tokens words_ i :
  i + List.length words_ <= List.length tokens ->
  exists b,
    isTokenSequenceMatch tokens i words_ 0 = Some b
    /\ (b = true <-> matchesAt tokens words_ i).
Proof.
  intros H. destruct (isTokenSequenceMatch_spec tokens i words_ 0) as (b & E & Hb).
  { lia. }
  exists b. split; [exact E|]. unfold matchesAt. rewrite slice_width.
  replace (i + 0) with i in Hb by lia. exact Hb.
Qed.

Lemma sequenceLoop_spec tokens words_ :
  words_ <> [] ->
  forall todo i,
    List.length tokens + 1 <= i + todo + List.length words_ ->
    (0 < todo -> i + todo + List.length words_ <= List.length tokens + 1) ->
    (forall j, j < i -> ~ matchesAt tokens words_ j) ->
    exists found,
      sequenceLoop tokens words_ todo i = Some found
      /\ resolvesEarliest tokens words_ found.
Proof.
  intros Hne. induction todo as [|todo IH]; intros i Hlo Hhi Hbefore.
  - exists []. split; [reflexivity|]. left. split; [reflexivity|].
    intros j Hj. destruct (Nat.lt_ge_cases j i) as [Hlt|Hge].
    + exact (Hbefore j Hlt Hj).
    + apply matchesAt_room in Hj. destruct Hj as [Hj|Hj]; [lia | contradiction].
  - cbn [sequenceLoop].
    destruct (isTokenSequenceMatch_matchesAt tokens words_ i) as (b & E & Hb).
    { specialize (Hhi ltac:(lia)). lia. }
    rewrite E. destruct b.
    + eexists. split; [reflexivity|]. right. exists i.
      repeat split; trivial. apply Hb. reflexivity.
    + apply IH; try lia.
      intros j Hj. destruct (Nat.eq_dec j i) as [->|Hne'].
      * intros Hm. apply Hb in Hm. discriminate.
      * apply Hbefore. lia.
Qed.

Lemma find_first {A : Type} (p : A -> bool) (l : list A) :
  match List.find p l with
  | Some x =>
      exists i, nth_error l i = Some x /\ p x = true
                /\ forall j y, j < i -> nth_error l j = Some y -> p y = false
  | None => forall j y, nth_error l j = Some y -> p y = false
  end.
Proof.
  induction l as [|a l IH]; simpl.
  - intros j y H. destruct j; discriminate.
  - destruct (p a) eqn:E.
    + exists 0. repeat split; trivial. intros j y Hj. lia.
    + destruct (List.find p l) as [x|].
      * destruct IH as (i & Hi & Hp & Hb). exists (S i). repeat split; trivial.
        intros [|j] y Hj Hy; simpl in Hy; [congruence|].
        eapply Hb; [|exact Hy]. lia.
      * intros [|j] y Hy; simpl in Hy; [congruence | eauto].
Qed.

Lemma matchesAt_single tokens w i :
  matchesAt tokens [w] i <->
  exists t, nth_error tokens i = Some t /\ tokenIs w t = true.
Proof.
  unfold matchesAt. rewrite slice_width. cbn [List.length].
  destruct (nth_error tokens i) as [t|] eqn:E.
  - rewrite (skipn_nth_error _ _ _ E). cbn [firstn List.map]. unfold tokenIs.
    split.
    + intros [= H]. exists t. split; [reflexivity|]. apply String.eqb_eq. exact H.
    + intros (t' & [= <-] & H). apply String.eqb_eq in H. congruence.
  - apply nth_error_None in E. rewrite skipn_all2 by exact E. simpl.
    split; [discriminate | intros (t' & H & _); discriminate].
Qed.

Lemma findMatchingTokens_resolves entityText tokens :
  exists found,
    findMatchingTokensOptimized entityText tokens = Some found
    /\ resolvesEarliest tokens
         (Str.splitBlanks (Str.toLowerCase entityText)) found.
Proof.
  unfold findMatchingTokensOptimized.
  pose proof (splitRuns_nonempty Str.isSpace false (Str.toLowerCase entityText))
    as Hne.
  fold (Str.splitBlanks (Str.toLowerCase entityText)) in Hne.
  set (ws := Str.splitBlanks (Str.toLowerCase entityText)) in *.
  assert (Hmulti :
    exists found,
      sequenceLoop tokens ws (iterations (List.length tokens) (List.length ws)) 0
      = Some found /\ resolvesEarliest tokens ws found).
  { apply sequenceLoop_spec; trivial.
    - unfold iterations. destruct (Nat.leb_spec (List.length ws) (List.length tokens)); lia.
    - unfold iterations. destruct (Nat.leb_spec (List.length ws) (List.length tokens)); lia.
    - intros j Hj. lia. }
  destruct ws as [|w [|w' ws']]; [contradiction | | exact Hmulti].
  pose proof (find_first (tokenIs w) tokens) as Hf.
  destruct (List.find (tokenIs w) tokens) as [t|].
  - destruct Hf as (i & Hi & Hp & Hb). exists [t]. split; [reflexivity|].
    right. exists i. repeat split.
    + apply matchesAt_single. eauto.
    + intros j Hj Hm. apply matchesAt_single in Hm. destruct Hm as (y & Hy & Hpy).
      rewrite (Hb j y Hj Hy) in Hpy. discriminate.
    + rewrite slice_width. rewrite (skipn_nth_error _ _ _ Hi). reflexivity.
  - exists []. split; [reflexivity|]. left. split; [reflexivity|].
    intros i Hm. apply matchesAt_single in Hm. destruct Hm as (y & Hy & Hpy).
    rewrite (Hf i y Hy) in Hpy. discriminate.
Qed.

Lemma same_sequence_check tokens words_ i k :
  NlpProcessor.matchesEntitySequence tokens i words_ k
  = isTokenSequenceMatch tokens i words_ k.
Proof.
  revert k. induction words_ as [|w ws IH]; intros k; simpl; [reflexivity|].
  destruct (nth_error tokens (i + k)); [|reflexivity].
  destruct (tokenIs w t); [apply IH | reflexivity].
Qed.

Lemma same_sequence_loop tokens words_ todo i :
  NlpProcessor.sequenceLoop tokens words_ todo i
  = sequenceLoop tokens words_ todo i.
Proof.
  revert i. induction todo as [|todo IH]; intros i; simpl; [reflexivity|].
  rewrite same_sequence_check.
  destruct (isTokenSequenceMatch tokens i words_ 0) as [[|]|]; trivial.
Qed.

Lemma resolved_nonempty tokens words_ i :
  words_ <> [] -> matchesAt tokens words_ i ->
  slice tokens i (i + List.length words_) <> [].
Proof.
  unfold matchesAt. intros Hne H E. rewrite E in H. simpl in H. congruence.
Qed.

(** C6.  For every entity text and token sequence, the matcher of the
    grammar engine, [findMatchingTokensOptimized], and that of the NLP
    processor, [findEntityTokensOptimized], return, without throwing, the
    same tokens: those at the earliest index where the blank-separated words
    of the entity text match consecutive tokens ignoring case (for a single
    word, the first token that matches), and none when the words match
    nowhere.  In that case [calculateEntityOffsetsFromTokens] returns null
    and [addEntitiesOptimized] adds nothing: the entity is dropped. *)
Theorem entity_tokens_resolve_earliest :
  forall (entityText entityType : string) (tokens : list Token),
    exists found,
      findMatchingTokensOptimized entityText tokens = Some found
      /\ NlpProcessor.findEntityTokensOptimized entityText tokens = Some found
      /\ resolvesEarliest tokens
           (Str.splitBlanks (Str.toLowerCase entityText)) found
      /\ (found = [] <->
          calculateEntityOffsetsFromTokens entityText tokens entityType
          = Some None)
      /\ (found = [] ->
          forall results,
            addEntitiesOptimized [entityText] entityType tokens results
            = Some results).
Proof.
  intros entityText entityType tokens.
  destruct (findMatchingTokens_resolves entityText tokens) as (found & E & H).
  exists found. split; [exact E|]. split.
  { rewrite <- E. unfold NlpProcessor.findEntityTokensOptimized,
      findMatchingTokensOptimized.
    destruct (Str.splitBlanks (Str.toLowerCase entityText)) as [|w [|w' ws]];
      try reflexivity; apply same_sequence_loop. }
  split; [exact H|].
  assert (Hdrop : found = [] <->
            calculateEntityOffsetsFromTokens entityText tokens entityType
            = Some None).
  { unfold calculateEntityOffsetsFromTokens. rewrite E.
    destruct found; split; congruence. }
  split; [exact Hdrop|].
  intros Hnil results. cbn [addEntitiesOptimized].
  apply Hdrop in Hnil. rewrite Hnil. reflexivity.
Qed.

Lemma somes_In {A : Type} (a : A) (l : list (option A)) :
  In (Some a) l -> In a (somes l).
Proof.
  induction l as [|[b|] l IH]; simpl; [tauto | |].
  - intros [[= ->]|H]; [left; reflexivity | right; apply IH; exact H].
  - intros [H|H]; [discriminate | apply IH; exact H].
Qed.

(** The custom entities of the grammar engine.  For every dictionary word
    [entity:<type>:<value>] whose value matches a token ignoring case,
    [processCustomEntities] emits a span with the text of the token as the
    token spells it, the type in upper case, and the offsets of the token
    when its offset is resolved, [-1] and [-1] otherwise. *)
Theorem processCustomEntities_token_casing :
  forall (words_ : list string) (tokens : list Token)
         (word prefix_ type_ value : string) (more : list string),
    In word words_ ->
    Str.startsWith word "entity:" = true ->
    Str.splitChar ":" word = prefix_ :: type_ :: value :: more ->
    (exists t, In t tokens
               /\ Str.toLowerCase (text t) = Str.toLowerCase value) ->
    exists tok,
      In tok tokens
      /\ Str.toLowerCase (text tok) = Str.toLowerCase value
      /\ In (mkEntity (text tok) (Str.toUpperCase type_)
               (fst (customOffsets tokens tok))
               (snd (customOffsets tokens tok)))
            (processCustomEntities words_ tokens).
Proof.
  intros words_ tokens word prefix_ type_ value more Hin Hpre Hsplit (t & Ht & Et).
  destruct (List.find (tokenIs (Str.toLowerCase value)) tokens) as [tok|] eqn:F.
  2:{ pose proof (find_none _ _ F t Ht) as N. unfold tokenIs in N.
      rewrite Et, String.eqb_refl in N. discriminate. }
  pose proof (find_some _ _ F) as [Htok Eq]. unfold tokenIs in Eq.
  apply String.eqb_eq in Eq. exists tok. split; [exact Htok|].
  split; [exact Eq|].
  unfold processCustomEntities. apply somes_In. apply in_map_iff.
  exists word. split.
  - unfold customEntity. rewrite Hsplit, F. unfold customOffsets.
    destruct (0 <=? getOptimizedOffset tok tokens)%Z; reflexivity.
  - apply filter_In. split; [exact Hin | exact Hpre].
Qed.

Lemma processCustomEntities_token_casing_witness :
  exists tok,
    In tok [mkToken "My" "Pronoun" (Some 0%Z) (Some 2%Z);
            mkToken "iPhone" "Noun" (Some 3%Z) (Some 9%Z)]
    /\ Str.toLowerCase (text tok) = "iphone"
    /\ In (mkEntity (text tok) "PRODUCT"
             (fst (customOffsets
                     [mkToken "My" "Pronoun" (Some 0%Z) (Some 2%Z);
                      mkToken "iPhone" "Noun" (Some 3%Z) (Some 9%Z)] tok))
             (snd (customOffsets
                     [mkToken "My" "Pronoun" (Some 0%Z) (Some 2%Z);
                      mkToken "iPhone" "Noun" (Some 3%Z) (Some 9%Z)] tok)))
          (processCustomEntities ["entity:product:iphone"]
             [mkToken "My" "Pronoun" (Some 0%Z) (Some 2%Z);
              mkToken "iPhone" "Noun" (Some 3%Z) (Some 9%Z)]).
Proof.
  apply (processCustomEntities_token_casing ["entity:product:iphone"]
           [mkToken "My" "Pronoun" (Some 0%Z) (Some 2%Z);
            mkToken "iPhone" "Noun" (Some 3%Z) (Some 9%Z)]
           "entity:product:iphone" "entity" "product" "iphone" []).
  - left. reflexivity.
  - reflexivity.
  - reflexivity.
  - exists (mkToken "iPhone" "Noun" (Some 3%Z) (Some 9%Z)).
    split; [right; left; reflexivity | reflexivity].
Defined.

(** C7.  The two recognizers disagree on the dictionary word
    [entity:product:iphone] and the tokens "My" and "iPhone": the grammar
    engine emits the token's spelling, the type in upper case and the
    token's offsets; the NLP service emits the spelling of the dictionary,
    the type as declared and the offsets [-1], [-1]. *)
Theorem custom_entity_recognizers_disagree :
  processCustomEntities ["entity:product:iphone"]
    [mkToken "My" "Pronoun" (Some 0%Z) (Some 2%Z);
     mkToken "iPhone" "Noun" (Some 3%Z) (Some 9%Z)]
  = [mkEntity "iPhone" "PRODUCT" 3 9]
  /\ NlpService.customEntities ["entity:product:iphone"]
       [NlpService.mkToken "My" "Pronoun"; NlpService.mkToken "iPhone" "Noun"]
     = [NlpService.mkEntity "iphone" "product" (-1) (-1)].
Proof. split; vm_compute; reflexivity. Qed.

End Entities.

(** ** The tagger *)

Section Tagger.

Import GrammarEngine.

Lemma ascending_starts lo hi l :
  ascending lo hi l ->
  Forall (fun u => exists a b : Z,
            start u = Some a /\ end_ u = Some b
            /\ (lo <= a <= b)%Z /\ (b <= hi)%Z) l.
Proof.
  revert lo. induction l as [|t l IH]; intros lo H; constructor.
  - destruct H as (a & b & Ha & Hb & Hab & Hhi & _). eauto 10.
  - destruct H as (a & b & Ha & Hb & Hab & Hhi & H).
    apply IH in H. eapply Forall_impl; [|exact H].
    intros u (a' & b' & ? & ? & ? & ?). exists a', b'. repeat split; trivial; lia.
Qed.

Lemma ascending_sorted lo hi l :
  ascending lo hi l -> StronglySorted precedes l.
Proof.
  revert lo. induction l as [|t l IH]; intros lo H; constructor.
  - destruct H as (a & b & Ha & Hb & Hab & Hhi & H). eauto.
  - destruct H as (a & b & Ha & Hb & Hab & Hhi & H).
    apply ascending_starts in H. eapply Forall_impl; [|exact H].
    intros u (a' & b' & ? & ? & ? & ?). exists b, a'. repeat split; trivial; lia.
Qed.

Lemma tagTerms_ascending (terms : list NLPTerm) :
  forall (pre s : string) (cur : Z),
    inOrder s (List.map term_text terms) ->
    (0 <= cur <= Z.of_nat (String.length pre))%Z ->
    ascending cur (Z.of_nat (String.length (pre ++ s)))
      (tagTerms (pre ++ s) terms cur).
Proof.
  induction terms as [|term terms IH]; intros pre s cur Hin Hcur.
  - exact I.
  - cbn [List.map] in Hin. inversion Hin as [|sep t rest ts Hrest Es Et]; subst.
    cbn [tagTerms]. unfold Str.indexOf.
    set (S := (pre ++ sep ++ term_text term ++ rest)%string).
    assert (ES : S = ((pre ++ sep) ++ term_text term ++ rest)%string).
    { unfold S. rewrite append_assoc. reflexivity. }
    assert (Hn : Nat.min (Z.to_nat cur) (String.length S)
                 <= String.length (pre ++ sep)).
    { rewrite length_append. lia. }
    destruct (index_finds _ (pre ++ sep) (term_text term) rest Hn)
      as (m & Em & Hm).
    rewrite <- ES in Em. rewrite Em.
    pose proof (index_bound _ _ _ _ Em) as [Hlo Hhi].
    assert (Hlen : String.length pre <= String.length S).
    { unfold S. rewrite length_append. lia. }
    exists (Z.of_nat m), (Z.of_nat m + Z.of_nat (String.length (term_text term)))%Z.
    repeat split; try reflexivity; try lia.
    assert (ES' : S = ((pre ++ sep ++ term_text term) ++ rest)%string).
    { unfold S. rewrite !append_assoc. reflexivity. }
    rewrite ES'. apply IH; [exact Hrest|].
    rewrite !length_append in *. lia.
Qed.

(** C9.  The NLP library is a parameter of [posTagger].  When it returns
    the terms of the sentence, their texts occurring in the sentence in
    their order, every token of [posTagger] has offsets with
    0 <= start <= end <= the length of the sentence, and every token ends
    before the tokens after it start. *)
Theorem posTagger_offsets_in_order :
  forall (nlp : string -> result (list NLPTerm)) (sentence : string)
         (terms : list NLPTerm),
    nlp sentence = Ok terms ->
    inOrder sentence (List.map term_text terms) ->
    Forall (offsetsWithin sentence) (posTagger nlp sentence)
    /\ StronglySorted precedes (posTagger nlp sentence).
Proof.
  intros nlp sentence terms Hnlp Hin. unfold posTagger.
  destruct (_ || _); [split; constructor|].
  rewrite Hnlp.
  pose proof (tagTerms_ascending terms "" sentence 0 Hin ltac:(simpl; lia)) as H.
  cbn [append] in H. split.
  - apply ascending_starts in H. eapply Forall_impl; [|exact H].
    intros u (a & b & ? & ? & ? & ?). exists a, b. repeat split; trivial; lia.
  - eapply ascending_sorted; exact H.
Qed.

Lemma posTagger_offsets_in_order_witness :
  Forall (offsetsWithin "The cat") (posTagger blankTokenizer "The cat")
  /\ StronglySorted precedes (posTagger blankTokenizer "The cat").
Proof.
  apply (posTagger_offsets_in_order blankTokenizer "The cat"
           [mkTerm "The" ["Noun"]; mkTerm "cat" ["Noun"]]).
  - reflexivity.
  - exact (inOrder_cons "" "The" " cat" ["cat"]
             (inOrder_cons " " "cat" "" [] (inOrder_nil ""))).
Defined.

(** The [catch] branch, which runs if the NLP library throws: its tokens
    are tagged [UNK] and carry no offsets. *)
Lemma posTagger_fallback_without_offsets :
  forall (nlp : string -> result (list NLPTerm)) (sentence msg : string),
    nlp sentence = Throw msg ->
    Forall (fun t => pos t = "UNK" /\ start t = None /\ end_ t = None)
      (posTagger nlp sentence).
Proof.
  intros nlp sentence msg Hnlp. unfold posTagger.
  destruct (_ || _); [constructor|]. rewrite Hnlp. unfold fallbackTokens.
  apply Forall_forall. intros t Ht. apply in_map_iff in Ht.
  destruct Ht as (w & <- & _). repeat split.
Qed.

(** A term whose text the sentence does not hold is given the start
    [indexOf] returns for it, [-1]. *)
Example posTagger_unfound_term :
  posTagger (fun _ => Ok [mkTerm "dog" ["Noun"]]) "The cat"
  = [mkToken "dog" "Noun" (Some (-1)%Z) (Some 2%Z)].
Proof. reflexivity. Qed.

End Tagger.

(** ** Reconfiguration of the rule tables *)

Section Reconfiguration.

Import GrammarEngine.

(** A map whose callback throws at the entry of index [i] throws: at that
    entry or at an earlier one, with the message of the first entry at which
    the callback throws. *)
Lemma mapIndexed_first_throw {A B : Type} (f : A -> nat -> result B) :
  forall (l : list A) (base i : nat) (a : A) (msg : string),
    nth_error l i = Some a ->
    f a (base + i) = Throw msg ->
    exists j b msg',
      j <= i /\ nth_error l j = Some b /\ f b (base + j) = Throw msg'
      /\ mapIndexed f l base = Throw msg'.
Proof.
  induction l as [|x l IH]; intros base i a msg Hi Hf.
  - destruct i; discriminate.
  - cbn [mapIndexed]. destruct (f x base) as [b|m0] eqn:E0.
    + destruct i as [|i].
      * injection Hi as ->. rewrite Nat.add_0_r in Hf. congruence.
      * simpl in Hi.
        destruct (IH (S base) i a msg Hi)
          as (j & b' & m' & Hj & Hn & Hm & Hmap).
        { rewrite <- Hf. f_equal. lia. }
        exists (S j), b', m'. repeat split; try lia; trivial.
        -- rewrite <- Hm. f_equal. lia.
        -- rewrite Hmap. reflexivity.
    + exists 0, x, m0. repeat split; try lia; trivial.
      rewrite Nat.add_0_r. exact E0.
Qed.

Lemma grammar_rule_throws newRegExp rule index :
  invalidEntry grammarFields grammarSeverity newRegExp rule ->
  exists msg, compileRule newRegExp rule index = Throw msg.
Proof.
  unfold invalidEntry, grammarFields, grammarSeverity, compileRule. intros H.
  destruct (truthy (rc_type rule)), (truthy (rc_pattern rule)),
    (truthy (rc_message rule)), (truthy (rc_severity rule));
    cbn [negb orb andb] in *; eauto.
  destruct (ruleTypeOf _); eauto.
  destruct (severityOf _); eauto.
  destruct (newRegExp _ _); eauto.
  destruct H as [H|[H|H]]; discriminate.
Qed.

Lemma grammar_throw_names_index newRegExp rule index msg :
  compileRule newRegExp rule index = Throw msg -> namesIndex index msg.
Proof.
  unfold compileRule.
  destruct (_ || _).
  - intros [= <-]. constructor.
  - destruct (ruleTypeOf _); [|intros [= <-]; constructor].
    destruct (severityOf _); [|intros [= <-]; constructor].
    destruct (newRegExp _ _); [discriminate | intros [= <-]; constructor].
Qed.

Lemma style_rule_throws newRegExp newFunction rule index :
  invalidEntry styleFields styleSeverity newRegExp rule ->
  exists msg, StyleService.compileRule newRegExp newFunction rule index
              = Throw msg.
Proof.
  unfold invalidEntry, styleFields, grammarFields, styleSeverity,
    StyleService.compileRule.
  intros H.
  destruct (truthy (rc_type rule)), (truthy (rc_pattern rule)),
    (truthy (rc_message rule)), (truthy (rc_severity rule)),
    (truthy (rc_explanation rule));
    cbn [negb orb andb] in *; eauto.
  destruct (StyleService.severityLevelOf _); eauto.
  destruct (newRegExp _ _); eauto.
  destruct H as [H|[H|H]]; discriminate.
Qed.

Lemma style_throw_names_index newRegExp newFunction rule index msg :
  StyleService.compileRule newRegExp newFunction rule index = Throw msg ->
  namesIndex index msg.
Proof.
  unfold StyleService.compileRule.
  destruct (_ || _).
  - intros [= <-]. constructor.
  - destruct (StyleService.severityLevelOf _); [|intros [= <-]; constructor].
    destruct (newRegExp _ _); [|intros [= <-]; constructor].
    destruct (truthy (rc_replacement rule)); [|discriminate].
    destruct (newFunction _); [discriminate | intros [= <-]; constructor].
Qed.

(** In a configuration without a [null] entry before it, an invalid
    entry (a required property is missing, the severity is unknown, or the
    pattern does not compile) at index [i] makes [loadRulesFromConfig]
    throw and leave the grammar rule table as it was, and [loadStyleGuide]
    throw and leave the style rule table as it was.  The message thrown is
    the loader's prefix followed by the message of the first entry
    [j <= i] that fails the validation, which is one of the four
    validation messages, each naming the index [j]. *)
Lemma invalid_entry_rejects_and_keeps_table :
  forall (newRegExp : string -> string -> option Regex.RegExp)
         (newFunction : string -> option (Regex.Match -> result string))
         (objects : list RuleConfig) (i : nat) (entry : RuleConfig)
         (grammarTable : list GrammarRule)
         (styleTable : list StyleService.StyleRule),
    nth_error objects i = Some entry ->
    (invalidEntry grammarFields grammarSeverity newRegExp entry ->
     exists j bad msg,
       j <= i /\ nth_error objects j = Some bad
       /\ compileRule newRegExp bad j = Throw msg
       /\ namesIndex j msg
       /\ loadRulesFromConfig newRegExp
            (Ok (mkConfig (Some (List.map Some objects)))) grammarTable
          = (Throw ("Failed to load grammar rules: " ++ msg), grammarTable))
    /\ (invalidEntry styleFields styleSeverity newRegExp entry ->
        exists j bad msg,
          j <= i /\ nth_error objects j = Some bad
          /\ StyleService.compileRule newRegExp newFunction bad j = Throw msg
          /\ namesIndex j msg
          /\ StyleService.loadStyleGuide newRegExp newFunction
               (Ok (mkConfig (Some (List.map Some objects)))) styleTable
             = (Throw ("Failed to load style guide: " ++ msg), styleTable)).
Proof.
  intros newRegExp newFunction objects i entry grammarTable styleTable Hi.
  assert (Hi' : nth_error (List.map Some objects) i = Some (Some entry)).
  { rewrite nth_error_map, Hi. reflexivity. }
  split; intros Hbad.
  - destruct (grammar_rule_throws newRegExp entry (0 + i) Hbad) as [msg Hmsg].
    destruct (mapIndexed_first_throw (compileEntry newRegExp)
                (List.map Some objects) 0 i (Some entry) msg Hi' Hmsg)
      as (j & b & msg' & Hj & Hn & Hthrow & Hmap).
    rewrite nth_error_map in Hn.
    destruct (nth_error objects j) as [bad|] eqn:Eb; [|discriminate].
    injection Hn as <-. cbn [Nat.add compileEntry] in Hthrow.
    exists j, bad, msg'.
    split; [exact Hj|]. split; [exact Eb|]. split; [exact Hthrow|]. split.
    + eapply grammar_throw_names_index. exact Hthrow.
    + unfold loadRulesFromConfig. cbn [rules]. rewrite Hmap. reflexivity.
  - destruct (style_rule_throws newRegExp newFunction entry (0 + i) Hbad)
      as [msg Hmsg].
    destruct (mapIndexed_first_throw
                (StyleService.compileEntry newRegExp newFunction)
                (List.map Some objects) 0 i (Some entry) msg Hi' Hmsg)
      as (j & b & msg' & Hj & Hn & Hthrow & Hmap).
    rewrite nth_error_map in Hn.
    destruct (nth_error objects j) as [bad|] eqn:Eb; [|discriminate].
    injection Hn as <-. cbn [Nat.add StyleService.compileEntry] in Hthrow.
    exists j, bad, msg'.
    split; [exact Hj|]. split; [exact Eb|]. split; [exact Hthrow|]. split.
    + eapply style_throw_names_index. exact Hthrow.
    + unfold StyleService.loadStyleGuide. cbn [rules]. rewrite Hmap.
      reflexivity.
Qed.

(** Whatever the entries are, a loader that throws leaves its table as it
    was, and one that returns has replaced it. *)
Lemma loaders_replace_or_reject :
  forall (newRegExp : string -> string -> option Regex.RegExp)
         (newFunction : string -> option (Regex.Match -> result string))
         (file : result Config) (grammarTable : list GrammarRule)
         (styleTable : list StyleService.StyleRule),
    (forall msg,
        fst (loadRulesFromConfig newRegExp file grammarTable) = Throw msg ->
        snd (loadRulesFromConfig newRegExp file grammarTable) = grammarTable)
    /\ (forall msg,
          fst (StyleService.loadStyleGuide newRegExp newFunction file
                 styleTable) = Throw msg ->
          snd (StyleService.loadStyleGuide newRegExp newFunction file
                 styleTable) = styleTable).
Proof.
  intros newRegExp newFunction file grammarTable styleTable.
  unfold loadRulesFromConfig, StyleService.loadStyleGuide.
  destruct file as [config|m]; [|split; reflexivity].
  destruct (rules config) as [entries|]; [|split; reflexivity].
  split.
  - destruct (mapIndexed _ entries 0); [discriminate | reflexivity].
  - destruct (mapIndexed _ entries 0); [discriminate | reflexivity].
Qed.

(** The scenario of the specification: the rule without a message is
    reported by its index, 1, and the rules stay those of the module. *)
Example missing_message_is_rejected :
  loadRulesFromConfig literalRegExp (Ok (mkConfig (Some sampleEntries)))
    GRAMMAR_RULES
  = (Throw "Failed to load grammar rules: Rule at index 1 is missing required properties",
     GRAMMAR_RULES).
Proof. reflexivity. Qed.

(** C3.  A configuration whose [rules] array starts with a [null] entry,
    whatever follows it, an invalid entry for one, is rejected by both
    loaders, which leave their tables as they were; so is one that holds
    the [null] entry after a valid one.  But the message they throw is
    that of the [TypeError] of reading [rule.type], which names no index:
    it is none of the four validation messages, for any index, and holds
    no digit at all. *)
Theorem null_entry_throws_without_index :
  (forall (newRegExp : string -> string -> option Regex.RegExp)
          (newFunction : string -> option (Regex.Match -> result string))
          (others : list (option RuleConfig))
          (grammarTable : list GrammarRule)
          (styleTable : list StyleService.StyleRule),
      loadRulesFromConfig newRegExp (Ok (mkConfig (Some (None :: others))))
        grammarTable
      = (Throw "Failed to load grammar rules: Cannot read properties of null (reading 'type')",
         grammarTable)
      /\ StyleService.loadStyleGuide newRegExp newFunction
           (Ok (mkConfig (Some (None :: others)))) styleTable
         = (Throw "Failed to load style guide: Cannot read properties of null (reading 'type')",
            styleTable))
  /\ invalidEntry grammarFields grammarSeverity literalRegExp commaRule
  /\ invalidEntry styleFields styleSeverity literalRegExp commaRule
  /\ loadRulesFromConfig literalRegExp
       (Ok (mkConfig (Some [Some typoRule; None]))) GRAMMAR_RULES
     = (Throw "Failed to load grammar rules: Cannot read properties of null (reading 'type')",
        GRAMMAR_RULES)
  /\ StyleService.loadStyleGuide literalRegExp (fun _ => None)
       (Ok (mkConfig (Some [Some typoRule; None]))) StyleService.STYLE_RULES
     = (Throw "Failed to load style guide: Cannot read properties of null (reading 'type')",
        StyleService.STYLE_RULES)
  /\ (forall j, ~ namesIndex j (cannotRead "type"))
  /\ digitFree
       "Failed to load grammar rules: Cannot read properties of null (reading 'type')"
     = true
  /\ digitFree
       "Failed to load style guide: Cannot read properties of null (reading 'type')"
     = true.
Proof.
  split; [intros; split; reflexivity|].
  split; [left; reflexivity|]. split; [left; reflexivity|].
  split; [reflexivity|]. split; [reflexivity|].
  split; [|split; reflexivity].
  intros j H. inversion H as [E|t E|sv E|pt E]; discriminate E.
Qed.

End Reconfiguration.

(** ** The rewrite engine *)

Section Rewrites.

Import GrammarEngine.

(** The [while] loop ends within [fuel] turns when it needs no more than
    that many rewrites, and it only appends. *)
Lemma ensureThree_extends sentence tone :
  forall fuel rewrites,
    3 <= List.length rewrites + fuel ->
    exists more,
      ensureThree sentence tone fuel rewrites = Some (rewrites ++ more)
      /\ 3 <= List.length (rewrites ++ more).
Proof.
  induction fuel as [|fuel IH]; intros rewrites Hfuel.
  - exists []. rewrite app_nil_r. cbn [ensureThree].
    destruct (Nat.ltb_spec (List.length rewrites) 3); [lia|].
    split; [reflexivity | lia].
  - cbn [ensureThree].
    destruct (Nat.ltb_spec (List.length rewrites) 3) as [Hlt|Hge].
    + destruct (IH (rewrites ++ [nextRewrite sentence tone rewrites]))
        as (more & E & Hlen).
      { rewrite length_app. simpl. lia. }
      exists (nextRewrite sentence tone rewrites :: more).
      rewrite <- app_assoc in E, Hlen. split; [exact E | exact Hlen].
    + exists []. rewrite app_nil_r. split; [reflexivity | lia].
Qed.

Lemma firstn_three {A : Type} (x : A) (l : list A) :
  3 <= List.length (x :: l) -> exists y z, firstn 3 (x :: l) = [x; y; z].
Proof.
  destruct l as [|y [|z l]]; simpl; intros H; try lia. eauto.
Qed.

(** C1.  Whatever [processText] returns or throws, however long the call
    takes and whatever the tone, [rewriteSentence] returns: for the empty
    sentence the one empty string; for a sentence of blanks only the
    sentence alone; for every other sentence exactly three strings, the first
    of which is the sentence itself. *)
Theorem rewriteSentence_three_with_original :
  forall (enhancedProcessText : string -> result (list EnhancedToken))
         (duration : Q) (sentence : string) (tone : option string),
    (sentence = "" ->
     rewriteSentence enhancedProcessText duration sentence tone = Some [""])
    /\ (sentence <> "" /\ Str.trim sentence = "" ->
        rewriteSentence enhancedProcessText duration sentence tone
        = Some [sentence])
    /\ (Str.trim sentence <> "" ->
        exists second third,
          rewriteSentence enhancedProcessText duration sentence tone
          = Some [sentence; second; third]).
Proof.
  intros pt duration sentence tone. unfold rewriteSentence.
  destruct (String.eqb_spec sentence "") as [E|NE].
  - subst sentence. split; [reflexivity|].
    split; [intros [H _]; congruence | intros H; exfalso; apply H; reflexivity].
  - split; [congruence|].
    destruct (Nat.eqb_spec (String.length (Str.trim sentence)) 0) as [Z|NZ].
    + apply length_zero in Z. split; [reflexivity | congruence].
    + split.
      { intros [_ H]. rewrite H in NZ. simpl in NZ. congruence. }
      intros _.
      destruct (pt sentence) as [tokens|]; [|eauto].
      destruct (generateSynonymRewrite tokens tone) as [synonymRewrite|]; [|eauto].
      match goal with
      | |- context [ensureThree sentence tone 3 ?r] =>
          destruct (ensureThree_extends sentence tone 3 r ltac:(lia))
            as (more & E & Hlen); rewrite E
      end.
      destruct (Qlt_le_dec 200 duration); [eauto|].
      cbn [app] in Hlen |- *. rewrite <- !app_assoc in Hlen |- *.
      cbn [app] in Hlen |- *.
      destruct (firstn_three sentence _ Hlen) as (y & z & F).
      rewrite F. eauto.
Qed.

(** The scenario of the specification: without synonyms from the provider,
    the fallback map rewrites "large", "building" and "beautiful". *)
Example large_building_is_rewritten :
  rewriteSentence (fun _ => Ok []) 0 "The large building is beautiful." None
  = Some [ "The large building is beautiful.";
           "The big structure is gorgeous.";
           "A large building is beautiful." ].
Proof. vm_compute. reflexivity. Qed.

End Rewrites.

(** ** The tone detector *)

Section Tones.

Import GrammarEngine.

Lemma normalizedScore_le_one (s n : nat) : (normalizedScore s n <= 1)%Q.
Proof. unfold normalizedScore. destruct (Nat.leb n 10); apply Q.le_min_l. Qed.

Lemma normalizedScore_zero (n : nat) : (normalizedScore 0 n == 0)%Q.
Proof.
  unfold normalizedScore, ofNat.
  destruct (Nat.leb n 10); (rewrite Q.min_r; [|]);
    unfold Qdiv; rewrite Qmult_0_l; try reflexivity; discriminate.
Qed.

(** What the loop pushes for the tones of a table: the names in the order
    of the table, each at most once, with scores from 0.1 to 1. *)
Lemma toneEntry_tone text_ wordCount entry t :
  In t (toneEntry text_ wordCount entry) ->
  tone t = fst entry /\ (1 # 10 <= score t)%Q /\ (score t <= 1)%Q
  /\ rawScore (snd entry) text_ <> 0.
Proof.
  unfold toneEntry.
  destruct (Qlt_le_dec _ _) as [Hlt|Hle]; [|intros []].
  intros [<-|[]]. cbn [tone score]. repeat split.
  - apply Q.le_max_l.
  - apply Q.max_lub; [discriminate | apply normalizedScore_le_one].
  - intros Z. rewrite Z in Hlt. rewrite normalizedScore_zero in Hlt.
    discriminate.
Qed.

Lemma pushed_tones text_ wordCount (table : list (string * Lexicon)) :
  NoDup (List.map fst table) ->
  NoDup (List.map tone (List.flat_map (toneEntry text_ wordCount) table))
  /\ forall t,
       In t (List.flat_map (toneEntry text_ wordCount) table) ->
       exists entry, In entry table /\ In t (toneEntry text_ wordCount entry).
Proof.
  intros Hnd. split.
  - induction table as [|entry table IH]; simpl; [constructor|].
    inversion Hnd as [|? ? Hnotin Hnd']; subst.
    rewrite List.map_app. unfold toneEntry at 1.
    destruct (Qlt_le_dec _ _); [|apply IH; exact Hnd'].
    cbn [List.map app tone]. constructor; [|apply IH; exact Hnd'].
    intros Hin. apply in_map_iff in Hin. destruct Hin as (t & Et & Ht).
    apply in_flat_map in Ht. destruct Ht as (e & He & Hte).
    apply toneEntry_tone in Hte. destruct Hte as (Etone & _).
    apply Hnotin. rewrite <- Et, Etone. apply in_map. exact He.
  - intros t Ht. apply in_flat_map in Ht. exact Ht.
Qed.

(** C2, amended.  For every text that is not blank, [detectTone] returns
    four entries, one for each of the tones formal, informal, friendly and
    professional; every score lies between 0 and 1; the entries are in
    descending order of score; and a tone whose words and patterns do not
    occur in the text has the score 0.  For a text that is empty or blank
    it returns the empty list. *)
Theorem detectTone_four_sorted_scores :
  forall text_ : string,
    (Str.trim text_ <> "" ->
     Permutation (List.map tone (detectTone text_))
       (List.map fst TONE_LEXICONS)
     /\ List.length (detectTone text_) = 4
     /\ Forall (fun t => (0 <= score t)%Q /\ (score t <= 1)%Q)
          (detectTone text_)
     /\ StronglySorted (descending score) (detectTone text_)
     /\ (forall name lexicon,
           In (name, lexicon) TONE_LEXICONS ->
           rawScore lexicon text_ = 0 ->
           In (mkTone name 0) (detectTone text_)))
    /\ (Str.trim text_ = "" -> detectTone text_ = []).
Proof.
  intros text_. split.
  2:{ intros Hb. unfold detectTone.
      destruct (String.eqb text_ ""); [reflexivity|].
      rewrite Hb. reflexivity. }
  intros Hne.
  assert (Hnames : NoDup (List.map fst TONE_LEXICONS)).
  { simpl. repeat constructor; simpl; intuition discriminate. }
  unfold detectTone.
  destruct (String.eqb_spec text_ "") as [->|_]; [exfalso; apply Hne; reflexivity|].
  destruct (Nat.eqb_spec (String.length (Str.trim text_)) 0) as [Z|_].
  { apply length_zero in Z. contradiction. }
  set (wordCount := List.length (Str.splitBlanks text_)).
  set (results := List.flat_map (toneEntry text_ wordCount) TONE_LEXICONS).
  destruct (pushed_tones text_ wordCount TONE_LEXICONS Hnames) as [Hnd Hfrom].
  fold results in Hnd, Hfrom.
  pose proof (sortDesc_perm score results) as Hperm.
  set (sorted := sortDesc score results) in *.
  unfold addMissing.
  change (fun name => mkTone name 0) with zeroTone.
  change (fun name => negb (Str.mem name (List.map tone sorted)))
    with (absentFrom sorted).
  assert (Hsorted : forall t, In t sorted ->
            exists entry, In entry TONE_LEXICONS
                          /\ In t (toneEntry text_ wordCount entry)).
  { intros t Ht. apply Hfrom. eapply Permutation_in; [exact Hperm | exact Ht]. }
  assert (P : Permutation
                (List.map tone
                   (sorted ++ List.map zeroTone
                      (List.filter (absentFrom sorted)
                         (List.map fst TONE_LEXICONS))))
                (List.map fst TONE_LEXICONS)).
  { apply NoDup_Permutation; [|exact Hnames|].
    - rewrite List.map_app, List.map_map. cbn [zeroTone tone]. rewrite List.map_id.
      apply NoDup_app.
      + eapply Permutation_NoDup; [|exact Hnd].
        apply Permutation_map. symmetry. exact Hperm.
      + apply NoDup_filter. exact Hnames.
      + intros x Hx Hf. apply filter_In in Hf. destruct Hf as [_ Hf].
        unfold absentFrom in Hf. apply negb_true_iff in Hf.
        apply mem_In in Hx. congruence.
    - intros x. rewrite List.map_app, List.map_map. cbn [zeroTone tone].
      rewrite List.map_id, in_app_iff, filter_In. unfold absentFrom.
      rewrite negb_true_iff. split.
      + intros [Hx|[Hx _]]; [|exact Hx].
        apply in_map_iff in Hx. destruct Hx as (t & <- & Ht).
        destruct (Hsorted t Ht) as (entry & He & Hte).
        apply toneEntry_tone in Hte. destruct Hte as (-> & _).
        apply in_map. exact He.
      + intros Hx. destruct (Str.mem x (List.map tone sorted)) eqn:E.
        * left. apply mem_In. exact E.
        * right. split; trivial. }
  split; [exact P|]. split.
  { apply Permutation_length in P. rewrite List.length_map in P. exact P. }
  split.
  { apply Forall_app. split.
    - apply Forall_forall. intros t Ht.
      destruct (Hsorted t Ht) as (entry & _ & Hte).
      apply toneEntry_tone in Hte. destruct Hte as (_ & Hlo & Hhi & _).
      split; [|exact Hhi]. eapply Qle_trans; [|exact Hlo]. discriminate.
    - apply Forall_forall. intros t Ht. apply in_map_iff in Ht.
      destruct Ht as (n & <- & _). cbn [zeroTone score]. split; discriminate. }
  split.
  { apply StronglySorted_app.
    - apply sortDesc_sorted.
    - generalize (List.filter (absentFrom sorted) (List.map fst TONE_LEXICONS)).
      intros l. induction l as [|n l IH]; simpl; constructor; [exact IH|].
      apply Forall_forall. intros t Ht. apply in_map_iff in Ht.
      destruct Ht as (n' & <- & _). unfold descending. cbn. discriminate.
    - intros a b Ha Hb. apply in_map_iff in Hb. destruct Hb as (n & <- & _).
      destruct (Hsorted a Ha) as (entry & _ & Hte).
      apply toneEntry_tone in Hte. destruct Hte as (_ & Hlo & _).
      unfold descending. cbn [zeroTone score].
      eapply Qle_trans; [|exact Hlo]. discriminate. }
  intros name lexicon Hin Hzero. apply in_app_iff. right.
  change (mkTone name 0) with (zeroTone name). apply in_map.
  apply filter_In. split.
  { change name with (fst (name, lexicon)). apply in_map. exact Hin. }
  unfold absentFrom. apply negb_true_iff.
  destruct (Str.mem name (List.map tone sorted)) eqn:E; [|reflexivity].
  exfalso. apply mem_In in E. apply in_map_iff in E.
  destruct E as (t & Etone & Ht).
  destruct (Hsorted t Ht) as (entry & He & Hte).
  apply toneEntry_tone in Hte. destruct Hte as (Et & _ & _ & Hraw).
  assert (entry = (name, lexicon)).
  { rewrite Etone in Et.
    clear - Hnames He Hin Et.
    destruct entry as [n' l']. simpl in Et. subst n'.
    f_equal.
    assert (G : forall (table : list (string * Lexicon)),
              NoDup (List.map fst table) ->
              In (name, l') table -> In (name, lexicon) table -> l' = lexicon).
    { induction table as [|[k v] table IHt]; intros Hn H1 H2; [contradiction|].
      simpl in Hn. inversion Hn as [|? ? Hk Hn']; subst.
      destruct H1 as [H1|H1], H2 as [H2|H2].
      - congruence.
      - injection H1 as -> ->. exfalso. apply Hk.
        change name with (fst (name, lexicon)). apply in_map. exact H2.
      - injection H2 as -> ->. exfalso. apply Hk.
        change name with (fst (name, l')). apply in_map. exact H1.
      - apply IHt; trivial. }
    apply (G TONE_LEXICONS); trivial. }
  subst entry. apply Hraw. exact Hzero.
Qed.

Lemma detectTone_four_sorted_scores_witness :
  (Permutation (List.map tone (detectTone "Thanks, ok?"))
     (List.map fst TONE_LEXICONS)
   /\ List.length (detectTone "Thanks, ok?") = 4)
  /\ detectTone "   " = [].
Proof.
  split.
  - destruct (proj1 (detectTone_four_sorted_scores "Thanks, ok?")
                ltac:(vm_compute; discriminate)) as (H1 & H2 & _).
    split; [exact H1 | exact H2].
  - apply (proj2 (detectTone_four_sorted_scores "   ")). reflexivity.
Defined.

(** For the empty text [detectTone] returns no entry at all. *)
Lemma detectTone_empty_input_counterexample :
  List.length (detectTone "") <> 4.
Proof. vm_compute. discriminate. Qed.

End Tones.

(** ** The keyword-table strategy *)

Section KeywordScores.

Import SynonymContext.

Lemma Qmax_either (x y : Q) : Qmax x y = x \/ Qmax x y = y.
Proof.
  unfold Qmax, GenericMinMax.gmax. destruct (x ?= y)%Q; auto.
Qed.

Lemma fold_max_bounds (l : list Q) :
  forall init,
    (init <= List.fold_left Qmax l init)%Q
    /\ (forall s, In s l -> (s <= List.fold_left Qmax l init)%Q)
    /\ (List.fold_left Qmax l init = init \/ In (List.fold_left Qmax l init) l).
Proof.
  induction l as [|x l IH]; intros init; simpl.
  - split; [apply Qle_refl|]. split; [intros s []|left; reflexivity].
  - destruct (IH (Qmax init x)) as (H1 & H2 & H3). split.
    { eapply Qle_trans; [apply Q.le_max_l | exact H1]. }
    split.
    { intros s [<-|Hs]; [|apply H2; exact Hs].
      eapply Qle_trans; [apply Q.le_max_r | exact H1]. }
    destruct H3 as [H3|H3]; [|right; right; exact H3].
    rewrite H3. destruct (Qmax_either init x) as [E|E]; rewrite E; auto.
Qed.

Lemma insertScored_perm (x : Scored) (l : list Scored) :
  Permutation (insertScored x l) (x :: l).
Proof.
  induction l as [|y l IH]; simpl; [reflexivity|].
  destruct (keepsOrder x y); [reflexivity|].
  rewrite IH. apply perm_swap.
Qed.

Lemma sortScored_perm (l : list Scored) : Permutation (sortScored l) l.
Proof.
  induction l as [|x l IH]; simpl; [reflexivity|].
  rewrite insertScored_perm. apply perm_skip. exact IH.
Qed.

Lemma insertScored_sorted (x : Scored) (l : list Scored) :
  score x <> NaN -> Forall (fun r => score r <> NaN) l ->
  StronglySorted (descending number) l ->
  StronglySorted (descending number) (insertScored x l).
Proof.
  intros Hx. induction l as [|y l IH]; intros Hl Hs; simpl.
  - constructor; constructor.
  - inversion Hs as [|? ? Hsl Hy]; subst.
    inversion Hl as [|? ? Hyn Hln]; subst.
    unfold keepsOrder.
    destruct (score x) as [qx|] eqn:Ex; [|congruence].
    destruct (score y) as [qy|] eqn:Ey; [|congruence].
    destruct (Qle_bool qy qx) eqn:E.
    + apply Qle_bool_iff in E. constructor; [exact Hs|].
      constructor; [unfold descending, number; rewrite Ex, Ey; exact E|].
      eapply Forall_impl; [|exact Hy].
      intros z Hz. unfold descending, number in *. rewrite Ex. rewrite Ey in Hz.
      eapply Qle_trans; eauto.
    + assert (Hlt : (qx <= qy)%Q).
      { apply Qlt_le_weak, Qnot_le_lt. intros H.
        apply Qle_bool_iff in H. congruence. }
      constructor; [apply IH; trivial|].
      eapply Permutation_Forall; [symmetry; apply insertScored_perm|].
      constructor; [|exact Hy].
      unfold descending, number. rewrite Ex, Ey. exact Hlt.
Qed.

Lemma sortScored_sorted (l : list Scored) :
  Forall (fun r => score r <> NaN) l ->
  StronglySorted (descending number) (sortScored l).
Proof.
  induction 1 as [|x l Hx Hl IH]; simpl; [constructor|].
  apply insertScored_sorted; trivial.
  eapply Permutation_Forall; [symmetry; apply sortScored_perm | exact Hl].
Qed.

(** The score of a candidate that is no name every object inherits: the
    maximum of the default and of its overrides in the matching domains. *)
Lemma calculateContextScore_fold config candidate contextWords :
  Str.mem candidate inheritedKeys = false ->
  calculateContextScore config candidate contextWords
  = Num (List.fold_left Qmax
           (matchingOverrides config candidate contextWords)
           (defaultScore config)).
Proof.
  intros Hown. unfold calculateContextScore, matchingOverrides.
  generalize (defaultScore config).
  induction (contextMappings config) as [|entry l IH]; intros init; simpl;
    [reflexivity|].
  rewrite fold_left_app, <- IH. f_equal. unfold better, scoreOf.
  destruct (hasContextKeywords (snd entry) contextWords); [|reflexivity].
  destruct (GrammarEngine.lookup candidate (synonymScores (snd entry)));
    [reflexivity|].
  rewrite Hown. reflexivity.
Qed.

Lemma no_context_no_override config candidate :
  matchingOverrides config candidate [] = [].
Proof.
  unfold matchingOverrides. induction (contextMappings config); simpl; trivial.
Qed.

(** The candidates come back, each once, whatever their scores. *)
Lemma scoreSynonyms_perm config word synonyms context :
  Permutation (List.map synonym (scoreSynonyms config word synonyms context))
    synonyms.
Proof.
  unfold scoreSynonyms. destruct synonyms as [|c synonyms]; [reflexivity|].
  rewrite (Permutation_map synonym (sortScored_perm _)).
  rewrite List.map_map. cbn [synonym]. rewrite List.map_id. reflexivity.
Qed.

(** The score the strategy gives a candidate that is no name every object
    inherits. *)
Lemma scored_value config word synonyms context r :
  Forall (fun c => Str.mem (Str.toLowerCase c) inheritedKeys = false)
    synonyms ->
  In r (scoreSynonyms config word synonyms context) ->
  In (synonym r) synonyms
  /\ score r
     = Num (List.fold_left Qmax
              (matchingOverrides config (Str.toLowerCase (synonym r))
                 (List.map Str.toLowerCase context))
              (defaultScore config)).
Proof.
  unfold scoreSynonyms. intros Hown H.
  assert (H' : In r (List.map
            (fun synonym_ =>
               mkScored synonym_
                 (if Nat.ltb 0 (List.length context)
                  then calculateContextScore config
                         (Str.toLowerCase synonym_)
                         (List.map Str.toLowerCase context)
                  else Num (defaultScore config))) synonyms)).
  { destruct synonyms; [contradiction|].
    eapply Permutation_in; [apply sortScored_perm | exact H]. }
  apply in_map_iff in H'. destruct H' as (c & <- & Hc). cbn [synonym score].
  split; [exact Hc|].
  destruct context as [|w context]; cbn [List.length Nat.ltb Nat.leb].
  - cbn [List.map]. rewrite no_context_no_override. reflexivity.
  - apply calculateContextScore_fold.
    rewrite Forall_forall in Hown. apply Hown, Hc.
Qed.

(** What the strategy does for candidates none of which is a name every
    object inherits: it returns them, each with a score that is a number,
    in descending order of score.  The score of a candidate is the maximum
    of the default score and of its override scores in the domains whose
    trigger keywords contain a context word: it is at least the default,
    at least every such override, and equal to the default or to one such
    override; so it is the default when no such override exists. *)
Lemma keyword_scores_of_own_candidates :
  forall (config : ContextScoringConfig) (word : string)
         (synonyms context : list string),
    Forall (fun c => Str.mem (Str.toLowerCase c) inheritedKeys = false)
      synonyms ->
    Permutation
      (List.map synonym (scoreSynonyms config word synonyms context)) synonyms
    /\ StronglySorted (descending number)
         (scoreSynonyms config word synonyms context)
    /\ (forall r,
          In r (scoreSynonyms config word synonyms context) ->
          let overrides :=
            matchingOverrides config (Str.toLowerCase (synonym r))
              (List.map Str.toLowerCase context) in
          score r = Num (number r)
          /\ (defaultScore config <= number r)%Q
          /\ (forall s, In s overrides -> (s <= number r)%Q)
          /\ (number r = defaultScore config \/ In (number r) overrides)
          /\ (overrides = [] -> number r = defaultScore config)).
Proof.
  intros config word synonyms context Hown.
  assert (Hnum : forall r,
    In r (scoreSynonyms config word synonyms context) ->
    score r
    = Num (List.fold_left Qmax
             (matchingOverrides config (Str.toLowerCase (synonym r))
                (List.map Str.toLowerCase context))
             (defaultScore config))).
  { intros r Hr. eapply scored_value; eauto. }
  split; [apply scoreSynonyms_perm|]. split.
  - assert (Hall : Forall (fun r => score r <> NaN)
                     (scoreSynonyms config word synonyms context)).
    { apply Forall_forall. intros r Hr. rewrite (Hnum r Hr). discriminate. }
    revert Hall. unfold scoreSynonyms. destruct synonyms; [constructor|].
    intros Hall. apply sortScored_sorted.
    eapply Permutation_Forall; [apply sortScored_perm | exact Hall].
  - intros r Hr overrides. pose proof (Hnum r Hr) as E. fold overrides in E.
    unfold number. rewrite E.
    destruct (fold_max_bounds overrides (defaultScore config)) as (H1 & H2 & H3).
    repeat split; trivial.
    intros Hnone. destruct H3 as [H3|H3]; [exact H3|].
    rewrite Hnone in H3. contradiction.
Qed.

(** C8.  In a financial context the candidate "shore" has one override
    in the matching domains, 0.1, which is the score the specification
    words for it; the strategy scores it 0.5, the default, which its
    [Math.max] never goes below, so that the overrides of 0.1 in the
    table of the strategy have no effect.  And a candidate that is a name
    every object inherits, such as "constructor", reads something that is
    not [undefined] in the table of a matching domain and is scored
    [NaN]. *)
Theorem keyword_override_below_default_is_dead :
  scoreSynonyms DEFAULT_CONTEXT_CONFIG "bank" ["shore"] ["money"]
  = [mkScored "shore" (Num (5 # 10))]
  /\ matchingOverrides DEFAULT_CONTEXT_CONFIG "shore" ["money"] = [1 # 10]
  /\ spec_keywordScore DEFAULT_CONTEXT_CONFIG "shore" ["money"] = 1 # 10
  /\ ~ (5 # 10 == 1 # 10)%Q
  /\ scoreSynonyms DEFAULT_CONTEXT_CONFIG "bank" ["constructor"] ["money"]
     = [mkScored "constructor" NaN]
  /\ In (mkScored "constructor" NaN)
       (scoreSynonyms DEFAULT_CONTEXT_CONFIG "bank"
          ["shore"; "constructor"; "lender"] ["money"]).
Proof.
  split; [reflexivity|]. split; [reflexivity|]. split; [reflexivity|].
  split; [discriminate|]. split; [reflexivity|].
  eapply Permutation_in; [symmetry; apply sortScored_perm|].
  right. left. reflexivity.
Qed.

End KeywordScores.

(** ** The matcher *)

Section Matcher.

Import Regex.

Lemma advance_offset p a p' :
  advance p = Some (a, p') -> offset p' = S (offset p).
Proof.
  unfold advance. destruct (rest p); [discriminate|].
  intros [= _ <-]. reflexivity.
Qed.

Lemma repLoop_advances strict ma min max greedy k :
  advances strict ma ->
  forall fuel n p e,
    repLoop ma min max greedy k fuel n p = Some e ->
    exists p', k p' = Some e /\ offset p <= offset p'
               /\ (strict = true -> n < min -> offset p < offset p').
Proof.
  intros Hma. induction fuel as [|fuel IH]; intros n p e H; [discriminate|].
  cbn [repLoop] in H.
  assert (Hiter :
    (if underMax n max
     then ma (fun p' =>
                if Nat.leb min n && Nat.eqb (offset p') (offset p) then None
                else repLoop ma min max greedy k fuel (S n) p') p
     else None) = Some e ->
    exists p', k p' = Some e /\ offset p <= offset p'
               /\ (strict = true -> n < min -> offset p < offset p')).
  { destruct (underMax n max); [|discriminate]. intros Hi.
    apply Hma in Hi. destruct Hi as (p1 & Hk & Hle & Hlt).
    destruct (Nat.leb min n && Nat.eqb (offset p1) (offset p)); [discriminate|].
    apply IH in Hk. destruct Hk as (p' & Hk & Hle' & _).
    exists p'. split; [exact Hk|]. split; [lia|].
    intros Hs _. specialize (Hlt Hs). lia. }
  assert (Hstop :
    (if Nat.leb min n then k p else None) = Some e ->
    exists p', k p' = Some e /\ offset p <= offset p'
               /\ (strict = true -> n < min -> offset p < offset p')).
  { destruct (Nat.leb_spec min n); [|discriminate]. intros Hk.
    exists p. split; [exact Hk|]. split; [lia|]. intros _ Hn. lia. }
  destruct greedy.
  - destruct (if underMax n max then _ else None) eqn:E.
    + apply Hiter. rewrite <- H. reflexivity.
    + apply Hstop. exact H.
  - destruct (if Nat.leb min n then k p else None) eqn:E.
    + apply Hstop. rewrite <- H. reflexivity.
    + apply Hiter. exact H.
Qed.

Lemma m_advances ic r : advances (consumes r) (m ic r).
Proof.
  induction r as [ |c| |neg items|a IHa b IHb|a IHa b IHb|min max greedy a IHa
                 |i a IHa| | | |a IHa|items]; intros k p e H; cbn [m consumes] in *.
  - exists p. repeat split; trivial; intros; discriminate.
  - destruct (advance p) as [[x p']|] eqn:E; [|discriminate].
    destruct (charEq ic x c); [|discriminate].
    apply advance_offset in E. exists p'. repeat split; trivial; lia.
  - destruct (advance p) as [[x p']|] eqn:E; [|discriminate].
    destruct (Str.isLineTerminator x); [discriminate|].
    apply advance_offset in E. exists p'. repeat split; trivial; lia.
  - destruct (advance p) as [[x p']|] eqn:E; [|discriminate].
    destruct (xorb neg (inClass ic items x)); [|discriminate].
    apply advance_offset in E. exists p'. repeat split; trivial; lia.
  - apply IHa in H. destruct H as (p1 & H & Hle & Hlt).
    apply IHb in H. destruct H as (p2 & H & Hle' & Hlt').
    exists p2. split; [exact H|]. split; [lia|].
    intros Hc. apply orb_true_iff in Hc. destruct Hc as [Hc|Hc];
      [specialize (Hlt Hc) | specialize (Hlt' Hc)]; lia.
  - destruct (m ic a k p) eqn:E.
    + injection H as ->. apply IHa in E. destruct E as (p' & ? & ? & Hlt).
      exists p'. repeat split; trivial. intros Hc.
      apply andb_true_iff in Hc. apply Hlt, Hc.
    + apply IHb in H. destruct H as (p' & ? & ? & Hlt).
      exists p'. repeat split; trivial. intros Hc.
      apply andb_true_iff in Hc. apply Hlt, Hc.
  - apply (repLoop_advances (consumes a)) in H; [|exact IHa].
    destruct H as (p' & Hk & Hle & Hlt). exists p'. repeat split; trivial.
    intros Hc. apply andb_true_iff in Hc. destruct Hc as [Hm Hc].
    apply Nat.ltb_lt in Hm. apply Hlt; trivial.
  - apply IHa in H. destruct H as (p' & Hk & Hle & Hlt).
    eexists. split; [exact Hk|]. cbn [setCap offset]. split; trivial.
  - destruct (Nat.eqb (offset p) 0); [|discriminate].
    exists p. repeat split; trivial; intros; discriminate.
  - destruct (rest p); [|discriminate].
    exists p. repeat split; trivial; intros; discriminate.
  - destruct (xorb _ _); [|discriminate].
    exists p. repeat split; trivial; intros; discriminate.
  - destruct (m ic a Some p); [|discriminate].
    exists p. repeat split; trivial; intros; discriminate.
  - destruct (before p) as [c|]; [|discriminate].
    destruct (inClass ic items c); [|discriminate].
    exists p. repeat split; trivial; intros; discriminate.
Qed.


Lemma matchAt_bounds ic r inp bef off rst mt :
  matchAt ic r inp bef off rst = Some mt ->
  index mt = off /\ off <= endIndex mt
  /\ (consumes r = true -> off < endIndex mt).
Proof.
  unfold matchAt. destruct (m ic r Some _) as [e|] eqn:E; [|discriminate].
  intros [= <-]. cbn [index endIndex].
  apply m_advances in E. destruct E as (p' & [= ->] & Hle & Hlt).
  cbn [offset] in *. repeat split; trivial.
Qed.

Lemma matchesFrom_nonempty ic r inp :
  consumes r = true ->
  forall rst bef off skip,
    Forall (fun mt => index mt < endIndex mt)
      (matchesFrom ic r inp bef off rst skip).
Proof.
  intros Hc. induction rst as [|c rst IH]; intros bef off skip.
  - cbn [matchesFrom]. destruct skip; [|constructor].
    destruct (matchAt ic r inp bef off "") as [mt|] eqn:E; constructor;
      [|constructor].
    apply matchAt_bounds in E. destruct E as (-> & _ & Hlt). auto.
  - cbn [matchesFrom]. destruct skip; [|apply IH].
    destruct (matchAt ic r inp bef off (String c rst)) as [mt|] eqn:E;
      [|apply IH].
    constructor; [|apply IH].
    apply matchAt_bounds in E. destruct E as (-> & _ & Hlt). auto.
Qed.

(** *** What a match is made of *)

Lemma advance_rest p a p' :
  advance p = Some (a, p') ->
  rest p = String a (rest p') /\ offset p' = S (offset p).
Proof.
  unfold advance. destruct (rest p); [discriminate|].
  intros [= <- <-]. split; reflexivity.
Qed.

Lemma concat_cons_empty_sep (w : string) (ws : list string) :
  String.concat "" (w :: ws) = (w ++ String.concat "" ws)%string.
Proof.
  destruct ws as [|w' ws]; cbn [String.concat].
  - induction w; simpl; congruence.
  - reflexivity.
Qed.

Lemma repLoop_sound L ma min max greedy k :
  consumesOnly L ma ->
  forall fuel n p e,
    repLoop ma min max greedy k fuel n p = Some e ->
    exists p' ws,
      k p' = Some e /\ rest p = (String.concat "" ws ++ rest p')%string
      /\ offset p' = offset p + String.length (String.concat "" ws)
      /\ Forall L ws /\ min <= n + List.length ws.
Proof.
  intros Hma. induction fuel as [|fuel IH]; intros n p e H; [discriminate|].
  cbn [repLoop] in H.
  assert (Hiter :
    (if underMax n max
     then ma (fun p' =>
                if Nat.leb min n && Nat.eqb (offset p') (offset p) then None
                else repLoop ma min max greedy k fuel (S n) p') p
     else None) = Some e ->
    exists p' ws,
      k p' = Some e /\ rest p = (String.concat "" ws ++ rest p')%string
      /\ offset p' = offset p + String.length (String.concat "" ws)
      /\ Forall L ws /\ min <= n + List.length ws).
  { destruct (underMax n max); [|discriminate]. intros Hi.
    apply Hma in Hi. destruct Hi as (p1 & w & Hk & Hr & Ho & Hw).
    destruct (Nat.leb min n && Nat.eqb (offset p1) (offset p)); [discriminate|].
    apply IH in Hk. destruct Hk as (p' & ws & Hk & Hr' & Ho' & Hws & Hmin).
    exists p', (w :: ws). rewrite concat_cons_empty_sep.
    split; [exact Hk|]. split.
    { rewrite Hr, Hr'. rewrite append_assoc. reflexivity. }
    split.
    { rewrite Ho', Ho, length_append. lia. }
    split; [constructor; trivial|]. cbn [List.length]. lia. }
  assert (Hstop :
    (if Nat.leb min n then k p else None) = Some e ->
    exists p' ws,
      k p' = Some e /\ rest p = (String.concat "" ws ++ rest p')%string
      /\ offset p' = offset p + String.length (String.concat "" ws)
      /\ Forall L ws /\ min <= n + List.length ws).
  { destruct (Nat.leb_spec min n); [|discriminate]. intros Hk.
    exists p, []. cbn. repeat split; trivial; lia. }
  destruct greedy.
  - destruct (if underMax n max then _ else None) eqn:E.
    + apply Hiter. rewrite <- H. reflexivity.
    + apply Hstop. exact H.
  - destruct (if Nat.leb min n then k p else None) eqn:E.
    + apply Hstop. rewrite <- H. reflexivity.
    + apply Hiter. exact H.
Qed.

Lemma m_sound ic r : consumesOnly (accepts ic r) (m ic r).
Proof.
  induction r as [ |c| |neg items|a IHa b IHb|a IHa b IHb|min max greedy a IHa
                 |i a IHa| | | |a IHa|items]; intros k p e H; cbn [m] in H.
  - exists p, "". repeat split; trivial; lia.
  - destruct (advance p) as [[x p']|] eqn:E; [|discriminate].
    destruct (charEq ic x c) eqn:C; [|discriminate].
    apply advance_rest in E. destruct E as [Er Eo].
    exists p', (String x ""). repeat split; trivial; try (simpl; lia).
    exists x. split; trivial.
  - destruct (advance p) as [[x p']|] eqn:E; [|discriminate].
    destruct (Str.isLineTerminator x) eqn:C; [discriminate|].
    apply advance_rest in E. destruct E as [Er Eo].
    exists p', (String x ""). repeat split; trivial; try (simpl; lia).
    exists x. split; trivial.
  - destruct (advance p) as [[x p']|] eqn:E; [|discriminate].
    destruct (xorb neg (inClass ic items x)) eqn:C; [|discriminate].
    apply advance_rest in E. destruct E as [Er Eo].
    exists p', (String x ""). repeat split; trivial; try (simpl; lia).
    exists x. split; trivial.
  - apply IHa in H. destruct H as (p1 & w1 & H & Hr1 & Ho1 & Hw1).
    apply IHb in H. destruct H as (p2 & w2 & H & Hr2 & Ho2 & Hw2).
    exists p2, (w1 ++ w2)%string. split; [exact H|]. split.
    { rewrite Hr1, Hr2, append_assoc. reflexivity. }
    split; [rewrite Ho2, Ho1, length_append; lia|].
    cbn [accepts]. eauto.
  - destruct (m ic a k p) eqn:E.
    + injection H as ->. apply IHa in E.
      destruct E as (p' & w & ? & ? & ? & ?).
      exists p', w. repeat split; trivial. left. trivial.
    + apply IHb in H. destruct H as (p' & w & ? & ? & ? & ?).
      exists p', w. repeat split; trivial. right. trivial.
  - apply (repLoop_sound (accepts ic a)) in H; [|exact IHa].
    destruct H as (p' & ws & Hk & Hr & Ho & Hws & Hmin).
    exists p', (String.concat "" ws). repeat split; trivial.
    exists ws. repeat split; trivial.
  - apply IHa in H. destruct H as (p' & w & Hk & Hr & Ho & Hw).
    eexists _, w. split; [exact Hk|]. cbn [setCap rest offset].
    repeat split; trivial.
  - destruct (Nat.eqb (offset p) 0); [|discriminate].
    exists p, "". repeat split; trivial; lia.
  - destruct (rest p) eqn:E; [|discriminate].
    exists p, "". rewrite E. repeat split; trivial; lia.
  - destruct (xorb _ _); [|discriminate].
    exists p, "". repeat split; trivial; lia.
  - destruct (m ic a Some p); [|discriminate].
    exists p, "". repeat split; trivial; lia.
  - destruct (before p) as [c|]; [|discriminate].
    destruct (inClass ic items c); [|discriminate].
    exists p, "". repeat split; trivial; lia.
Qed.

(** *** Runs of characters *)

Lemma blankClass_nonword a : blankClass a = true -> Str.isWordChar a = false.
Proof.
  destruct a as [[] [] [] [] [] [] [] []]; vm_compute; intros; congruence.
Qed.

Lemma wordClass_word a : wordClass a = true -> Str.isWordChar a = true.
Proof.
  destruct a as [[] [] [] [] [] [] [] []]; vm_compute; intros; congruence.
Qed.

Lemma isWordChar_upper a : Str.isWordChar (Str.toUpperChar a) = Str.isWordChar a.
Proof.
  destruct a as [[] [] [] [] [] [] [] []]; vm_compute; reflexivity.
Qed.

Lemma charEq_word a c :
  charEq true a c = true -> Str.isWordChar a = Str.isWordChar c.
Proof.
  unfold charEq. intros H. apply Ascii.eqb_eq in H.
  rewrite <- (isWordChar_upper a), H. apply isWordChar_upper.
Qed.

(** A run of [f]-characters stops before a character that is not one. *)
Lemma run_before f u v y c z :
  every f u = true -> f c = false ->
  (u ++ v)%string = (y ++ String c z)%string ->
  exists t, y = (u ++ t)%string /\ v = (t ++ String c z)%string.
Proof.
  revert y. induction u as [|a u IH]; intros y Hu Hc H.
  - exists y. split; [reflexivity | exact H].
  - cbn [every] in Hu. apply andb_true_iff in Hu. destruct Hu as [Ha Hu].
    destruct y as [|a' y]; simpl in H.
    + injection H as -> _. congruence.
    + injection H as -> H. destruct (IH y Hu Hc H) as (t & -> & ->).
      exists t. split; reflexivity.
Qed.

(** A run of [f]-characters that holds a character followed by one that is
    not an [f]-character ends with it. *)
Lemma run_over f u v y c d z :
  every f u = true -> f d = false ->
  (u ++ v)%string = (y ++ String c (String d z))%string ->
  (u = (y ++ String c "")%string /\ v = String d z)
  \/ exists t, y = (u ++ t)%string /\ v = (t ++ String c (String d z))%string.
Proof.
  revert y. induction u as [|a u IH]; intros y Hu Hd H.
  - right. exists y. split; [reflexivity | exact H].
  - cbn [every] in Hu. apply andb_true_iff in Hu. destruct Hu as [Ha Hu].
    destruct y as [|a' y]; simpl in H.
    + injection H as -> H. destruct u as [|a2 u]; simpl in H.
      * left. split; [reflexivity | exact H].
      * injection H as -> _. cbn [every] in Hu.
        apply andb_true_iff in Hu. destruct Hu. congruence.
    + injection H as -> H. destruct (IH y Hu Hd H) as [[-> ->]|(t & -> & ->)].
      * left. split; reflexivity.
      * right. exists t. split; reflexivity.
Qed.

(** The longest run of [f]-characters a text starts with is unique. *)
Lemma run_unique f u v u' v' :
  every f u = true -> every f u' = true ->
  headIs f v = false -> headIs f v' = false ->
  (u ++ v)%string = (u' ++ v')%string -> u = u' /\ v = v'.
Proof.
  revert u'. induction u as [|a u IH]; intros u' Hu Hu' Hv Hv' H.
  - destruct u' as [|a' u']; [split; trivial|].
    simpl in H. subst v. cbn [every headIs] in *.
    apply andb_true_iff in Hu'. destruct Hu'. congruence.
  - cbn [every] in Hu. apply andb_true_iff in Hu. destruct Hu as [Ha Hu].
    destruct u' as [|a' u']; simpl in H.
    + subst v'. cbn [headIs] in Hv'. congruence.
    + injection H as -> H. cbn [every] in Hu'.
      apply andb_true_iff in Hu'. destruct Hu' as [_ Hu'].
      destruct (IH u' Hu Hu' Hv Hv' H) as [-> ->]. split; reflexivity.
Qed.

Lemma app_split (a b c d : string) :
  (a ++ b)%string = (c ++ d)%string -> String.length c <= String.length a ->
  exists t, a = (c ++ t)%string /\ d = (t ++ b)%string.
Proof.
  revert a. induction c as [|x c IH]; intros a H Hl.
  - exists a. split; [reflexivity | symmetry; exact H].
  - destruct a as [|x' a]; [simpl in Hl; lia|].
    simpl in H. injection H as -> H. simpl in Hl.
    destruct (IH a H ltac:(lia)) as (t & -> & ->).
    exists t. split; reflexivity.
Qed.

Lemma every_app f u v : every f (u ++ v) = every f u && every f v.
Proof.
  induction u as [|a u IH]; simpl; [reflexivity|].
  rewrite IH, andb_assoc. reflexivity.
Qed.

(** The texts a repetition of a one-character class matches. *)
Lemma class_run ic neg items ws :
  Forall (accepts ic (Cls neg items)) ws ->
  every (fun a => xorb neg (inClass ic items a)) (String.concat "" ws) = true
  /\ String.length (String.concat "" ws) = List.length ws.
Proof.
  induction 1 as [|w ws (a & -> & Ha) _ [IH1 IH2]]; [split; reflexivity|].
  rewrite concat_cons_empty_sep. cbn [append every String.length List.length].
  rewrite Ha, IH1, IH2. split; reflexivity.
Qed.

(** A text a literal matches under the [i] flag is made of word characters
    when the literal is. *)
Lemma lit_word s : forall w,
  accepts true (lit s) w -> every Str.isWordChar s = true ->
  every Str.isWordChar w = true /\ String.length w = String.length s.
Proof.
  induction s as [|c s IH]; intros w H Hs.
  - cbn in H. subst w. split; reflexivity.
  - cbn [every] in Hs. apply andb_true_iff in Hs. destruct Hs as [Hc Hs].
    destruct s as [|c' s].
    + cbn in H. destruct H as (a & -> & Ha). apply charEq_word in Ha.
      cbn [every String.length]. rewrite Ha, Hc. split; reflexivity.
    + cbn [lit accepts] in H. destruct H as (w1 & w2 & -> & (a & -> & Ha) & H2).
      apply charEq_word in Ha. destruct (IH w2 H2 Hs) as [E1 E2].
      cbn [append every String.length]. rewrite Ha, Hc, E1, E2.
      split; reflexivity.
Qed.

Lemma matchesFrom_zero ic r inp bef off rst :
  matchesFrom ic r inp bef off rst 0
  = match matchAt ic r inp bef off rst with
    | Some mt =>
        mt :: match rst with
              | EmptyString => []
              | String c t =>
                  matchesFrom ic r inp (Some c) (S off) t (endIndex mt - off - 1)
              end
    | None =>
        match rst with
        | EmptyString => []
        | String c t => matchesFrom ic r inp (Some c) (S off) t 0
        end
    end.
Proof. destruct rst; reflexivity. Qed.

Lemma matchesFrom_skip ic r inp bef off c t skip :
  matchesFrom ic r inp bef off (String c t) (S skip)
  = matchesFrom ic r inp (Some c) (S off) t skip.
Proof. reflexivity. Qed.

Lemma append_cons a (y z : string) :
  (String a y ++ z)%string = String a (y ++ z).
Proof. reflexivity. Qed.

Lemma append_empty (z : string) : ("" ++ z)%string = z.
Proof. reflexivity. Qed.

End Matcher.

(** ** The passive-voice rule *)

Section PassiveVoice.

Import Regex StyleService.

(** A pattern with the [g] flag whose matches are never empty: the [while]
    loop over its matches ends, having visited all of them. *)
Lemma execLoop_total (rx : RegExp) (line : string) :
  global rx = true -> consumes (source rx) = true ->
  execLoop rx line = Some (matchAll rx line).
Proof.
  intros Hg Hc. unfold execLoop. rewrite Hg.
  assert (H : existsb emptyMatch (matchAll rx line) = false).
  { unfold matchAll.
    pose proof (matchesFrom_nonempty (ignoreCase rx) (source rx) line Hc
                  line None 0 0) as H.
    induction H as [|mt l Hmt _ IH]; [reflexivity|].
    cbn [existsb]. rewrite IH, orb_false_r. unfold emptyMatch.
    apply Nat.eqb_neq. lia. }
  rewrite H. reflexivity.
Qed.

Lemma concatAll_total {A B : Type} (f : A -> option (list B)) (g : A -> list B)
    (l : list A) :
  Forall (fun a => f a = Some (g a)) l ->
  concatAll f l = Some (List.flat_map g l).
Proof.
  induction 1 as [|a l Ha _ IH]; simpl; [reflexivity|].
  rewrite Ha, IH. reflexivity.
Qed.

Lemma checkStyleRules_builtin line lineNumber :
    checkStyleRules STYLE_RULES line lineNumber
    = Some (List.flat_map
              (fun rule =>
                 List.map (styleSuggestion rule lineNumber)
                   (matchAll (sr_pattern rule) line))
              STYLE_RULES).
Proof.
  unfold checkStyleRules. apply concatAll_total.
  unfold STYLE_RULES.
  repeat constructor; unfold checkStyleRule; rewrite execLoop_total; reflexivity.
Qed.

(** Two lines with other subjects and agents: the suggestion is the same
    literal. *)
Example passive_suggestion_ignores_agent :
  option_map (List.map (fun s => (sg_type s, sg_column s, sg_suggestion s)))
    (suggestStyle STYLE_RULES "The memo was written by Mary.")
  = Some [("passive-voice", 10, Some "John wrote the report")]
  /\ option_map (List.map (fun s => (sg_type s, sg_column s, sg_suggestion s)))
       (suggestStyle STYLE_RULES "The report was written by John.")
     = Some [("passive-voice", 12, Some "John wrote the report")].
Proof. split; vm_compute; reflexivity. Qed.

(** *** Where the phrase is found *)

Lemma plus_class_run neg items w :
  accepts true (plus (Cls neg items)) w ->
  every (fun a => xorb neg (inClass true items a)) w = true /\ w <> "".
Proof.
  intros (ws & -> & Hws & Hn). apply class_run in Hws. destruct Hws as [H1 H2].
  split; [exact H1|]. intros E. rewrite E in H2. simpl in H2. lia.
Qed.

(** The texts the passive-voice pattern matches: an auxiliary, blanks, a
    word, blanks, and "by" in either case. *)
Lemma passive_match_parts w :
  accepts true passivePattern w ->
  exists wa b1 wd b2 c1 c2,
    w = (wa ++ b1 ++ wd ++ b2 ++ String c1 (String c2 ""))%string
    /\ every Str.isWordChar wa = true
    /\ every blankClass b1 = true
    /\ every Str.isWordChar wd = true
    /\ every blankClass b2 = true /\ b2 <> ""
    /\ charEq true c1 "b" = true /\ Str.isWordChar c2 = true.
Proof.
  intros H. unfold passivePattern, PASSIVE_VOICE, bounded in H.
  cbn [sr_pattern source seq app accepts plus blank wordc words alts List.map]
    in H.
  destruct H as (w0 & w1 & -> & -> & wa & w2 & -> & Ha & b1 & w3 & -> & Hb1
                 & wd & w4 & -> & Hd & b2 & w5 & -> & Hb2 & by_ & w6 & ->
                 & Hby & ->).
  cbn [lit accepts] in Hby.
  destruct Hby as (x1 & x2 & -> & (c1 & -> & Hc1) & (c2 & -> & Hc2)).
  apply (plus_class_run false [CSpace]) in Hb1, Hb2.
  apply (plus_class_run false [CWord]) in Hd.
  destruct Hb1 as [Hb1 _]. destruct Hb2 as [Hb2 Hne]. destruct Hd as [Hd _].
  exists wa, b1, wd, b2, c1, c2. cbn [append].
  split; [reflexivity|].
  split.
  { repeat (destruct Ha as [Ha|Ha];
            [eapply (lit_word _ wa); [exact Ha | reflexivity]|]).
    eapply (lit_word _ wa); [exact Ha | reflexivity]. }
  split; [exact Hb1|]. split.
  { clear -Hd. induction wd as [|a wd IH]; [reflexivity|].
    cbn [every] in *. apply andb_true_iff in Hd. destruct Hd as [Ha Hd].
    rewrite (wordClass_word a Ha), IH; trivial. }
  split; [exact Hb2|]. split; [exact Hne|]. split; [exact Hc1|].
  apply charEq_word in Hc2. rewrite Hc2. reflexivity.
Qed.


(** Where the phrase stands between two boundaries the pattern matches it,
    and nothing more. *)
Lemma matchAt_phrase inp bef off post :
  isWordAt bef = false -> headIs Str.isWordChar post = false ->
  exists mt,
    matchAt true passivePattern inp bef off ("was written by" ++ post) = Some mt
    /\ index mt = off /\ matched mt = "was written by"
    /\ endIndex mt = off + 14.
Proof.
  intros Hb Hp. unfold matchAt, passivePattern, PASSIVE_VOICE, bounded.
  cbn [sr_pattern source seq app].
  cbn [m before next rest]. rewrite Hb.
  assert (Hs : forall n, Nat.eqb (S n) n = false)
    by (intros n; apply Nat.eqb_neq; lia).
  destruct post as [|c post].
  - cbn -[Nat.sub Str.take Nat.eqb]. rewrite !Hs.
    cbn -[Nat.sub Str.take Nat.eqb].
    eexists. split; [reflexivity|]. cbn [index matched endIndex].
    split; [reflexivity|]. split; [|lia].
    replace (_ - off) with 14 by lia. reflexivity.
  - cbn [headIs] in Hp. cbn -[Nat.sub Str.take Nat.eqb]. rewrite !Hs.
    cbn -[Nat.sub Str.take Nat.eqb]. rewrite Hp.
    cbn -[Nat.sub Str.take Nat.eqb].
    eexists. split; [reflexivity|]. cbn [index matched endIndex].
    split; [reflexivity|]. split; [|lia].
    replace (_ - off) with 14 by lia. reflexivity.
Qed.

(** A match that starts before the phrase, in a text that ends with a
    character that is no word character, ends before the phrase. *)
Lemma matchAt_before_phrase inp bef off y c post mt :
  Str.isWordChar c = false ->
  matchAt true passivePattern inp bef off
    (y ++ String c ("was written by" ++ post)) = Some mt ->
  endIndex mt <= off + String.length y + 1.
Proof.
  intros Hc. unfold matchAt.
  destruct (m true passivePattern Some _) as [e|] eqn:E; [|discriminate].
  intros [= <-]. cbn [endIndex].
  apply m_sound in E. destruct E as (p' & w & [= ->] & Hr & Ho & Hw).
  cbn [rest offset] in Hr, Ho. rewrite Ho.
  destruct (Nat.le_gt_cases (String.length w) (String.length y + 1))
    as [Hle|Hgt]; [lia | exfalso].
  assert (Hr' : (w ++ rest e)%string
                = ((y ++ String c "") ++ "was written by" ++ post)%string).
  { rewrite append_assoc. symmetry. exact Hr. }
  apply app_split in Hr'; [|rewrite length_append; simpl; lia].
  destruct Hr' as (t & Hwt & Ht).
  destruct t as [|d t].
  { rewrite Hwt, !length_append in Hgt. simpl in Hgt. lia. }
  cbn [append] in Ht. injection Ht as <- Ht.
  rewrite append_assoc in Hwt. cbn [append] in Hwt.
  apply passive_match_parts in Hw.
  destruct Hw as (wa & b1 & wd & b2 & c1 & c2 & Hshape & Hwa & Hb1 & Hwd & Hb2
                  & Hne & Hc1 & Hc2).
  assert (Hw1 : Str.isWordChar c1 = true) by (apply charEq_word in Hc1; exact Hc1).
  assert (Hnb : forall a, Str.isWordChar a = true -> blankClass a = false).
  { intros a Ha. destruct (blankClass a) eqn:B; [|reflexivity].
    apply blankClass_nonword in B. congruence. }
  rewrite Hwt in Hshape. symmetry in Hshape.
  apply (run_before Str.isWordChar) in Hshape; trivial.
  destruct Hshape as (t1 & _ & H1).
  apply (run_over blankClass) in H1; trivial.
  destruct H1 as [[_ H1]|(t2 & _ & H1)].
  - (* the blanks end right before the phrase *)
    assert (H2 : (wd ++ b2 ++ String c1 (String c2 (rest e)))%string
                 = ("was" ++ " written by" ++ post)%string).
    { cbn [append]. rewrite Ht.
      change (String "w" (t ++ rest e)) with ((String "w" t) ++ rest e)%string.
      rewrite <- H1, !append_assoc. reflexivity. }
    apply (run_unique Str.isWordChar) in H2; trivial.
    2:{ destruct b2 as [|b b2]; [congruence|]. cbn [append headIs].
        cbn [every] in Hb2. apply andb_true_iff in Hb2.
        apply blankClass_nonword, Hb2. }
    destruct H2 as [_ H2].
    change (" written by" ++ post)%string
      with (" " ++ "written by" ++ post)%string in H2.
    apply (run_unique blankClass) in H2; trivial.
    2:{ cbn [headIs]. apply Hnb, Hw1. }
    destruct H2 as [_ H2]. cbn [append] in H2. injection H2 as -> _.
    discriminate Hc1.
  - apply (run_before Str.isWordChar) in H1; trivial.
    destruct H1 as (t3 & _ & H1).
    apply (run_over blankClass) in H1; trivial.
    destruct H1 as [[_ H1]|(t4 & _ & H1)].
    + injection H1 as -> _. discriminate Hc1.
    + destruct t4 as [|x [|x' t4]]; cbn [append] in H1.
      * injection H1 as -> _. congruence.
      * injection H1 as _ -> _. congruence.
      * injection H1 as _ _ H1. destruct t4; discriminate H1.
Qed.

Lemma lastOf_split bef y :
  y <> "" ->
  exists y0 c, y = (y0 ++ String c "")%string /\ lastOf bef y = Some c.
Proof.
  revert bef. induction y as [|a y IH]; intros bef Hy; [congruence|].
  destruct y as [|a' y].
  - exists "", a. split; reflexivity.
  - destruct (IH (Some a) ltac:(discriminate)) as (y0 & c & E & L).
    exists (String a y0), c. cbn [append]. rewrite <- E. split; trivial.
Qed.

(** The search through the text before the phrase reaches the phrase: no
    match that starts earlier extends over its first character. *)
Lemma matchesFrom_phrase inp post :
  headIs Str.isWordChar post = false ->
  forall y bef off skip,
    isWordAt (lastOf bef y) = false -> skip <= String.length y ->
    exists mt,
      In mt (matchesFrom true passivePattern inp bef off
               (y ++ "was written by" ++ post) skip)
      /\ index mt = off + String.length y /\ matched mt = "was written by".
Proof.
  intros Hp. induction y as [|a y IH]; intros bef off skip Hl Hs.
  - simpl in Hs. assert (skip = 0) as -> by lia.
    destruct (matchAt_phrase inp bef off post Hl Hp) as (mt & E & Hi & Hm & _).
    exists mt. rewrite append_empty, matchesFrom_zero, E.
    split; [apply in_eq|]. split; [simpl; lia | exact Hm].
  - cbn [lastOf] in Hl. cbn [String.length] in Hs.
    assert (Hnext : forall skip', skip' <= String.length y ->
      exists mt,
        In mt (matchesFrom true passivePattern inp (Some a) (S off)
                 (y ++ "was written by" ++ post) skip')
        /\ index mt = off + String.length (String a y)
        /\ matched mt = "was written by").
    { intros skip' Hs'. destruct (IH (Some a) (S off) skip' Hl Hs')
        as (mt & Hin & Hi & Hm).
      exists mt. cbn [String.length]. repeat split; trivial. lia. }
    destruct skip as [|skip].
    + rewrite matchesFrom_zero.
      destruct (matchAt true passivePattern inp bef off
                  (String a y ++ "was written by" ++ post))
        as [mt0|] eqn:E; rewrite append_cons.
      * destruct (lastOf_split bef (String a y) ltac:(discriminate))
          as (y0 & c & Ey & Ec).
        cbn [lastOf] in Ec. rewrite Ec in Hl. cbn [isWordAt] in Hl.
        rewrite Ey, append_assoc, append_cons, append_empty in E.
        apply matchAt_before_phrase in E; trivial.
        apply (f_equal String.length) in Ey.
        rewrite length_append in Ey. cbn [String.length] in Ey.
        destruct (Hnext (endIndex mt0 - off - 1) ltac:(lia))
          as (mt & Hin & Hi & Hm).
        exists mt. split; [apply in_cons; exact Hin|]. split; trivial.
      * apply Hnext. lia.
    + rewrite append_cons, matchesFrom_skip. apply Hnext. lia.
Qed.

(** X3.  A line that holds "was written by" between two word boundaries
    gets a passive-voice suggestion at the column of the phrase, and its
    replacement is the literal "John wrote the report", whatever stands
    before and after the phrase. *)
Theorem written_by_phrase_is_flagged :
  forall (pre post : string) (lineNumber : nat),
    nonWordOrEnd (lastOf None pre) = true ->
    nonWordOrEnd (String.get 0 post) = true ->
    exists suggestions,
      checkStyleRule (pre ++ "was written by" ++ post) lineNumber
        PASSIVE_VOICE = Some suggestions
      /\ exists s,
           In s suggestions
           /\ sg_type s = "passive-voice"
           /\ sg_line s = lineNumber
           /\ sg_column s = String.length pre + 1
           /\ sg_suggestion s = Some "John wrote the report".
Proof.
  intros pre post lineNumber Hpre Hpost.
  exists (List.map (styleSuggestion PASSIVE_VOICE lineNumber)
            (matchAll (sr_pattern PASSIVE_VOICE)
               (pre ++ "was written by" ++ post))).
  split.
  { unfold checkStyleRule. rewrite execLoop_total; reflexivity. }
  assert (Hp : headIs Str.isWordChar post = false).
  { destruct post as [|c post]; [reflexivity|]. simpl in Hpost.
    apply negb_true_iff in Hpost. exact Hpost. }
  assert (Hl : isWordAt (lastOf None pre) = false).
  { destruct (lastOf None pre) as [c|]; [|reflexivity]. simpl in Hpost.
    apply negb_true_iff in Hpre. exact Hpre. }
  destruct (matchesFrom_phrase (pre ++ "was written by" ++ post) post Hp
              pre None 0 0 Hl ltac:(lia)) as (mt & Hin & Hi & Hm).
  exists (styleSuggestion PASSIVE_VOICE lineNumber mt).
  split; [apply in_map; exact Hin|].
  cbn [styleSuggestion sg_type sg_line sg_column sg_suggestion].
  repeat split.
  - rewrite Hi. reflexivity.
  - unfold suggestionFor. cbn. unfold passiveReplacement. rewrite Hm.
    reflexivity.
Qed.

Lemma written_by_phrase_is_flagged_witness :
  exists suggestions,
    checkStyleRule ("The memo " ++ "was written by" ++ " Mary.") 3
      PASSIVE_VOICE = Some suggestions
    /\ exists s,
         In s suggestions
         /\ sg_type s = "passive-voice"
         /\ sg_line s = 3
         /\ sg_column s = String.length "The memo " + 1
         /\ sg_suggestion s = Some "John wrote the report".
Proof.
  apply (written_by_phrase_is_flagged "The memo " " Mary." 3); reflexivity.
Defined.

(** C10.  A line that holds "was written by" between two word boundaries
    is matched there by the passive-voice rule, and the suggestion pushed
    for that match, at the column of the phrase, carries the literal
    "John wrote the report", whatever stands before and after the phrase.
    On every line the loop over the matches of the rule ends and pushes
    one suggestion for each match: the literal for a match whose text
    holds the phrase, the matched text for any other, never a text built
    from the agent.  Only the fallback of the [catch] branch names the
    agent: it runs when the transform of a rule throws, which the
    transform of the built-in rule never does, and for a loaded rule that
    takes the whole sentence it gives "Mary wrote the report" on "The memo
    was written by Mary". *)
Theorem passive_written_by_fixed_literal :
  (forall (pre post : string) (lineNumber : nat),
      nonWordOrEnd (lastOf None pre) = true ->
      nonWordOrEnd (String.get 0 post) = true ->
      exists suggestions s,
        checkStyleRule (pre ++ "was written by" ++ post) lineNumber
          PASSIVE_VOICE = Some suggestions
        /\ In s suggestions
        /\ sg_type s = "passive-voice"
        /\ sg_line s = lineNumber
        /\ sg_column s = String.length pre + 1
        /\ sg_suggestion s = Some "John wrote the report")
  /\ (forall (line : string) (lineNumber : nat),
        exists suggestions,
          checkStyleRule line lineNumber PASSIVE_VOICE = Some suggestions
          /\ Forall2
               (fun (mt : Match) (s : Suggestion) =>
                  sg_type s = "passive-voice"
                  /\ sg_line s = lineNumber
                  /\ sg_column s = index mt + 1
                  /\ (Str.includes (matched mt) "was written by" = true ->
                      sg_suggestion s = Some "John wrote the report")
                  /\ (Str.includes (matched mt) "was written by" = false ->
                      sg_suggestion s = Some (matched mt)))
               (matchAll (sr_pattern PASSIVE_VOICE) line) suggestions)
  /\ (forall mt : Match,
        exists s, passiveReplacement mt = Ok s
                  /\ suggestionFor PASSIVE_VOICE mt = Some s)
  /\ option_map (List.map (fun s => (sg_column s, sg_suggestion s)))
       (checkStyleRule "The memo was written by Mary" 1 sentencePassive)
     = Some [(1, Some "Mary wrote the report")].
Proof.
  split; [|split; [|split]].
  - intros pre post lineNumber Hpre Hpost.
    assert (Hp : headIs Str.isWordChar post = false).
    { destruct post as [|c post]; [reflexivity|]. simpl in Hpost.
      apply negb_true_iff in Hpost. exact Hpost. }
    assert (Hl : isWordAt (lastOf None pre) = false).
    { destruct (lastOf None pre) as [c|]; [|reflexivity]. simpl in Hpost.
      apply negb_true_iff in Hpre. exact Hpre. }
    destruct (matchesFrom_phrase (pre ++ "was written by" ++ post) post Hp
                pre None 0 0 Hl ltac:(lia)) as (mt & Hin & Hi & Hm).
    exists (List.map (styleSuggestion PASSIVE_VOICE lineNumber)
              (matchAll (sr_pattern PASSIVE_VOICE)
                 (pre ++ "was written by" ++ post))),
      (styleSuggestion PASSIVE_VOICE lineNumber mt).
    split.
    { unfold checkStyleRule. rewrite execLoop_total; reflexivity. }
    split; [apply in_map; exact Hin|].
    cbn [styleSuggestion sg_type sg_line sg_column sg_suggestion].
    repeat split.
    + rewrite Hi. reflexivity.
    + unfold suggestionFor. cbn. unfold passiveReplacement. rewrite Hm.
      reflexivity.
  - intros line lineNumber.
    exists (List.map (styleSuggestion PASSIVE_VOICE lineNumber)
              (matchAll (sr_pattern PASSIVE_VOICE) line)).
    split.
    { unfold checkStyleRule. rewrite execLoop_total; reflexivity. }
    induction (matchAll (sr_pattern PASSIVE_VOICE) line) as [|mt ms IH];
      cbn [List.map]; constructor; [|exact IH].
    repeat split.
    + intros H. cbn. unfold passiveReplacement. rewrite H. reflexivity.
    + intros H. cbn. unfold passiveReplacement. rewrite H. reflexivity.
  - intros mt. unfold suggestionFor. cbn. unfold passiveReplacement.
    destruct (Str.includes (matched mt) "was written by"); eauto.
  - vm_compute. reflexivity.
Qed.

End PassiveVoice.

(** ** The logger *)

Section LoggerProofs.

Import Logger.

Lemma lastN_short {A : Type} (n : nat) (l : list A) :
  List.length l <= n -> lastN n l = l.
Proof.
  intros H. unfold lastN. replace (List.length l - n) with 0 by lia.
  reflexivity.
Qed.

Lemma lastN_length {A : Type} (n : nat) (l : list A) :
  List.length (lastN n l) = Nat.min (List.length l) n.
Proof. unfold lastN. rewrite length_skipn. lia. Qed.

Lemma lastN_app {A : Type} (n : nat) (a b : list A) :
  lastN n (lastN n a ++ b) = lastN n (a ++ b).
Proof.
  destruct (Nat.le_gt_cases (List.length a) n) as [H|H].
  - rewrite (lastN_short n a H). reflexivity.
  - unfold lastN at 1 3. rewrite !length_app, lastN_length.
    replace (Nat.min (List.length a) n + List.length b - n)
      with (List.length b) by lia.
    unfold lastN.
    replace (List.length a + List.length b - n)
      with (List.length b + (List.length a - n)) by lia.
    rewrite <- skipn_skipn. f_equal.
    rewrite skipn_app.
    replace (List.length a - n - List.length a) with 0 by lia.
    reflexivity.
Qed.

Lemma log_lastN (logs : list LogEntry) (entry : LogEntry) :
  log logs entry = lastN maxLogs (logs ++ [entry]).
Proof.
  unfold log. destruct (Nat.ltb_spec maxLogs (List.length (logs ++ [entry]))).
  - reflexivity.
  - symmetry. apply lastN_short. assumption.
Qed.

Lemma log_all (entries logs : list LogEntry) :
  List.fold_left log entries (lastN maxLogs logs)
  = lastN maxLogs (logs ++ entries).
Proof.
  revert logs. induction entries as [|e entries IH]; intros logs.
  - rewrite app_nil_r. reflexivity.
  - cbn [fold_left]. rewrite log_lastN, lastN_app, IH, <- app_assoc.
    reflexivity.
Qed.

(** X4.  The logger keeps the latest thousand entries: after any sequence
    of calls of [log] on an empty log, the stored entries are the last
    1000 of the entries logged, in the order they were logged. *)
Theorem log_keeps_latest_entries :
  forall entries : list LogEntry,
    let logs := List.fold_left log entries [] in
    getLogs logs None = lastN maxLogs entries
    /\ List.length logs = Nat.min (List.length entries) 1000
    /\ forall l, getLogs logs (Some l)
                 = List.filter (fun e => levelEqb (level e) l)
                     (lastN maxLogs entries).
Proof.
  intros entries logs.
  assert (E : logs = lastN maxLogs entries).
  { unfold logs. change (@nil LogEntry) with (lastN maxLogs (@nil LogEntry)).
    rewrite log_all. reflexivity. }
  rewrite E. cbn [getLogs]. repeat split.
  apply lastN_length.
Qed.

End LoggerProofs.
(** ** The order of strings *)

Lemma ascii_compare_refl (a : ascii) : Ascii.compare a a = Eq.
Proof. unfold Ascii.compare. apply N.compare_refl. Qed.

Lemma ascii_compare_lt_trans (a b c : ascii) :
  Ascii.compare a b = Lt -> Ascii.compare b c = Lt -> Ascii.compare a c = Lt.
Proof.
  unfold Ascii.compare. rewrite !N.compare_lt_iff. apply N.lt_trans.
Qed.

Lemma compare_lt_trans (s1 s2 s3 : string) :
  String.compare s1 s2 = Lt -> String.compare s2 s3 = Lt ->
  String.compare s1 s3 = Lt.
Proof.
  revert s2 s3. induction s1 as [|a s1 IH]; intros [|b s2] [|c s3];
    cbn [String.compare]; try discriminate; try reflexivity.
  destruct (Ascii.compare a b) eqn:Eab; try discriminate.
  - apply Ascii.compare_eq_iff in Eab. subst b.
    destruct (Ascii.compare a c); try discriminate; [apply IH | reflexivity].
  - destruct (Ascii.compare b c) eqn:Ebc; try discriminate.
    + apply Ascii.compare_eq_iff in Ebc. subst c. rewrite Eab. reflexivity.
    + rewrite (ascii_compare_lt_trans a b c Eab Ebc). reflexivity.
Qed.

Lemma leb_iff (s1 s2 : string) :
  String.leb s1 s2 = true <-> s1 = s2 \/ String.ltb s1 s2 = true.
Proof.
  unfold String.leb, String.ltb.
  destruct (String.compare s1 s2) eqn:E; split; intros H; try discriminate;
    auto.
  - left. apply String.compare_eq_iff. exact E.
  - destruct H as [->|H]; [|discriminate].
    assert (E' : String.compare s2 s2 = Eq).
    { clear. induction s2 as [|a s IH]; simpl; [reflexivity|].
      rewrite ascii_compare_refl. exact IH. }
    congruence.
Qed.

Lemma ltb_trans (s1 s2 s3 : string) :
  String.ltb s1 s2 = true -> String.ltb s2 s3 = true ->
  String.ltb s1 s3 = true.
Proof.
  unfold String.ltb.
  destruct (String.compare s1 s2) eqn:E12; try discriminate.
  destruct (String.compare s2 s3) eqn:E23; try discriminate.
  rewrite (compare_lt_trans _ _ _ E12 E23). reflexivity.
Qed.

Lemma leb_trans (s1 s2 s3 : string) :
  String.leb s1 s2 = true -> String.leb s2 s3 = true ->
  String.leb s1 s3 = true.
Proof.
  rewrite !leb_iff. intros [->|H12] [->|H23]; auto.
  right. eapply ltb_trans; eassumption.
Qed.

(** ** The dictionary store *)

Section StoreProofs.

Import DictionaryStore.

Lemma insertSorted_perm (x : string) (l : list string) :
  Permutation (insertSorted x l) (x :: l).
Proof.
  induction l as [|y l IH]; simpl; [reflexivity|].
  destruct (String.leb x y); [reflexivity|].
  rewrite IH. apply perm_swap.
Qed.

Lemma sort_perm (l : list string) : Permutation (sort l) l.
Proof.
  induction l as [|x l IH]; simpl; [reflexivity|].
  rewrite insertSorted_perm, IH. reflexivity.
Qed.

Lemma insertSorted_sorted (x : string) (l : list string) :
  StronglySorted (fun a b => String.leb a b = true) l ->
  StronglySorted (fun a b => String.leb a b = true) (insertSorted x l).
Proof.
  induction 1 as [|y l Hl IH Hy]; simpl.
  - repeat constructor.
  - destruct (String.leb x y) eqn:E.
    + constructor; [constructor; assumption|].
      constructor; [exact E|].
      eapply Forall_impl; [|exact Hy]. intros z Hz.
      eapply leb_trans; eassumption.
    + constructor; [exact IH|].
      rewrite (insertSorted_perm x l). constructor; [|exact Hy].
      destruct (String.leb_total x y) as [H|H]; congruence.
Qed.

Lemma sort_sorted (l : list string) :
  StronglySorted (fun a b => String.leb a b = true) (sort l).
Proof.
  induction l as [|x l IH]; simpl; [constructor|].
  apply insertSorted_sorted, IH.
Qed.

Lemma sorted_nodup_strict (l : list string) :
  StronglySorted (fun a b => String.leb a b = true) l -> NoDup l ->
  sortedWords l.
Proof.
  induction 1 as [|x l Hl IH Hx]; intros Hnd; [constructor|].
  inversion Hnd as [|? ? Hnin Hnd']; subst.
  constructor; [apply IH; assumption|].
  rewrite Forall_forall in *. intros y Hy.
  specialize (Hx y Hy). apply leb_iff in Hx. destruct Hx as [->|Hx]; tauto.
Qed.

(** *** Normal forms *)

Lemma toLowerChar_idem (c : ascii) :
  Str.toLowerChar (Str.toLowerChar c) = Str.toLowerChar c.
Proof. destruct c as [[] [] [] [] [] [] [] []]; vm_compute; reflexivity. Qed.

Lemma isSpace_toLowerChar (c : ascii) :
  Str.isSpace (Str.toLowerChar c) = Str.isSpace c.
Proof. destruct c as [[] [] [] [] [] [] [] []]; vm_compute; reflexivity. Qed.

Lemma toLowerCase_idem (s : string) :
  Str.toLowerCase (Str.toLowerCase s) = Str.toLowerCase s.
Proof.
  unfold Str.toLowerCase. induction s as [|c s IH]; simpl; [reflexivity|].
  rewrite toLowerChar_idem, IH. reflexivity.
Qed.

Lemma trimStart_map (f : ascii -> ascii) (s : string) :
  (forall c, Str.isSpace (f c) = Str.isSpace c) ->
  Str.trimStart (Str.map f s) = Str.map f (Str.trimStart s).
Proof.
  intros Hf. induction s as [|c s IH]; simpl; [reflexivity|].
  rewrite Hf. destruct (Str.isSpace c); [exact IH | reflexivity].
Qed.

Lemma trimEnd_map (f : ascii -> ascii) (s : string) :
  (forall c, Str.isSpace (f c) = Str.isSpace c) ->
  Str.trimEnd (Str.map f s) = Str.map f (Str.trimEnd s).
Proof.
  intros Hf. induction s as [|c s IH]; simpl; [reflexivity|].
  rewrite IH, Hf. destruct (Str.trimEnd s); simpl.
  - destruct (Str.isSpace c); reflexivity.
  - reflexivity.
Qed.

Lemma trim_toLowerCase (s : string) :
  Str.trim (Str.toLowerCase s) = Str.toLowerCase (Str.trim s).
Proof.
  unfold Str.trim, Str.toLowerCase.
  rewrite trimStart_map, trimEnd_map by apply isSpace_toLowerChar.
  reflexivity.
Qed.

Lemma trimStart_head (s : string) : headIs Str.isSpace (Str.trimStart s) = false.
Proof.
  induction s as [|c s IH]; simpl; [reflexivity|].
  destruct (Str.isSpace c) eqn:E; [exact IH | simpl; exact E].
Qed.

Lemma trimStart_fixed (s : string) :
  headIs Str.isSpace s = false -> Str.trimStart s = s.
Proof. destruct s as [|c s]; simpl; [reflexivity|]. intros ->. reflexivity. Qed.

Lemma trimEnd_head (s : string) :
  headIs Str.isSpace s = false -> headIs Str.isSpace (Str.trimEnd s) = false.
Proof.
  destruct s as [|c s]; simpl; [reflexivity|]. intros H.
  destruct (Str.trimEnd s); [rewrite H|]; simpl; trivial.
Qed.

Lemma trimEnd_idem (s : string) : Str.trimEnd (Str.trimEnd s) = Str.trimEnd s.
Proof.
  induction s as [|c s IH]; simpl; [reflexivity|].
  destruct (Str.trimEnd s) as [|c' t] eqn:E.
  - destruct (Str.isSpace c) eqn:Ec; simpl; [reflexivity|].
    rewrite Ec. reflexivity.
  - cbn [Str.trimEnd] in *. rewrite IH. reflexivity.
Qed.

Lemma trim_idem (s : string) : Str.trim (Str.trim s) = Str.trim s.
Proof.
  unfold Str.trim.
  rewrite (trimStart_fixed (Str.trimEnd (Str.trimStart s))).
  - apply trimEnd_idem.
  - apply trimEnd_head, trimStart_head.
Qed.

Lemma normalize_idem (w : string) : normalize (normalize w) = normalize w.
Proof.
  unfold normalize.
  rewrite <- (trim_toLowerCase (Str.toLowerCase w)), toLowerCase_idem.
  apply trim_idem.
Qed.

(** *** The set of words *)

Lemma has_In (w : string) (set : list string) : has w set = true <-> In w set.
Proof. apply mem_In. Qed.

Lemma has_add (w x : string) (set : list string) :
  has w (add x set) = String.eqb w x || has w set.
Proof.
  unfold add. destruct (has x set) eqn:E.
  - destruct (String.eqb_spec w x) as [->|]; [rewrite E|]; reflexivity.
  - unfold has, Str.mem. rewrite existsb_app. simpl.
    rewrite orb_false_r, orb_comm. reflexivity.
Qed.

Lemma has_delete (w x : string) (set : list string) :
  has w (delete x set) = negb (String.eqb w x) && has w set.
Proof.
  unfold has, Str.mem, delete. induction set as [|y set IH]; simpl.
  - rewrite andb_false_r. reflexivity.
  - destruct (String.eqb_spec y x) as [->|Hne]; simpl.
    + rewrite IH. destruct (String.eqb_spec w x) as [->|]; simpl; reflexivity.
    + rewrite IH. destruct (String.eqb_spec w y) as [->|]; simpl.
      * destruct (String.eqb_spec y x); [contradiction | reflexivity].
      * reflexivity.
Qed.

Lemma add_nodup (x : string) (set : list string) :
  NoDup set -> NoDup (add x set).
Proof.
  intros H. unfold add. destruct (has x set) eqn:E; [exact H|].
  apply NoDup_app; [exact H | repeat constructor; intros [] |].
  intros y Hy [<-|[]]. apply has_In in Hy. congruence.
Qed.

Lemma delete_nodup (x : string) (set : list string) :
  NoDup set -> NoDup (delete x set).
Proof. apply NoDup_filter. Qed.

Lemma add_forall (P : string -> Prop) (x : string) (set : list string) :
  P x -> Forall P set -> Forall P (add x set).
Proof.
  intros Hx H. unfold add. destruct (has x set); [exact H|].
  apply Forall_app. split; [exact H | repeat constructor; exact Hx].
Qed.

Lemma importOne_nodup (set : list string) (w : string) :
  NoDup set -> NoDup (importOne set w).
Proof.
  intros H. unfold importOne.
  destruct (GrammarEngine.nonEmpty (normalize w)); [apply add_nodup|]; exact H.
Qed.

Lemma nonEmpty_iff (s : string) : GrammarEngine.nonEmpty s = true <-> s <> "".
Proof.
  unfold GrammarEngine.nonEmpty. destruct (String.eqb_spec s ""); simpl;
    split; intros; congruence.
Qed.

Lemma importOne_normalized (set : list string) (w : string) :
  Forall normalized set -> Forall normalized (importOne set w).
Proof.
  intros H. unfold importOne.
  destruct (GrammarEngine.nonEmpty (normalize w)) eqn:E; [|exact H].
  apply add_forall; [|exact H]. split.
  - apply nonEmpty_iff, E.
  - apply normalize_idem.
Qed.

Lemma step_kept (st : Store) (call : Call * result unit) :
  kept st -> kept (step st call).
Proof.
  intros (Hi & Hnd & Hn). destruct call as [[word|word| |ws] saved];
    unfold step; cbn [fst snd].
  - unfold addWord. rewrite Hi. cbn [negb].
    destruct (GrammarEngine.nonEmpty (normalize word)) eqn:E; cbn [andb];
      [|split; [|split]; assumption].
    destruct (has (normalize word) (words st)) eqn:Eh; cbn [negb snd];
      [split; [|split]; assumption|].
    split; [reflexivity|]. cbn [words]. split; [apply add_nodup, Hnd|].
    apply add_forall; [|exact Hn].
    split; [apply nonEmpty_iff, E | apply normalize_idem].
  - unfold removeWord. rewrite Hi. cbn [negb].
    destruct (has (normalize word) (words st)); cbn [snd];
      [|split; [|split]; assumption].
    split; [reflexivity|]. cbn [words]. split; [apply delete_nodup, Hnd|].
    apply Forall_forall. intros y Hy. apply filter_In in Hy.
    rewrite Forall_forall in Hn. apply Hn, Hy.
  - unfold clear. rewrite Hi. cbn [negb snd].
    split; [reflexivity|]. cbn [words]. split; constructor.
  - unfold importWords. rewrite Hi. cbn [negb].
    assert (H : NoDup (List.fold_left importOne ws (words st))
                /\ Forall normalized (List.fold_left importOne ws (words st))).
    { clear Hi. revert Hnd Hn. generalize (words st) as set.
      induction ws as [|w ws IH]; intros set Hnd Hn; cbn [fold_left];
        [split; assumption|].
      apply IH; [apply importOne_nodup | apply importOne_normalized];
        assumption. }
    destruct (Nat.ltb _ _); cbn [snd words isInitialized];
      (split; [reflexivity | exact H]).
Qed.

Lemma run_kept (calls : list (Call * result unit)) : kept (run calls).
Proof.
  unfold run.
  assert (H : kept fresh) by (repeat split; constructor).
  revert H. generalize fresh as st.
  induction calls as [|c calls IH]; intros st H; cbn [fold_left];
    [exact H | apply IH, step_kept, H].
Qed.

(** X5.  A word added is found, whatever becomes of the file: after
    [addWord] on an initialized store, also when [saveToFile] throws,
    [hasWord] answers [true] for every spelling with the same lower-case
    trim, and answers as before for the others; after [removeWord] it
    answers [false]. *)
Theorem store_add_has_remove :
  forall (st : Store) (word : string) (saved saved' : result unit),
    isInitialized st = true ->
    normalize word <> "" ->
    let st1 := snd (addWord st word saved) in
    (forall w, normalize w = normalize word -> hasWord st1 w = Ok true)
    /\ (forall w, normalize w <> normalize word ->
                  hasWord st1 w = hasWord st w)
    /\ hasWord (snd (removeWord st1 word saved')) word = Ok false.
Proof.
  intros st word saved saved' Hi Hne st1.
  assert (Hw : words st1 = add (normalize word) (words st)
               /\ isInitialized st1 = true).
  { unfold st1, addWord. rewrite Hi. cbn [negb].
    apply nonEmpty_iff in Hne. rewrite Hne. cbn [andb].
    destruct (has (normalize word) (words st)) eqn:E; cbn [negb snd words];
      [|split; reflexivity].
    split; [|exact Hi]. unfold add. rewrite E. reflexivity. }
  destruct Hw as [Hw Hi1]. split; [|split].
  - intros w Hwn. unfold hasWord. rewrite Hi1, Hw, has_add, Hwn.
    rewrite String.eqb_refl. reflexivity.
  - intros w Hwn. unfold hasWord. rewrite Hi1, Hi, Hw, has_add.
    destruct (String.eqb_spec (normalize w) (normalize word));
      [contradiction | reflexivity].
  - unfold removeWord. rewrite Hi1. cbn [negb].
    destruct (has (normalize word) (words st1)) eqn:E; cbn [snd];
      unfold hasWord.
    + cbn [isInitialized words negb]. rewrite has_delete, String.eqb_refl.
      reflexivity.
    + rewrite Hi1, E. reflexivity.
Qed.

Lemma store_add_has_remove_witness :
  hasWord (snd (addWord fresh "  Colour " (Throw "disk full"))) "COLOUR"
  = Ok true
  /\ hasWord
       (snd (removeWord (snd (addWord fresh "  Colour " (Throw "disk full")))
               "  Colour " (Ok tt))) "  Colour "
     = Ok false.
Proof.
  destruct (store_add_has_remove fresh "  Colour " (Throw "disk full") (Ok tt))
    as (Hadd & _ & Hrem).
  - reflexivity.
  - vm_compute. discriminate.
  - split; [apply Hadd; reflexivity | exact Hrem].
Defined.

(** X6.  What the store lists: after any calls of [addWord], [removeWord],
    [clear] and [importWords] on a store initialized without a file,
    whatever their saves do, [listWords] returns the words strictly
    ascending, so without duplicates, each one non-empty and its own
    lower-case trim; [getWordCount] is the length of that list and
    [hasWord] is membership of the normal form in it. *)
Theorem store_lists_sorted_normal_words :
  forall calls : list (Call * result unit),
    exists l,
      listWords (run calls) = Ok l
      /\ sortedWords l
      /\ Forall normalized l
      /\ getWordCount (run calls) = Ok (List.length l)
      /\ forall w, hasWord (run calls) w = Ok (Str.mem (normalize w) l).
Proof.
  intros calls. destruct (run_kept calls) as (Hi & Hnd & Hn).
  exists (sort (words (run calls))).
  pose proof (sort_perm (words (run calls))) as Hp.
  unfold listWords, getWordCount, hasWord. rewrite Hi. cbn [negb].
  split; [reflexivity|]. split; [|split; [|split]].
  - apply sorted_nodup_strict; [apply sort_sorted|].
    eapply Permutation_NoDup; [symmetry; exact Hp | exact Hnd].
  - eapply Permutation_Forall; [symmetry; exact Hp | exact Hn].
  - rewrite (Permutation_length Hp). reflexivity.
  - intros w. f_equal. unfold has.
    destruct (Str.mem (normalize w) (sort (words (run calls)))) eqn:E.
    + apply mem_In. apply mem_In in E. eapply Permutation_in; eassumption.
    + destruct (Str.mem (normalize w) (words (run calls))) eqn:E';
        [|reflexivity].
      apply mem_In in E'. apply (Permutation_in _ (Permutation_sym Hp)) in E'.
      apply mem_In in E'. congruence.
Qed.

Lemma importOne_has (w : string) (set : list string) (x : string) :
  has x set = true -> has x (importOne set w) = true.
Proof.
  intros H. unfold importOne.
  destruct (GrammarEngine.nonEmpty (normalize w)); [|exact H].
  rewrite has_add, H. apply orb_true_r.
Qed.

Lemma import_has (ws : list string) (set : list string) (x : string) :
  has x set = true -> has x (List.fold_left importOne ws set) = true.
Proof.
  revert set. induction ws as [|w ws IH]; intros set H; cbn [fold_left];
    [exact H | apply IH, importOne_has, H].
Qed.

Lemma import_fixed (ws set : list string) :
  Forall (fun w => normalize w = "" \/ has (normalize w) set = true) ws ->
  List.fold_left importOne ws set = set.
Proof.
  induction 1 as [|w ws Hw _ IH]; cbn [fold_left]; [reflexivity|].
  assert (E : importOne set w = set).
  { unfold importOne. destruct Hw as [Hw|Hw].
    - rewrite Hw. reflexivity.
    - destruct (GrammarEngine.nonEmpty (normalize w)); [|reflexivity].
      unfold add. rewrite Hw. reflexivity. }
  rewrite E. exact IH.
Qed.

Lemma import_covers (ws set : list string) :
  Forall (fun w => normalize w = ""
                   \/ has (normalize w) (List.fold_left importOne ws set) = true)
    ws.
Proof.
  revert set. induction ws as [|w ws IH]; intros set; cbn [fold_left];
    constructor; [|apply IH].
  destruct (String.eqb_spec (normalize w) "") as [E|E]; [left; exact E|].
  right. apply import_has. unfold importOne.
  apply nonEmpty_iff in E. rewrite E, has_add, String.eqb_refl. reflexivity.
Qed.

(** X7.  [importWords] adds the words one by one, as [addWord] would with
    saves that succeed, and importing the same words again changes
    nothing and does not write the file: the call succeeds whatever a
    save would do. *)
Theorem importWords_adds_each_word_once :
  forall (st : Store) (ws : list string) (saved : result unit),
    isInitialized st = true ->
    let st1 := snd (importWords st ws saved) in
    st1 = List.fold_left (fun s w => snd (addWord s w (Ok tt))) ws st
    /\ forall saved', importWords st1 ws saved' = (Ok tt, st1).
Proof.
  intros st ws saved Hi st1.
  assert (E1 : st1 = mkStore (List.fold_left importOne ws (words st)) true).
  { unfold st1, importWords. rewrite Hi. cbn [negb].
    destruct (Nat.ltb _ _); reflexivity. }
  split.
  - rewrite E1. clear st1 E1. destruct st as [set init]. cbn in Hi. subst init.
    cbn [words]. revert set. induction ws as [|w ws IH]; intros set;
      cbn [fold_left]; [reflexivity|].
    rewrite IH. f_equal. unfold importOne, addWord. cbn [isInitialized negb words].
    destruct (GrammarEngine.nonEmpty (normalize w)); cbn [andb]; [|reflexivity].
    unfold add. destruct (has (normalize w) set); reflexivity.
  - intros saved'. unfold importWords. rewrite E1. cbn [isInitialized negb words].
    rewrite (import_fixed ws (List.fold_left importOne ws (words st)))
      by apply import_covers.
    rewrite Nat.ltb_irrefl. reflexivity.
Qed.

Lemma importWords_adds_each_word_once_witness :
  importWords (snd (importWords fresh ["Tea"; " tea "; ""; "Milk"] (Ok tt)))
    ["Tea"; " tea "; ""; "Milk"] (Throw "disk full")
  = (Ok tt, snd (importWords fresh ["Tea"; " tea "; ""; "Milk"] (Ok tt))).
Proof.
  apply (importWords_adds_each_word_once fresh ["Tea"; " tea "; ""; "Milk"]
           (Ok tt)).
  reflexivity.
Defined.

End StoreProofs.
(** ** The synonym providers *)

Section ProviderProofs.

Import DictionaryStore DictionarySynonymProvider.

Lemma every_forall (P : ascii -> bool) (s : string) :
  every P s = true <-> forall i c, String.get i s = Some c -> P c = true.
Proof.
  induction s as [|a s IH]; cbn [every].
  - split; [intros _ i c H; destruct i; discriminate | reflexivity].
  - rewrite andb_true_iff, IH. split.
    + intros [Ha Hs] [|i] c H; simpl in H; [injection H as <-; exact Ha|].
      eapply Hs, H.
    + intros H. split; [apply (H 0); reflexivity|].
      intros i c Hi. apply (H (S i)). exact Hi.
Qed.

Lemma splitChar_nonempty (sep : ascii) (s : string) : Str.splitChar sep s <> [].
Proof.
  induction s as [|c s IH]; simpl; [discriminate|].
  destruct (Ascii.eqb c sep); [discriminate|].
  destruct (Str.splitChar sep s); [contradiction | discriminate].
Qed.

(** No piece of [s.split(sep)] holds the separator, and the pieces keep
    what holds of every character of [s]. *)
Lemma splitChar_pieces (P : ascii -> bool) (sep : ascii) (s : string) :
  every P s = true ->
  Forall (fun piece => every P piece = true
                       /\ every (fun a => negb (Ascii.eqb a sep)) piece = true)
    (Str.splitChar sep s).
Proof.
  induction s as [|c s IH]; intros H; cbn [Str.splitChar every] in *.
  - repeat constructor.
  - apply andb_true_iff in H. destruct H as [Hc Hs]. specialize (IH Hs).
    destruct (Ascii.eqb c sep) eqn:E.
    + constructor; [split; reflexivity | exact IH].
    + destruct (Str.splitChar sep s) as [|w ws];
        [repeat constructor; cbn [every]; rewrite ?Hc, ?E; reflexivity|].
      inversion IH as [|? ? [H1 H2] Hws]; subst.
      constructor; [|exact Hws]. cbn [every]. rewrite Hc, E, H1, H2.
      split; reflexivity.
Qed.

Lemma every_true (s : string) : every (fun _ => true) s = true.
Proof. induction s; simpl; trivial. Qed.

Lemma every_trimStart (P : ascii -> bool) (s : string) :
  every P s = true -> every P (Str.trimStart s) = true.
Proof.
  induction s as [|c s IH]; cbn [Str.trimStart every]; [reflexivity|].
  intros H. destruct (Str.isSpace c); [|exact H].
  apply andb_true_iff in H. apply IH, H.
Qed.

Lemma every_trimEnd (P : ascii -> bool) (s : string) :
  every P s = true -> every P (Str.trimEnd s) = true.
Proof.
  induction s as [|c s IH]; cbn [Str.trimEnd every]; [reflexivity|].
  intros H. apply andb_true_iff in H. destruct H as [Hc Hs].
  specialize (IH Hs). destruct (Str.trimEnd s).
  - destruct (Str.isSpace c); cbn [every]; rewrite ?Hc; reflexivity.
  - cbn [every] in *. rewrite Hc, IH. reflexivity.
Qed.

Lemma every_trim (P : ascii -> bool) (s : string) :
  every P s = true -> every P (Str.trim s) = true.
Proof. intros H. apply every_trimEnd, every_trimStart, H. Qed.

Lemma every_and (P Q : ascii -> bool) (s : string) :
  every P s = true -> every Q s = true ->
  every (fun a => P a && Q a) s = true.
Proof.
  induction s as [|c s IH]; cbn [every]; [reflexivity|].
  intros H1 H2. apply andb_true_iff in H1, H2.
  destruct H1 as [-> H1], H2 as [-> H2]. rewrite IH; trivial.
Qed.

(** The synonyms read from the third part of an entry. *)
Lemma synonymsOf_clean (P : ascii -> bool) (synonymsStr : string) :
  every P synonymsStr = true ->
  Forall (fun c => c <> "" /\ Str.trim c = c
                   /\ every P c = true
                   /\ every (fun a => negb (Ascii.eqb a ",")) c = true)
    (synonymsOf synonymsStr).
Proof.
  intros H. unfold synonymsOf. apply Forall_forall. intros c Hc.
  apply filter_In in Hc. destruct Hc as [Hc Hne].
  apply in_map_iff in Hc. destruct Hc as (piece & <- & Hp).
  pose proof (splitChar_pieces P "," synonymsStr H) as Hall.
  rewrite Forall_forall in Hall. destruct (Hall piece Hp) as [H1 H2].
  split; [apply nonEmpty_iff, Hne|]. split; [apply trim_idem|].
  split; apply every_trim; assumption.
Qed.

Lemma entryLoop_clean (P : ascii -> bool) (word : string)
    (entries : list string) :
  Forall (fun e => every P e = true) entries ->
  Forall (fun c => c <> "" /\ Str.trim c = c
                   /\ every P c = true
                   /\ every (fun a => negb (Ascii.eqb a ",")) c = true
                   /\ every (fun a => negb (Ascii.eqb a ":")) c = true)
    (entryLoop word entries).
Proof.
  induction 1 as [|entry more He _ IH]; cbn [entryLoop]; [constructor|].
  pose proof (splitChar_pieces P ":" entry He) as Hall.
  destruct (Str.splitChar ":" entry) as [|p0 [|entryWord [|synonymsStr rest_]]];
    try exact IH.
  destruct (String.eqb _ _); [|exact IH].
  destruct (GrammarEngine.nonEmpty synonymsStr); [|constructor].
  inversion Hall as [|? ? _ Hall1]; subst.
  inversion Hall1 as [|? ? _ Hall2]; subst.
  inversion Hall2 as [|? ? [H1 H2] _]; subst.
  pose proof (synonymsOf_clean _ synonymsStr (every_and _ _ _ H1 H2)) as Hs.
  eapply Forall_impl; [|exact Hs]. cbn beta.
  intros c (Hne & Ht & Hpc & Hcomma). repeat split; trivial.
  - clear -Hpc. induction c as [|a c IH]; cbn [every] in *; [reflexivity|].
    apply andb_true_iff in Hpc. destruct Hpc as [Ha Hc].
    apply andb_true_iff in Ha. destruct Ha as [-> _]. apply IH, Hc.
  - clear -Hpc. induction c as [|a c IH]; cbn [every] in *; [reflexivity|].
    apply andb_true_iff in Hpc. destruct Hpc as [Ha Hc].
    apply andb_true_iff in Ha. destruct Ha as [_ ->]. apply IH, Hc.
Qed.

Lemma getCandidates_clean (P : ascii -> bool) (word : string)
    (words_ : list string) :
  Forall (fun e => every P e = true) words_ ->
  Forall (fun c => c <> "" /\ Str.trim c = c
                   /\ every P c = true
                   /\ every (fun a => negb (Ascii.eqb a ",")) c = true
                   /\ every (fun a => negb (Ascii.eqb a ":")) c = true)
    (getCandidates (Ok words_) word).
Proof.
  intros H. unfold getCandidates.
  destruct (_ || _); [constructor|].
  apply entryLoop_clean. apply Forall_forall. intros e He.
  apply filter_In in He. rewrite Forall_forall in H. apply H, He.
Qed.

(** X8.  The candidates the dictionary provider returns are clean: each
    one is non-empty, has no blank at either end, and holds neither a
    comma nor a colon; there are none for a blank word, nor when the
    store throws. *)
Theorem dictionary_candidates_are_clean :
  forall (listed : result (list string)) (word : string),
    Forall (fun c => c <> "" /\ Str.trim c = c
                     /\ every (fun a => negb (Ascii.eqb a ",")) c = true
                     /\ every (fun a => negb (Ascii.eqb a ":")) c = true)
      (getCandidates listed word)
    /\ (Str.trim word = "" -> getCandidates listed word = [])
    /\ (forall msg, getCandidates (Throw msg) word = []).
Proof.
  intros listed word. split; [|split].
  - destruct listed as [words_|msg].
    + eapply Forall_impl;
        [|apply (getCandidates_clean (fun _ => true) word words_)].
      * cbn beta. tauto.
      * apply Forall_forall. intros. apply every_true.
    + unfold getCandidates. destruct (_ || _); constructor.
  - intros H. unfold getCandidates. rewrite H, String.eqb_refl, orb_true_r.
    reflexivity.
  - intros msg. unfold getCandidates. destruct (_ || _); reflexivity.
Qed.

Lemma lower_fixed_every (s : string) :
  Str.toLowerCase s = s
  <-> every (fun a => Ascii.eqb (Str.toLowerChar a) a) s = true.
Proof.
  unfold Str.toLowerCase. induction s as [|c s IH]; cbn [Str.map every].
  - split; reflexivity.
  - rewrite andb_true_iff, <- IH, Ascii.eqb_eq. split.
    + intros [= H1 H2]. split; assumption.
    + intros [-> ->]. reflexivity.
Qed.

Lemma normalized_lower (w : string) : normalized w -> Str.toLowerCase w = w.
Proof.
  intros [_ H]. rewrite <- H at 1. unfold normalize.
  rewrite <- trim_toLowerCase, toLowerCase_idem. exact H.
Qed.

(** X9.  Synonyms served from the store have lost their capitals: the
    store keeps its words in lower case, so every candidate the
    dictionary provider reads from it is its own lower case, in whatever
    case the entry was added. *)
Theorem store_candidates_are_lower_case :
  forall (calls : list (Call * result unit)) (word : string),
    Forall (fun c => Str.toLowerCase c = c)
      (getCandidates (listWords (run calls)) word).
Proof.
  intros calls word. destruct (run_kept calls) as (Hi & _ & Hn).
  unfold listWords. rewrite Hi. cbn [negb].
  eapply Forall_impl;
    [|apply (getCandidates_clean
               (fun a => Ascii.eqb (Str.toLowerChar a) a) word)].
  - cbn beta. intros c (_ & _ & H & _). apply lower_fixed_every, H.
  - eapply Permutation_Forall; [symmetry; apply sort_perm|].
    eapply Forall_impl; [|exact Hn]. intros w Hw.
    apply lower_fixed_every, normalized_lower, Hw.
Qed.

(** X10.  Ranking neither adds nor drops a candidate: with a scoring
    strategy that returns the synonyms it was given in some order, or
    throws, the context-aware provider returns a rearrangement of the
    candidates of the dictionary provider, and the very same list when
    there is no context. *)
Theorem ranking_rearranges_candidates :
  forall (scoreSynonyms :
            string -> list string -> list string
            -> result (list SynonymContext.Scored))
         (listed : result (list string)) (word : string)
         (context : option (list string)),
    (forall w synonyms ctx scores,
        scoreSynonyms w synonyms ctx = Ok scores ->
        Permutation (List.map SynonymContext.synonym scores) synonyms) ->
    Permutation
      (ContextAwareSynonymProvider.getCandidates scoreSynonyms listed word
         context)
      (getCandidates listed word)
    /\ (context = None \/ context = Some [] ->
        ContextAwareSynonymProvider.getCandidates scoreSynonyms listed word
          context
        = getCandidates listed word).
Proof.
  intros strategy listed word context Hs.
  unfold ContextAwareSynonymProvider.getCandidates.
  destruct (String.eqb word "" || String.eqb (Str.trim word) "") eqn:B.
  { unfold getCandidates. rewrite B. split; [constructor | reflexivity]. }
  destruct (getCandidates listed word) as [|c cs] eqn:E.
  { split; [constructor | reflexivity]. }
  split.
  - destruct context as [[|x ctx]|]; try reflexivity.
    destruct (strategy word (c :: cs) (x :: ctx)) as [scores|msg] eqn:Es;
      [|reflexivity].
    apply Hs in Es. exact Es.
  - intros [->| ->]; reflexivity.
Qed.

Lemma ranking_rearranges_candidates_witness :
  Permutation
    (ContextAwareSynonymProvider.withKeywords
       SynonymContext.DEFAULT_CONTEXT_CONFIG
       (Ok ["synonym:bank:shore, lender"]) "Bank" (Some ["money"]))
    (getCandidates (Ok ["synonym:bank:shore, lender"]) "Bank").
Proof.
  apply (ranking_rearranges_candidates
           (fun word synonyms context =>
              Ok (SynonymContext.scoreSynonyms
                    SynonymContext.DEFAULT_CONTEXT_CONFIG word synonyms
                    context))).
  intros w synonyms ctx scores [= <-].
  apply scoreSynonyms_perm.
Defined.

End ProviderProofs.
(** ** The edit distance *)

Section DistanceProofs.

Import NeuralEmbeddingStrategy.

Lemma cell_zero_r s1 s2 i : cell s1 s2 i 0 = i.
Proof. destruct i; reflexivity. Qed.

Lemma cell_step s1 s2 i j :
  cell s1 s2 (S i) (S j)
  = Nat.min (Nat.min (cell s1 s2 i (S j) + 1) (cell s1 s2 (S i) j + 1))
            (cell s1 s2 i j + substitution s1 s2 i j).
Proof. reflexivity. Qed.

Lemma substitution_le s1 s2 i j : substitution s1 s2 i j <= 1.
Proof.
  unfold substitution.
  destruct (String.get i s1), (String.get j s2); try lia.
  destruct (Ascii.eqb _ _); lia.
Qed.

(** The distance between two prefixes lies between the difference of
    their lengths and the larger one. *)
Lemma cell_bounds s1 s2 i :
  forall j, Nat.max i j - Nat.min i j <= cell s1 s2 i j <= Nat.max i j.
Proof.
  induction i as [|i IHi]; intros j; [simpl; lia|].
  induction j as [|j IHj]; [rewrite cell_zero_r; lia|].
  rewrite cell_step.
  pose proof (IHi (S j)). pose proof (IHi j).
  pose proof (substitution_le s1 s2 i j). lia.
Qed.

Lemma substitution_sym s1 s2 i j :
  substitution s1 s2 i j = substitution s2 s1 j i.
Proof.
  unfold substitution.
  destruct (String.get i s1) as [a|], (String.get j s2) as [b|]; trivial.
  rewrite Ascii.eqb_sym. reflexivity.
Qed.

Lemma cell_sym s1 s2 i : forall j, cell s1 s2 i j = cell s2 s1 j i.
Proof.
  induction i as [|i IHi]; intros j; [rewrite cell_zero_r; reflexivity|].
  induction j as [|j IHj]; [reflexivity|].
  rewrite !cell_step, IHj, (IHi (S j)), (IHi j), substitution_sym. lia.
Qed.

Lemma cell_same s i : i <= String.length s -> cell s s i i = 0.
Proof.
  induction i as [|i IH]; intros Hi; [reflexivity|].
  rewrite cell_step, IH by lia.
  assert (E : substitution s s i i = 0).
  { unfold substitution. destruct (String.get i s) as [a|] eqn:G.
    - rewrite Ascii.eqb_refl. reflexivity.
    - apply get_none in G. lia. }
  rewrite E. lia.
Qed.

(** Distance zero: the prefixes are the same. *)
Lemma cell_zero s1 s2 i :
  forall j, cell s1 s2 i j = 0 ->
    i = j /\ forall k, k < i -> String.get k s1 = String.get k s2
                                /\ String.get k s1 <> None.
Proof.
  induction i as [|i IHi]; intros j H.
  - simpl in H. subst j. split; [reflexivity | intros; lia].
  - destruct j as [|j]; [rewrite cell_zero_r in H; discriminate|].
    rewrite cell_step in H.
    pose proof (cell_bounds s1 s2 i (S j)).
    assert (Hz : cell s1 s2 i j = 0 /\ substitution s1 s2 i j = 0) by lia.
    destruct Hz as [Hz Hs]. apply IHi in Hz. destruct Hz as [-> Hk].
    split; [reflexivity|]. intros k Hlt.
    destruct (Nat.eq_dec k j) as [->|Hne]; [|apply Hk; lia].
    unfold substitution in Hs.
    destruct (String.get j s1) as [a|], (String.get j s2) as [b|];
      try discriminate.
    destruct (Ascii.eqb_spec a b); [subst; split; congruence | discriminate].
Qed.

Lemma get_ext (s1 s2 : string) :
  String.length s1 = String.length s2 ->
  (forall k, k < String.length s1 -> String.get k s1 = String.get k s2) ->
  s1 = s2.
Proof.
  revert s2. induction s1 as [|a s1 IH]; intros [|b s2] Hl H;
    try discriminate; [reflexivity|].
  simpl in Hl. f_equal.
  - specialize (H 0 ltac:(simpl; lia)). simpl in H. congruence.
  - apply IH; [lia|]. intros k Hk. apply (H (S k)). simpl. lia.
Qed.

(** *** The rows of the matrix *)

Lemma fillRow_cells s1 s2 j c2 :
  String.get j s2 = Some c2 ->
  forall t i0,
    (forall k, String.get k t = String.get (i0 + k) s1) ->
    fillRow c2 t
      (List.map (fun i => cell s1 s2 i j) (List.seq i0 (S (String.length t))))
      (cell s1 s2 i0 (S j))
    = List.map (fun i => cell s1 s2 i (S j))
        (List.seq (S i0) (String.length t)).
Proof.
  intros Hc. induction t as [|c1 t IH]; intros i0 Ht; [reflexivity|].
  cbn [String.length List.seq List.map fillRow]. f_equal.
  - rewrite cell_step. unfold substitution.
    pose proof (Ht 0) as H0. rewrite Nat.add_0_r in H0. simpl in H0.
    rewrite <- H0, Hc. lia.
  - assert (E : Nat.min (Nat.min (cell s1 s2 i0 (S j) + 1)
                                 (cell s1 s2 (S i0) j + 1))
                        (cell s1 s2 i0 j
                         + (if Ascii.eqb c1 c2 then 0 else 1))
                = cell s1 s2 (S i0) (S j)).
    { rewrite cell_step. unfold substitution.
      pose proof (Ht 0) as H0. rewrite Nat.add_0_r in H0. simpl in H0.
      rewrite <- H0, Hc. lia. }
    rewrite E. apply (IH (S i0)).
    intros k. specialize (Ht (S k)). simpl in Ht.
    rewrite Ht. f_equal. lia.
Qed.

Lemma fillRows_cells s1 s2 :
  forall t j0,
    (forall k, String.get k t = String.get (j0 + k) s2) ->
    fillRows s1 t
      (List.map (fun i => cell s1 s2 i j0)
         (List.seq 0 (S (String.length s1))))
      (S j0)
    = List.map (fun i => cell s1 s2 i (j0 + String.length t))
        (List.seq 0 (S (String.length s1))).
Proof.
  induction t as [|c2 t IH]; intros j0 Ht; cbn [fillRows String.length].
  - rewrite Nat.add_0_r. reflexivity.
  - assert (Hc : String.get j0 s2 = Some c2).
    { specialize (Ht 0). rewrite Nat.add_0_r in Ht. simpl in Ht. congruence. }
    change (fillRow c2 s1
              (List.map (fun i => cell s1 s2 i j0)
                 (List.seq 0 (S (String.length s1)))) (S j0))
      with (fillRow c2 s1
              (List.map (fun i => cell s1 s2 i j0)
                 (List.seq 0 (S (String.length s1))))
              (cell s1 s2 0 (S j0))).
    rewrite (fillRow_cells s1 s2 j0 c2 Hc s1 0) by (intros; reflexivity).
    change (S j0 :: List.map (fun i => cell s1 s2 i (S j0))
                      (List.seq 1 (String.length s1)))
      with (List.map (fun i => cell s1 s2 i (S j0))
              (List.seq 0 (S (String.length s1)))).
    rewrite (IH (S j0)).
    + replace (S j0 + String.length t) with (j0 + S (String.length t)) by lia.
      reflexivity.
    + intros k. specialize (Ht (S k)). simpl in Ht. rewrite Ht. f_equal. lia.
Qed.

Lemma levenshteinDistance_cell s1 s2 :
  levenshteinDistance s1 s2
  = cell s1 s2 (String.length s1) (String.length s2).
Proof.
  unfold levenshteinDistance.
  assert (E : List.seq 0 (S (String.length s1))
              = List.map (fun i => cell s1 s2 i 0)
                  (List.seq 0 (S (String.length s1)))).
  { rewrite <- (map_id (List.seq 0 _)) at 1. apply map_ext.
    intros i. rewrite cell_zero_r. reflexivity. }
  rewrite E, (fillRows_cells s1 s2 s2 0) by (intros; reflexivity).
  rewrite seq_S, map_app. cbn [List.map Nat.add]. apply last_last.
Qed.

(** X11.  [levenshteinDistance] behaves as a distance: it is 0 on equal
    strings and only there, it does not depend on the order of its
    arguments, and it lies between the difference of the two lengths and
    the larger length; so the distance to the empty string is the
    length. *)
Theorem levenshteinDistance_is_a_distance :
  forall a b : string,
    levenshteinDistance a a = 0
    /\ (levenshteinDistance a b = 0 -> a = b)
    /\ levenshteinDistance a b = levenshteinDistance b a
    /\ Nat.max (String.length a) (String.length b)
       - Nat.min (String.length a) (String.length b)
       <= levenshteinDistance a b
       <= Nat.max (String.length a) (String.length b)
    /\ levenshteinDistance a "" = String.length a.
Proof.
  intros a b. rewrite !levenshteinDistance_cell.
  split; [apply cell_same; lia|]. split; [|split; [|split]].
  - intros H. apply cell_zero in H. destruct H as [Hl Hk].
    apply get_ext; [exact Hl|]. intros k Hlt. apply Hk, Hlt.
  - apply cell_sym.
  - apply cell_bounds.
  - apply cell_zero_r.
Qed.

Lemma ofNat_le (n m : nat) : n <= m -> (ofNat n <= ofNat m)%Q.
Proof.
  intros H. unfold ofNat. rewrite <- Zle_Qle. lia.
Qed.

Lemma ofNat_pos (n : nat) : 0 < n -> (0 < ofNat n)%Q.
Proof.
  intros H. unfold ofNat. change 0%Q with (inject_Z 0). rewrite <- Zlt_Qlt.
  lia.
Qed.

(** X12.  The string similarity of the embedding strategy is 1 on equal
    words and only there: for two different words it lies between 0.2
    and 0.9, the larger the smaller their distance is against the longer
    word; and it does not depend on the order of the words. *)
Theorem calculateStringSimilarity_range :
  forall w1 w2 : string,
    (w1 = w2 -> calculateStringSimilarity w1 w2 == 1)%Q
    /\ (w1 <> w2 ->
        (2 # 10 <= calculateStringSimilarity w1 w2)%Q
        /\ (calculateStringSimilarity w1 w2 <= 9 # 10)%Q)
    /\ (calculateStringSimilarity w1 w2 == calculateStringSimilarity w2 w1)%Q.
Proof.
  intros w1 w2. split; [|split].
  - intros ->. unfold calculateStringSimilarity. rewrite String.eqb_refl.
    reflexivity.
  - intros Hne. unfold calculateStringSimilarity.
    destruct (String.eqb_spec w1 w2) as [|_]; [contradiction|].
    destruct (Nat.eqb_spec (Nat.max (String.length w1) (String.length w2)) 0)
      as [E|E].
    { exfalso. apply Hne.
      assert (H1 : String.length w1 = 0) by lia.
      assert (H2 : String.length w2 = 0) by lia.
      apply length_zero in H1, H2. congruence. }
    assert (Hd : levenshteinDistance w1 w2
                 <= Nat.max (String.length w1) (String.length w2)).
    { rewrite levenshteinDistance_cell. apply cell_bounds. }
    set (d := levenshteinDistance w1 w2) in *.
    set (mx := Nat.max (String.length w1) (String.length w2)) in *.
    assert (Hq : (ofNat d / ofNat mx <= 1)%Q).
    { apply Qle_shift_div_r; [apply ofNat_pos; lia|].
      rewrite Qmult_1_l. apply ofNat_le, Hd. }
    assert (Hx : (2 # 10 <= (1 - ofNat d / ofNat mx) * (8 # 10) + (2 # 10))%Q).
    { set (q := (ofNat d / ofNat mx)%Q) in *.
      setoid_replace ((1 - q) * (8 # 10) + (2 # 10))%Q
        with ((2 # 10) + (1 - q) * (8 # 10))%Q by ring.
      rewrite <- (Qplus_0_r (2 # 10)) at 1.
      apply Qplus_le_r. apply Qmult_le_0_compat; [|discriminate].
      setoid_replace (1 - q)%Q with (1 + - q)%Q by ring.
      apply (Qplus_le_r _ _ q). ring_simplify. exact Hq. }
    split.
    + eapply Qle_trans; [|apply Q.le_max_r].
      apply Q.min_glb; [discriminate | exact Hx].
    + apply Q.max_lub; [discriminate | apply Q.le_min_l].
  - unfold calculateStringSimilarity.
    rewrite (String.eqb_sym w2 w1).
    destruct (String.eqb w1 w2); [reflexivity|].
    rewrite (Nat.max_comm (String.length w2)).
    destruct (Nat.eqb _ 0); [reflexivity|].
    rewrite (levenshteinDistance_cell w2 w1), <- cell_sym,
      <- levenshteinDistance_cell.
    reflexivity.
Qed.

End DistanceProofs.

(** ** The suggestion service *)

Section SuggestionProofs.

Import SuggestionService.

Lemma ensureInitialized_ok (st : Service) :
  modelKnown (preferredModel (config st)) = true ->
  fst (ensureInitialized st) = Ok tt.
Proof.
  intros H. unfold ensureInitialized, initialize.
  destruct (isInitialized st); [reflexivity|]. rewrite H. reflexivity.
Qed.

Lemma commonCombinations_five (key : string) (words_ : list string) :
  GrammarEngine.lookup key commonCombinations = Some words_ ->
  In (key, words_) commonCombinations /\ List.length words_ = 5.
Proof.
  unfold commonCombinations. cbn [GrammarEngine.lookup].
  repeat (match goal with
          | |- context [String.eqb ?a key] =>
              destruct (String.eqb_spec a key) as [<-|_];
              [intros [= <-]; split; [cbn; tauto | reflexivity]|]
          end).
  discriminate.
Qed.

Lemma firstn_five {A : Type} (l more : list A) :
  List.length l = 5 -> firstn 5 (l ++ more) = l.
Proof.
  intros H. rewrite <- H, firstn_app, Nat.sub_diag, firstn_all.
  apply app_nil_r.
Qed.

Lemma commonCombinations_lookup (key : string) (words_ : list string) :
  In (key, words_) commonCombinations ->
  GrammarEngine.lookup key commonCombinations = Some words_.
Proof.
  unfold commonCombinations. cbn [In].
  intros [H|[H|[H|[H|[H|[]]]]]]; injection H as <- <-; reflexivity.
Qed.

Lemma commonCombinations_missing (key : string) :
  ~ In key (List.map fst commonCombinations) ->
  GrammarEngine.lookup key commonCombinations = None.
Proof.
  intros H.
  destruct (GrammarEngine.lookup key commonCombinations) as [words_|] eqn:E;
    [|reflexivity].
  exfalso. apply H. apply commonCombinations_five in E.
  destruct E as [E _]. change key with (fst (key, words_)).
  apply in_map. exact E.
Qed.

Lemma inherited_not_combined (key : string) :
  In key inheritedKeys -> GrammarEngine.lookup key commonCombinations = None.
Proof.
  unfold inheritedKeys. cbn [In].
  intros H.
  repeat (destruct H as [<-|H]; [reflexivity|]). destruct H.
Qed.

(** What [suggestText] returns for at least one token that is not blank,
    by what the token before the last reads in [commonCombinations]. *)
Lemma suggestText_cases (st : Service) (tokens : list string) :
  modelKnown (preferredModel (config st)) = true ->
  List.filter nonBlank tokens <> [] ->
  fst (suggestText st tokens)
  = if Nat.leb 2 (List.length (List.filter nonBlank tokens)) then
      match read commonCombinations (secondLast (List.filter nonBlank tokens))
      with
      | Own words_ =>
          Ok (firstn 5
                (List.map
                   (fun w =>
                      Str.join " " (List.filter nonBlank tokens) ++ " " ++ w)%string
                   words_
                 ++ completions (List.last (List.filter nonBlank tokens) "")
                 ++ sentenceCompletions
                      (Str.join " " (List.filter nonBlank tokens))))
      | Inherited => Throw notAFunction
      | Undefined =>
          Ok (completions (List.last (List.filter nonBlank tokens) ""))
      end
    else Ok (completions (List.last (List.filter nonBlank tokens) "")).
Proof.
  intros Hm Hne. unfold suggestText.
  pose proof (ensureInitialized_ok st Hm) as Hi.
  destruct (ensureInitialized st) as [[[]|msg] st']; cbn [fst] in Hi;
    [clear Hi | discriminate].
  destruct tokens as [|t tokens]; [exfalso; apply Hne; reflexivity|].
  destruct (List.filter nonBlank (t :: tokens)) as [|v vs] eqn:Ev;
    [contradiction|].
  cbn [fst]. unfold generateTextSuggestions, combinations.
  change (List.nth (List.length (v :: vs) - 2) (v :: vs) "")
    with (secondLast (v :: vs)).
  destruct (Nat.leb 2 (List.length (v :: vs)));
    [destruct (read commonCombinations (secondLast (v :: vs)))|];
    reflexivity.
Qed.

(** X13.  [suggestText] on a service whose model is known returns no
    suggestion when no token is left after the blank ones are dropped.
    Otherwise, when the token before the last is one of "the", "in", "to",
    "of", "and", it returns the five continuations of the whole context;
    when that token is a property every object inherits, such as
    "constructor", it throws a [TypeError]; and in every other case, a
    single token included, it returns the five completions of the last
    token.  So it throws exactly in the second case, and what it returns
    otherwise is empty or five suggestions long: the sentence completions
    never get through. *)
Theorem suggestText_five_suggestions :
  forall (st : Service) (tokens : list string),
    modelKnown (preferredModel (config st)) = true ->
    let validTokens := List.filter nonBlank tokens in
    let context := Str.join " " validTokens in
    (validTokens = [] -> fst (suggestText st tokens) = Ok [])
    /\ (validTokens <> [] ->
        (forall words_,
            2 <= List.length validTokens ->
            In (secondLast validTokens, words_) commonCombinations ->
            List.length words_ = 5
            /\ fst (suggestText st tokens)
               = Ok (List.map (fun w => context ++ " " ++ w)%string words_))
        /\ (2 <= List.length validTokens ->
            In (secondLast validTokens) inheritedKeys ->
            fst (suggestText st tokens) = Throw notAFunction)
        /\ (List.length validTokens < 2
            \/ (~ In (secondLast validTokens) (List.map fst commonCombinations)
                /\ ~ In (secondLast validTokens) inheritedKeys) ->
            fst (suggestText st tokens)
            = Ok (completions (List.last validTokens ""))))
    /\ (forall msg,
          fst (suggestText st tokens) = Throw msg
          <-> msg = notAFunction /\ 2 <= List.length validTokens
              /\ In (secondLast validTokens) inheritedKeys)
    /\ (forall suggestions,
          fst (suggestText st tokens) = Ok suggestions ->
          validTokens <> [] -> List.length suggestions = 5).
Proof.
  intros st tokens Hm validTokens context.
  assert (Hempty : validTokens = [] -> fst (suggestText st tokens) = Ok []).
  { intros He. unfold suggestText.
    pose proof (ensureInitialized_ok st Hm) as Hi.
    destruct (ensureInitialized st) as [[[]|msg] st']; cbn [fst] in Hi;
      [clear Hi | discriminate].
    destruct tokens as [|t tokens]; [reflexivity|].
    fold validTokens. rewrite He. reflexivity. }
  assert (Hown : forall words_,
    2 <= List.length validTokens ->
    In (secondLast validTokens, words_) commonCombinations ->
    List.length words_ = 5
    /\ fst (suggestText st tokens)
       = Ok (List.map (fun w => context ++ " " ++ w)%string words_)).
  { intros words_ Hl Hin.
    assert (Hne : validTokens <> []).
    { intros E. rewrite E in Hl. simpl in Hl. lia. }
    pose proof (commonCombinations_lookup _ _ Hin) as El.
    destruct (commonCombinations_five _ _ El) as [_ Hlen].
    split; [exact Hlen|].
    rewrite (suggestText_cases st tokens Hm Hne). fold validTokens.
    destruct (Nat.leb_spec 2 (List.length validTokens)); [|lia].
    unfold read. rewrite El. fold context.
    rewrite firstn_five by (rewrite length_map; exact Hlen). reflexivity. }
  assert (Hthrow :
    2 <= List.length validTokens ->
    In (secondLast validTokens) inheritedKeys ->
    fst (suggestText st tokens) = Throw notAFunction).
  { intros Hl Hin.
    assert (Hne : validTokens <> []).
    { intros E. rewrite E in Hl. simpl in Hl. lia. }
    rewrite (suggestText_cases st tokens Hm Hne). fold validTokens.
    destruct (Nat.leb_spec 2 (List.length validTokens)); [|lia].
    unfold read. rewrite (inherited_not_combined _ Hin).
    apply mem_In in Hin. rewrite Hin. reflexivity. }
  assert (Hlast :
    validTokens <> [] ->
    List.length validTokens < 2
    \/ (~ In (secondLast validTokens) (List.map fst commonCombinations)
        /\ ~ In (secondLast validTokens) inheritedKeys) ->
    fst (suggestText st tokens) = Ok (completions (List.last validTokens ""))).
  { intros Hne Hc. rewrite (suggestText_cases st tokens Hm Hne).
    fold validTokens.
    destruct (Nat.leb_spec 2 (List.length validTokens)) as [Hl|Hl];
      [|reflexivity].
    destruct Hc as [Hc|[Hc1 Hc2]]; [lia|].
    unfold read. rewrite (commonCombinations_missing _ Hc1).
    destruct (Str.mem (secondLast validTokens) inheritedKeys) eqn:Em;
      [|reflexivity].
    exfalso. apply Hc2, mem_In, Em. }
  assert (Hcases :
    validTokens <> [] ->
    (exists words_,
        2 <= List.length validTokens
        /\ In (secondLast validTokens, words_) commonCombinations)
    \/ (2 <= List.length validTokens
        /\ In (secondLast validTokens) inheritedKeys)
    \/ (List.length validTokens < 2
        \/ (~ In (secondLast validTokens) (List.map fst commonCombinations)
            /\ ~ In (secondLast validTokens) inheritedKeys))).
  { intros _.
    destruct (Nat.leb_spec 2 (List.length validTokens)) as [Hl|Hl];
      [|right; right; left; exact Hl].
    destruct (GrammarEngine.lookup (secondLast validTokens) commonCombinations)
      as [words_|] eqn:El.
    - left. exists words_. split; [exact Hl|].
      apply commonCombinations_five in El. apply El.
    - destruct (Str.mem (secondLast validTokens) inheritedKeys) eqn:Em.
      + right. left. split; [exact Hl | apply mem_In, Em].
      + right. right. right. split.
        * intros Hin. apply in_map_iff in Hin.
          destruct Hin as ([k words_] & Ek & Hin). cbn [fst] in Ek. subst k.
          apply commonCombinations_lookup in Hin. congruence.
        * intros Hin. apply mem_In in Hin. congruence. }
  split; [exact Hempty|]. split.
  { intros Hne. split; [exact Hown|]. split; [exact Hthrow|].
    apply Hlast, Hne. }
  split.
  - intros msg. split.
    + intros E.
      destruct validTokens as [|v vs] eqn:Ev.
      { rewrite Hempty in E by reflexivity. discriminate. }
      assert (Hne : v :: vs <> []) by discriminate.
      destruct (Hcases Hne) as [(words_ & Hl & Hin)|[[Hl Hin]|Hc]].
      * destruct (Hown words_ Hl Hin) as [_ E']. congruence.
      * rewrite (Hthrow Hl Hin) in E. injection E as <-. auto.
      * rewrite (Hlast Hne Hc) in E. discriminate.
    + intros (-> & Hl & Hin). apply Hthrow; trivial.
  - intros suggestions E Hne.
    destruct (Hcases Hne) as [(words_ & Hl & Hin)|[[Hl Hin]|Hc]].
    + destruct (Hown words_ Hl Hin) as [Hlen E'].
      rewrite E' in E. injection E as <-. rewrite length_map. exact Hlen.
    + rewrite (Hthrow Hl Hin) in E. discriminate.
    + rewrite (Hlast Hne Hc) in E. injection E as <-. reflexivity.
Qed.

Lemma suggestText_five_suggestions_witness :
  fst (suggestText
         (mkService (mkConfig 200 5 300 true "distilgpt2") false)
         ["all"; " "; "constructor"; "names"])
  = Throw notAFunction
  /\ fst (suggestText
            (mkService (mkConfig 200 5 300 true "distilgpt2") false)
            ["walk"; "to"; "school"])
     = Ok ["walk to school be"; "walk to school do"; "walk to school make";
           "walk to school get"; "walk to school have"].
Proof.
  split.
  - pose proof (suggestText_five_suggestions
                  (mkService (mkConfig 200 5 300 true "distilgpt2") false)
                  ["all"; " "; "constructor"; "names"] eq_refl) as H.
    cbv zeta in H. destruct H as (_ & H & _).
    apply (H ltac:(discriminate)).
    + simpl. lia.
    + vm_compute. tauto.
  - pose proof (suggestText_five_suggestions
                  (mkService (mkConfig 200 5 300 true "distilgpt2") false)
                  ["walk"; "to"; "school"] eq_refl) as H.
    cbv zeta in H. destruct H as (_ & H & _).
    destruct (H ltac:(discriminate)) as (Hown & _).
    apply (Hown ["be"; "do"; "make"; "get"; "have"]).
    + simpl. lia.
    + vm_compute. tauto.
Defined.

Lemma blank_iff (s : string) :
  String.eqb s "" || Nat.eqb (String.length (Str.trim s)) 0 = true
  <-> Str.trim s = "".
Proof.
  split.
  - intros H. apply orb_true_iff in H. destruct H as [H|H].
    + apply String.eqb_eq in H. subst. reflexivity.
    + apply Nat.eqb_eq in H. apply length_zero, H.
  - intros H. rewrite H. simpl. apply orb_true_r.
Qed.

(** X14.  [suggestCode] on a service whose model is known never throws;
    it returns no suggestion for a blank context, and otherwise three
    suggestions, or five when the context mentions keywords of at least
    two of the three groups (function, class, variable). *)
Theorem suggestCode_three_or_five :
  forall (st : Service) (context : string),
    modelKnown (preferredModel (config st)) = true ->
    exists suggestions,
      fst (suggestCode st context) = Ok suggestions
      /\ (Str.trim context = "" -> suggestions = [])
      /\ (Str.trim context <> "" ->
          List.length suggestions = if twoGroups context then 5 else 3).
Proof.
  intros st context Hm. unfold suggestCode.
  pose proof (ensureInitialized_ok st Hm) as Hi.
  destruct (ensureInitialized st) as [[[]|msg] st']; cbn [fst] in Hi;
    [clear Hi | discriminate].
  destruct (String.eqb context "" || _) eqn:B.
  - exists []. split; [reflexivity|]. split; [reflexivity|].
    intros Hne. apply blank_iff in B. contradiction.
  - exists (generateCodeSuggestions context). split; [reflexivity|].
    split.
    + intros Hb. apply blank_iff in Hb. congruence.
    + intros _. unfold generateCodeSuggestions, twoGroups.
      destruct (mentionsFunction context), (mentionsClass context),
        (mentionsVariable context); reflexivity.
Qed.

Lemma suggestCode_three_or_five_witness :
  exists suggestions,
    fst (suggestCode (mkService (mkConfig 200 5 300 true "t5-small") false)
           "const total")
    = Ok suggestions
    /\ List.length suggestions = 5.
Proof.
  destruct (suggestCode_three_or_five
              (mkService (mkConfig 200 5 300 true "t5-small") false)
              "const total" eq_refl) as (l & E & _ & H).
  exists l. split; [exact E|]. apply H. vm_compute. discriminate.
Defined.

End SuggestionProofs.
(** ** Parts of a text *)

Lemma take_app (w r : string) : Str.take (String.length w) (w ++ r) = w.
Proof.
  unfold Str.take. induction w as [|c w IH]; simpl.
  - destruct r; reflexivity.
  - rewrite IH. reflexivity.
Qed.

Lemma substring_skip (a s : string) (n : nat) :
  substring (String.length a) n (a ++ s) = substring 0 n s.
Proof. induction a as [|c a IH]; simpl; [reflexivity | exact IH]. Qed.

Lemma substring_at (a t b : string) :
  substring (String.length a) (String.length t) (a ++ t ++ b) = t.
Proof. rewrite substring_skip. apply take_app. Qed.

Lemma trimStart_part (s : string) : exists x, s = (x ++ Str.trimStart s)%string.
Proof.
  induction s as [|c s (x & IH)]; simpl; [exists ""; reflexivity|].
  destruct (Str.isSpace c).
  - exists (String c x). simpl. rewrite <- IH. reflexivity.
  - exists "". reflexivity.
Qed.

Lemma trimEnd_part (s : string) : exists y, s = (Str.trimEnd s ++ y)%string.
Proof.
  induction s as [|c s (y & IH)]; simpl; [exists ""; reflexivity|].
  destruct (Str.trimEnd s) as [|c' t] eqn:E.
  - destruct (Str.isSpace c).
    + exists (String c s). reflexivity.
    + exists s. reflexivity.
  - exists y. simpl. f_equal. exact IH.
Qed.

Lemma trim_part (s : string) :
  exists x y, s = (x ++ Str.trim s ++ y)%string.
Proof.
  destruct (trimStart_part s) as (x & Hx).
  destruct (trimEnd_part (Str.trimStart s)) as (y & Hy).
  exists x, y. unfold Str.trim. rewrite <- Hy. exact Hx.
Qed.

(** A piece of [s.split(/[...]+/)] is a part of [s] without a separator;
    the first piece starts the text. *)
Lemma splitRuns_parts (sep : ascii -> bool) (s : string) :
  forall inRun,
    Forall (fun piece =>
              (exists a b, s = (a ++ piece ++ b)%string)
              /\ every (fun c => negb (sep c)) piece = true)
      (Str.splitRuns sep inRun s)
    /\ (inRun = false ->
        exists w ws b, Str.splitRuns sep false s = w :: ws
                       /\ s = (w ++ b)%string).
Proof.
  induction s as [|c s IH]; intros inRun; cbn [Str.splitRuns].
  - split.
    + constructor; [|constructor].
      split; [exists "", ""; reflexivity | reflexivity].
    + intros _. exists "", [], "". split; reflexivity.
  - assert (Hshift : forall inRun',
      Forall (fun piece =>
                (exists a b, String c s = (a ++ piece ++ b)%string)
                /\ every (fun c => negb (sep c)) piece = true)
        (Str.splitRuns sep inRun' s)).
    { intros inRun'. destruct (IH inRun') as [H _].
      eapply Forall_impl; [|exact H]. cbn beta.
      intros piece [(a & b & E) Hp]. split; [|exact Hp].
      exists (String c a), b. simpl. rewrite <- E. reflexivity. }
    destruct (sep c) eqn:Ec.
    + split.
      * destruct inRun; [apply Hshift|].
        constructor; [|apply Hshift].
        split; [exists "", (String c s); reflexivity | reflexivity].
      * intros ->. exists "", (Str.splitRuns sep true s), (String c s).
        split; reflexivity.
    + destruct (IH false) as [_ Hhead].
      destruct (Hhead eq_refl) as (w & ws & b & E & Es).
      pose proof (Hshift false) as Hall. rewrite E in *.
      inversion Hall as [|w0 l0 [_ Hw] Hws [Ew El]]; clear Hall.
      split.
      * constructor; [|exact Hws]. split.
        -- exists "", b. simpl. rewrite Es at 1. reflexivity.
        -- cbn [every]. rewrite Ec, Hw. reflexivity.
      * intros _. exists (String c w), ws, b. split; [reflexivity|].
        simpl. rewrite Es at 1. reflexivity.
Qed.

(** ** Where the matches are *)

Section MatchSpans.

Import Regex.

Lemma matchAt_span ic r inp bef off rst mt :
  matchAt ic r inp bef off rst = Some mt ->
  index mt = off
  /\ endIndex mt = off + String.length (matched mt)
  /\ exists b, rst = (matched mt ++ b)%string.
Proof.
  unfold matchAt. destruct (m ic r Some _) as [e|] eqn:E; [|discriminate].
  intros [= <-]. cbn [index endIndex matched].
  apply m_sound in E. destruct E as (p' & w & [= ->] & Hr & Ho & _).
  cbn [rest offset] in Hr, Ho.
  replace (offset e - off) with (String.length w) by lia.
  rewrite Hr, take_app. split; [reflexivity|]. split; [exact Ho|].
  exists (rest e). reflexivity.
Qed.

(** Every match is a part of the text, at its index. *)
Lemma matchesFrom_spans ic r inp :
  forall rst bef off skip mt,
    In mt (matchesFrom ic r inp bef off rst skip) ->
    exists a b,
      rst = (a ++ matched mt ++ b)%string
      /\ index mt = off + String.length a
      /\ endIndex mt = index mt + String.length (matched mt).
Proof.
  assert (Hhere : forall rst bef off mt,
    matchAt ic r inp bef off rst = Some mt ->
    exists a b,
      rst = (a ++ matched mt ++ b)%string
      /\ index mt = off + String.length a
      /\ endIndex mt = index mt + String.length (matched mt)).
  { intros rst bef off mt H. apply matchAt_span in H.
    destruct H as (Hi & He & b & Hr). exists "", b. simpl.
    repeat split; trivial; lia. }
  assert (Hshift : forall c rst off mt,
    (exists a b,
       rst = (a ++ matched mt ++ b)%string
       /\ index mt = S off + String.length a
       /\ endIndex mt = index mt + String.length (matched mt)) ->
    exists a b,
      String c rst = (a ++ matched mt ++ b)%string
      /\ index mt = off + String.length a
      /\ endIndex mt = index mt + String.length (matched mt)).
  { intros c rst off mt (a & b & Hr & Hi & He). exists (String c a), b.
    simpl. rewrite <- Hr. repeat split; trivial; lia. }
  induction rst as [|c rst IH]; intros bef off skip mt H.
  - cbn [matchesFrom] in H. destruct skip; [|destruct H].
    destruct (matchAt ic r inp bef off "") as [mt0|] eqn:E; [|destruct H].
    destruct H as [<-|[]]. eapply Hhere, E.
  - cbn [matchesFrom] in H. destruct skip as [|skip].
    + destruct (matchAt ic r inp bef off (String c rst)) as [mt0|] eqn:E.
      * destruct H as [<-|H]; [eapply Hhere, E|].
        apply Hshift. eapply IH, H.
      * apply Hshift. eapply IH, H.
    + apply Hshift. eapply IH, H.
Qed.

Lemma matchAll_spans (rx : RegExp) (s : string) (mt : Match) :
  In mt (matchAll rx s) ->
  exists a b,
    s = (a ++ matched mt ++ b)%string
    /\ index mt = String.length a
    /\ endIndex mt = index mt + String.length (matched mt).
Proof.
  intros H. apply matchesFrom_spans in H.
  destruct H as (a & b & Hs & Hi & He). exists a, b. auto.
Qed.

(** A pattern that matches the empty text where the line ends is matched
    there by the search, whatever was matched before. *)
Lemma matchesFrom_ends_empty ic r inp :
  (forall bef off, matchAt ic r inp bef off "" <> None) ->
  forall rst bef off skip,
    skip <= String.length rst ->
    existsb StyleService.emptyMatch (matchesFrom ic r inp bef off rst skip)
    = true.
Proof.
  intros Hend. induction rst as [|c rst IH]; intros bef off skip Hs.
  - simpl in Hs. assert (skip = 0) as -> by lia. cbn [matchesFrom].
    destruct (matchAt ic r inp bef off "") as [mt|] eqn:E;
      [|exfalso; eapply Hend, E].
    apply matchAt_span in E. destruct E as (Hi & He & b & Hr).
    cbn [existsb]. unfold StyleService.emptyMatch.
    destruct (matched mt); [|discriminate].
    rewrite He, Hi. simpl. rewrite Nat.add_0_r, Nat.eqb_refl. reflexivity.
  - cbn [String.length] in Hs. cbn [matchesFrom].
    destruct skip as [|skip]; [|apply IH; lia].
    destruct (matchAt ic r inp bef off (String c rst)) as [mt|] eqn:E;
      [|apply IH; lia].
    cbn [existsb]. rewrite IH; [apply orb_true_r|].
    apply matchAt_span in E. destruct E as (Hi & He & b & Hr).
    apply (f_equal String.length) in Hr. rewrite length_append in Hr.
    cbn [String.length] in Hr. lia.
Qed.

End MatchSpans.

(** ** The style service: where the suggestions point *)

Section StyleProofs.

Import Regex StyleService StyleBatch.

Lemma length_trim_le (s : string) : String.length (Str.trim s) <= String.length s.
Proof.
  destruct (trim_part s) as (x & y & E). rewrite E at 2.
  rewrite !length_append. lia.
Qed.

(** What [checkSentenceLength] pushes for a piece of the line. *)
Lemma long_sentence_located (line piece : string) :
  (exists a b, line = (a ++ piece ++ b)%string) ->
  exists m,
    Str.indexOf line (Str.trim piece) 0 = Z.of_nat m
    /\ substring m (String.length (Str.trim piece)) line = Str.trim piece
    /\ m + String.length (Str.trim piece) <= String.length line.
Proof.
  intros (a & b & E). destruct (trim_part piece) as (x & y & Ep).
  assert (El : line = ((a ++ x) ++ Str.trim piece ++ (y ++ b))%string).
  { rewrite E, Ep at 1. rewrite !append_assoc. reflexivity. }
  destruct (index_finds 0 (a ++ x) (Str.trim piece) (y ++ b) ltac:(lia))
    as (m & Hm & _).
  rewrite <- El in Hm. exists m. unfold Str.indexOf.
  rewrite Nat.min_0_l. cbn [Z.to_nat]. rewrite Hm.
  split; [reflexivity|]. split; [eapply index_correct1, Hm|].
  apply index_bound in Hm. lia.
Qed.

(** X15.  A sentence-length suggestion stands for a sentence of more than
    100 characters: a text without blanks at its ends and without [.],
    [!] and [?], which is in the line at the column reported.  A line of
    at most 100 characters gets none. *)
Theorem sentence_length_suggestions_locate :
  forall (line : string) (lineNumber : nat),
    Forall
      (fun s =>
         sg_type s = "sentence-length" /\ sg_line s = lineNumber
         /\ exists sentence,
              100 < String.length sentence
              /\ Str.trim sentence = sentence
              /\ every (fun c => negb (isTerminal c)) sentence = true
              /\ 1 <= sg_column s
              /\ substring (sg_column s - 1) (String.length sentence) line
                 = sentence
              /\ sg_column s + String.length sentence
                 <= String.length line + 1)
      (checkSentenceLength line lineNumber)
    /\ (String.length line <= 100 -> checkSentenceLength line lineNumber = []).
Proof.
  intros line lineNumber.
  destruct (splitRuns_parts isTerminal line false) as [Hparts _].
  unfold checkSentenceLength. split.
  - apply Forall_flat_map. eapply Forall_impl; [|exact Hparts]. cbn beta.
    intros piece [Hpart Hevery].
    destruct (Nat.ltb_spec 100 (String.length (Str.trim piece)));
      [|constructor].
    constructor; [|constructor]. cbn [sg_type sg_line sg_column].
    split; [reflexivity|]. split; [reflexivity|].
    destruct (long_sentence_located line piece Hpart) as (m & Hi & Hsub & Hb).
    exists (Str.trim piece). rewrite Hi.
    replace (Z.to_nat (Z.of_nat m + 1)) with (m + 1) by lia.
    replace (m + 1 - 1) with m by lia.
    split; [assumption|]. split; [apply trim_idem|].
    split; [apply every_trim, Hevery|]. split; [lia|].
    split; [exact Hsub | lia].
  - intros Hl. induction Hparts as [|piece pieces [(a & b & E) _] _ IH];
      cbn [flat_map]; [reflexivity|].
    rewrite IH, app_nil_r.
    destruct (Nat.ltb_spec 100 (String.length (Str.trim piece))) as [H|H];
      [|reflexivity].
    pose proof (length_trim_le piece) as Ht.
    apply (f_equal String.length) in E. rewrite !length_append in E. lia.
Qed.

Lemma sentence_length_columns (line : string) (lineNumber : nat) :
  Forall (fun s => sg_line s = lineNumber
                   /\ 1 <= sg_column s <= String.length line)
    (checkSentenceLength line lineNumber).
Proof.
  destruct (splitRuns_parts isTerminal line false) as [Hparts _].
  unfold checkSentenceLength. apply Forall_flat_map.
  eapply Forall_impl; [|exact Hparts]. cbn beta. intros piece [Hpart _].
  destruct (Nat.ltb_spec 100 (String.length (Str.trim piece)));
    [|constructor].
  constructor; [|constructor]. cbn [sg_line sg_column].
  destruct (long_sentence_located line piece Hpart) as (m & Hi & _ & Hb).
  rewrite Hi. split; [reflexivity | lia].
Qed.

Lemma numbered_nth {A : Type} (l : list A) :
  forall i n a, In (n, a) (numbered l i) ->
    i < n /\ nth_error l (n - 1 - i) = Some a.
Proof.
  induction l as [|x l IH]; intros i n a H; cbn [numbered] in H; [destruct H|].
  destruct H as [[= <- <-]|H].
  - split; [lia|]. replace (i + 1 - 1 - i) with 0 by lia. reflexivity.
  - apply IH in H. destruct H as [Hlt Hn]. split; [lia|].
    replace (n - 1 - i) with (S (n - 1 - S i)) by lia. exact Hn.
Qed.

Lemma builtin_rules_consume :
  Forall (fun rule => consumes (source (sr_pattern rule)) = true
                      /\ global (sr_pattern rule) = true) STYLE_RULES.
Proof. unfold STYLE_RULES. repeat constructor. Qed.

(** X16.  With the rules it is built with, [suggestStyle] returns for
    every text, and every suggestion it returns points into the text:
    its line is one of the lines of the text and its column is a column
    of that line. *)
Theorem suggestStyle_points_into_the_text :
  forall text_ : string,
    exists suggestions,
      suggestStyle STYLE_RULES text_ = Some suggestions
      /\ Forall (pointsInto text_) suggestions
      /\ (Str.trim text_ = "" -> suggestions = []).
Proof.
  intros text_. unfold suggestStyle.
  destruct (String.eqb text_ "" || _) eqn:B.
  { exists []. repeat split. constructor. }
  set (g := fun nl : nat * string =>
              checkSentenceLength (snd nl) (fst nl)
              ++ List.flat_map
                   (fun rule =>
                      List.map (styleSuggestion rule (fst nl))
                        (matchAll (sr_pattern rule) (snd nl)))
                   STYLE_RULES).
  exists (List.flat_map g (numbered (Str.splitChar newline text_) 0)).
  split; [|split].
  - apply concatAll_total. apply Forall_forall. intros [n line] _.
    cbn [fst snd]. rewrite checkStyleRules_builtin. reflexivity.
  - apply Forall_flat_map. apply Forall_forall. intros [n line] Hin.
    apply numbered_nth in Hin. destruct Hin as [Hn Hnth].
    rewrite Nat.sub_0_r in Hnth. unfold g. cbn [fst snd].
    apply Forall_app. split.
    + eapply Forall_impl; [|apply (sentence_length_columns line n)].
      cbn beta. intros s (Hl & Hc). exists line. rewrite Hl.
      split; [exact Hnth|]. split; lia.
    + apply Forall_flat_map.
      eapply Forall_impl; [|exact builtin_rules_consume]. cbn beta.
      intros rule [Hc _]. apply Forall_map. apply Forall_forall.
      intros mt Hmt. exists line. cbn [styleSuggestion sg_line sg_column].
      split; [exact Hnth|]. split; [lia|].
      pose proof (matchesFrom_nonempty (ignoreCase (sr_pattern rule))
                    (source (sr_pattern rule)) line Hc line None 0 0) as Hne.
      rewrite Forall_forall in Hne. specialize (Hne mt Hmt).
      apply matchAll_spans in Hmt. destruct Hmt as (a & b & Hs & Hi & He).
      apply (f_equal String.length) in Hs. rewrite !length_append in Hs.
      lia.
  - intros Hb. apply blank_iff in Hb. congruence.
Qed.

Lemma concatAll_none {A B : Type} (f : A -> option (list B)) (l : list A)
    (a : A) :
  In a l -> f a = None -> concatAll f l = None.
Proof.
  induction l as [|x l IH]; intros Hin Ha; [destruct Hin|].
  cbn [concatAll]. destruct Hin as [->|Hin].
  - rewrite Ha. reflexivity.
  - destruct (f x); [|reflexivity]. rewrite IH; trivial.
Qed.

(** X17.  A rule whose pattern has the [g] flag and matches the empty
    text where a line ends, as [/x*/g] does, hangs the service: with such
    a rule in the table [suggestStyle] never returns, on any text that is
    not blank. *)
Theorem emptiable_pattern_hangs_suggestStyle :
  forall (rules : list StyleRule) (rule : StyleRule) (text_ : string),
    In rule rules ->
    global (sr_pattern rule) = true ->
    matchesEmptyAtEnd (sr_pattern rule) ->
    Str.trim text_ <> "" ->
    suggestStyle rules text_ = None.
Proof.
  intros rules rule text_ Hin Hg Hend Hb. unfold suggestStyle.
  destruct (String.eqb text_ "" || _) eqn:B;
    [apply blank_iff in B; contradiction|].
  assert (Hrule : forall line n, checkStyleRules rules line n = None).
  { intros line n. unfold checkStyleRules.
    apply (concatAll_none _ rules rule Hin).
    unfold checkStyleRule, execLoop. rewrite Hg. unfold matchAll.
    rewrite matchesFrom_ends_empty; [reflexivity | | lia].
    intros bef off. apply Hend. }
  pose proof (splitChar_nonempty newline text_) as Hne.
  destruct (Str.splitChar newline text_) as [|line lines]; [contradiction|].
  cbn [numbered concatAll fst snd]. rewrite Hrule. reflexivity.
Qed.

Lemma emptiable_pattern_hangs_suggestStyle_witness :
  suggestStyle (STYLE_RULES ++ [emptiableRule]) "It works." = None.
Proof.
  apply (emptiable_pattern_hangs_suggestStyle (STYLE_RULES ++ [emptiableRule])
           emptiableRule "It works.").
  - apply in_or_app. right. left. reflexivity.
  - reflexivity.
  - intros inp bef off. vm_compute. discriminate.
  - vm_compute. discriminate.
Defined.

Lemma shiftLine_zero (s : Suggestion) : shiftLine 0 s = s.
Proof. destruct s. unfold shiftLine. cbn. rewrite Nat.add_0_r. reflexivity. Qed.

Lemma shiftLine_add (n k : nat) (s : Suggestion) :
  shiftLine (n + k) s = shiftLine n (shiftLine k s).
Proof.
  unfold shiftLine. cbn. f_equal. lia.
Qed.

Lemma batchLoop_shift (rules : list StyleRule) (paragraphs : list string) :
  forall index k,
    batchLoop rules paragraphs (k + index)
    = option_map (List.map (shiftLine (k * 10)))
        (batchLoop rules paragraphs index).
Proof.
  induction paragraphs as [|p more IH]; intros index k; cbn [batchLoop];
    [reflexivity|].
  destruct (suggestStyle rules p) as [l|]; [|reflexivity].
  replace (S (k + index)) with (k + S index) by lia. rewrite IH.
  destruct (batchLoop rules more (S index)) as [others|]; [|reflexivity].
  cbn [option_map]. rewrite map_app, map_map. do 2 f_equal.
  apply map_ext. intros s. rewrite <- shiftLine_add. f_equal. lia.
Qed.

Lemma batchLoop_app (rules : list StyleRule) (first second : list string) :
  forall index,
    batchLoop rules (first ++ second) index
    = match batchLoop rules first index, batchLoop rules second index with
      | Some a, Some b =>
          Some (a ++ List.map (shiftLine (List.length first * 10)) b)
      | _, _ => None
      end.
Proof.
  induction first as [|p more IH]; intros index.
  - cbn [app batchLoop List.length Nat.mul].
    destruct (batchLoop rules second index) as [b|]; [|reflexivity].
    cbn [app]. f_equal. rewrite <- (map_id b) at 1. apply map_ext.
    intros s. symmetry. apply shiftLine_zero.
  - cbn [app batchLoop List.length].
    destruct (suggestStyle rules p) as [l|]; [|reflexivity].
    rewrite IH. destruct (batchLoop rules more (S index)) as [others|];
      [|reflexivity].
    pose proof (batchLoop_shift rules second index 1) as E1.
    cbn [Nat.add] in E1. rewrite E1.
    destruct (batchLoop rules second index) as [b|]; [|reflexivity].
    cbn [option_map]. rewrite <- app_assoc, map_map. do 3 f_equal.
    apply map_ext. intros s. rewrite <- shiftLine_add. f_equal. lia.
Qed.

(** X18.  [analyzeBatch] composes: a batch of two lists of paragraphs
    gives the suggestions of the first list followed by those of the
    second with their lines moved down by ten for each paragraph of the
    first; a batch of one paragraph is [suggestStyle] of it.  When
    [suggestStyle] never returns for a paragraph, the batch does not
    either. *)
Theorem analyzeBatch_composes :
  forall (rules : list StyleRule) (first second : list string),
    analyzeBatch rules (first ++ second)
    = match analyzeBatch rules first, analyzeBatch rules second with
      | Some a, Some b =>
          Some (a ++ List.map (shiftLine (List.length first * 10)) b)
      | _, _ => None
      end
    /\ forall paragraph,
         analyzeBatch rules [paragraph] = suggestStyle rules paragraph.
Proof.
  intros rules first second. unfold analyzeBatch. split.
  - apply batchLoop_app.
  - intros paragraph. cbn [batchLoop].
    destruct (suggestStyle rules paragraph) as [l|]; [|reflexivity].
    rewrite app_nil_r. f_equal. cbn [Nat.mul].
    rewrite <- (map_id l) at 2. apply map_ext. apply shiftLine_zero.
Qed.

End StyleProofs.
(** ** The NLP service: positions *)

Section PositionProofs.

Import NlpService NlpPositions.

Lemma join_cons (sep x : string) (l : list string) :
  l <> [] -> Str.join sep (x :: l) = (x ++ sep ++ Str.join sep l)%string.
Proof. destruct l; [contradiction | reflexivity]. Qed.

Lemma fold_position (l : list Token) (p : nat) :
  List.fold_left (fun position t => position + String.length (text t) + 1)
    l p
  = p + List.fold_left
          (fun position t => position + String.length (text t) + 1) l 0.
Proof.
  revert p. induction l as [|t l IH]; intros p; cbn [fold_left]; [lia|].
  rewrite (IH (p + _ + 1)), (IH (0 + _ + 1)). lia.
Qed.

(** The tokens before index [i] fill the rebuilt text up to
    [positionBefore tokens i]. *)
Lemma rebuilt_skip (tokens : list Token) :
  forall i, i < List.length tokens ->
    exists before_,
      rebuilt tokens = (before_ ++ rebuilt (skipn i tokens))%string
      /\ String.length before_ = positionBefore tokens i.
Proof.
  induction tokens as [|t tokens IH]; intros i Hi; [simpl in Hi; lia|].
  destruct i as [|i]; [exists ""; split; reflexivity|].
  cbn [List.length] in Hi. destruct (IH i ltac:(lia)) as (b & Hb & Hl).
  exists (text t ++ " " ++ b)%string. split.
  - unfold rebuilt in *. cbn [List.map skipn].
    rewrite join_cons by (destruct tokens; [simpl in Hi; lia | discriminate]).
    rewrite Hb, !append_assoc. reflexivity.
  - unfold positionBefore in *. cbn [firstn fold_left].
    rewrite fold_position, !length_append, Hl. simpl. lia.
Qed.

Lemma rebuilt_app (matched_ after_ : list Token) :
  exists rest_,
    rebuilt (matched_ ++ after_) = (rebuilt matched_ ++ rest_)%string.
Proof.
  induction matched_ as [|t l (r & IH)].
  - exists (rebuilt after_). reflexivity.
  - destruct l as [|t' l].
    + destruct after_ as [|a after_].
      * exists "". unfold rebuilt. simpl.
        clear. induction (text t); simpl; congruence.
      * exists (" " ++ rebuilt (a :: after_))%string. reflexivity.
    + exists r. unfold rebuilt in *. cbn [app List.map] in *.
      rewrite (join_cons " " (text t) (text t' :: List.map text (l ++ after_)))
        by discriminate.
      rewrite (join_cons " " (text t) (text t' :: List.map text l))
        by discriminate.
      rewrite IH, !append_assoc. reflexivity.
Qed.

Lemma endPosition_length (tokens : list Token) (i : nat) :
  forall count j position,
    endPosition tokens i count j position
    = position
      + String.length (rebuilt (firstn count (skipn (i + j) tokens)))
  \/ List.length tokens < i + j + count.
Proof.
  induction count as [|count IH]; intros j position.
  - left. cbn. lia.
  - destruct (Nat.le_gt_cases (i + j + S count) (List.length tokens))
      as [Hle|Hgt]; [left | right; lia].
    cbn [endPosition].
    destruct (IH (S j) (position
         + String.length (text (List.nth (i + j) tokens (mkToken "" "")))
         + (if Nat.eqb count 0 then 0 else 1))) as [E|E]; [|lia].
    rewrite E. clear E IH.
    assert (Hn : skipn (i + j) tokens
                 = List.nth (i + j) tokens (mkToken "" "")
                   :: skipn (i + S j) tokens).
    { replace (i + S j) with (S (i + j)) by lia.
      clear -Hle. revert tokens Hle. generalize (i + j) as n.
      induction n as [|n IHn]; intros [|t tokens] H; simpl in H; try lia;
        [reflexivity|].
      cbn [skipn List.nth]. apply IHn. lia. }
    rewrite Hn. cbn [firstn]. unfold rebuilt. cbn [List.map].
    destruct count as [|count].
    + cbn. rewrite Nat.add_0_r. lia.
    + assert (Hne : List.map text (firstn (S count) (skipn (i + S j) tokens))
                    <> []).
      { destruct (skipn (i + S j) tokens) eqn:Es; [|discriminate].
        apply (f_equal (@List.length _)) in Es. rewrite length_skipn in Es.
        simpl in Es. lia. }
      rewrite join_cons by exact Hne. rewrite !length_append. simpl. lia.
Qed.

Lemma everyWord_spec (tokens : list Token) (i : nat) :
  forall entityWords index,
    i + index + List.length entityWords <= List.length tokens ->
    exists b,
      everyWord tokens i entityWords index = Some b
      /\ (b = true <-> wordsAt tokens entityWords (i + index)).
Proof.
  unfold wordsAt.
  induction entityWords as [|word more IH]; intros index Hl.
  - exists true. split; [reflexivity|]. split; reflexivity.
  - cbn [List.length] in Hl. cbn [everyWord].
    destruct (nth_error tokens (i + index)) as [t|] eqn:En;
      [|apply nth_error_None in En; lia].
    assert (Hs : skipn (i + index) tokens = t :: skipn (i + S index) tokens).
    { replace (i + S index) with (S (i + index)) by lia.
      clear -En. revert tokens En. generalize (i + index) as n.
      induction n as [|n IHn]; intros [|x tokens] H; simpl in H;
        try discriminate; [simpl; congruence|].
      cbn [skipn]. apply IHn, H. }
    rewrite Hs. cbn [List.length firstn List.map].
    destruct (String.eqb_spec (Str.toLowerCase (text t)) word) as [E|E].
    + destruct (IH (S index) ltac:(lia)) as (b & Hb & Hiff).
      exists b. split; [exact Hb|]. rewrite Hiff, E. split.
      * intros ->. reflexivity.
      * intros [= H]. exact H.
    + exists false. split; [reflexivity|]. split; [discriminate|].
      intros [= H _]. contradiction.
Qed.

Lemma sequencePosition_spec (tokens : list Token) (entityWords : list string) :
  forall todo i,
    (0 < todo ->
     i + todo + List.length entityWords <= List.length tokens + 1) ->
    exists r,
      sequencePosition tokens entityWords todo i = Some r
      /\ forall start_ end_,
           r = Some (start_, end_) ->
           exists i', i' + List.length entityWords <= List.length tokens
                      /\ wordsAt tokens entityWords i'
                      /\ start_ = positionBefore tokens i'
                      /\ end_ = start_
                                + String.length
                                    (rebuilt (firstn (List.length entityWords)
                                                (skipn i' tokens))).
Proof.
  induction todo as [|todo IH]; intros i Hl; cbn [sequencePosition].
  - exists None. split; [reflexivity | discriminate].
  - specialize (Hl ltac:(lia)).
    destruct (everyWord_spec tokens i entityWords 0 ltac:(lia))
      as (b & Hb & Hiff).
    rewrite Hb. rewrite Nat.add_0_r in Hiff. destruct b.
    + eexists. split; [reflexivity|]. intros start_ end_ [= <- <-].
      exists i. split; [lia|]. split; [apply Hiff; reflexivity|].
      split; [reflexivity|].
      destruct (endPosition_length tokens i (List.length entityWords) 0
                  (positionBefore tokens i)) as [E|E]; [|lia].
      rewrite Nat.add_0_r in E. exact E.
    + apply IH. intros. lia.
Qed.

Lemma findIndex_spec {A : Type} (p : A -> bool) (l : list A) (d : A) :
  forall i, findIndex p l = Some i ->
    i < List.length l /\ p (List.nth i l d) = true
    /\ skipn i l = List.nth i l d :: skipn (S i) l.
Proof.
  induction l as [|a l IH]; intros i H; cbn [findIndex] in H; [discriminate|].
  destruct (p a) eqn:Ea.
  - injection H as <-. simpl. repeat split; trivial; lia.
  - destruct (findIndex p l) as [j|]; [|discriminate]. injection H as <-.
    destruct (IH j eq_refl) as (Hl & Hp & Hs). simpl.
    repeat split; trivial; lia.
Qed.

(** X19.  [findEntityPosition] never throws, and the position it finds is
    that of the entity in the text rebuilt from the tokens with single
    blanks: the words of the entity are the tokens at some index, case
    aside, and the characters from [start] to [end] of the rebuilt text
    are these tokens, joined by blanks. *)
Theorem findEntityPosition_spans_the_entity :
  forall (entityText : string) (tokens : list Token),
    let entityWords := Str.splitBlanks (Str.toLowerCase entityText) in
    exists r,
      findEntityPosition entityText tokens = Some r
      /\ forall start_ end_,
           r = Some (start_, end_) ->
           exists i,
             wordsAt tokens entityWords i
             /\ start_ <= end_
             /\ substring start_ (end_ - start_) (rebuilt tokens)
                = rebuilt (firstn (List.length entityWords) (skipn i tokens)).
Proof.
  intros entityText tokens entityWords.
  assert (Hspan : forall i k,
    0 < k -> i + k <= List.length tokens ->
    substring (positionBefore tokens i)
      (String.length (rebuilt (firstn k (skipn i tokens)))) (rebuilt tokens)
    = rebuilt (firstn k (skipn i tokens))).
  { intros i k Hk Hl.
    destruct (rebuilt_skip tokens i ltac:(lia)) as (b & Hb & Hbl).
    destruct (rebuilt_app (firstn k (skipn i tokens)) (skipn k (skipn i tokens)))
      as (r & Hr).
    rewrite firstn_skipn in Hr. rewrite Hb, Hr, <- Hbl. apply substring_at. }
  unfold findEntityPosition. fold entityWords.
  assert (Hmulti :
    exists r,
      sequencePosition tokens entityWords
        (GrammarEngine.iterations (List.length tokens)
           (List.length entityWords)) 0 = Some r
      /\ (0 < List.length entityWords ->
          forall start_ end_,
            r = Some (start_, end_) ->
            exists i,
              wordsAt tokens entityWords i
              /\ start_ <= end_
              /\ substring start_ (end_ - start_) (rebuilt tokens)
                 = rebuilt (firstn (List.length entityWords)
                              (skipn i tokens)))).
  { destruct (sequencePosition_spec tokens entityWords
                (GrammarEngine.iterations (List.length tokens)
                   (List.length entityWords)) 0) as (r & Hr & Hspec).
    { unfold GrammarEngine.iterations.
      destruct (Nat.leb_spec (List.length entityWords) (List.length tokens));
        lia. }
    exists r. split; [exact Hr|]. intros Hk start_ end_ E.
    destruct (Hspec start_ end_ E) as (i & Hl & Hw & -> & ->).
    exists i. split; [exact Hw|]. split; [lia|].
    replace (positionBefore tokens i + _ - positionBefore tokens i)
      with (String.length
              (rebuilt (firstn (List.length entityWords) (skipn i tokens))))
      by lia.
    apply Hspan; assumption. }
  destruct entityWords as [|word [|word' more]] eqn:Ew.
  - destruct Hmulti as (r & Hr & _). exists r. split; [exact Hr|].
    exfalso. apply (splitRuns_nonempty Str.isSpace false
                      (Str.toLowerCase entityText)). exact Ew.
  - clear Hmulti.
    destruct (findIndex _ tokens) as [tokenIndex|] eqn:Ef.
    + eexists. split; [reflexivity|]. intros start_ end_ [= <- <-].
      apply (findIndex_spec _ _ (mkToken "" "")) in Ef.
      destruct Ef as (Hl & Hp & Hs). apply String.eqb_eq in Hp.
      exists tokenIndex. unfold wordsAt. rewrite Hs.
      cbn [List.length firstn List.map]. rewrite Hp.
      split; [reflexivity|]. split; [lia|].
      specialize (Hspan tokenIndex 1 ltac:(lia) ltac:(lia)).
      rewrite Hs in Hspan. cbn [firstn] in Hspan.
      unfold rebuilt at 1 3 in Hspan. cbn [List.map Str.join String.concat]
        in Hspan.
      replace (positionBefore tokens tokenIndex + _
               - positionBefore tokens tokenIndex)
        with (String.length (text (List.nth tokenIndex tokens (mkToken "" ""))))
        by lia.
      exact Hspan.
    + exists None. split; [reflexivity | discriminate].
  - destruct Hmulti as (r & Hr & Hspec). exists r. split; [exact Hr|].
    apply Hspec. simpl. lia.
Qed.

(** Where [indexOf] finds a text that is not empty: not before [from]. *)
Lemma indexOf_from (s needle : string) (from : Z) :
  (0 <= from)%Z -> needle <> "" ->
  Str.indexOf s needle from = (-1)%Z
  \/ (from <= Str.indexOf s needle from)%Z.
Proof.
  intros Hf Hne. unfold Str.indexOf.
  destruct (index _ needle s) as [i|] eqn:E; [right | left; reflexivity].
  apply index_bound in E. destruct E as [Hlo Hhi].
  assert (0 < String.length needle).
  { destruct needle; [contradiction | simpl; lia]. }
  lia.
Qed.

Lemma indexOf_nonneg (s needle : string) (from : Z) :
  Str.indexOf s needle from = (-1)%Z \/ (0 <= Str.indexOf s needle from)%Z.
Proof.
  unfold Str.indexOf. destruct (index _ needle s); [right; lia | left; lia].
Qed.

Section Processed.

Variable nlp : string -> result (list GrammarEngine.NLPTerm).
Variable provider : option (string -> list string -> result (list string)).

Lemma positions_tokens (text_ : string) (tokens : list Token) :
  forall from,
    List.map (fun located => fst (fst located)) (positions text_ tokens from)
    = tokens.
Proof.
  induction tokens as [|t tokens IH]; intros from; cbn [positions List.map];
    [reflexivity|].
  cbn [fst]. rewrite IH. reflexivity.
Qed.

Lemma positions_located (text_ : string) (tokens : list Token) :
  forall from, (0 <= from)%Z ->
    Forall (fun located =>
              (0 <= snd (fst located))%Z
              /\ snd located
                 = (snd (fst located)
                    + Z.of_nat (String.length (text (fst (fst located)))))%Z)
      (positions text_ tokens from).
Proof.
  induction tokens as [|t tokens IH]; intros from Hf; cbn [positions];
    constructor.
  - cbn [fst snd]. split; [|reflexivity].
    destruct (Z.eqb_spec (Str.indexOf text_ (text t) from) (-1)); [lia|].
    destruct (indexOf_nonneg text_ (text t) from); [contradiction | lia].
  - apply IH.
    destruct (Z.eqb_spec (Str.indexOf text_ (text t) from) (-1)); [lia|].
    destruct (indexOf_nonneg text_ (text t) from); [contradiction | lia].
Qed.

Lemma positions_apart (text_ : string) (contextWords : list string)
    (tokens : list Token) :
  Forall (fun t => text t <> "") tokens ->
  forall from, (0 <= from)%Z ->
    apart (List.map (enrich provider contextWords)
             (positions text_ tokens from)) from.
Proof.
  induction 1 as [|t tokens Ht _ IH]; intros from Hf;
    cbn [positions List.map apart]; [exact I|].
  set (start_ := if Z.eqb (Str.indexOf text_ (text t) from) (-1)
                 then from else Str.indexOf text_ (text t) from).
  assert (Hs : (from <= start_)%Z).
  { unfold start_.
    destruct (Z.eqb_spec (Str.indexOf text_ (text t) from) (-1)); [lia|].
    destruct (indexOf_from text_ (text t) from Hf Ht); [contradiction | lia]. }
  exists start_, (start_ + Z.of_nat (String.length (text t)))%Z.
  cbn [enrich GrammarEngine.et_start GrammarEngine.et_end
       GrammarEngine.et_text].
  repeat split; trivial. apply IH. lia.
Qed.

(** X20.  [processText] keeps the tokens of the tagger, in their order
    and with their tags, and gives every one a position: a start that is
    never negative and an end that is the start plus the length of the
    token.  Punctuation and determiners get no synonyms.  When no token
    is empty, each token starts after the one before it has ended, so
    the tokens do not overlap. *)
Theorem processText_locates_every_token :
  forall text_ : string,
    let tokens := posTagger nlp text_ in
    let enhanced := processText nlp provider text_ in
    List.map GrammarEngine.et_text enhanced = List.map text tokens
    /\ List.map GrammarEngine.et_pos enhanced = List.map pos tokens
    /\ Forall (fun t => skipped (GrammarEngine.et_pos t) = true ->
                        GrammarEngine.et_synonyms t = []) enhanced
    /\ Forall (fun t =>
                 exists start_ end_,
                   GrammarEngine.et_start t = Some start_
                   /\ GrammarEngine.et_end t = Some end_
                   /\ (0 <= start_)%Z
                   /\ end_ = (start_ + Z.of_nat
                                         (String.length
                                            (GrammarEngine.et_text t)))%Z)
         enhanced
    /\ (Forall (fun t => text t <> "") tokens -> apart enhanced 0).
Proof.
  intros text_ tokens enhanced. unfold enhanced, processText.
  destruct (String.eqb text_ "" || _) eqn:B.
  { assert (E : tokens = []) by (unfold tokens, posTagger; rewrite B;
                                 reflexivity).
    rewrite E. repeat split; constructor. }
  fold tokens.
  set (contextWords := List.map _ (List.filter _ tokens)).
  assert (Hfield : forall (f : GrammarEngine.EnhancedToken -> string)
                          (g : Token -> string),
    (forall located, f (enrich provider contextWords located)
                     = g (fst (fst located))) ->
    List.map f (List.map (enrich provider contextWords)
                  (positions text_ tokens 0))
    = List.map g tokens).
  { intros f g Hfg. rewrite map_map.
    rewrite <- (positions_tokens text_ tokens 0) at 2. rewrite map_map.
    apply map_ext. exact Hfg. }
  split; [apply Hfield; intros [[t a] b]; reflexivity|].
  split; [apply Hfield; intros [[t a] b]; reflexivity|].
  split; [|split].
  - apply Forall_map. apply Forall_forall. intros [[t a] b] _.
    cbn [enrich GrammarEngine.et_pos GrammarEngine.et_synonyms].
    intros ->. reflexivity.
  - apply Forall_map.
    eapply Forall_impl; [|apply (positions_located text_ tokens 0); lia].
    intros [[t a] b] [Ha Hb]. cbn [fst snd] in *.
    exists a, b. cbn [enrich GrammarEngine.et_start GrammarEngine.et_end
                        GrammarEngine.et_text].
    repeat split; trivial.
  - intros Hne. apply positions_apart; [exact Hne | lia].
Qed.

End Processed.

End PositionProofs.

(** ** The results of a grammar check *)

Section ReportProofs.

Import Regex GrammarEngine.

Lemma spellingLoop_reports line n :
  forall known results,
    List.length results < 2 -> Forall (reportedAt line n) results ->
    List.length (spellingLoop line n known results) <= 2
    /\ Forall (reportedAt line n) (spellingLoop line n known results).
Proof.
  induction known as [|[word fix_] more IH]; intros results Hl Hr.
  - cbn [spellingLoop]. split; [lia | exact Hr].
  - cbn [spellingLoop].
    destruct (String.index 0 word (Str.toLowerCase line)) as [i|] eqn:E;
      [|apply IH; trivial].
    destruct (boundaryOk line word i); [|apply IH; trivial].
    assert (Hnew : Forall (reportedAt line n)
                     (results ++ [spellingResult word fix_ n i])).
    { apply Forall_app. split; [exact Hr|]. constructor; [|constructor].
      apply index_bound in E. unfold Str.toLowerCase in E.
      rewrite length_strmap in E.
      unfold reportedAt, spellingResult. cbn [cr_line cr_column]. lia. }
    destruct (Nat.leb_spec 2
                (List.length (results ++ [spellingResult word fix_ n i])))
      as [H2|H2].
    + split; [|exact Hnew]. rewrite length_app in *. simpl in *. lia.
    + apply IH; trivial.
Qed.

Lemma scan_span ic r inp :
  forall rst bef off mt,
    scan ic r inp bef off rst = Some mt ->
    off <= index mt /\ index mt <= off + String.length rst.
Proof.
  induction rst as [|c t IH]; intros bef off mt H; cbn [scan] in H.
  - destruct (matchAt ic r inp bef off "") as [mt'|] eqn:E; [|discriminate].
    injection H as <-. apply matchAt_span in E. simpl. lia.
  - destruct (matchAt ic r inp bef off (String c t)) as [mt'|] eqn:E.
    + injection H as <-. apply matchAt_span in E. simpl. lia.
    + apply IH in H. simpl. lia.
Qed.

Lemma rulesLoop_reports line n :
  forall table results,
    List.length results < 3 -> Forall (reportedAt line n) results ->
    List.length (rulesLoop line n table results) <= 3
    /\ Forall (reportedAt line n) (rulesLoop line n table results).
Proof.
  intros table. induction table as [|rule more IH]; intros results Hl Hr.
  - cbn [rulesLoop]. split; [lia | exact Hr].
  - cbn [rulesLoop].
    destruct (exec (gr_pattern rule) line) as [mt|] eqn:E;
      [|apply IH; trivial].
    assert (Hnew : Forall (reportedAt line n)
                     (results ++ [ruleResult rule n mt])).
    { apply Forall_app. split; [exact Hr|]. constructor; [|constructor].
      unfold exec in E. apply scan_span in E.
      unfold reportedAt, ruleResult. cbn [cr_line cr_column]. lia. }
    destruct (Nat.leb_spec 3 (List.length (results ++ [ruleResult rule n mt])))
      as [H3|H3].
    + split; [|exact Hnew]. rewrite length_app in *. simpl in *. lia.
    + apply IH; trivial.
Qed.

Lemma processLineFast_reports rules line n :
  List.length (processLineFast rules line n) <= 5
  /\ Forall (reportedAt line n) (processLineFast rules line n).
Proof.
  unfold processLineFast, checkSpellingFast, checkGrammarRulesFast.
  destruct (spellingLoop_reports line n COMMON_MISSPELLINGS [])
    as [Hs1 Hs2]; [simpl; lia | constructor |].
  destruct (rulesLoop_reports line n rules [])
    as [Hr1 Hr2]; [simpl; lia | constructor |].
  split; [rewrite length_app; lia | apply Forall_app; split; trivial].
Qed.

Lemma processLines_reports rules :
  forall lines i,
    List.length (processLines rules lines i) <= 5 * List.length lines
    /\ Forall (fun r => exists line,
                 nth_error lines (cr_line r - 1 - i) = Some line
                 /\ i < cr_line r
                 /\ reportedAt line (cr_line r) r)
         (processLines rules lines i).
Proof.
  induction lines as [|l more IH]; intros i; cbn [processLines].
  - split; [simpl; lia | constructor].
  - destruct (processLineFast_reports rules l (i + 1)) as [H1 H2].
    destruct (IH (S i)) as [H3 H4]. split.
    + rewrite length_app. cbn [List.length]. lia.
    + apply Forall_app. split.
      * eapply Forall_impl; [|exact H2]. intros r Hr. exists l.
        pose proof Hr as [Hn _]. rewrite Hn.
        replace (i + 1 - 1 - i) with 0 by lia.
        split; [reflexivity|]. split; [lia | exact Hr].
      * eapply Forall_impl; [|exact H4]. intros r (line & Hn & Hi & Hr).
        exists line. split; [|split; [lia | exact Hr]].
        replace (cr_line r - 1 - i) with (S (cr_line r - 1 - S i)) by lia.
        exact Hn.
Qed.

(** A text without the separator is its only piece. *)
Lemma splitChar_single sep s :
  String.index 0 (String sep "") s = None -> Str.splitChar sep s = [s].
Proof.
  induction s as [|c t IH]; intros H; [reflexivity|].
  cbn [String.index] in H. cbn [Str.splitChar].
  cbn [String.prefix] in H.
  destruct (ascii_dec sep c) as [->|Hne].
  - destruct t; discriminate.
  - destruct (Ascii.eqb_spec c sep) as [->|_]; [congruence|].
    destruct (String.index 0 (String sep "") t) as [k|] eqn:E; [discriminate|].
    rewrite IH; trivial.
Qed.

Lemma filter_all {A : Type} (p : A -> bool) (l : list A) :
  Forall (fun x => p x = true) l -> List.filter p l = l.
Proof.
  induction 1 as [|x l Hx _ IH]; cbn [filter]; [reflexivity|].
  rewrite Hx, IH. reflexivity.
Qed.

Lemma filter_none {A : Type} (p : A -> bool) (l : list A) :
  Forall (fun x => p x = false) l -> List.filter p l = [].
Proof.
  induction 1 as [|x l Hx _ IH]; cbn [filter]; [reflexivity|].
  rewrite Hx. exact IH.
Qed.

(** The results that name line [n] are those of that line. *)
Lemma processLines_line rules :
  forall lines i n line,
    i < n -> nth_error lines (n - 1 - i) = Some line ->
    List.filter (fun r => Nat.eqb (cr_line r) n) (processLines rules lines i)
    = processLineFast rules line n.
Proof.
  induction lines as [|l more IH]; intros i n line Hi Hn.
  - destruct (n - 1 - i); discriminate.
  - cbn [processLines]. rewrite filter_app.
    destruct (processLineFast_reports rules l (i + 1)) as [_ Hhere].
    destruct (processLines_reports rules more (S i)) as [_ Hlater].
    destruct (Nat.eq_dec n (i + 1)) as [->|Hne].
    + replace (i + 1 - 1 - i) with 0 in Hn by lia. injection Hn as ->.
      rewrite filter_all, filter_none; [apply app_nil_r | |].
      * eapply Forall_impl; [|exact Hlater].
        intros r (_ & _ & Hr & _). apply Nat.eqb_neq. lia.
      * eapply Forall_impl; [|exact Hhere].
        intros r [Hr _]. apply Nat.eqb_eq. exact Hr.
    + rewrite filter_none.
      * cbn [app]. apply IH; [lia|].
        replace (n - 1 - i) with (S (n - 1 - S i)) in Hn by lia. exact Hn.
      * eapply Forall_impl; [|exact Hhere].
        intros r [Hr _]. apply Nat.eqb_neq. lia.
Qed.

Lemma processLineFast_parts rules line n :
  List.length (checkSpellingFast line n) <= 2
  /\ List.length (checkGrammarRulesFast rules line n) <= 3.
Proof.
  unfold checkSpellingFast, checkGrammarRulesFast. split.
  - apply spellingLoop_reports; [simpl; lia | constructor].
  - apply rulesLoop_reports; [simpl; lia | constructor].
Qed.

(** X21.  On a cache miss [checkGrammar] reports at most five results for
    each line of the text: the results that name a line are at most two
    misspellings followed by at most three rule matches, and, when the
    text is not blank, they are what the spelling check and the rule check
    report for that line.  Every result names a line of the text, counted
    from 1, and a column of that line, counted from 1, or the column just
    after its end. *)
Theorem checkGrammar_reports_within_the_text :
  forall (rules : list GrammarRule) (c : Cache) (sentence : string),
    getCachedResult c (Str.trim sentence) = None ->
    List.length (fst (checkGrammar rules c sentence))
    <= 5 * List.length (Str.splitChar newline sentence)
    /\ Forall (reportedIn (Str.splitChar newline sentence))
         (fst (checkGrammar rules c sentence))
    /\ forall n : nat,
         exists misspellings ruleMatches,
           List.filter (fun r => Nat.eqb (cr_line r) n)
             (fst (checkGrammar rules c sentence))
           = misspellings ++ ruleMatches
           /\ List.length misspellings <= 2
           /\ List.length ruleMatches <= 3
           /\ (Str.trim sentence <> "" ->
               forall line,
                 1 <= n ->
                 nth_error (Str.splitChar newline sentence) (n - 1)
                 = Some line ->
                 misspellings = checkSpellingFast line n
                 /\ ruleMatches = checkGrammarRulesFast rules line n).
Proof.
  intros rules c sentence Hmiss. unfold checkGrammar.
  destruct (_ || _) eqn:B.
  { split; [simpl; lia|]. split; [constructor|]. intros n.
    exists [], []. cbn [fst filter app List.length].
    split; [reflexivity|]. split; [lia|]. split; [lia|].
    intros Hne. exfalso. apply Hne, blank_iff, B. }
  rewrite Hmiss. cbn [fst].
  assert (E : (if negb (Str.includes sentence (String newline ""))
               then processLineFast rules sentence 1
               else processLines rules (Str.splitChar newline sentence) 0)
              = processLines rules (Str.splitChar newline sentence) 0).
  { unfold Str.includes.
    destruct (String.index 0 (String newline "") sentence) eqn:I;
      [reflexivity|].
    cbn [negb]. rewrite (splitChar_single _ _ I). cbn [processLines].
    rewrite app_nil_r. reflexivity. }
  rewrite E.
  destruct (processLines_reports rules (Str.splitChar newline sentence) 0)
    as [H1 H2].
  assert (Hin : Forall (reportedIn (Str.splitChar newline sentence))
                  (processLines rules (Str.splitChar newline sentence) 0)).
  { eapply Forall_impl; [|exact H2]. intros r (line & Hn & Hi & Hr).
    exists line. rewrite Nat.sub_0_r in Hn. split; [exact Hn|].
    split; [lia | exact Hr]. }
  split; [exact H1|]. split; [exact Hin|]. intros n.
  destruct (Nat.le_gt_cases 1 n) as [Hn|Hn].
  - destruct (nth_error (Str.splitChar newline sentence) (n - 1))
      as [line|] eqn:El.
    + exists (checkSpellingFast line n), (checkGrammarRulesFast rules line n).
      destruct (processLineFast_parts rules line n) as [Hs Hr].
      split.
      { apply processLines_line; [lia|]. rewrite Nat.sub_0_r. exact El. }
      split; [exact Hs|]. split; [exact Hr|].
      intros _ line' _ [= <-]. split; reflexivity.
    + exists [], []. split.
      { apply filter_none. eapply Forall_impl; [|exact Hin].
        intros r (line & Hl & _ & _). apply Nat.eqb_neq. intros Er.
        rewrite Er in Hl. congruence. }
      cbn [List.length]. split; [lia|]. split; [lia|].
      intros _ line _ Hl. discriminate.
  - exists [], []. split.
    { apply filter_none. eapply Forall_impl; [|exact Hin].
      intros r (_ & _ & Hr & _). apply Nat.eqb_neq. lia. }
    cbn [List.length]. split; [lia|]. split; [lia|].
    intros _ line Hl. lia.
Qed.

Lemma checkGrammar_reports_within_the_text_witness :
  List.length (fst (checkGrammar GRAMMAR_RULES [] "the caat are here"))
  <= 5 * List.length (Str.splitChar newline "the caat are here")
  /\ Forall (reportedIn (Str.splitChar newline "the caat are here"))
       (fst (checkGrammar GRAMMAR_RULES [] "the caat are here"))
  /\ forall n : nat,
       exists misspellings ruleMatches,
         List.filter (fun r => Nat.eqb (cr_line r) n)
           (fst (checkGrammar GRAMMAR_RULES [] "the caat are here"))
         = misspellings ++ ruleMatches
         /\ List.length misspellings <= 2
         /\ List.length ruleMatches <= 3
         /\ (Str.trim "the caat are here" <> "" ->
             forall line,
               1 <= n ->
               nth_error (Str.splitChar newline "the caat are here") (n - 1)
               = Some line ->
               misspellings = checkSpellingFast line n
               /\ ruleMatches = checkGrammarRulesFast GRAMMAR_RULES line n).
Proof.
  apply (checkGrammar_reports_within_the_text GRAMMAR_RULES []
           "the caat are here").
  reflexivity.
Defined.

End ReportProofs.
(** ** The entity recognizer of the grammar engine *)

Section EntityProofs.

Import GrammarEngine EntityRecognizer.

Lemma part_firstn {A : Type} (l : list A) (k : nat) (x : A) :
  In x (firstn k l) -> In x l.
Proof.
  intros H. rewrite <- (firstn_skipn k l). apply in_or_app. left. exact H.
Qed.

Lemma part_skipn {A : Type} (l : list A) (i : nat) (x : A) :
  In x (skipn i l) -> In x l.
Proof.
  intros H. rewrite <- (firstn_skipn i l). apply in_or_app. right. exact H.
Qed.

Lemma slice_In {A : Type} (l : list A) (i k : nat) (x : A) :
  In x (slice l i k) -> In x l.
Proof.
  unfold slice. intros H. apply part_firstn in H.
  eapply part_skipn; exact H.
Qed.

Lemma last_In {A : Type} (l : list A) (d : A) :
  List.last l d = d \/ In (List.last l d) l.
Proof.
  destruct l as [|x l]; [left; reflexivity|]. right.
  revert x. induction l as [|y l IH]; intros x; [apply in_eq|].
  apply in_cons. exact (IH y).
Qed.

Lemma calculateEntityOffsetsFromTokens_fromRun entityText tokens type_ e :
  calculateEntityOffsetsFromTokens entityText tokens type_ = Some (Some e) ->
  fromRun tokens e.
Proof.
  unfold calculateEntityOffsetsFromTokens.
  destruct (findMatchingTokens_resolves entityText tokens)
    as (found & E & Hres).
  rewrite E. destruct found as [|first others]; [discriminate|].
  intros [= <-].
  destruct Hres as [[Hnil _]|(i & _ & _ & Hslice)]; [discriminate|].
  exists i, (i + List.length
                   (Str.splitBlanks (Str.toLowerCase entityText))),
    first, others.
  split; [symmetry; exact Hslice|]. split; reflexivity.
Qed.

Lemma addEntitiesOptimized_fromRun tokens type_ :
  forall entities results out,
    Forall (fromRun tokens) results ->
    addEntitiesOptimized entities type_ tokens results = Some out ->
    Forall (fromRun tokens) out.
Proof.
  induction entities as [|entity more IH]; intros results out Hr H;
    cbn [addEntitiesOptimized] in H.
  - injection H as <-. exact Hr.
  - destruct (calculateEntityOffsetsFromTokens entity tokens type_)
      as [[e|]|] eqn:E; [| |discriminate].
    + apply IH in H; [exact H|]. apply Forall_app. split; [exact Hr|].
      constructor; [|constructor].
      eapply calculateEntityOffsetsFromTokens_fromRun; exact E.
    + apply IH in H; trivial.
Qed.

Lemma find_In {A : Type} (p : A -> bool) (l : list A) (x : A) :
  List.find p l = Some x -> In x l.
Proof. intros H. apply find_some in H. apply H. Qed.

Lemma customEntity_fromToken tokens word e :
  customEntity tokens word = Some e -> fromToken tokens e.
Proof.
  unfold customEntity.
  destruct (Str.splitChar ":" word) as [|x [|type_ [|value more]]];
    try discriminate.
  destruct (List.find _ tokens) as [tok|] eqn:F; [|discriminate].
  intros [= <-]. exists tok. apply find_In in F.
  unfold customOffsets. cbn [e_text e_start e_end].
  destruct (0 <=? getOptimizedOffset tok tokens)%Z; repeat split; trivial.
Qed.

Lemma processCustomEntities_fromToken words_ tokens :
  Forall (fromToken tokens) (processCustomEntities words_ tokens).
Proof.
  unfold processCustomEntities.
  induction (List.filter _ words_) as [|w l IH]; [constructor|].
  cbn [List.map somes].
  destruct (customEntity tokens w) as [e|] eqn:E; [|exact IH].
  constructor; [|exact IH]. eapply customEntity_fromToken; exact E.
Qed.

(** Every entity of the recognizer is built from a run of the tokens or,
    a custom one, from a single token. *)
Lemma entityRecognizer_built entitiesOf store tokens :
  Forall (fun e => fromRun tokens e \/ fromToken tokens e)
    (entityRecognizer entitiesOf store tokens).
Proof.
  unfold entityRecognizer. destruct tokens as [|t0 ts]; [constructor|].
  set (tokens := t0 :: ts).
  destruct (extractAllEntities entitiesOf store tokens) as [results|msg] eqn:E;
    [|constructor].
  unfold extractAllEntities in E.
  destruct (extractNLPEntities entitiesOf tokens) as [nlpEntities|] eqn:N;
    [|discriminate].
  assert (Hn : Forall (fromRun tokens) nlpEntities).
  { unfold extractNLPEntities in N.
    destruct (entitiesOf _) as [[[people places] organizations]|];
      [|discriminate].
    destruct (addEntitiesOptimized people _ tokens []) as [r1|] eqn:E1;
      [|discriminate].
    destruct (addEntitiesOptimized places _ tokens r1) as [r2|] eqn:E2;
      [|discriminate].
    destruct (addEntitiesOptimized organizations _ tokens r2) as [r3|] eqn:E3;
      [|discriminate].
    injection N as <-.
    eapply addEntitiesOptimized_fromRun; [|exact E3].
    eapply addEntitiesOptimized_fromRun; [|exact E2].
    eapply addEntitiesOptimized_fromRun; [|exact E1]. constructor. }
  assert (Hl : Forall (fun e => fromRun tokens e \/ fromToken tokens e)
                 nlpEntities).
  { eapply Forall_impl; [|exact Hn]. intros e He. left. exact He. }
  destruct store as [[words_|]|]; try discriminate; injection E as <-;
    [|exact Hl].
  apply Forall_app. split; [exact Hl|].
  eapply Forall_impl; [|apply processCustomEntities_fromToken].
  intros e He. right. exact He.
Qed.

(** *** Tokens with offsets *)

Lemma indexOf_reads (s needle : string) (from : Z) :
  (0 <= Str.indexOf s needle from)%Z ->
  reads s (Str.indexOf s needle from) needle
  /\ (Str.indexOf s needle from + Z.of_nat (String.length needle)
      <= Z.of_nat (String.length s))%Z.
Proof.
  unfold Str.indexOf, reads.
  destruct (String.index _ needle s) as [i|] eqn:E; [|lia]. intros _.
  rewrite Nat2Z.id. pose proof (index_bound _ _ _ _ E) as [_ Hb].
  apply index_correct1 in E. repeat split; trivial; lia.
Qed.

Lemma tagTerms_shape (sentence : string) (terms : list NLPTerm) :
  forall cur,
    Forall (fun t => exists from,
              start t = Some (Str.indexOf sentence (text t) from)
              /\ end_ t = Some (Str.indexOf sentence (text t) from
                                + Z.of_nat (String.length (text t)))%Z)
      (tagTerms sentence terms cur).
Proof.
  induction terms as [|term terms IH]; intros cur; cbn [tagTerms];
    constructor; [|apply IH].
  exists cur. split; reflexivity.
Qed.

Lemma tagTerms_placed (sentence : string) (terms : list NLPTerm) :
  inOrder sentence (List.map term_text terms) ->
  Forall (placed sentence) (tagTerms sentence terms 0).
Proof.
  intros Hin.
  pose proof (tagTerms_ascending terms "" sentence 0 Hin ltac:(simpl; lia))
    as Ha.
  cbn [append] in Ha. apply ascending_starts in Ha.
  pose proof (tagTerms_shape sentence terms 0%Z) as Hs.
  rewrite Forall_forall in *. intros t Ht.
  destruct (Ha t Ht) as (a & b & Sa & Sb & Hab & Hhi).
  destruct (Hs t Ht) as (from & Sf & Ef).
  rewrite Sa in Sf. injection Sf as ->.
  exists (Str.indexOf sentence (text t) from).
  destruct (indexOf_reads sentence (text t) from ltac:(lia)) as [Hr Hl].
  repeat split; trivial; apply Hr.
Qed.

Lemma sorted_skipn {A : Type} (R : A -> A -> Prop) (l : list A) :
  forall i, StronglySorted R l -> StronglySorted R (skipn i l).
Proof.
  induction l as [|x l IH]; intros i H; destruct i; trivial.
  cbn [skipn]. apply IH. inversion H; trivial.
Qed.

Lemma sorted_firstn {A : Type} (R : A -> A -> Prop) (l : list A) :
  forall k, StronglySorted R l -> StronglySorted R (firstn k l).
Proof.
  induction l as [|x l IH]; intros k H; destruct k; cbn [firstn];
    try constructor.
  - apply IH. inversion H; trivial.
  - inversion H as [|? ? _ Hx]. rewrite Forall_forall in *.
    intros y Hy. apply Hx. eapply part_firstn; exact Hy.
Qed.

Lemma placed_offset s tokens t :
  placed s t ->
  reads s (getOptimizedOffset t tokens) (text t)
  /\ (getOptimizedOffset t tokens + Z.of_nat (String.length (text t))
      <= Z.of_nat (String.length s))%Z
  /\ start t = Some (getOptimizedOffset t tokens)
  /\ end_ t = Some (getOptimizedOffset t tokens
                    + Z.of_nat (String.length (text t)))%Z.
Proof.
  intros (a & Sa & Ea & Hr & Hl). unfold getOptimizedOffset. rewrite Sa.
  repeat split; trivial; apply Hr.
Qed.

(** X22.  When the NLP library returns terms whose texts occur in the
    sentence in their order, every entity [entityRecognizer] finds among
    the tokens of [posTagger] lies in the sentence: it starts where the
    sentence reads one of the tokens, ends where the sentence has read one
    of the tokens, and its start is not after its end. *)
Theorem entityRecognizer_spans_tagged_tokens :
  forall (nlp : string -> result (list NLPTerm))
         (entitiesOf :
            string -> result (list string * list string * list string))
         (dictionaryStore : option (result (list string)))
         (sentence : string) (terms : list NLPTerm),
    nlp sentence = Ok terms ->
    inOrder sentence (List.map term_text terms) ->
    Forall (fun e =>
              spansTokens sentence (posTagger nlp sentence) e
              /\ (e_start e <= e_end e)%Z)
      (entityRecognizer entitiesOf dictionaryStore (posTagger nlp sentence)).
Proof.
  intros nlp entitiesOf store sentence terms Hnlp Hin.
  assert (Ht : Forall (placed sentence) (posTagger nlp sentence)
               /\ StronglySorted precedes (posTagger nlp sentence)).
  { unfold posTagger. destruct (_ || _); [split; constructor|].
    rewrite Hnlp. split; [apply tagTerms_placed; exact Hin|].
    pose proof (tagTerms_ascending terms "" sentence 0 Hin ltac:(simpl; lia))
      as Ha.
    cbn [append] in Ha. eapply ascending_sorted; exact Ha. }
  destruct Ht as [Hp Hs]. set (tokens := posTagger nlp sentence) in *.
  rewrite Forall_forall in Hp.
  eapply Forall_impl; [|apply entityRecognizer_built].
  intros e [(i & k & first & others & Hslice & Es & Ee)
           |(tok & Htok & _ & Es & Ee)].
  - assert (Hf : In first tokens).
    { apply (slice_In tokens i k). rewrite Hslice. apply in_eq. }
    assert (Hl : In (List.last others first) tokens).
    { apply (slice_In tokens i k). rewrite Hslice.
      destruct (last_In others first) as [-> | H];
        [apply in_eq | apply in_cons; exact H]. }
    destruct (placed_offset sentence tokens first (Hp first Hf))
      as (Hr1 & Hb1 & Hs1 & He1).
    destruct (placed_offset sentence tokens _ (Hp _ Hl))
      as (Hr2 & Hb2 & Hs2 & He2).
    split.
    + exists first, (List.last others first). rewrite Es, Ee.
      repeat split; trivial; try apply Hr1;
        replace (_ + _ - _)%Z
          with (getOptimizedOffset (List.last others first) tokens) by lia;
        apply Hr2.
    + rewrite Es, Ee.
      destruct (last_In others first) as [E | H].
      * rewrite E. lia.
      * assert (Hsorted : StronglySorted precedes (first :: others)).
        { rewrite <- Hslice. unfold slice.
          apply sorted_firstn, sorted_skipn. exact Hs. }
        inversion Hsorted as [|? ? _ Hall]. rewrite Forall_forall in Hall.
        destruct (Hall _ H) as (endFirst & startLast & Eb & Ea & Hba).
        rewrite He1 in Eb. rewrite Hs2 in Ea.
        injection Eb as <-. injection Ea as <-.
        destruct Hr1 as [? _]. lia.
  - destruct (placed_offset sentence tokens tok (Hp tok Htok))
      as (Hr & Hb & _ & _).
    unfold customOffsets in Es, Ee.
    destruct Hr as [H0 Hsub].
    destruct (Z.leb_spec 0 (getOptimizedOffset tok tokens)); [|lia].
    cbn [fst snd] in Es, Ee. split.
    + exists tok, tok. rewrite Es, Ee.
      replace (_ + _ - _)%Z with (getOptimizedOffset tok tokens) by lia.
      repeat split; trivial.
    + rewrite Es, Ee. lia.
Qed.

Lemma entityRecognizer_spans_tagged_tokens_witness :
  Forall (fun e =>
            spansTokens "Alice met Bob"
              (posTagger blankTokenizer "Alice met Bob") e
            /\ (e_start e <= e_end e)%Z)
    (entityRecognizer (fun _ => Ok (["Alice"; "Bob"], [], []))
       (Some (Ok ["entity:person:bob"]))
       (posTagger blankTokenizer "Alice met Bob")).
Proof.
  apply (entityRecognizer_spans_tagged_tokens blankTokenizer
           (fun _ => Ok (["Alice"; "Bob"], [], []))
           (Some (Ok ["entity:person:bob"])) "Alice met Bob"
           [mkTerm "Alice" ["Noun"]; mkTerm "met" ["Noun"];
            mkTerm "Bob" ["Noun"]]).
  - reflexivity.
  - exact (inOrder_cons "" "Alice" " met Bob" ["met"; "Bob"]
             (inOrder_cons " " "met" " Bob" ["Bob"]
                (inOrder_cons " " "Bob" "" [] (inOrder_nil "")))).
Defined.

(** *** Tokens without offsets *)

Lemma append_empty_r (s : string) : (s ++ "")%string = s.
Proof. induction s as [|c s IH]; simpl; congruence. Qed.

Lemma join_holds (sep x : string) (l : list string) :
  In x l -> exists a b, Str.join sep l = (a ++ x ++ b)%string.
Proof.
  induction l as [|y l IH]; intros H; [destruct H|].
  destruct l as [|z l].
  - destruct H as [->|[]]. exists "", "". simpl.
    rewrite append_empty_r. reflexivity.
  - rewrite join_cons by discriminate. destruct H as [->|H].
    + exists "", (sep ++ Str.join sep (z :: l))%string. reflexivity.
    + destruct (IH H) as (a & b & E). rewrite E.
      exists (y ++ sep ++ a)%string, b. rewrite !append_assoc. reflexivity.
Qed.

Lemma fallback_reads tokens t :
  In t tokens -> start t = None ->
  reads (rebuiltText tokens) (getOptimizedOffset t tokens) (text t)
  /\ (getOptimizedOffset t tokens + Z.of_nat (String.length (text t))
      <= Z.of_nat (String.length (rebuiltText tokens)))%Z.
Proof.
  intros Hin Hs. unfold getOptimizedOffset, calculateFallbackOffset.
  rewrite Hs. fold (rebuiltText tokens). apply indexOf_reads.
  destruct (join_holds " " (text t) (List.map text tokens)) as (a & b & E).
  { apply in_map. exact Hin. }
  unfold rebuiltText, Str.indexOf. rewrite E.
  destruct (index_finds (Nat.min (Z.to_nat 0) (String.length (a ++ text t ++ b)))
              a (text t) b ltac:(simpl; lia)) as (m & Em & _).
  rewrite Em. lia.
Qed.

(** X23.  For tokens without offsets, as [posTagger] returns them when the
    NLP library throws, every entity [entityRecognizer] finds lies in the
    text rebuilt from the tokens with single blanks: the offset is never
    -1, the entity starts where the rebuilt text reads one of the tokens
    and ends where it has read one of the tokens. *)
Theorem entityRecognizer_spans_plain_tokens :
  forall (entitiesOf :
            string -> result (list string * list string * list string))
         (dictionaryStore : option (result (list string)))
         (tokens : list Token),
    Forall (fun t => start t = None) tokens ->
    Forall (spansTokens (rebuiltText tokens) tokens)
      (entityRecognizer entitiesOf dictionaryStore tokens).
Proof.
  intros entitiesOf store tokens Hnone. rewrite Forall_forall in Hnone.
  eapply Forall_impl; [|apply entityRecognizer_built].
  intros e [(i & k & first & others & Hslice & Es & Ee)
           |(tok & Htok & _ & Es & Ee)].
  - assert (Hf : In first tokens).
    { apply (slice_In tokens i k). rewrite Hslice. apply in_eq. }
    assert (Hl : In (List.last others first) tokens).
    { apply (slice_In tokens i k). rewrite Hslice.
      destruct (last_In others first) as [-> | H];
        [apply in_eq | apply in_cons; exact H]. }
    destruct (fallback_reads tokens first Hf (Hnone _ Hf)) as [Hr1 Hb1].
    destruct (fallback_reads tokens _ Hl (Hnone _ Hl)) as [Hr2 Hb2].
    exists first, (List.last others first). rewrite Es, Ee.
    repeat split; trivial; try apply Hr1;
      replace (_ + _ - _)%Z
        with (getOptimizedOffset (List.last others first) tokens) by lia;
      apply Hr2.
  - destruct (fallback_reads tokens tok Htok (Hnone _ Htok)) as [Hr Hb].
    unfold customOffsets in Es, Ee. destruct Hr as [H0 Hsub].
    destruct (Z.leb_spec 0 (getOptimizedOffset tok tokens)); [|lia].
    cbn [fst snd] in Es, Ee.
    exists tok, tok. rewrite Es, Ee.
    replace (_ + _ - _)%Z with (getOptimizedOffset tok tokens) by lia.
    repeat split; trivial.
Qed.

Lemma entityRecognizer_spans_plain_tokens_witness :
  Forall (spansTokens (rebuiltText (fallbackTokens "Alice  met Bob"))
            (fallbackTokens "Alice  met Bob"))
    (entityRecognizer (fun _ => Ok (["Alice"], [], ["met bob"]))
       (Some (Ok ["entity:person:bob"]))
       (fallbackTokens "Alice  met Bob")).
Proof.
  apply (entityRecognizer_spans_plain_tokens
           (fun _ => Ok (["Alice"], [], ["met bob"]))
           (Some (Ok ["entity:person:bob"]))
           (fallbackTokens "Alice  met Bob")).
  repeat constructor.
Defined.

(** Without offsets the end is that of the first occurrence of the last
    word, which may lie before the start. *)
Example plain_tokens_entity_ends_before_it_starts :
  entityRecognizer (fun _ => Ok ([], [], ["b a"])) None (fallbackTokens "a b a")
  = [mkEntity "b a" "Organization" 2 1].
Proof. reflexivity. Qed.

End EntityProofs.
(** ** Inline enhancements *)

Section InlineProofs.

Import Regex GrammarEngine InlineEnhancements.

Lemma style_patterns_consume :
  Forall (fun sp => consumes (source (sp_pattern sp)) = true
                    /\ global (sp_pattern sp) = true) STYLE_PATTERNS.
Proof. unfold STYLE_PATTERNS. repeat constructor. Qed.

Lemma firstIncluded_length lowerText cases otherwise lo hi :
  Forall (fun c => lo <= List.length (snd c) <= hi) cases ->
  lo <= List.length otherwise <= hi ->
  lo <= List.length (firstIncluded lowerText cases otherwise) <= hi.
Proof.
  induction 1 as [|[phrase alternatives] more Hc _ IH]; intros Ho;
    cbn [firstIncluded]; [exact Ho|].
  destruct (Str.includes lowerText phrase); [exact Hc | apply IH; exact Ho].
Qed.

Lemma generateStyleSuggestions_length text_ styleType :
  1 <= List.length (generateStyleSuggestions text_ styleType) <= 3.
Proof.
  unfold generateStyleSuggestions.
  destruct (String.eqb styleType "passive_voice"); [simpl; lia|].
  destruct (String.eqb styleType "intensity_adverbs").
  { apply firstIncluded_length; [|simpl; lia].
    repeat constructor; simpl; lia. }
  destruct (String.eqb styleType "wordiness").
  { apply firstIncluded_length; [|simpl; lia].
    repeat constructor; simpl; lia. }
  destruct (String.eqb styleType "redundancy"); [|simpl; lia].
  apply firstIncluded_length; [|simpl; lia].
  repeat constructor; simpl; lia.
Qed.

Lemma styleLoop_parts text_ sp :
  consumes (source (sp_pattern sp)) = true -> global (sp_pattern sp) = true ->
  exists style,
    styleLoop text_ sp = Some style /\ Forall (aboutPart text_) style.
Proof.
  intros Hc Hg. unfold styleLoop.
  rewrite (execLoop_total _ _ Hg Hc).
  eexists. split; [reflexivity|].
  apply Forall_forall. intros s Hs. apply in_map_iff in Hs.
  destruct Hs as (mt & <- & Hmt).
  pose proof (matchesFrom_nonempty (ignoreCase (sp_pattern sp))
                (source (sp_pattern sp)) text_ Hc text_ None 0 0) as Hne.
  rewrite Forall_forall in Hne. specialize (Hne mt Hmt).
  apply matchAll_spans in Hmt. destruct Hmt as (a & b & Ht & Hi & He).
  unfold aboutPart, styleSuggestion.
  cbn [is_text is_start is_end is_suggestions].
  split; [intros E; rewrite E in He; simpl in He; lia|].
  split; [lia|]. split; [lia|].
  split; [|apply generateStyleSuggestions_length].
  rewrite Nat2Z.id, Hi, Ht. apply substring_at.
Qed.

Lemma style_parts text_ :
  forall patterns,
    Forall (fun sp => consumes (source (sp_pattern sp)) = true
                      /\ global (sp_pattern sp) = true) patterns ->
    exists style,
      StyleService.concatAll (styleLoop text_) patterns = Some style
      /\ Forall (aboutPart text_) style.
Proof.
  induction 1 as [|sp patterns [Hc Hg] _ (rest_ & Er & Hr)];
    cbn [StyleService.concatAll].
  - exists []. split; [reflexivity | constructor].
  - destruct (styleLoop_parts text_ sp Hc Hg) as (style & Es & Hs).
    rewrite Es, Er. exists (style ++ rest_). split; [reflexivity|].
    apply Forall_app. split; trivial.
Qed.

(** The keys of [Object.prototype] whose function takes two parameters
    have capitals: no lower-case word reads them. *)
Lemma inheritedLength_lower (w : string) :
  match inheritedLength (Str.toLowerCase w) with
  | Some n => n < 2
  | None => True
  end.
Proof.
  pose proof (toLowerCase_idem w) as Hidem.
  unfold inheritedLength. cbn [lookup].
  repeat match goal with
  | |- context [String.eqb ?k (Str.toLowerCase w)] =>
      destruct (String.eqb_spec k (Str.toLowerCase w)) as [E|_];
        [try lia; rewrite <- E in Hidem; vm_compute in Hidem; discriminate|]
  end.
  exact I.
Qed.

Lemma firstn_bounds {A : Type} (l : list A) :
  2 <= List.length l -> 2 <= List.length (firstn 3 l) <= 3.
Proof. intros H. rewrite length_firstn. lia. Qed.

Lemma vocabularyOf_words (token : EnhancedToken) :
  exists vocabularySuggestions,
    vocabularyOf token = Ok vocabularySuggestions
    /\ List.length vocabularySuggestions <= 3
    /\ (2 <= List.length (et_synonyms token) ->
        vocabularySuggestions = firstn 3 (et_synonyms token)).
Proof.
  unfold vocabularyOf.
  destruct (Nat.leb_spec 2 (List.length (et_synonyms token))) as [H|H].
  { eexists. split; [reflexivity|]. split; [|reflexivity].
    rewrite length_firstn. lia. }
  destruct (getFallbackSynonyms _) as [fb| |] eqn:G.
  - destruct (Nat.leb_spec 2 (List.length fb)).
    + eexists. split; [reflexivity|]. split; [|lia].
      rewrite length_firstn. lia.
    + exists []. split; [reflexivity|]. split; [simpl; lia | lia].
  - pose proof (inheritedLength_lower (et_text token)) as Hl.
    destruct (inheritedLength _) as [n|].
    + destruct (Nat.leb_spec 2 n); [lia|].
      exists []. split; [reflexivity|]. split; [simpl; lia | lia].
    + exists []. split; [reflexivity|]. split; [simpl; lia | lia].
  - pose proof (inheritedLength_lower (et_text token)) as Hl.
    destruct (inheritedLength _) as [n|].
    + destruct (Nat.leb_spec 2 n); [lia|].
      exists []. split; [reflexivity|]. split; [simpl; lia | lia].
    + exists []. split; [reflexivity|]. split; [simpl; lia | lia].
Qed.

(** What the callback pushes for a token: nothing, or one suggestion about
    it; one for certain when the token has two synonyms and a part of
    speech that is looked at. *)
Lemma tokenSuggestions_about text_ token index_ :
  exists pushed,
    tokenSuggestions text_ token index_ = Ok pushed
    /\ Forall (aboutToken [token]) pushed
    /\ (Str.mem (et_pos token) ["Noun"; "Verb"; "Adjective"; "Adverb"] = true ->
        2 <= List.length (et_synonyms token) ->
        exists s, pushed = [s] /\ is_text s = et_text token
                  /\ is_suggestions s = firstn 3 (et_synonyms token)).
Proof.
  unfold tokenSuggestions.
  destruct (Str.mem (et_pos token) _) eqn:M.
  2:{ exists []. split; [reflexivity|]. split; [constructor | discriminate]. }
  destruct (vocabularyOf_words token) as (v & Ev & Hv3 & Hsyn). rewrite Ev.
  destruct (Nat.leb_spec 2 (List.length v)) as [H2|H2].
  - eexists. split; [reflexivity|]. split.
    + constructor; [|constructor]. unfold aboutToken.
      cbn [is_text is_start is_end is_suggestions]. split.
      * exists token. split; [apply in_eq|]. split; [reflexivity | exact M].
      * split; [|lia].
        destruct (Z.leb_spec 0 (startIndexOf text_ token)); lia.
    + intros _ Hs. eexists. split; [reflexivity|].
      cbn [is_text is_suggestions]. split; [reflexivity | apply Hsyn, Hs].
  - exists []. split; [reflexivity|]. split; [constructor|].
    intros _ Hs. specialize (Hsyn Hs). subst v.
    rewrite length_firstn in H2. lia.
Qed.

Lemma aboutToken_more tokens tokens' s :
  (forall t, In t tokens -> In t tokens') ->
  aboutToken tokens s -> aboutToken tokens' s.
Proof.
  intros Hsub ((t & Ht & H) & Hrest). split; [|exact Hrest].
  exists t. split; [apply Hsub, Ht | exact H].
Qed.

Lemma vocabularyLoop_about text_ :
  forall tokens index_,
    exists vocabulary,
      vocabularyLoop text_ tokens index_ = Ok vocabulary
      /\ Forall (aboutToken tokens) vocabulary
      /\ forall token,
           In token tokens ->
           Str.mem (et_pos token) ["Noun"; "Verb"; "Adjective"; "Adverb"]
           = true ->
           2 <= List.length (et_synonyms token) ->
           exists s, In s vocabulary /\ is_text s = et_text token
                     /\ is_suggestions s = firstn 3 (et_synonyms token).
Proof.
  induction tokens as [|token more IH]; intros index_; cbn [vocabularyLoop].
  - exists []. split; [reflexivity|]. split; [constructor|].
    intros token [].
  - destruct (tokenSuggestions_about text_ token index_)
      as (pushed & Ep & Hp & Hfull).
    destruct (IH (S index_)) as (rest_ & Er & Hr & Hall).
    rewrite Ep, Er. exists (pushed ++ rest_). split; [reflexivity|]. split.
    + apply Forall_app. split.
      * eapply Forall_impl; [|exact Hp]. intros s.
        apply aboutToken_more. intros t [<-|[]]. apply in_eq.
      * eapply Forall_impl; [|exact Hr]. intros s.
        apply aboutToken_more. intros t Ht. apply in_cons, Ht.
    + intros t [<-|Ht] Hm Hs.
      * destruct (Hfull Hm Hs) as (s & -> & H1 & H2).
        exists s. split; [apply in_eq | split; trivial].
      * destruct (Hall t Ht Hm Hs) as (s & Hin & H1 & H2).
        exists s. split; [apply in_or_app; right; exact Hin | split; trivial].
Qed.

(** X24.  [processInlineEnhancements] returns for every text: the loops
    over the matches of the six style patterns end.  What it returns is a
    list of vocabulary suggestions followed by a list of style
    suggestions.  A vocabulary suggestion offers two or three words for
    one of the tokens with a part of speech that is looked at, at a start
    that is not negative; a style suggestion offers one to three
    alternatives for a part of the text that is not empty and stands in
    the text from its start to its end.  Nothing thrown empties the
    result while the tokens are there: every token with such a part of
    speech and two synonyms at least is offered its first three
    synonyms. *)
Theorem processInlineEnhancements_suggestions :
  forall (enhancedProcessText : string -> result (list EnhancedToken))
         (text_ : string),
    exists vocabulary style,
      processInlineEnhancements enhancedProcessText text_
      = Some (vocabulary ++ style)
      /\ Forall (aboutToken (tokensOf (enhancedProcessText text_))) vocabulary
      /\ Forall (aboutPart text_) style
      /\ (forall tokens, enhancedProcessText text_ = Ok tokens ->
          style
          = List.flat_map
              (fun stylePattern =>
                 List.map (styleSuggestion stylePattern)
                   (matchAll (sp_pattern stylePattern) text_))
              STYLE_PATTERNS)
      /\ (forall token,
            In token (tokensOf (enhancedProcessText text_)) ->
            Str.mem (et_pos token) ["Noun"; "Verb"; "Adjective"; "Adverb"]
            = true ->
            2 <= List.length (et_synonyms token) ->
            exists s, In s vocabulary /\ is_text s = et_text token
                      /\ is_suggestions s = firstn 3 (et_synonyms token)).
Proof.
  intros enhancedProcessText text_. unfold processInlineEnhancements.
  destruct (enhancedProcessText text_) as [tokens|msg]; cbn [tokensOf].
  2:{ exists [], []. split; [reflexivity|]. split; [constructor|].
      split; [constructor|]. split; [discriminate | intros token []]. }
  destruct (vocabularyLoop_about text_ tokens 0) as (vocabulary & Ev & Hv & Hall).
  destruct (style_parts text_ STYLE_PATTERNS style_patterns_consume)
    as (style & Es & Hs).
  rewrite Ev, Es. exists vocabulary, style.
  split; [reflexivity|]. split; [exact Hv|]. split; [exact Hs|].
  split; [|exact Hall].
  intros _ _.
  assert (Et : StyleService.concatAll (styleLoop text_) STYLE_PATTERNS
               = Some (List.flat_map
                         (fun stylePattern =>
                            List.map (styleSuggestion stylePattern)
                              (matchAll (sp_pattern stylePattern) text_))
                         STYLE_PATTERNS)).
  { apply concatAll_total. unfold STYLE_PATTERNS.
    repeat constructor; unfold styleLoop; rewrite execLoop_total;
      reflexivity. }
  congruence.
Qed.

End InlineProofs.
(** ** Dependencies *)

Section DependencyProofs.

Import GrammarEngine Dependencies.

Lemma one_or_none {A : Type} (b : bool) (x d : A) :
  In d (if b then [x] else []) <-> b = true /\ d = x.
Proof.
  destruct b; simpl; split.
  - intros [<-|[]]. auto.
  - intros [_ ->]. auto.
  - intros [].
  - intros [H _]. discriminate.
Qed.

(** What is pushed for the term at [i]: the relations with the term after
    it that start from it, and those with the term before it that end at
    it. *)
Lemma termRelations_spec terms term i d :
  nth_error terms i = Some term ->
  In d (termRelations terms term i)
  <-> (exists b, nth_error terms (S i) = Some b
                 /\ ((d = mkDependency (term_text b) (term_text term) "nsubj"
                      /\ tagged "Noun" term = true /\ tagged "Verb" b = true)
                     \/ (d = mkDependency (term_text term) (term_text b) "dobj"
                         /\ tagged "Verb" term = true
                         /\ tagged "Noun" b = true)))
      \/ (exists a j, i = S j /\ nth_error terms j = Some a
                 /\ ((d = mkDependency (term_text a) (term_text term) "prep"
                      /\ tagged "Verb" a = true
                      /\ tagged "Preposition" term = true)
                     \/ (d = mkDependency (term_text a) (term_text term) "punct"
                         /\ tagged "Punctuation" term = true))).
Proof.
  intros Hi.
  assert (Hlen : i < List.length terms).
  { apply nth_error_Some. congruence. }
  unfold termRelations. rewrite !in_app_iff.
  replace (i + 1) with (S i) by lia.
  assert (Hnext : Nat.ltb i (List.length terms - 1) = true
                  <-> exists b, nth_error terms (S i) = Some b).
  { rewrite Nat.ltb_lt. split.
    - intros H. destruct (nth_error terms (S i)) as [b|] eqn:E; [eauto|].
      apply nth_error_None in E. lia.
    - intros [b E]. assert (S i < List.length terms)
        by (apply nth_error_Some; congruence). lia. }
  split.
  - intros [H|[H|[H|H]]].
    + destruct (tagged "Noun" term) eqn:T; [|destruct H].
      destruct (Nat.ltb i _); [|destruct H]. cbn [andb] in H.
      destruct (nth_error terms (S i)) as [b|]; [|destruct H].
      apply one_or_none in H. destruct H as [Hv ->].
      left. exists b. split; [reflexivity|]. left. auto.
    + destruct (tagged "Verb" term) eqn:T; [|destruct H].
      destruct (Nat.ltb i _); [|destruct H]. cbn [andb] in H.
      destruct (nth_error terms (S i)) as [b|]; [|destruct H].
      apply one_or_none in H. destruct H as [Hv ->].
      left. exists b. split; [reflexivity|]. right. auto.
    + destruct (tagged "Preposition" term) eqn:T; [|destruct H].
      destruct i as [|j]; [destruct H|]. cbn [andb Nat.ltb Nat.leb] in H.
      replace (S j - 1) with j in H by lia.
      destruct (nth_error terms j) as [a|] eqn:E; [|destruct H].
      apply one_or_none in H. destruct H as [Hv ->].
      right. exists a, j. split; [reflexivity|]. split; [exact E|].
      left. auto.
    + destruct (tagged "Punctuation" term) eqn:T; [|destruct H].
      destruct i as [|j]; [destruct H|]. cbn [andb Nat.ltb Nat.leb] in H.
      replace (S j - 1) with j in H by lia.
      destruct (nth_error terms j) as [a|] eqn:E; [|destruct H].
      destruct H as [<-|[]].
      right. exists a, j. split; [reflexivity|]. split; [exact E|].
      right. auto.
  - intros [(b & Eb & [(-> & Hn & Hv)|(-> & Hv & Hn)])
           |(a & j & -> & Ea & [(-> & Hv & Hp)|(-> & Hp)])].
    + left. rewrite Hn. destruct Hnext as [_ Hnext].
      rewrite (Hnext (ex_intro _ b Eb)), Eb, Hv. apply in_eq.
    + right. left. rewrite Hv. destruct Hnext as [_ Hnext].
      rewrite (Hnext (ex_intro _ b Eb)), Eb, Hn. apply in_eq.
    + right. right. left. rewrite Hp. cbn [andb Nat.ltb Nat.leb].
      replace (S j - 1) with j by lia. rewrite Ea, Hv. apply in_eq.
    + right. right. right. rewrite Hp. cbn [andb Nat.ltb Nat.leb].
      replace (S j - 1) with j by lia. rewrite Ea. apply in_eq.
Qed.

Lemma termsLoop_spec terms d :
  forall todo index,
    In d (termsLoop terms todo index)
    <-> exists j term,
          nth_error todo j = Some term
          /\ In d (termRelations terms term (index + j)).
Proof.
  induction todo as [|t more IH]; intros index; cbn [termsLoop].
  - split; [intros [] | intros ([|j] & term & H & _); discriminate].
  - rewrite in_app_iff, IH. split.
    + intros [H|(j & term & Hj & H)].
      * exists 0, t. rewrite Nat.add_0_r. split; [reflexivity | exact H].
      * exists (S j), term. split; [exact Hj|].
        replace (index + S j) with (S index + j) by lia. exact H.
    + intros ([|j] & term & Hj & H).
      * injection Hj as <-. rewrite Nat.add_0_r in H. left. exact H.
      * right. exists j, term. split; [exact Hj|].
        replace (S index + j) with (index + S j) by lia. exact H.
Qed.

Lemma sentence_relations terms d :
  In d (termsLoop terms terms 0)
  <-> exists a b, adjacent terms a b /\ relates a b d.
Proof.
  rewrite termsLoop_spec. split.
  - intros (i & term & Hi & H). cbn [Nat.add] in H.
    apply (termRelations_spec terms term i d Hi) in H.
    destruct H as [(b & Eb & H)|(a & j & -> & Ea & H)].
    + exists term, b. split; [exists i; auto|].
      destruct H as [H|H]; [left; exact H | right; left; exact H].
    + exists a, term. split; [exists j; auto|].
      destruct H as [H|H]; [right; right; left; exact H
                           | right; right; right; exact H].
  - intros (a & b & (i & Ea & Eb) & [H|[H|[H|H]]]).
    + exists i, a. split; [exact Ea|]. cbn [Nat.add].
      apply (termRelations_spec terms a i d Ea). left. exists b. auto.
    + exists i, a. split; [exact Ea|]. cbn [Nat.add].
      apply (termRelations_spec terms a i d Ea). left. exists b. auto.
    + exists (S i), b. split; [exact Eb|]. cbn [Nat.add].
      apply (termRelations_spec terms b (S i) d Eb). right. exists a, i. auto.
    + exists (S i), b. split; [exact Eb|]. cbn [Nat.add].
      apply (termRelations_spec terms b (S i) d Eb). right. exists a, i. auto.
Qed.

(** X25.  When the text is not blank and the NLP library returns the
    sentences, the dependencies [parseDependencies] returns are the
    relations between a term and the term right after it in the same
    sentence: [nsubj] from a verb to the noun before it, [dobj] from a
    verb to the noun after it, [prep] from a verb to the preposition after
    it, [punct] from any term to the punctuation after it; nothing else is
    returned and none of these is left out. *)
Theorem parseDependencies_relates_adjacent_terms :
  forall (sentencesOf : string -> result (list (list NLPTerm)))
         (sentence : string) (sentences : list (list NLPTerm))
         (d : Dependency),
    Str.trim sentence <> "" ->
    sentencesOf sentence = Ok sentences ->
    (In d (parseDependencies sentencesOf sentence)
     <-> exists terms a b,
           In terms sentences /\ adjacent terms a b /\ relates a b d).
Proof.
  intros sentencesOf sentence sentences d Hne Hs. unfold parseDependencies.
  assert (B : String.eqb sentence ""
              || Nat.eqb (String.length (Str.trim sentence)) 0 = false).
  { apply orb_false_iff. split.
    - apply String.eqb_neq. intros ->. apply Hne. reflexivity.
    - apply Nat.eqb_neq. intros H. apply Hne, length_zero, H. }
  rewrite B, Hs, in_flat_map. split.
  - intros (terms & Ht & H). apply sentence_relations in H.
    destruct H as (a & b & Hab & Hr). exists terms, a, b. auto.
  - intros (terms & a & b & Ht & Hab & Hr). exists terms. split; [exact Ht|].
    apply sentence_relations. exists a, b. auto.
Qed.

Lemma parseDependencies_relates_adjacent_terms_witness :
  In (mkDependency "runs" "dog" "nsubj")
    (parseDependencies runsTagger "The dog runs home")
  <-> exists terms a b,
        In terms [[mkTerm "The" ["Noun"]; mkTerm "dog" ["Noun"];
                   mkTerm "runs" ["Verb"]; mkTerm "home" ["Noun"]]]
        /\ adjacent terms a b
        /\ relates a b (mkDependency "runs" "dog" "nsubj").
Proof.
  apply (parseDependencies_relates_adjacent_terms runsTagger
           "The dog runs home").
  - discriminate.
  - reflexivity.
Defined.

End DependencyProofs.
(** ** The caching service *)

Section CacheProofs.

Import CachingService.

(** [set] in one piece: the eviction when there is no room for a new
    key, then the insertion. *)
Lemma set_awaited s k suggestions_ ttlSeconds_ now evictNow :
  set s k suggestions_ ttlSeconds_ now evictNow
  = if blankKey k then (Throw emptyKey, s)
    else
      match suggestions_ with
      | [] => (Ok tt, s)
      | _ =>
          (Ok tt,
           updateStats
             (mkService
                (mapSet k
                   (mkEntry k suggestions_ now now
                      (now + ttlOf s ttlSeconds_ * 1000)%Z
                      (ttlOf s ttlSeconds_))
                   (if (maxCacheSize s <=? Z.of_nat (List.length (cache s)))%Z
                       && negb (mapHas k (cache s))
                    then evictLeastRecentlyUsed (cache s) evictNow
                    else cache s))
                (stats s) (defaultTtlSeconds s) (maxCacheSize s)))
      end.
Proof.
  unfold set, setStart, setResume, store.
  destruct (blankKey k); [reflexivity|].
  destruct suggestions_ as [|x l]; [reflexivity|].
  destruct (_ && _); reflexivity.
Qed.

Lemma mapGet_set k e c : mapGet k (mapSet k e c) = Some e.
Proof.
  induction c as [|[k' e'] c IH]; cbn [mapSet mapGet].
  - rewrite String.eqb_refl. reflexivity.
  - destruct (String.eqb k' k) eqn:E; cbn [mapGet]; rewrite E; trivial.
Qed.

Lemma mapGet_delete k c : mapGet k (mapDelete k c) = None.
Proof.
  unfold mapDelete. induction c as [|[k' e'] c IH]; cbn [filter mapGet fst];
    [reflexivity|].
  destruct (String.eqb k' k) eqn:E; cbn [negb mapGet]; [exact IH|].
  rewrite E. exact IH.
Qed.

Lemma get_missing s k now accessedAt :
  mapGet k (cache s) = None -> fst (get s k now accessedAt) = None.
Proof.
  intros H. unfold get. destruct (blankKey k); [reflexivity|].
  rewrite H. reflexivity.
Qed.

Lemma get_stored s k entry now accessedAt :
  blankKey k = false -> mapGet k (cache s) = Some entry ->
  ((now <= expiresAt entry)%Z ->
   fst (get s k now accessedAt) = Some (suggestions entry))
  /\ ((expiresAt entry < now)%Z ->
      fst (get s k now accessedAt) = None
      /\ mapGet k (cache (snd (get s k now accessedAt))) = None).
Proof.
  intros Hk G. unfold get. rewrite Hk, G.
  destruct (Z.ltb_spec (expiresAt entry) now); cbn [fst snd cache]; split;
    try lia; intros _; [|reflexivity].
  split; [reflexivity | apply mapGet_delete].
Qed.

Lemma set_stores s k suggestions_ ttlSeconds_ now evictNow :
  blankKey k = false -> suggestions_ <> [] ->
  fst (set s k suggestions_ ttlSeconds_ now evictNow) = Ok tt
  /\ exists entry,
       mapGet k (cache (snd (set s k suggestions_ ttlSeconds_ now evictNow)))
       = Some entry
       /\ suggestions entry = suggestions_
       /\ expiresAt entry = (now + ttlOf s ttlSeconds_ * 1000)%Z.
Proof.
  intros Hk Hs. rewrite set_awaited. rewrite Hk.
  destruct suggestions_ as [|x l]; [contradiction|].
  cbn [fst snd updateStats cache]. split; [reflexivity|].
  eexists. split; [apply mapGet_set|]. split; reflexivity.
Qed.

(** X26.  Suggestions stored under a key are what [get] returns for it
    until the time to live is over: a [set] with a key that is not blank
    and suggestions that are not empty succeeds, and a [get] of the key
    that follows returns these suggestions when the clock reads no more
    than the time of the [set] plus the time to live in milliseconds;
    when the clock reads more it returns null and removes the entry, so
    that a later [get] returns null whatever the clock reads. *)
Theorem set_then_get_within_ttl :
  forall (s : Service) (k : string) (suggestions_ : list string)
         (ttlSeconds_ : option Z) (now evictNow : Z),
    blankKey k = false ->
    suggestions_ <> [] ->
    fst (set s k suggestions_ ttlSeconds_ now evictNow) = Ok tt
    /\ forall t accessedAt : Z,
         ((t <= now + ttlOf s ttlSeconds_ * 1000)%Z ->
          fst (get (snd (set s k suggestions_ ttlSeconds_ now evictNow))
                 k t accessedAt)
          = Some suggestions_)
         /\ ((now + ttlOf s ttlSeconds_ * 1000 < t)%Z ->
             fst (get (snd (set s k suggestions_ ttlSeconds_ now evictNow))
                    k t accessedAt) = None
             /\ forall t' accessedAt' : Z,
                  fst (get
                         (snd (get (snd (set s k suggestions_ ttlSeconds_
                                           now evictNow))
                                 k t accessedAt))
                         k t' accessedAt') = None).
Proof.
  intros s k suggestions_ ttlSeconds_ now evictNow Hk Hs.
  destruct (set_stores s k suggestions_ ttlSeconds_ now evictNow Hk Hs)
    as (E & entry & G & Hsg & Hexp).
  split; [exact E|]. intros t accessedAt.
  destruct (get_stored _ k entry t accessedAt Hk G) as [Hin Hout].
  rewrite Hexp, Hsg in *. split; [exact Hin|].
  intros Ht. destruct (Hout Ht) as [Hnone Hgone].
  split; [exact Hnone|]. intros t' accessedAt'.
  apply get_missing. exact Hgone.
Qed.

Lemma set_then_get_within_ttl_witness :
  fst (set (create None None) "text:gpt:1f" ["hello"; "world"] (Some 2%Z)
         1000 1000) = Ok tt
  /\ forall t accessedAt : Z,
       ((t <= 1000 + ttlOf (create None None) (Some 2%Z) * 1000)%Z ->
        fst (get (snd (set (create None None) "text:gpt:1f" ["hello"; "world"]
                         (Some 2%Z) 1000 1000))
               "text:gpt:1f" t accessedAt)
        = Some ["hello"; "world"])
       /\ ((1000 + ttlOf (create None None) (Some 2%Z) * 1000 < t)%Z ->
           fst (get (snd (set (create None None) "text:gpt:1f"
                            ["hello"; "world"] (Some 2%Z) 1000 1000))
                  "text:gpt:1f" t accessedAt) = None
           /\ forall t' accessedAt' : Z,
                fst (get
                       (snd (get (snd (set (create None None) "text:gpt:1f"
                                         ["hello"; "world"] (Some 2%Z)
                                         1000 1000))
                               "text:gpt:1f" t accessedAt))
                       "text:gpt:1f" t' accessedAt') = None).
Proof.
  apply (set_then_get_within_ttl (create None None) "text:gpt:1f"
           ["hello"; "world"] (Some 2%Z) 1000 1000).
  - reflexivity.
  - discriminate.
Defined.

(** *** Eviction *)

Lemma length_mapDelete_has k c :
  In k (List.map fst c) -> List.length (mapDelete k c) < List.length c.
Proof.
  unfold mapDelete. induction c as [|[k' e] c IH]; cbn [List.map In fst];
    [intros []|].
  intros [->|H]; cbn [filter fst].
  - rewrite String.eqb_refl. cbn [negb List.length].
    pose proof (filter_length_le (fun kv => negb (String.eqb (fst kv) k)) c).
    lia.
  - destruct (negb (String.eqb k' k)); cbn [List.length]; [apply IH in H; lia|].
    pose proof (filter_length_le (fun kv => negb (String.eqb (fst kv) k)) c).
    lia.
Qed.

Lemma length_mapSet k e c :
  List.length (mapSet k e c)
  = if mapHas k c then List.length c else S (List.length c).
Proof.
  unfold mapHas. induction c as [|[k' e'] c IH]; cbn [mapSet mapGet];
    [reflexivity|].
  destruct (String.eqb k' k); [reflexivity|]. cbn [List.length]. rewrite IH.
  destruct (mapGet k c); reflexivity.
Qed.

Lemma keys_mapSet k e c :
  List.map fst (mapSet k e c)
  = if mapHas k c then List.map fst c else List.map fst c ++ [k].
Proof.
  unfold mapHas. induction c as [|[k' e'] c IH]; cbn [mapSet mapGet List.map];
    [reflexivity|].
  destruct (String.eqb k' k); [reflexivity|]. cbn [List.map fst]. rewrite IH.
  destruct (mapGet k c); reflexivity.
Qed.

Lemma mapHas_In k c : mapHas k c = true <-> In k (List.map fst c).
Proof.
  unfold mapHas. induction c as [|[k' e'] c IH]; cbn [mapGet List.map In fst].
  - split; [discriminate | intros []].
  - destruct (String.eqb_spec k' k) as [->|Hne].
    + split; auto.
    + rewrite IH. split; [auto | intros [H|H]; [contradiction | exact H]].
Qed.

Lemma keys_mapDelete k c :
  List.map fst (mapDelete k c)
  = List.filter (fun x => negb (String.eqb x k)) (List.map fst c).
Proof.
  unfold mapDelete. induction c as [|[k' e'] c IH]; cbn [filter List.map fst];
    [reflexivity|].
  destruct (negb (String.eqb k' k)); cbn [List.map fst]; rewrite IH; trivial.
Qed.

Lemma keysOfMap_delete k c : keysOfMap c -> keysOfMap (mapDelete k c).
Proof.
  intros [Hn Hk]. split.
  - rewrite keys_mapDelete. apply NoDup_filter. exact Hn.
  - unfold mapDelete. rewrite Forall_forall in *. intros kv H.
    apply filter_In in H. apply Hk, H.
Qed.

Lemma keysOfMap_filter (f : string * CacheEntry -> bool) c :
  keysOfMap c -> keysOfMap (List.filter f c).
Proof.
  intros [Hn Hk]. split.
  - clear Hk. induction c as [|kv c IH]; cbn [filter]; [constructor|].
    cbn [List.map] in Hn. inversion Hn as [|? ? Hnot Hrest].
    destruct (f kv); [|apply IH, Hrest]. cbn [List.map]. constructor.
    + intros Hin. apply Hnot. apply in_map_iff in Hin.
      destruct Hin as (y & <- & Hy). apply filter_In in Hy.
      apply in_map, Hy.
    + apply IH, Hrest.
  - rewrite Forall_forall in *. intros kv H. apply filter_In in H.
    apply Hk, H.
Qed.

Lemma keysOfMap_set k e c : k <> "" -> keysOfMap c -> keysOfMap (mapSet k e c).
Proof.
  intros Hne [Hn Hk]. split.
  - rewrite keys_mapSet. destruct (mapHas k c) eqn:H; [exact Hn|].
    apply NoDup_app; [exact Hn | repeat constructor; intros [] |].
    intros x Hx [<-|[]]. apply mapHas_In in Hx. congruence.
  - clear Hn. induction c as [|[k' e'] c IH]; cbn [mapSet].
    + repeat constructor. exact Hne.
    + inversion Hk as [|? ? H1 H2].
      destruct (String.eqb k' k); constructor; trivial. apply IH, H2.
Qed.

Lemma blankKey_named k : blankKey k = false -> k <> "".
Proof.
  unfold blankKey. intros H ->. discriminate.
Qed.

(** What the loop of the eviction finds, started with a key already found
    or none: the time it ends with is no later than that of any entry, nor
    than the one it started with, and when it is earlier it is that of the
    entry whose key is found. *)
Lemma older_fold c :
  forall found,
    (snd (List.fold_left older c found) <= snd found)%Z
    /\ Forall (fun kv => (snd (List.fold_left older c found)
                          <= lastAccessedAt (snd kv))%Z) c
    /\ (List.fold_left older c found = found
        \/ exists e, In e c
                     /\ fst (List.fold_left older c found) = Some (fst e)
                     /\ snd (List.fold_left older c found)
                        = lastAccessedAt (snd e)
                     /\ (snd (List.fold_left older c found) < snd found)%Z).
Proof.
  induction c as [|kv c IH]; intros found; cbn [fold_left].
  - split; [lia|]. split; [constructor | left; reflexivity].
  - specialize (IH (older found kv)).
    destruct IH as (Hle & Hall & Hwho).
    assert (Ho : (snd (older found kv) <= snd found)%Z
                 /\ (snd (older found kv) <= lastAccessedAt (snd kv))%Z).
    { unfold older. destruct (Z.ltb_spec (lastAccessedAt (snd kv)) (snd found));
        cbn [snd]; lia. }
    split; [lia|]. split; [constructor; [lia | exact Hall]|].
    destruct Hwho as [E|(e & He & Hk & Ht & Hlt)].
    + rewrite E. unfold older.
      destruct (Z.ltb_spec (lastAccessedAt (snd kv)) (snd found)).
      * right. exists kv. cbn [fst snd].
        split; [apply in_eq|]. repeat split; trivial.
      * left. reflexivity.
    + right. exists e. split; [apply in_cons, He|].
      repeat split; trivial. lia.
Qed.

Lemma evict_shrinks c now :
  c <> [] -> keysOfMap c -> accessedBefore now c ->
  List.length (evictLeastRecentlyUsed c now) < List.length c.
Proof.
  intros Hne [_ Hk] Ha. unfold evictLeastRecentlyUsed.
  destruct c as [|kv c']; [contradiction|]. set (c := kv :: c') in *.
  destruct (older_fold c (None, now)) as (Hle & Hall & Hwho).
  cbn [snd] in *. destruct Hwho as [E|(e & He & Hf & Ht & Hlt)].
  - exfalso. rewrite E in Hall. cbn [snd] in Hall.
    inversion Hall as [|? ? H1 _]. inversion Ha as [|? ? H2 _]. lia.
  - rewrite Hf. rewrite Forall_forall in Hk.
    destruct (String.eqb_spec (fst e) ""); [exfalso; eapply Hk; eauto|].
    apply length_mapDelete_has. apply in_map. exact He.
Qed.

Lemma keysOfMap_evict c now :
  keysOfMap c -> keysOfMap (evictLeastRecentlyUsed c now).
Proof.
  intros H. unfold evictLeastRecentlyUsed. destruct c as [|kv c']; [exact H|].
  destruct (fst _) as [k|]; [|exact H].
  destruct (String.eqb k ""); [exact H | apply keysOfMap_delete, H].
Qed.

(** Every state the calls lead to holds the keys of a map. *)
Lemma cacheStep_keys s call : keysOfMap (cache s) -> keysOfMap (cache (cacheStep s call)).
Proof.
  intros H. destruct call as [k now accessedAt|k sg ttl now evictNow|k| | |now];
    cbn [cacheStep].
  - unfold get. destruct (blankKey k) eqn:B; [exact H|].
    destruct (mapGet k (cache s)) as [entry|]; [|exact H].
    destruct (_ <? _)%Z; cbn [snd cache];
      [apply keysOfMap_delete, H
      | apply keysOfMap_set; [apply blankKey_named, B | exact H]].
  - rewrite set_awaited. destruct (blankKey k) eqn:B; [exact H|].
    destruct sg as [|x l]; [exact H|]. cbn [snd updateStats cache].
    apply keysOfMap_set; [apply blankKey_named, B|].
    destruct (_ && _); [apply keysOfMap_evict, H | exact H].
  - unfold invalidate. destruct (blankKey k); [exact H|].
    destruct (mapHas k (cache s)); [|exact H].
    cbn [updateStats cache]. apply keysOfMap_delete, H.
  - split; constructor.
  - exact H.
  - unfold cleanupExpiredEntries. cbn zeta.
    destruct (Nat.ltb 0 _); cbn [updateStats cache];
      apply keysOfMap_filter, H.
Qed.

Lemma cacheRun_keys calls :
  forall s, keysOfMap (cache s) ->
            keysOfMap (cache (List.fold_left cacheStep calls s)).
Proof.
  induction calls as [|call calls IH]; intros s H; cbn [fold_left];
    [exact H|].
  apply IH, cacheStep_keys, H.
Qed.

Lemma cacheStep_max s call : maxCacheSize (cacheStep s call) = maxCacheSize s.
Proof.
  destruct call as [k now accessedAt|k sg ttl now evictNow|k| | |now];
    cbn [cacheStep].
  - unfold get. destruct (blankKey k); [reflexivity|].
    destruct (mapGet k (cache s)); [|reflexivity].
    destruct (_ <? _)%Z; reflexivity.
  - rewrite set_awaited. destruct (blankKey k); [reflexivity|].
    destruct sg; reflexivity.
  - unfold invalidate. destruct (blankKey k); [reflexivity|].
    destruct (mapHas k (cache s)); reflexivity.
  - reflexivity.
  - reflexivity.
  - unfold cleanupExpiredEntries. cbn zeta. destruct (Nat.ltb 0 _); reflexivity.
Qed.

Lemma cacheStep_size s call :
  (1 <= maxCacheSize s)%Z -> keysOfMap (cache s) ->
  match call with
  | CallSet _ _ _ _ evictNow => accessedBefore evictNow (cache s)
  | _ => True
  end ->
  (Z.of_nat (List.length (cache s)) <= maxCacheSize s)%Z ->
  (Z.of_nat (List.length (cache (cacheStep s call))) <= maxCacheSize s)%Z.
Proof.
  intros Hmax Hkeys Hclock Hsize.
  destruct call as [k now accessedAt|k sg ttl now evictNow|k| | |now];
    cbn [cacheStep].
  - unfold get. destruct (blankKey k); [exact Hsize|].
    destruct (mapGet k (cache s)) as [entry|] eqn:G; [|exact Hsize].
    destruct (_ <? _)%Z; cbn [snd cache].
    + pose proof (filter_length_le
                    (fun kv => negb (String.eqb (fst kv) k)) (cache s)).
      unfold mapDelete. lia.
    + rewrite length_mapSet. unfold mapHas. rewrite G. exact Hsize.
  - rewrite set_awaited. destruct (blankKey k); [exact Hsize|].
    destruct sg as [|x l]; [exact Hsize|]. cbn [snd updateStats cache].
    rewrite length_mapSet.
    destruct (Z.leb_spec (maxCacheSize s) (Z.of_nat (List.length (cache s))))
      as [Hfull|Hroom]; cbn [andb].
    + destruct (mapHas k (cache s)) eqn:Hh; cbn [negb].
      * rewrite Hh. exact Hsize.
      * assert (Hne : cache s <> []).
        { intros E. rewrite E in Hfull. simpl in Hfull. lia. }
        pose proof (evict_shrinks (cache s) evictNow Hne Hkeys Hclock).
        destruct (mapHas k (evictLeastRecentlyUsed (cache s) evictNow)); lia.
    + destruct (mapHas k (cache s)); lia.
  - unfold invalidate. destruct (blankKey k); [exact Hsize|].
    destruct (mapHas k (cache s)); [|exact Hsize].
    cbn [updateStats cache].
    pose proof (filter_length_le
                  (fun kv => negb (String.eqb (fst kv) k)) (cache s)).
    unfold mapDelete. lia.
  - simpl. lia.
  - exact Hsize.
  - unfold cleanupExpiredEntries. cbn zeta.
    pose proof (filter_length_le
                  (fun kv => negb (expiresAt (snd kv) <? now)%Z) (cache s)).
    destruct (Nat.ltb 0 _); cbn [updateStats cache]; lia.
Qed.

Lemma run_size calls :
  forall s,
    (1 <= maxCacheSize s)%Z -> keysOfMap (cache s) -> clockAhead s calls ->
    (Z.of_nat (List.length (cache s)) <= maxCacheSize s)%Z ->
    (Z.of_nat (List.length (cache (List.fold_left cacheStep calls s)))
     <= maxCacheSize s)%Z.
Proof.
  induction calls as [|call calls IH]; intros s Hmax Hkeys Hclock Hsize;
    cbn [fold_left]; [exact Hsize|].
  destruct Hclock as [Hnow Hmore].
  rewrite <- (cacheStep_max s call).
  apply IH; try rewrite cacheStep_max; trivial.
  - apply cacheStep_keys, Hkeys.
  - apply cacheStep_size; trivial.
Qed.

(** X27.  A service constructed with room for one entry at least never
    holds more than [maxCacheSize] entries, whatever calls are made, as
    long as each call is awaited before the next is made and the clock of
    every [set] reads later than the last access of the entries stored
    when it is called. *)
Theorem cache_never_exceeds_its_size :
  forall (defaultTtlSeconds_ maxCacheSize_ : option Z)
         (calls : list CacheCall),
    (1 <= maxCacheSize (create defaultTtlSeconds_ maxCacheSize_))%Z ->
    clockAhead (create defaultTtlSeconds_ maxCacheSize_) calls ->
    (Z.of_nat
       (List.length (cache (cacheRun defaultTtlSeconds_ maxCacheSize_ calls)))
     <= maxCacheSize (create defaultTtlSeconds_ maxCacheSize_))%Z.
Proof.
  intros ttl max calls Hmax Hclock. unfold cacheRun.
  apply run_size; trivial.
  - split; constructor.
  - unfold create in *. cbn [cache maxCacheSize List.length] in *. lia.
Qed.

Lemma cache_never_exceeds_its_size_witness :
  (Z.of_nat
     (List.length
        (cache (cacheRun None (Some 1%Z)
                  [CallSet "a" ["x"] None 10 10; CallGet "a" 20 20;
                   CallSet "b" ["y"] None 30 30])))
   <= maxCacheSize (create None (Some 1%Z)))%Z.
Proof.
  apply (cache_never_exceeds_its_size None (Some 1%Z)
           [CallSet "a" ["x"] None 10 10; CallGet "a" 20 20;
            CallSet "b" ["y"] None 30 30]).
  - simpl. lia.
  - simpl. repeat split; repeat constructor.
Defined.

(** When the clock has not advanced since the entries were accessed, the
    eviction finds none of them older than now and the cache outgrows its
    size. *)
Example same_millisecond_outgrows :
  List.length
    (cache (cacheRun None (Some 1%Z)
              [CallSet "a" ["x"] None 10 10; CallSet "b" ["y"] None 10 10]))
  = 2.
Proof. reflexivity. Qed.

(** A [set] that is not awaited waits between its eviction and its
    insertion: a second [set] made meanwhile finds room and stores its
    entry, and the first one stores its own afterwards, one entry more
    than the cache has room for. *)
Example unawaited_sets_outgrow :
  exists full waiting entry stored,
    full = cacheRun None (Some 1%Z) [CallSet "a" ["x"] None 10 10]
    /\ setStart full "b" ["y"] None 20 20 = Evicted waiting entry
    /\ setStart waiting "c" ["z"] None 20 20 = Returned (Ok tt) stored
    /\ List.map fst (cache (snd (setResume stored entry))) = ["c"; "b"]
    /\ maxCacheSize (snd (setResume stored entry)) = 1%Z.
Proof. repeat eexists. Qed.

Lemma mapDelete_keeps k c kv :
  In kv c -> fst kv <> k -> In kv (mapDelete k c).
Proof.
  intros Hin Hne. unfold mapDelete. apply filter_In. split; [exact Hin|].
  apply negb_true_iff, String.eqb_neq. exact Hne.
Qed.

Lemma mapSet_keeps k e c kv :
  In kv c -> fst kv <> k -> In kv (mapSet k e c).
Proof.
  intros Hin Hne. induction c as [|[k' e'] c IH]; [destruct Hin|].
  cbn [mapSet]. destruct (String.eqb_spec k' k) as [->|Hk].
  - destruct Hin as [<-|Hin]; [contradiction | apply in_cons, Hin].
  - destruct Hin as [<-|Hin]; [apply in_eq | apply in_cons, IH, Hin].
Qed.

Lemma same_key_same_entry (c : list (string * CacheEntry)) kv e :
  NoDup (List.map fst c) -> In kv c -> In e c -> fst kv = fst e -> kv = e.
Proof.
  induction c as [|x c IH]; intros Hn Hkv He Heq; [destruct Hkv|].
  cbn [List.map] in Hn. inversion Hn as [|? ? Hnot Hrest].
  destruct Hkv as [<-|Hkv], He as [<-|He]; trivial.
  - exfalso. apply Hnot. rewrite Heq. apply in_map, He.
  - exfalso. apply Hnot. rewrite <- Heq. apply in_map, Hkv.
  - apply IH; trivial.
Qed.

(** The entry that goes in an eviction is the least recently used, and it
    is the only one to go. *)
Lemma evict_oldest c now kv :
  keysOfMap c -> In kv c -> ~ In kv (evictLeastRecentlyUsed c now) ->
  Forall (fun other => (lastAccessedAt (snd kv) <= lastAccessedAt (snd other))%Z)
    c
  /\ (lastAccessedAt (snd kv) < now)%Z
  /\ forall other, In other c -> other <> kv ->
                   In other (evictLeastRecentlyUsed c now).
Proof.
  intros [Hn _] Hin Hout. unfold evictLeastRecentlyUsed in *.
  destruct c as [|kv0 c']; [destruct Hin|]. set (c := kv0 :: c') in *.
  destruct (older_fold c (None, now)) as (Hle & Hall & Hwho).
  destruct (fst (fold_left older c (None, now))) as [oldestKey|] eqn:F;
    [|contradiction].
  destruct (String.eqb oldestKey ""); [contradiction|].
  destruct Hwho as [E|(e & He & Hf & Ht & Hlt)].
  { rewrite E in F. discriminate. }
  injection Hf as ->.
  destruct (string_dec (fst kv) (fst e)) as [Ek|Nk];
    [|exfalso; apply Hout, mapDelete_keeps; trivial].
  assert (kv = e) as -> by (eapply same_key_same_entry; eauto).
  rewrite Ht in Hall, Hlt. cbn [snd] in Hlt.
  split; [exact Hall|]. split; [exact Hlt|].
  intros other Ho Hne. apply mapDelete_keeps; [exact Ho|].
  intros Eq. apply Hne. eapply same_key_same_entry; eauto.
Qed.

(** X28.  What [set] evicts is the least recently used entry: when an
    entry stored under another key is gone after a [set], it was last
    accessed before the clock of the eviction and no later than any other
    entry, and every other entry under another key is still stored. *)
Theorem set_evicts_the_least_recently_used :
  forall (defaultTtlSeconds_ maxCacheSize_ : option Z)
         (calls : list CacheCall) (k : string) (suggestions_ : list string)
         (ttlSeconds_ : option Z) (now evictNow : Z)
         (kv : string * CacheEntry),
    In kv (cache (cacheRun defaultTtlSeconds_ maxCacheSize_ calls)) ->
    fst kv <> k ->
    ~ In kv (cache (snd (set (cacheRun defaultTtlSeconds_ maxCacheSize_ calls)
                           k suggestions_ ttlSeconds_ now evictNow))) ->
    Forall (fun other =>
              (lastAccessedAt (snd kv) <= lastAccessedAt (snd other))%Z)
      (cache (cacheRun defaultTtlSeconds_ maxCacheSize_ calls))
    /\ (lastAccessedAt (snd kv) < evictNow)%Z
    /\ forall other,
         In other (cache (cacheRun defaultTtlSeconds_ maxCacheSize_ calls)) ->
         fst other <> k -> other <> kv ->
         In other
           (cache (snd (set (cacheRun defaultTtlSeconds_ maxCacheSize_ calls)
                          k suggestions_ ttlSeconds_ now evictNow))).
Proof.
  intros ttl max calls k sg ttlS now evictNow kv.
  assert (Hkeys : keysOfMap (cache (cacheRun ttl max calls))).
  { unfold cacheRun. apply cacheRun_keys. split; constructor. }
  set (s := cacheRun ttl max calls) in *. intros Hin Hk Hout.
  rewrite set_awaited in *. destruct (blankKey k); [contradiction|].
  destruct sg as [|x l]; [contradiction|].
  cbn [snd updateStats cache] in *.
  destruct (_ && _).
  - assert (Hgone : ~ In kv (evictLeastRecentlyUsed (cache s) evictNow)).
    { intros H. apply Hout, mapSet_keeps; trivial. }
    destruct (evict_oldest (cache s) evictNow kv Hkeys Hin Hgone)
      as (Hall & Hlt & Hothers).
    split; [exact Hall|]. split; [exact Hlt|].
    intros other Ho Hok Hne. apply mapSet_keeps; [|exact Hok].
    apply Hothers; trivial.
  - exfalso. apply Hout, mapSet_keeps; trivial.
Qed.

Lemma set_evicts_the_least_recently_used_witness :
  Forall (fun other =>
            (lastAccessedAt
               (snd ("a", mkEntry "a" ["x"] 10 10 300010 300))
             <= lastAccessedAt (snd other))%Z)
    (cache (cacheRun None (Some 1%Z) [CallSet "a" ["x"] None 10 10]))
  /\ (lastAccessedAt (snd ("a", mkEntry "a" ["x"] 10 10 300010 300)) < 20)%Z
  /\ forall other,
       In other
         (cache (cacheRun None (Some 1%Z) [CallSet "a" ["x"] None 10 10])) ->
       fst other <> "b" ->
       other <> ("a", mkEntry "a" ["x"] 10 10 300010 300) ->
       In other
         (cache (snd (set (cacheRun None (Some 1%Z)
                             [CallSet "a" ["x"] None 10 10])
                        "b" ["y"] None 20 20))).
Proof.
  apply (set_evicts_the_least_recently_used None (Some 1%Z)
           [CallSet "a" ["x"] None 10 10] "b" ["y"] None 20 20
           ("a", mkEntry "a" ["x"] 10 10 300010 300)).
  - apply in_eq.
  - discriminate.
  - vm_compute. intros [H|[]]. discriminate H.
Defined.

(** *** Statistics *)

Lemma ratio_range (h m : nat) : (0 <= ratio h m <= 1)%Q.
Proof.
  unfold ratio. destruct (Nat.ltb_spec 0 (h + m)) as [H|H].
  - assert (Hpos : (0 < inject_Z (Z.of_nat (h + m)))%Q).
    { unfold Qlt, inject_Z. cbn [Qnum Qden]. lia. }
    split.
    + apply Qle_shift_div_l; [exact Hpos|].
      unfold Qle, Qmult, inject_Z. cbn [Qnum Qden]. lia.
    + apply Qle_shift_div_r; [exact Hpos|].
      unfold Qle, Qmult, inject_Z. cbn [Qnum Qden]. lia.
  - split; unfold Qle; simpl; lia.
Qed.

Lemma cacheStep_counts s call h m :
  hits (stats s) = h -> misses (stats s) = m ->
  hitRatio (stats s) = ratio h m ->
  exists h' m',
    hits (stats (cacheStep s call)) = h'
    /\ misses (stats (cacheStep s call)) = m'
    /\ hitRatio (stats (cacheStep s call)) = ratio h' m'
    /\ forall more,
         countGets s (call :: more) h m
         = countGets (cacheStep s call) more h' m'.
Proof.
  intros Hh Hm Hr.
  destruct call as [k now accessedAt|k sg ttl now evictNow|k| | |now];
    cbn [cacheStep countGets].
  - unfold get. destruct (blankKey k).
    { exists h, m. cbn [snd]. repeat split; trivial. }
    destruct (mapGet k (cache s)) as [entry|].
    + destruct (_ <? _)%Z; cbn [fst snd stats countMiss countHit updateHitRatio
                                hits misses hitRatio].
      * exists h, (S m). rewrite Hh, Hm. repeat split; trivial.
      * exists (S h), m. rewrite Hh, Hm. repeat split; trivial.
    + cbn [fst snd stats countMiss updateHitRatio hits misses hitRatio].
      exists h, (S m). rewrite Hh, Hm. repeat split; trivial.
  - exists h, m. rewrite set_awaited. destruct (blankKey k);
      [cbn [snd]; repeat split; trivial|].
    destruct sg; cbn [snd updateStats stats hits misses hitRatio];
      rewrite ?Hh, ?Hm; repeat split; trivial.
  - exists h, m. unfold invalidate. destruct (blankKey k);
      [repeat split; trivial|].
    destruct (mapHas k (cache s));
      cbn [updateStats stats hits misses hitRatio];
      rewrite ?Hh, ?Hm; repeat split; trivial.
  - exists 0, 0. repeat split; trivial.
  - exists h, m. cbn [getStats snd updateStats stats hits misses hitRatio].
    rewrite ?Hh, ?Hm. repeat split; trivial.
  - exists h, m. unfold cleanupExpiredEntries. cbn zeta.
    destruct (Nat.ltb 0 _); cbn [updateStats stats hits misses hitRatio];
      rewrite ?Hh, ?Hm; repeat split; trivial.
Qed.

Lemma run_counts calls :
  forall s h m,
    hits (stats s) = h -> misses (stats s) = m ->
    hitRatio (stats s) = ratio h m ->
    (hits (stats (List.fold_left cacheStep calls s)),
     misses (stats (List.fold_left cacheStep calls s)))
    = countGets s calls h m
    /\ hitRatio (stats (List.fold_left cacheStep calls s))
       = ratio (hits (stats (List.fold_left cacheStep calls s)))
           (misses (stats (List.fold_left cacheStep calls s))).
Proof.
  induction calls as [|call calls IH]; intros s h m Hh Hm Hr.
  - cbn [fold_left countGets]. rewrite Hh, Hm. split; trivial.
  - destruct (cacheStep_counts s call h m Hh Hm Hr)
      as (h' & m' & Hh' & Hm' & Hr' & Hc).
    cbn [fold_left]. rewrite Hc. apply IH; trivial.
Qed.

(** X29.  The statistics count the [get] calls since the service was
    constructed or last cleared: [hits] those with a key that is not blank
    that returned suggestions, [misses] those that returned null; a [get]
    with a blank key counts as neither.  The hit ratio is [hits] by the
    sum of the two, 0 while there is no such call, and lies between 0 and
    1; [getStats] reports the number of entries stored. *)
Theorem stats_count_the_gets :
  forall (defaultTtlSeconds_ maxCacheSize_ : option Z)
         (calls : list CacheCall),
    (hits (stats (cacheRun defaultTtlSeconds_ maxCacheSize_ calls)),
     misses (stats (cacheRun defaultTtlSeconds_ maxCacheSize_ calls)))
    = countGets (create defaultTtlSeconds_ maxCacheSize_) calls 0 0
    /\ hitRatio (stats (cacheRun defaultTtlSeconds_ maxCacheSize_ calls))
       = ratio (hits (stats (cacheRun defaultTtlSeconds_ maxCacheSize_ calls)))
           (misses (stats (cacheRun defaultTtlSeconds_ maxCacheSize_ calls)))
    /\ (0 <= hitRatio (stats (cacheRun defaultTtlSeconds_ maxCacheSize_ calls))
        <= 1)%Q
    /\ entries (fst (getStats (cacheRun defaultTtlSeconds_ maxCacheSize_ calls)))
       = List.length (cache (cacheRun defaultTtlSeconds_ maxCacheSize_ calls)).
Proof.
  intros ttl max calls. unfold cacheRun.
  destruct (run_counts calls (create ttl max) 0 0) as [Hc Hr]; trivial.
  split; [exact Hc|]. split; [exact Hr|]. split; [|reflexivity].
  rewrite Hr. apply ratio_range.
Qed.

End CacheProofs.
